(** * Sprite codec, library index, quadrant grid and dirty-rectangle renderer

    A shallow embedding of the StatsHoldr, ChangeLinr, StringFilr, PixelRendr,
    QuadsKeepr and PixelDrawr modules of GameStartr (src/GameStartr/AudioPlayr/AudioPlayr.js),
    followed by the properties proved about them.

    Conventions of the embedding.
    - JavaScript numbers that the code only ever uses as integers (indices,
      counts, pixel coordinates, colour channels) are [Z]; arithmetic on them is
      exact below 2^53, which is assumed throughout.  [x | 0] is written out as
      [toInt32].
    - JavaScript strings are [string] (one [ascii] per UTF-16 code unit, so the
      model covers strings of code units below 256).
    - A JavaScript object used as a dictionary is a [gmap string _]; an object
      whose shape matters (library trees, sprites) is a [value].
    - Calls that can throw, loop forever, or leave the modelled fragment return
      an [outcome]. *)

From Stdlib Require Import ZArith String Ascii List DecimalString Decimal Lia.
From Stdlib Require Import Permutation DecimalPos DecimalZ.
From stdpp Require Import gmap strings list.

Open Scope string_scope.
Open Scope list_scope.
Open Scope Z_scope.

(* ===================================================================== *)
(** * Part I: the embedding                                               *)
(* ===================================================================== *)

(** ** JavaScript prelude *)
Module JS.

(** What a modelled call does: it returns, throws, runs out of the fuel that
    bounds its [while] loops, or meets a value outside the modelled fragment
    (for instance [Number] applied to text that is not a plain decimal
    numeral). *)
Inductive outcome (A : Type) : Type :=
| Ok (a : A)
| Throw (e : string)
| OutOfFuel
| Unmodelled.
Arguments Ok {A} a.
Arguments Throw {A} e.
Arguments OutOfFuel {A}.
Arguments Unmodelled {A}.

#[global] Instance outcome_ret : MRet outcome := fun A a => Ok a.
#[global] Instance outcome_bind : MBind outcome := fun A B k m =>
  match m with
  | Ok a => k a
  | Throw e => Throw e
  | OutOfFuel => OutOfFuel
  | Unmodelled => Unmodelled
  end.

Definition TypeError : string := "TypeError".

(** [x | 0]: ToInt32 on an integer, i.e. reduction modulo 2^32 into
    [-2^31, 2^31). *)
Definition toInt32 (z : Z) : Z := (z + 2 ^ 31) mod 2 ^ 32 - 2 ^ 31.

(** Code units of a string, and back. *)
Definition chars (s : string) : list ascii := list_ascii_of_string s.
Definition of_chars (l : list ascii) : string := string_of_list_ascii l.

Definition strlen (s : string) : Z := Z.of_nat (length (chars s)).

(** Clamping of a relative index as [String.prototype.slice] does it. *)
Definition clampIndex (len i : Z) : Z :=
  if i <? 0 then Z.max (len + i) 0 else Z.min i len.

(** [s.slice(a, b)]. *)
Definition slice (s : string) (a b : Z) : string :=
  let len := strlen s in
  let a' := clampIndex len a in
  let b' := clampIndex len b in
  of_chars (take (Z.to_nat (b' - a')) (drop (Z.to_nat a') (chars s))).

(** [s[i]] for an integer [i]: [None] is [undefined]. *)
Definition charAt (s : string) (i : Z) : option ascii :=
  if i <? 0 then None else chars s !! Z.to_nat i.

(** Position of the first [c] in a list of code units. *)
Fixpoint find_char (c : ascii) (l : list ascii) : option nat :=
  match l with
  | [] => None
  | x :: l' => if Ascii.eqb x c then Some O else S <$> find_char c l'
  end.

(** [s.indexOf(c, from)] for a one-character [c]. *)
Definition indexOf (s : string) (c : ascii) (from : Z) : Z :=
  let from' := Z.to_nat (Z.max from 0) in
  match find_char c (drop from' (chars s)) with
  | Some k => Z.of_nat (from' + k)
  | None => -1
  end.

(** [new Array(n + 1).join(s)]: [s] written [n] times. *)
Fixpoint repeat_string (s : string) (n : nat) : string :=
  match n with
  | O => ""
  | S n' => s +:+ repeat_string s n'
  end.

(** [String(z)] for an integer [z]. *)
Definition string_of_Z (z : Z) : string := NilZero.string_of_int (Z.to_int z).

Definition is_digit (c : ascii) : bool :=
  let n := nat_of_ascii c in (48 <=? n)%nat && (n <=? 57)%nat.

(** [Number(s)] on the fragment the sprite format uses: the empty string is 0
    and a run of decimal digits is its value.  Other text (signs, fractions,
    exponents, blanks, [NaN]) is outside the modelled fragment. *)
Definition Number (s : string) : option Z :=
  match s with
  | "" => Some 0
  | _ => if forallb is_digit (chars s)
         then Z.of_uint <$> NilZero.uint_of_string s
         else None
  end.

(** [array.join(",")]. *)
Fixpoint join (sep : string) (l : list string) : string :=
  match l with
  | [] => ""
  | [s] => s
  | s :: l' => s +:+ sep +:+ join sep l'
  end.

(** [s.split(",")] for a one-character separator. *)
Fixpoint split_chars (c : ascii) (cur : list ascii) (l : list ascii) : list string :=
  match l with
  | [] => [of_chars (rev cur)]
  | x :: l' =>
      if Ascii.eqb x c then of_chars (rev cur) :: split_chars c [] l'
      else split_chars c (x :: cur) l'
  end.

Definition split (s : string) (c : ascii) : list string :=
  split_chars c [] (chars s).

(** The class [\s] restricted to code units below 128. *)
Definition is_space (c : ascii) : bool :=
  let n := nat_of_ascii c in
  (n =? 32)%nat || ((9 <=? n)%nat && (n <=? 13)%nat).

(** [s.split(/\s+/g)]: the pieces between maximal runs of blanks; a leading
    or trailing run leaves an empty piece at that end. *)
Fixpoint split_ws_chars (cur : list ascii) (in_run : bool) (l : list ascii) : list string :=
  match l with
  | [] => [of_chars (rev cur)]
  | x :: l' =>
      if is_space x then
        if in_run then split_ws_chars cur true l'
        else of_chars (rev cur) :: split_ws_chars [] true l'
      else split_ws_chars (x :: cur) false l'
  end.

Definition split_ws (s : string) : list string :=
  split_ws_chars [] false (chars s).

(** Does [p] start [l]? *)
Fixpoint is_prefix (p l : list ascii) : bool :=
  match p, l with
  | [], _ => true
  | _ :: _, [] => false
  | a :: p', b :: l' => Ascii.eqb a b && is_prefix p' l'
  end.

(** [s.replace(pat, "")] for a string pattern: the first occurrence of [pat]
    is removed, the rest is kept as it is. *)
Fixpoint remove_first_chars (p l : list ascii) : list ascii :=
  if is_prefix p l then drop (length p) l
  else match l with
       | [] => []
       | x :: l' => x :: remove_first_chars p l'
       end.

Definition replace_first (s pat : string) : string :=
  of_chars (remove_first_chars (chars pat) (chars s)).

(** Does [pat] occur in [l]? ([s.indexOf(pat) !== -1].) *)
Fixpoint occurs_chars (p l : list ascii) : bool :=
  is_prefix p l ||
  match l with
  | [] => false
  | _ :: l' => occurs_chars p l'
  end.

Definition includes (s pat : string) : bool := occurs_chars (chars pat) (chars s).

(** [array[i] = v] on a JavaScript array: an index past the end extends the
    array, leaving holes ([None]) between. *)
Definition array_set {A} (l : list (option A)) (i : nat) (v : A) : list (option A) :=
  if (i <? length l)%nat then <[i := Some v]> l
  else l ++ replicate (i - length l) None ++ [Some v].

End JS.

(** ** StringFilr: lookup in a library tree by class names *)
Module StringFilr.
Import JS.

(** The values a library holds.  A library is a tree of plain objects
    ([VObj], properties in creation order); its leaves are whatever was filed
    there.  PixelRendr files [Uint8ClampedArray] sprites ([VSprite]) and
    SpriteMultiple records (a [VObj] with the fields [evaluatePostMultiple]
    gives it), and an unknown post command leaves [undefined]. *)
Inductive value : Type :=
| VUndefined
| VBool (b : bool)
| VNum (n : Z)
| VStr (s : string)
| VSprite (data : list Z)
| VObj (props : list (string * value)).

(** [obj[key]] on the property list of a plain object. *)
Fixpoint assoc (key : string) (props : list (string * value)) : option value :=
  match props with
  | [] => None
  | (k, v) :: props' => if String.eqb k key then Some v else assoc key props'
  end.

(** Keys that name an index (or the length) of a string or typed array. *)
Definition index_like (key : string) : bool :=
  String.eqb key "length" || (negb (String.eqb key "") && forallb is_digit (chars key)).

(** [current.hasOwnProperty(key)].  [undefined] has no methods, so the call
    throws.  Numbers and booleans own nothing.  Strings and typed arrays own
    their indices: a query for one of those is left outside the model, any
    other key is not theirs. *)
Definition hasOwnProperty (current : value) (key : string) : outcome bool :=
  match current with
  | VUndefined => Throw TypeError
  | VBool _ | VNum _ => Ok false
  | VStr _ | VSprite _ => if index_like key then Unmodelled else Ok false
  | VObj props => Ok (bool_decide (is_Some (assoc key props)))
  end.

(** [if (x)]: JavaScript truthiness. *)
Definition truthy (v : value) : bool :=
  match v with
  | VUndefined => false
  | VBool b => b
  | VNum n => negb (n =? 0)
  | VStr s => negb (String.eqb s "")
  | VSprite _ | VObj _ => true
  end.

(** [this.normal] is a string or [undefined]; [if (this.normal)] asks for a
    non-empty string. *)
Definition normal_set (normal : option string) : option string :=
  match normal with
  | Some n => if String.eqb n "" then None else Some n
  | None => None
  end.

(** The scan [for (i = 0; i < keys.length; i += 1)] of [followClass] over the
    properties of a plain object: the first key, in the order of [keys], that
    the object owns, with its position and what the object holds for it. *)
Fixpoint first_owned {B} (kids : list (string * B)) (i : nat) (keys : list string)
  : option (nat * B) :=
  match keys with
  | [] => None
  | key :: keys' =>
      match list_find (fun kv => kv.1 = key) kids with
      | Some (_, kv) => Some (i, kv.2)
      | None => first_owned kids (S i) keys'
      end
  end.

(** The same scan over a value that is no plain object: it finds nothing,
    throws on [undefined], and leaves the model at an index of a string or
    typed array. *)
Fixpoint scan_leaf (current : value) (keys : list string) : outcome unit :=
  match keys with
  | [] => Ok ()
  | key :: keys' =>
      b ← hasOwnProperty current key;
      if (b : bool) then Unmodelled else scan_leaf current keys'
  end.

(** [StringFilr.prototype.followClass(keys, current)]; [keys.splice(i, 1)] is
    [delete i keys].  The recursion is on the library tree: every call
    descends into a property of [current]. *)
Fixpoint followClass (normal : option string) (current : value) (keys : list string)
  {struct current} : outcome value :=
  match keys with
  | [] => Ok current
  | _ :: _ =>
      match current with
      | VObj props =>
          let kids := map (fun kv => (kv.1, followClass normal kv.2)) props in
          match first_owned kids O keys with
          | Some (i, descend) => descend (delete i keys)
          | None =>
              match normal_set normal with
              | Some n =>
                  match list_find (fun kv => kv.1 = n) kids with
                  | Some (_, kv) => kv.2 keys
                  | None => Ok current
                  end
              | None => Ok current
              end
          end
      | _ =>
          _ ← scan_leaf current keys;
          match normal_set normal with
          | Some n =>
              b ← hasOwnProperty current n;
              if (b : bool) then Unmodelled else Ok current
          | None => Ok current
          end
      end
  end.

(** The state of a StringFilr: the library, the optional normal class and
    the cache of earlier answers. *)
Record StringFilr : Type := {
  library : value;
  normal : option string;
  cache : gmap string value
}.

(** [new StringFilr({library, normal})] without [requireNormalKey]. *)
Definition new_StringFilr (lib : value) (nrm : option string) : StringFilr :=
  {| library := lib; normal := nrm; cache := ∅ |}.

(** The key [get] looks up: the raw key with the first occurrence of the
    normal class cut out. *)
Definition normalize (sf : StringFilr) (keyRaw : string) : string :=
  match normal_set (normal sf) with
  | Some n => replace_first keyRaw n
  | None => keyRaw
  end.

(** [StringFilr.prototype.get(keyRaw)]: the answer and the filer with its
    cache updated. *)
Definition get (sf : StringFilr) (keyRaw : string) : outcome (value * StringFilr) :=
  let key := normalize sf keyRaw in
  match cache sf !! key with
  | Some v => Ok (v, sf)
  | None =>
      result ← followClass (normal sf) (library sf) (split_ws key);
      Ok (result,
          {| library := library sf; normal := normal sf;
             cache := <[key := result]> (<[keyRaw := result]> (cache sf)) |})
  end.

(** [StringFilr.prototype.clearCached(key)]. *)
Definition clearCached (sf : StringFilr) (key : string) : StringFilr :=
  {| library := library sf; normal := normal sf;
     cache := delete (normalize sf key) (cache sf) |}.

End StringFilr.

(** ** PixelRendr: the sprite codec *)
Module PixelRendr.
Import JS.
Import StringFilr.

(** A palette filter, [["palette", {source: target, ...}]], and the
    attributes a caller passes with a sprite. *)
Record Attributes : Type := {
  filter : option (string * list (string * string));
  spriteWidth : Z;
  spriteHeight : Z
}.

(** The fields of a PixelRendr the codec reads, with the caches of its two
    ChangeLinr processors and the filer over the parsed library. *)
Record PixelRendr : Type := {
  paletteDefault : list (list Z);
  digitsizeDefault : Z;
  scale : Z;
  flipVert : string;
  flipHoriz : string;
  baseCache : gmap string (list Z);
  dimsCache : gmap string (list Z);
  BaseFiler : StringFilr
}.

(** [getDigitSize(palette)], [floor(log(length) / LN10) + 1], as a function
    of the length: the number of decimal digits of the length.  The source
    computes it in double precision, which gives the same for lengths from 1
    to 999 (at 1000 the quotient rounds below 3); for an empty palette the
    source yields [-Infinity], which is not modelled. *)
Definition getDigitSize (len : nat) : Z :=
  strlen (string_of_Z (Z.of_nat len)).

(** [stringOf(str, times)]. *)
Definition stringOf (str : string) (times : Z) : string :=
  if times =? 0 then "" else repeat_string str (Z.to_nat times).

(** [makeDigit(num, size, prefix)], with [num] already as the text
    [String(num)] gives. *)
Definition makeDigit (num : string) (size : Z) (prefix : string) : string :=
  stringOf prefix (Z.max 0 (size - strlen num)) +:+ num.

(** [String(x)] of what a palette reference holds: a missing entry prints as
    [undefined]. *)
Definition show (o : option string) : string := default "undefined" o.

(** [String(rgba)] of a palette colour, an array of numbers. *)
Definition show_color (rgba : list Z) : string := join "," (string_of_Z <$> rgba).

(** [getPaletteReference(palette)], the entries of [palette] given as text. *)
Definition getPaletteReference (palette : list string) : gmap string string :=
  let digitsize := getDigitSize (length palette) in
  foldl (fun output ip =>
           <[makeDigit (string_of_Z (Z.of_nat ip.1)) digitsize "0"
             := makeDigit ip.2 digitsize "0"]> output)
        ∅ (imap pair palette).

(** [getPaletteReferenceStarting(palette)]. *)
Definition getPaletteReferenceStarting (pr : PixelRendr) (palette : list (list Z))
  : gmap string string :=
  foldl (fun output i =>
           <[makeDigit (string_of_Z (Z.of_nat i)) (digitsizeDefault pr) "0"
             := makeDigit (string_of_Z (Z.of_nat i)) (digitsizeDefault pr) "0"]> output)
        ∅ (seq 0 (length palette)).

(** The loop of [spriteUnravel]; one unit of fuel per turn of the [while]. *)
Fixpoint spriteUnravel_loop (fuel : nat) (pr : PixelRendr) (colors : string)
  (paletteref : gmap string string) (digitsize : Z) (loc : Z) (output : string)
  : outcome string :=
  match fuel with
  | O => OutOfFuel
  | S fuel' =>
      if loc <? strlen colors then
        match charAt colors loc with
        | Some "x"%char =>
            let loc := loc + 1 in
            let nixloc := indexOf colors ","%char loc in
            let current :=
              makeDigit (show (paletteref !! slice colors loc (loc + digitsize)))
                        (digitsizeDefault pr) "0" in
            let loc := loc + digitsize in
            match Number (slice colors loc nixloc) with
            | Some rep =>
                spriteUnravel_loop fuel' pr colors paletteref digitsize (nixloc + 1)
                  (output +:+ repeat_string current (Z.to_nat rep))
            | None => Unmodelled
            end
        | Some "p"%char =>
            let loc := loc + 1 in
            match charAt colors loc with
            | Some "["%char =>
                let nixloc := indexOf colors "]"%char 0 in
                spriteUnravel_loop fuel' pr colors
                  (getPaletteReference (split (slice colors (loc + 1) nixloc) ","%char))
                  1 (nixloc + 1) output
            | _ =>
                spriteUnravel_loop fuel' pr colors
                  (getPaletteReference (show_color <$> paletteDefault pr))
                  (digitsizeDefault pr) loc output
            end
        | _ =>
            spriteUnravel_loop fuel' pr colors paletteref digitsize (loc + digitsize)
              (output +:+ makeDigit (show (paletteref !! slice colors loc (loc + digitsize)))
                                    (digitsizeDefault pr) "0")
        end
      else Ok output
  end.

(** [PixelRendr.prototype.spriteUnravel(colors)]. *)
Definition spriteUnravel (fuel : nat) (pr : PixelRendr) (colors : string) : outcome string :=
  spriteUnravel_loop fuel pr colors
    (getPaletteReferenceStarting pr (paletteDefault pr)) (digitsizeDefault pr) 0 "".

(** [colors.match(/.{1,size}/g)]: consecutive groups of [size] characters, the
    last one possibly shorter (line terminators, which [.] skips, do not occur
    in unravelled sprites). *)
Fixpoint digit_groups_chars (fuel size : nat) (l : list ascii) : list string :=
  match fuel with
  | O => []
  | S fuel' =>
      match l with
      | [] => []
      | _ :: _ => of_chars (take size l) :: digit_groups_chars fuel' size (drop size l)
      end
  end.

Definition digit_groups (size : Z) (colors : string) : list string :=
  digit_groups_chars (length (chars colors)) (Z.to_nat size) (chars colors).

(** [String.prototype.concat] over a list. *)
Definition concat_strings (l : list string) : string := foldr String.append "" l.

(** [PixelRendr.prototype.spriteExpand(colors)]: each group written [scale]
    times.  With a digit size below 1 the source's loop never advances. *)
Definition spriteExpand (pr : PixelRendr) (colors : string) : outcome string :=
  if String.eqb colors "" then Ok ""
  else if digitsizeDefault pr <? 1 then OutOfFuel
  else Ok (concat_strings
             ((fun current => repeat_string current (Z.to_nat (scale pr)))
                <$> digit_groups (digitsizeDefault pr) colors)).

(** [arrayReplace(array, removed, inserted)]. *)
Definition arrayReplace (array : list string) (removed inserted : string) : list string :=
  (fun x => if String.eqb x removed then inserted else x) <$> array.

(** [PixelRendr.prototype.spriteApplyFilter(colors, key, attributes)].  An
    unknown filter name only logs a warning.  [match] gives [null] on the
    empty string, whose [length] [arrayReplace] cannot read. *)
Definition spriteApplyFilter (pr : PixelRendr) (colors : string)
  (attributes : option Attributes) : outcome string :=
  match attributes with
  | None => Ok colors
  | Some a =>
      match filter a with
      | None => Ok colors
      | Some (filterName, mapping) =>
          if String.eqb filterName "" then Ok colors
          else if String.eqb filterName "palette" then
            match mapping, digit_groups (digitsizeDefault pr) colors with
            | _ :: _, [] => Throw TypeError
            | _, split =>
                Ok (concat_strings
                      (foldl (fun split im => arrayReplace split im.1 im.2) split mapping))
            end
          else Ok colors
      end
  end.

(** What a [Uint8ClampedArray] stores for an integer. *)
Definition clamp8 (z : Z) : Z := Z.max 0 (Z.min 255 z).

Fixpoint mapM {A B} (f : A → outcome B) (l : list A) : outcome (list B) :=
  match l with
  | [] => Ok []
  | a :: l' => b ← f a; bs ← mapM f l'; Ok (b :: bs)
  end.

(** [PixelRendr.prototype.spriteGetArray(colors)]: four bytes per group,
    read from the default palette; a missing channel is stored as 0, and a
    group that names no palette entry makes [reference[k]] throw. *)
Definition spriteGetArray (pr : PixelRendr) (colors : string) : outcome (list Z) :=
  let olength := Z.to_nat (strlen colors * 4 / digitsizeDefault pr) in
  quads ← mapM (fun group =>
                  match Number group with
                  | None => Unmodelled
                  | Some n =>
                      match paletteDefault pr !! Z.to_nat n with
                      | None => Throw TypeError
                      | Some reference =>
                          Ok ((fun k => clamp8 (default 0 (reference !! k))) <$> seq 0 4)
                      end
                  end)
               (digit_groups (digitsizeDefault pr) colors);
  Ok (take olength (concat quads)).

(** The pipeline of [ProcessorBase]: unravel, filter, expand, get array. *)
Definition ProcessorBase_run (fuel : nat) (pr : PixelRendr) (colors : string)
  (attributes : option Attributes) : outcome (list Z) :=
  s1 ← spriteUnravel fuel pr colors;
  s2 ← spriteApplyFilter pr s1 attributes;
  s3 ← spriteExpand pr s2;
  spriteGetArray pr s3.

(** [ChangeLinr.prototype.process] with [doUseCache] and [doMakeCache] on: a
    key already processed answers from the cache (the per-stage [cacheFull],
    which nothing reads back, is left out). *)
Definition process_cached {A} (cache : gmap string A) (key : string) (run : outcome A)
  : outcome (A * gmap string A) :=
  match cache !! key with
  | Some a => Ok (a, cache)
  | None => a ← run; Ok (a, <[key := a]> cache)
  end.

Definition with_caches (pr : PixelRendr) (bc dc : gmap string (list Z)) (bf : StringFilr)
  : PixelRendr :=
  {| paletteDefault := paletteDefault pr; digitsizeDefault := digitsizeDefault pr;
     scale := scale pr; flipVert := flipVert pr; flipHoriz := flipHoriz pr;
     baseCache := bc; dimsCache := dc; BaseFiler := bf |}.

(** [this.ProcessorBase.process(colors, key, attributes)]; without a key the
    data is its own key. *)
Definition ProcessorBase_process (fuel : nat) (pr : PixelRendr) (colors : string)
  (key : option string) (attributes : option Attributes) : outcome (list Z * PixelRendr) :=
  r ← process_cached (baseCache pr) (default colors key)
        (ProcessorBase_run fuel pr colors attributes);
  Ok (r.1, with_caches pr r.2 (dimsCache pr) (BaseFiler pr)).

(** Reads and writes of a typed array at an integer position: a read outside
    the array gives [undefined], stored as 0; a write outside is ignored. *)
Definition rd (a : list Z) (i : Z) : Z :=
  if i <? 0 then 0 else default 0 (a !! Z.to_nat i).

Definition wr (a : list Z) (i : Z) (v : Z) : list Z :=
  if i <? 0 then a else <[Z.to_nat i := clamp8 v]> a.

Definition zseq (n : Z) : list Z := Z.of_nat <$> seq 0 (Z.to_nat n).

(** [PixelRendr.prototype.memcpyU8(source, destination, readloc, writeloc,
    writelength)]; the destination after the copy. *)
Definition memcpyU8 (source destination : list Z) (readloc writeloc writelength : Z)
  : list Z :=
  if (readloc <? 0) || (writeloc <? 0) || (writelength <=? 0) then destination
  else if (Z.of_nat (length source) <=? readloc)
          || (Z.of_nat (length destination) <=? writeloc) then destination
  else foldl (fun dst k => wr dst (writeloc + k) (rd source (readloc + k)))
             destination (zseq writelength).

(** [PixelRendr.prototype.spriteRepeatRows(sprite, key, attributes)]. *)
Definition spriteRepeatRows (pr : PixelRendr) (sprite : list Z) (a : Attributes) : list Z :=
  let rowsize := spriteWidth a * 4 in
  let heightscale := spriteHeight a * scale pr in
  let parsed := replicate (Z.to_nat (Z.of_nat (length sprite) * scale pr)) 0 in
  (foldl (fun st (_ : Z) =>
            let '(parsed, readloc, writeloc) := st in
            let '(parsed, writeloc) :=
              foldl (fun pw (_ : Z) =>
                       (memcpyU8 sprite pw.1 readloc pw.2 rowsize, pw.2 + rowsize))
                    (parsed, writeloc) (zseq (scale pr)) in
            (parsed, readloc + rowsize, writeloc))
         (parsed, 0, 0) (zseq heightscale)).1.1.

(** Copy of the four bytes of one pixel. *)
Definition copy_pixel (sprite newsprite : list Z) (newloc oldloc : Z) : list Z :=
  foldl (fun dst k => wr dst (newloc + k) (rd sprite (oldloc + k))) newsprite (zseq 4).

(** How often a loop [for (i = 0; i < length; i += step)] runs, for a step
    above 0. *)
Definition strides (length step : Z) : Z := (length + step - 1) / step.

(** [flipSpriteArrayHoriz(sprite, attributes)]; a row size below 1 never
    leaves the outer loop of a non-empty sprite. *)
Definition flipSpriteArrayHoriz (sprite : list Z) (a : Attributes) : outcome (list Z) :=
  let length := Z.of_nat (length sprite) in
  let rowsize := spriteWidth a * 4 in
  if length <=? 0 then Ok sprite
  else if rowsize <? 1 then OutOfFuel
  else Ok (foldl (fun dst i =>
                    foldl (fun dst j =>
                             copy_pixel sprite dst (i * rowsize + j * 4)
                                        (i * rowsize + rowsize - 4 - j * 4))
                          dst (zseq (strides rowsize 4)))
                 (replicate (Z.to_nat length) 0) (zseq (strides length rowsize))).

(** [flipSpriteArrayVert(sprite, attributes)]. *)
Definition flipSpriteArrayVert (sprite : list Z) (a : Attributes) : outcome (list Z) :=
  let length := Z.of_nat (length sprite) in
  let rowsize := spriteWidth a * 4 in
  if length <=? 0 then Ok sprite
  else if rowsize <? 1 then OutOfFuel
  else Ok (foldl (fun dst r =>
                    foldl (fun dst i =>
                             copy_pixel sprite dst (r * rowsize + i * 4)
                                        (length - rowsize - r * rowsize + i * 4))
                          dst (zseq (strides rowsize 4)))
                 (replicate (Z.to_nat length) 0) (zseq (strides length rowsize))).

(** [flipSpriteArrayBoth(sprite)]. *)
Definition flipSpriteArrayBoth (sprite : list Z) : list Z :=
  let length := Z.of_nat (length sprite) in
  foldl (fun dst p => copy_pixel sprite dst (p * 4) (length - 4 - p * 4))
        (replicate (Z.to_nat length) 0) (zseq (strides length 4)).

(** [PixelRendr.prototype.spriteFlipDimensions(sprite, key, attributes)]. *)
Definition spriteFlipDimensions (pr : PixelRendr) (sprite : list Z) (key : string)
  (a : Attributes) : outcome (list Z) :=
  if includes key (flipHoriz pr) then
    if includes key (flipVert pr) then Ok (flipSpriteArrayBoth sprite)
    else flipSpriteArrayHoriz sprite a
  else if includes key (flipVert pr) then flipSpriteArrayVert sprite a
  else Ok sprite.

(** The pipeline of [ProcessorDims]; reading a width off missing attributes
    throws. *)
Definition ProcessorDims_run (pr : PixelRendr) (sprite : list Z) (key : string)
  (attributes : option Attributes) : outcome (list Z) :=
  match attributes with
  | None => Throw TypeError
  | Some a => spriteFlipDimensions pr (spriteRepeatRows pr sprite a) key a
  end.

(** [this.ProcessorDims.process(sprite, key, attributes)]. *)
Definition ProcessorDims_process (pr : PixelRendr) (sprite : list Z) (key : string)
  (attributes : option Attributes) : outcome (list Z * PixelRendr) :=
  r ← process_cached (dimsCache pr) key (ProcessorDims_run pr sprite key attributes);
  Ok (r.1, with_caches pr (baseCache pr) r.2 (BaseFiler pr)).

(** [sprite.name] on a value that is not [undefined]. *)
Definition get_prop (v : value) (name : string) : value :=
  match v with
  | VObj props => default VUndefined (assoc name props)
  | _ => VUndefined
  end.

(** [obj.name = v] on a property list. *)
Fixpoint set_assoc (name : string) (v : value) (props : list (string * value))
  : list (string * value) :=
  match props with
  | [] => [(name, v)]
  | (k, x) :: props' =>
      if String.eqb k name then (k, v) :: props' else (k, x) :: set_assoc name v props'
  end.

Definition set_prop (obj : value) (name : string) (v : value) : value :=
  match obj with
  | VObj props => VObj (set_assoc name v props)
  | _ => obj
  end.

(** The loop of [processSpriteMultiple] over the parts of a composite. *)
Fixpoint process_parts (pr : PixelRendr) (key : string) (attributes : option Attributes)
  (parts : list (string * value)) : outcome (list (string * value) * PixelRendr) :=
  match parts with
  | [] => Ok ([], pr)
  | (i, part) :: parts' =>
      match part with
      | VSprite data =>
          r ← ProcessorDims_process pr data (key +:+ " " +:+ i) attributes;
          rest ← process_parts r.2 key attributes parts';
          Ok ((i, VSprite r.1) :: rest.1, rest.2)
      | _ =>
          rest ← process_parts pr key attributes parts';
          Ok ((i, part) :: rest.1, rest.2)
      end
  end.

(** [PixelRendr.prototype.processSpriteMultiple(sprite, key, attributes)]:
    the sprite as the call leaves it.  (The source updates the record in
    place, inside the library; the model hands the updated record back and
    leaves the library's copy as it was.) *)
Definition processSpriteMultiple (pr : PixelRendr) (sprite : value) (key : string)
  (attributes : option Attributes) : outcome (value * PixelRendr) :=
  match get_prop sprite "sprites" with
  | VObj parts =>
      r ← process_parts pr key attributes parts;
      Ok (set_prop (set_prop sprite "sprites" (VObj r.1)) "processed" (VBool true), r.2)
  | _ => Ok (set_prop sprite "processed" (VBool true), pr)
  end.

(** [PixelRendr.prototype.decode(key, attributes)]. *)
Definition decode (pr : PixelRendr) (key : string) (attributes : option Attributes)
  : outcome (value * PixelRendr) :=
  g ← get (BaseFiler pr) key;
  let sprite := g.1 in
  let pr := with_caches pr (baseCache pr) (dimsCache pr) g.2 in
  if negb (truthy sprite) then Throw ("No raw sprite found for " +:+ key +:+ ".")
  else if truthy (get_prop sprite "multiple") then
    if negb (truthy (get_prop sprite "processed"))
    then processSpriteMultiple pr sprite key attributes
    else Ok (sprite, pr)
  else
    match sprite with
    | VSprite data =>
        r ← ProcessorDims_process pr data key attributes;
        Ok (VSprite r.1, r.2)
    | _ => Throw ("No single raw sprite found for: '" +:+ key +:+ "'")
    end.

(** [new PixelRendr({paletteDefault, scale, library})] with the default
    flip names.  [sprites] stands for [this.library.sprites], the library as
    [libraryParse] and [libraryPosts] leave it: every encoded string replaced
    by its decoded sprite and every ["multiple"] command by a SpriteMultiple
    record.  (Parsing the library is not modelled, and the base cache, which
    it fills, starts empty here.) *)
Definition new_PixelRendr (palette : list (list Z)) (sc : option Z) (sprites : value)
  : PixelRendr :=
  {| paletteDefault := palette;
     digitsizeDefault := getDigitSize (length palette);
     scale := match sc with
              | Some z => if z =? 0 then 1 else z
              | None => 1
              end;
     flipVert := "flip-vert";
     flipHoriz := "flip-horiz";
     baseCache := ∅;
     dimsCache := ∅;
     BaseFiler := new_StringFilr sprites (Some "normal") |}.

(** *** The encoder *)

(** [arrayDifference(a, b)]: a channel [b] lacks makes the difference [NaN],
    which [| 0] turns into 0. *)
Definition arrayDifference (a b : list Z) : Z :=
  foldr (fun i sum =>
           sum + match a !! i, b !! i with
                 | Some x, Some y => toInt32 (Z.abs (x - y))
                 | _, _ => 0
                 end)
        0 (seq 0 (length a)).

(** [getClosestInPalette(palette, rgba)]: the scan runs from the last index
    down and moves only on a strictly smaller difference; [None] is the
    [undefined] an empty palette leaves in [bestIndex]. *)
Definition getClosestInPalette (palette : list (list Z)) (rgba : list Z) : option nat :=
  (foldl (fun best i =>
            let difference := arrayDifference (default [] (palette !! i)) rgba in
            match best with
            | Some (bestDifference, _) =>
                if difference <? bestDifference then Some (difference, i) else best
            | None => Some (difference, i)
            end)
         None (rev (seq 0 (length palette)))) ≫= fun b => Some b.2.

(** The pixels of [data], four bytes each ([data.subarray(i, i + 4)]). *)
Fixpoint subarrays (fuel : nat) (data : list Z) : list (list Z) :=
  match fuel with
  | O => []
  | S fuel' =>
      match data with
      | [] => []
      | _ :: _ => take 4 data :: subarrays fuel' (drop 4 data)
      end
  end.

(** [imageGetPixels(data)]: the palette index of every pixel.  The
    occurrence counts are only read for their keys, which [imageMapPalette]
    lists below. *)
Definition imageGetPixels (pr : PixelRendr) (data : list Z) : list (option nat) :=
  getClosestInPalette (paletteDefault pr) <$> subarrays (length data) data.

(** [String(pixel)] for a palette index or [undefined]. *)
Definition show_pixel (pixel : option nat) : string :=
  match pixel with
  | Some i => string_of_Z (Z.of_nat i)
  | None => "undefined"
  end.

(** [Object.keys(occurences)]: the indices that occur, in ascending order
    (integer keys come first and in numeric order), then [undefined] if it
    was counted. *)
Definition occurence_keys (pr : PixelRendr) (pixels : list (option nat)) : list string :=
  (show_pixel ∘ Some <$>
     List.filter (fun i => bool_decide (Some i ∈ pixels)) (seq 0 (length (paletteDefault pr))))
  ++ (if bool_decide (None ∈ pixels) then ["undefined"] else []).

(** [getValueIndices(array)]. *)
Definition getValueIndices (array : list string) : gmap string nat :=
  foldl (fun output ia => <[ia.2 := ia.1]> output) ∅ (imap pair array).

(** [imageMapPalette([pixels, occurences])]: the working palette, the
    pixels as indices into it, and its digit size. *)
Definition imageMapPalette (pr : PixelRendr) (pixels : list (option nat))
  : list string * list (option nat) * Z :=
  let palette := occurence_keys pr pixels in
  let digitsize := getDigitSize (length palette) in
  let paletteIndices := getValueIndices palette in
  (palette, (fun pixel => paletteIndices !! show_pixel pixel) <$> pixels, digitsize).

(** [makeSizedDigit(size, num)] called with a given [this]: the body reads
    [this.makeDigit], which throws when [this] is [undefined] (and finds no
    function on the global object in non-strict code). *)
Definition makeSizedDigit (this : option PixelRendr) (size : Z) (num : string)
  : outcome string :=
  match this with
  | None => Throw TypeError
  | Some _ => Ok (makeDigit num size "0")
  end.

(** The length of the run of [current] that starts at position [j]. *)
Fixpoint run_length (current : option nat) (rest : list (option nat)) : nat :=
  match rest with
  | x :: rest' => if bool_decide (x = current) then S (run_length current rest') else O
  | [] => O
  end.

(** The [while (i < numbers.length)] loop of [imageCombinePixels]. *)
Fixpoint combine_loop (fuel : nat) (numbers : list (option nat)) (digitsize threshold : Z)
  (output : string) : string :=
  match fuel with
  | O => output
  | S fuel' =>
      match numbers with
      | [] => output
      | current :: rest =>
          let digit := makeDigit (show_pixel current) digitsize "0" in
          let n := S (run_length current rest) in
          let output :=
            if threshold <? Z.of_nat n
            then output +:+ "x" +:+ digit +:+ string_of_Z (Z.of_nat n) +:+ ","
            else output +:+ repeat_string digit n in
          combine_loop fuel' (drop n numbers) digitsize threshold output
      end
  end.

(** [imageCombinePixels([palette, numbers, digitsize])].  The palette header
    is built by [palette.map(this.makeSizedDigit.bind(undefined, digitsize))]:
    the callback runs with no [this]. *)
Definition imageCombinePixels (pr : PixelRendr)
  (information : list string * list (option nat) * Z) : outcome string :=
  let '(palette, numbers, digitsize) := information in
  let threshold := Z.max 3 ((8 + digitsize) / (2 * digitsize)) in
  header ← mapM (makeSizedDigit None digitsize) palette;
  Ok (combine_loop (length numbers) numbers digitsize threshold
        ("p[" +:+ join "," header +:+ "]")).

(** The pipeline of [ProcessorEncode] after [imageGetData], which reads the
    image's pixels off a canvas: [encode] of the image whose data is [data]. *)
Definition encode (pr : PixelRendr) (data : list Z) : outcome string :=
  imageCombinePixels pr (imageMapPalette pr (imageGetPixels pr data)).


End PixelRendr.

(** ** QuadsKeepr: the grid of quadrants *)
Module QuadsKeepr.
Import JS.

(** Quadrants and Things are objects shared between the grid's containers,
    each other and the renderer: both live in a store and are named by their
    position in it.  A JavaScript array that is written by index
    ([thing.quadrants], [quadrant.things[group]]) is a list with holes. *)
Record Quadrant : Type := {
  q_top : Z; q_right : Z; q_bottom : Z; q_left : Z;
  changed : bool;
  things : gmap string (list (option nat));
  numthings : gmap string Z
}.

(** A QuadrantRow or QuadrantCol: a corner and the quadrants it lists. *)
Record QuadrantRow : Type := {
  c_left : Z; c_top : Z;
  quadrants : list nat
}.

(** The fields of a Thing the grid reads and writes. *)
Record Thing : Type := {
  t_top : Z; t_right : Z; t_bottom : Z; t_left : Z;
  t_offsetX : Z; t_offsetY : Z;
  group : string;
  t_changed : bool;
  numquads : Z;
  t_quadrants : list (option nat)
}.

(** A call of [onAdd] or [onRemove]: direction, top, right, bottom, left. *)
Inductive Event : Type :=
| OnAdd (direction : string) (top right bottom left : Z)
| OnRemove (direction : string) (top right bottom left : Z).

(** What the constructor copies from its settings.  [keyOffsetX] and
    [keyOffsetY] say whether an offset key was configured (a configured key
    names a numeric field of every Thing); [onAdd] and [onRemove] say whether
    a callback was given. *)
Record Settings : Type := {
  quadrantWidth : Z;
  quadrantHeight : Z;
  groupNames : list string;
  startLeft : Z;
  startTop : Z;
  keyOffsetX : bool;
  keyOffsetY : bool;
  onAdd : bool;
  onRemove : bool
}.

(** The state of a QuadsKeepr, with the two stores and the callbacks made so
    far. *)
Record QuadsKeepr : Type := {
  settings : Settings;
  numRows : Z;
  numCols : Z;
  top : Z; right : Z; bottom : Z; left : Z;
  offsetX : Z; offsetY : Z;
  quadrantRows : list QuadrantRow;
  quadrantCols : list QuadrantRow;
  heap : list Quadrant;
  thingStore : list Thing;
  events : list Event
}.

(** [new QuadsKeepr(settings)]; the fields [resetQuadrants] first assigns
    are still [undefined] in the source and are given as 0 or empty here. *)
Definition new_QuadsKeepr (st : Settings) (rows cols : Z) (ts : list Thing) : QuadsKeepr :=
  {| settings := st; numRows := rows; numCols := cols;
     top := 0; right := 0; bottom := 0; left := 0; offsetX := 0; offsetY := 0;
     quadrantRows := []; quadrantCols := []; heap := []; thingStore := ts; events := [] |}.

(** *** Field updates *)
Definition set_counts (rows cols : Z) (s : QuadsKeepr) : QuadsKeepr :=
  {| settings := settings s; numRows := rows; numCols := cols;
     top := top s; right := right s; bottom := bottom s; left := left s;
     offsetX := offsetX s; offsetY := offsetY s;
     quadrantRows := quadrantRows s; quadrantCols := quadrantCols s;
     heap := heap s; thingStore := thingStore s; events := events s |}.

Definition set_bounds (t r b l : Z) (s : QuadsKeepr) : QuadsKeepr :=
  {| settings := settings s; numRows := numRows s; numCols := numCols s;
     top := t; right := r; bottom := b; left := l;
     offsetX := offsetX s; offsetY := offsetY s;
     quadrantRows := quadrantRows s; quadrantCols := quadrantCols s;
     heap := heap s; thingStore := thingStore s; events := events s |}.

Definition set_offsets (ox oy : Z) (s : QuadsKeepr) : QuadsKeepr :=
  {| settings := settings s; numRows := numRows s; numCols := numCols s;
     top := top s; right := right s; bottom := bottom s; left := left s;
     offsetX := ox; offsetY := oy;
     quadrantRows := quadrantRows s; quadrantCols := quadrantCols s;
     heap := heap s; thingStore := thingStore s; events := events s |}.

Definition set_containers (rows cols : list QuadrantRow) (s : QuadsKeepr) : QuadsKeepr :=
  {| settings := settings s; numRows := numRows s; numCols := numCols s;
     top := top s; right := right s; bottom := bottom s; left := left s;
     offsetX := offsetX s; offsetY := offsetY s;
     quadrantRows := rows; quadrantCols := cols;
     heap := heap s; thingStore := thingStore s; events := events s |}.

Definition set_heap (h : list Quadrant) (s : QuadsKeepr) : QuadsKeepr :=
  {| settings := settings s; numRows := numRows s; numCols := numCols s;
     top := top s; right := right s; bottom := bottom s; left := left s;
     offsetX := offsetX s; offsetY := offsetY s;
     quadrantRows := quadrantRows s; quadrantCols := quadrantCols s;
     heap := h; thingStore := thingStore s; events := events s |}.

Definition set_thingStore (ts : list Thing) (s : QuadsKeepr) : QuadsKeepr :=
  {| settings := settings s; numRows := numRows s; numCols := numCols s;
     top := top s; right := right s; bottom := bottom s; left := left s;
     offsetX := offsetX s; offsetY := offsetY s;
     quadrantRows := quadrantRows s; quadrantCols := quadrantCols s;
     heap := heap s; thingStore := ts; events := events s |}.

Definition add_event (e : Event) (s : QuadsKeepr) : QuadsKeepr :=
  {| settings := settings s; numRows := numRows s; numCols := numCols s;
     top := top s; right := right s; bottom := bottom s; left := left s;
     offsetX := offsetX s; offsetY := offsetY s;
     quadrantRows := quadrantRows s; quadrantCols := quadrantCols s;
     heap := heap s; thingStore := thingStore s; events := events s ++ [e] |}.

Definition set_quadrants (qs : list nat) (c : QuadrantRow) : QuadrantRow :=
  {| c_left := c_left c; c_top := c_top c; quadrants := qs |}.

Definition move_container (dx dy : Z) (c : QuadrantRow) : QuadrantRow :=
  {| c_left := c_left c + dx; c_top := c_top c + dy; quadrants := quadrants c |}.

(** *** Loops *)

(** [for (...) body] over the values in [l], threading the state. *)
Fixpoint foldM {A B} (body : B → A → outcome B) (l : list A) (b : B) : outcome B :=
  match l with
  | [] => Ok b
  | a :: l' => b' ← body b a; foldM body l' b'
  end.

(** [while (cond) body], one unit of fuel per test of the condition. *)
Fixpoint while {S} (fuel : nat) (cond : S → bool) (body : S → outcome S) (s : S)
  : outcome S :=
  match fuel with
  | O => OutOfFuel
  | S fuel' => if cond s then s' ← body s; while fuel' cond body s' else Ok s
  end.

(** The integers [0, 1, ..., n - 1] of [for (i = 0; i < n; i += 1)]. *)
Definition upto (n : Z) : list nat := seq 0 (Z.to_nat n).

(** The integers [a, a + 1, ..., b] of [for (i = a; i <= b; i += 1)]. *)
Definition zrange (a b : Z) : list Z := (fun k => a + Z.of_nat k) <$> seq 0 (Z.to_nat (b - a + 1)).

(** [array[i]] where a miss makes the next member access throw. *)
Definition fetch {A} (l : list A) (i : nat) : outcome A :=
  match l !! i with
  | Some a => Ok a
  | None => Throw TypeError
  end.

(** *** Quadrant placements *)

(** [createQuadrant(left, top)]: the new quadrant joins the store; its
    canvas is not modelled. *)
Definition createQuadrant (l t : Z) (s : QuadsKeepr) : nat * QuadsKeepr :=
  let st := settings s in
  let quadrant :=
    {| q_top := t; q_right := l + quadrantWidth st;
       q_bottom := t + quadrantHeight st; q_left := l;
       changed := true;
       things := list_to_map ((fun g => (g, [])) <$> groupNames st);
       numthings := list_to_map ((fun g => (g, 0)) <$> groupNames st) |} in
  (length (heap s), set_heap (heap s ++ [quadrant]) s).

(** [createQuadrantRow(left, top)]: [numCols] quadrants from left to right. *)
Definition createQuadrantRow (l t : Z) (s : QuadsKeepr) : QuadrantRow * QuadsKeepr :=
  let '(qs, s') :=
    foldl (fun acc i =>
             let '(id, s') :=
               createQuadrant (l + Z.of_nat i * quadrantWidth (settings s)) t acc.2 in
             (acc.1 ++ [id], s'))
          ([], s) (upto (numCols s)) in
  ({| c_left := l; c_top := t; quadrants := qs |}, s').

(** [createQuadrantCol(left, top)]: [numRows] quadrants from top to bottom. *)
Definition createQuadrantCol (l t : Z) (s : QuadsKeepr) : QuadrantRow * QuadsKeepr :=
  let '(qs, s') :=
    foldl (fun acc i =>
             let '(id, s') :=
               createQuadrant l (t + Z.of_nat i * quadrantHeight (settings s)) acc.2 in
             (acc.1 ++ [id], s'))
          ([], s) (upto (numRows s)) in
  ({| c_left := l; c_top := t; quadrants := qs |}, s').

(** [containers[i].quadrants.push(line.quadrants[i])] for every container.
    Pushing an [undefined] member of a shorter line is outside the model. *)
Definition push_each (line : QuadrantRow) (containers : list QuadrantRow)
  : outcome (list QuadrantRow) :=
  foldM (fun acc i =>
           c ← fetch containers i;
           match quadrants line !! i with
           | Some id => Ok (acc ++ [set_quadrants (quadrants c ++ [id]) c])
           | None => Unmodelled
           end)
        (seq 0 (length containers)) [].

(** [containers[i].quadrants.unshift(line.quadrants[i])] for every container. *)
Definition unshift_each (line : QuadrantRow) (containers : list QuadrantRow)
  : outcome (list QuadrantRow) :=
  foldM (fun acc i =>
           c ← fetch containers i;
           match quadrants line !! i with
           | Some id => Ok (acc ++ [set_quadrants (id :: quadrants c) c])
           | None => Unmodelled
           end)
        (seq 0 (length containers)) [].

(** [array.pop()] and [array.shift()], for what they leave. *)
Definition pop {A} (l : list A) : list A := take (length l - 1) l.
Definition shift {A} (l : list A) : list A := drop 1 l.

Definition notify (wanted : bool) (e : Event) (s : QuadsKeepr) : QuadsKeepr :=
  if wanted then add_event e s else s.

(** *** Quadrant updates *)

(** [QuadsKeepr.prototype.resetQuadrants()]. *)
Definition resetQuadrants (s : QuadsKeepr) : outcome QuadsKeepr :=
  let st := settings s in
  let s := set_bounds (startTop st) (startLeft st + quadrantWidth st * numCols s)
                      (startTop st + quadrantHeight st * numRows s) (startLeft st) s in
  let s := set_offsets 0 0 s in
  let rows :=
    (fun i => {| c_left := startLeft st;
                 c_top := startTop st + Z.of_nat i * quadrantHeight st;
                 quadrants := [] |}) <$> upto (numRows s) in
  let cols :=
    (fun j => {| c_left := startLeft st + Z.of_nat j * quadrantWidth st;
                 c_top := startTop st;
                 quadrants := [] |}) <$> upto (numCols s) in
  let s := set_containers rows cols s in
  s ← foldM (fun s i =>
               foldM (fun s j =>
                        let '(quadrant, s) :=
                          createQuadrant (startLeft st + Z.of_nat j * quadrantWidth st)
                                         (startTop st + Z.of_nat i * quadrantHeight st) s in
                        row ← fetch (quadrantRows s) i;
                        col ← fetch (quadrantCols s) j;
                        Ok (set_containers
                              (<[i := set_quadrants (quadrants row ++ [quadrant]) row]>
                                 (quadrantRows s))
                              (<[j := set_quadrants (quadrants col ++ [quadrant]) col]>
                                 (quadrantCols s))
                              s))
                     (upto (numCols s)) s)
            (upto (numRows s)) s;
  Ok (notify (onAdd st) (OnAdd "xInc" (top s) (right s) (bottom s) (left s)) s).

(** [QuadsKeepr.prototype.shiftQuadrant(quadrant, dx, dy)], on the store. *)
Definition shiftQuadrant (id : nat) (dx dy : Z) (h : list Quadrant) : outcome (list Quadrant) :=
  q ← fetch h id;
  Ok (<[id := {| q_top := q_top q + dy; q_right := q_right q + dx;
                 q_bottom := q_bottom q + dy; q_left := q_left q + dx;
                 changed := true;
                 things := things q; numthings := numthings q |}]> h).

(** [QuadsKeepr.prototype.pushQuadrantRow(callUpdate)]. *)
Definition pushQuadrantRow (callUpdate : bool) (s : QuadsKeepr) : outcome QuadsKeepr :=
  let h := quadrantHeight (settings s) in
  let '(row, s) := createQuadrantRow (left s) (bottom s) s in
  let s := set_counts (numRows s + 1) (numCols s) s in
  cols ← push_each row (quadrantCols s);
  let s := set_containers (quadrantRows s ++ [row]) cols s in
  let s := set_bounds (top s) (right s) (bottom s + h) (left s) s in
  Ok (notify (callUpdate && onAdd (settings s))
        (OnAdd "yInc" (bottom s) (right s) (bottom s - h) (left s)) s).

(** [QuadsKeepr.prototype.pushQuadrantCol(callUpdate)]. *)
Definition pushQuadrantCol (callUpdate : bool) (s : QuadsKeepr) : outcome QuadsKeepr :=
  let w := quadrantWidth (settings s) in
  let '(col, s) := createQuadrantCol (right s) (top s) s in
  let s := set_counts (numRows s) (numCols s + 1) s in
  rows ← push_each col (quadrantRows s);
  let s := set_containers rows (quadrantCols s ++ [col]) s in
  let s := set_bounds (top s) (right s + w) (bottom s) (left s) s in
  Ok (notify (callUpdate && onAdd (settings s))
        (OnAdd "xInc" (top s) (right s - offsetY s) (bottom s)
               (right s - w - offsetY s)) s).

(** [QuadsKeepr.prototype.popQuadrantRow(callUpdate)]. *)
Definition popQuadrantRow (callUpdate : bool) (s : QuadsKeepr) : outcome QuadsKeepr :=
  let h := quadrantHeight (settings s) in
  let cols := (fun c => set_quadrants (pop (quadrants c)) c) <$> quadrantCols s in
  let s := set_counts (numRows s - 1) (numCols s) s in
  let s := set_containers (pop (quadrantRows s)) cols s in
  let s := notify (callUpdate && onRemove (settings s))
             (OnRemove "yInc" (bottom s) (right s) (bottom s - h) (left s)) s in
  Ok (set_bounds (top s) (right s) (bottom s - h) (left s) s).

(** [QuadsKeepr.prototype.popQuadrantCol(callUpdate)]. *)
Definition popQuadrantCol (callUpdate : bool) (s : QuadsKeepr) : outcome QuadsKeepr :=
  let w := quadrantWidth (settings s) in
  let rows := (fun r => set_quadrants (pop (quadrants r)) r) <$> quadrantRows s in
  let s := set_counts (numRows s) (numCols s - 1) s in
  let s := set_containers rows (pop (quadrantCols s)) s in
  let s := notify (callUpdate && onRemove (settings s))
             (OnRemove "xDec" (top s) (right s - offsetY s) (bottom s)
                       (right s - w - offsetY s)) s in
  Ok (set_bounds (top s) (right s - w) (bottom s) (left s) s).

(** [QuadsKeepr.prototype.unshiftQuadrantRow(callUpdate)]. *)
Definition unshiftQuadrantRow (callUpdate : bool) (s : QuadsKeepr) : outcome QuadsKeepr :=
  let h := quadrantHeight (settings s) in
  let '(row, s) := createQuadrantRow (left s) (top s - h) s in
  let s := set_counts (numRows s + 1) (numCols s) s in
  cols ← unshift_each row (quadrantCols s);
  let s := set_containers (row :: quadrantRows s) cols s in
  let s := set_bounds (top s - h) (right s) (bottom s) (left s) s in
  Ok (notify (callUpdate && onAdd (settings s))
        (OnAdd "yInc" (top s) (right s) (top s + h) (left s)) s).

(** [QuadsKeepr.prototype.unshiftQuadrantCol(callUpdate)]. *)
Definition unshiftQuadrantCol (callUpdate : bool) (s : QuadsKeepr) : outcome QuadsKeepr :=
  let w := quadrantWidth (settings s) in
  let '(col, s) := createQuadrantCol (left s - w) (top s) s in
  let s := set_counts (numRows s) (numCols s + 1) s in
  rows ← unshift_each col (quadrantRows s);
  let s := set_containers rows (col :: quadrantCols s) s in
  let s := set_bounds (top s) (right s) (bottom s) (left s - w) s in
  Ok (notify (callUpdate && onAdd (settings s))
        (OnAdd "xInc" (top s) (left s) (bottom s) (left s + w)) s).

(** [QuadsKeepr.prototype.shiftQuadrantRow(callUpdate)]: every column loses
    its first quadrant, and [this.quadrantRows.pop()] drops the last row. *)
Definition shiftQuadrantRow (callUpdate : bool) (s : QuadsKeepr) : outcome QuadsKeepr :=
  let h := quadrantHeight (settings s) in
  let cols := (fun c => set_quadrants (shift (quadrants c)) c) <$> quadrantCols s in
  let s := set_counts (numRows s - 1) (numCols s) s in
  let s := set_containers (pop (quadrantRows s)) cols s in
  let s := notify (callUpdate && onRemove (settings s))
             (OnRemove "yInc" (top s) (right s) (top s + h) (left s)) s in
  Ok (set_bounds (top s + h) (right s) (bottom s) (left s) s).

(** [QuadsKeepr.prototype.shiftQuadrantCol(callUpdate)]: every row loses its
    first quadrant, and [this.quadrantCols.pop()] drops the last column. *)
Definition shiftQuadrantCol (callUpdate : bool) (s : QuadsKeepr) : outcome QuadsKeepr :=
  let w := quadrantWidth (settings s) in
  let rows := (fun r => set_quadrants (shift (quadrants r)) r) <$> quadrantRows s in
  let s := set_counts (numRows s) (numCols s - 1) s in
  let s := set_containers rows (pop (quadrantCols s)) s in
  let s := notify (callUpdate && onRemove (settings s))
             (OnRemove "xInc" (top s) (left s + w) (bottom s) (left s)) s in
  Ok (set_bounds (top s) (right s) (bottom s) (left s + w) s).

(** [QuadsKeepr.prototype.adjustOffsets()]: four [while] loops, each with
    the given fuel.  The third one calls [unshiftQuadrantRow] and
    [pushQuadrantRow]. *)
Definition adjustOffsets (fuel : nat) (s : QuadsKeepr) : outcome QuadsKeepr :=
  let w := quadrantWidth (settings s) in
  let h := quadrantHeight (settings s) in
  s ← while fuel (fun s => w <? - offsetX s)
        (fun s => s ← shiftQuadrantCol true s;
                  s ← pushQuadrantCol true s;
                  Ok (set_offsets (offsetX s + w) (offsetY s) s)) s;
  s ← while fuel (fun s => w <? offsetX s)
        (fun s => s ← popQuadrantCol true s;
                  s ← unshiftQuadrantCol true s;
                  Ok (set_offsets (offsetX s - w) (offsetY s) s)) s;
  s ← while fuel (fun s => h <? - offsetY s)
        (fun s => s ← unshiftQuadrantRow true s;
                  s ← pushQuadrantRow true s;
                  Ok (set_offsets (offsetX s) (offsetY s + h) s)) s;
  while fuel (fun s => h <? offsetY s)
    (fun s => s ← popQuadrantRow true s;
              s ← unshiftQuadrantRow true s;
              Ok (set_offsets (offsetX s) (offsetY s - h) s)) s.

(** [containers[i].left += dx; containers[i].top += dy] for [i] below [n]. *)
Definition move_containers (n dx dy : Z) (containers : list QuadrantRow)
  : outcome (list QuadrantRow) :=
  foldM (fun cs i => c ← fetch cs i; Ok (<[i := move_container dx dy c]> cs))
        (upto n) containers.

(** [QuadsKeepr.prototype.shiftQuadrants(dx, dy)] for integer arguments
    ([dx | 0] truncates a fraction first, which integers do not have). *)
Definition shiftQuadrants (fuel : nat) (dx dy : Z) (s : QuadsKeepr) : outcome QuadsKeepr :=
  let dx := toInt32 dx in
  let dy := toInt32 dy in
  let s := set_offsets (offsetX s + dx) (offsetY s + dy) s in
  let s := set_bounds (top s + dy) (right s + dx) (bottom s + dy) (left s + dx) s in
  rows ← move_containers (numRows s) dx dy (quadrantRows s);
  cols ← move_containers (numCols s) dx dy (quadrantCols s);
  let s := set_containers rows cols s in
  h ← foldM (fun h row =>
               foldM (fun h col =>
                        r ← fetch (quadrantRows s) row;
                        id ← fetch (quadrants r) col;
                        shiftQuadrant id dx dy h)
                     (upto (numCols s)) h)
            (upto (numRows s)) (heap s);
  adjustOffsets fuel (set_heap h s).

(** *** Thing manipulations *)

(** [getTop], [getRight], [getBottom], [getLeft]; [None] is [NaN].
    [getBottom] tests [keyOffsetX] and reads the field named by [keyOffsetY],
    which is [undefined] when only the former is configured. *)
Definition getTop (s : QuadsKeepr) (thing : Thing) : option Z :=
  if keyOffsetY (settings s) then Some (t_top thing - Z.abs (t_offsetY thing))
  else Some (t_top thing).

Definition getRight (s : QuadsKeepr) (thing : Thing) : option Z :=
  if keyOffsetX (settings s) then Some (t_right thing + Z.abs (t_offsetX thing))
  else Some (t_right thing).

Definition getBottom (s : QuadsKeepr) (thing : Thing) : option Z :=
  if keyOffsetX (settings s) then
    if keyOffsetY (settings s) then Some (t_bottom thing + Z.abs (t_offsetY thing))
    else None
  else Some (t_bottom thing).

Definition getLeft (s : QuadsKeepr) (thing : Thing) : option Z :=
  if keyOffsetX (settings s) then Some (t_left thing - Z.abs (t_offsetX thing))
  else Some (t_left thing).

(** [findQuadrantRowStart] and its three siblings; [Math.floor(a / b)] on
    integers with [b] not 0 is [a / b] on [Z], and [NaN] stays [NaN]. *)
Definition findQuadrantRowStart (s : QuadsKeepr) (thing : Thing) : option Z :=
  (fun y => Z.max ((y - top s) / quadrantHeight (settings s)) 0) <$> getTop s thing.

Definition findQuadrantRowEnd (s : QuadsKeepr) (thing : Thing) : option Z :=
  (fun y => Z.min ((y - top s) / quadrantHeight (settings s)) (numRows s - 1))
    <$> getBottom s thing.

Definition findQuadrantColStart (s : QuadsKeepr) (thing : Thing) : option Z :=
  (fun x => Z.max ((x - left s) / quadrantWidth (settings s)) 0) <$> getLeft s thing.

Definition findQuadrantColEnd (s : QuadsKeepr) (thing : Thing) : option Z :=
  (fun x => Z.min ((x - left s) / quadrantWidth (settings s)) (numCols s - 1))
    <$> getRight s thing.

(** The values of [for (i = a; i <= b; i += 1)] when a bound may be [NaN]:
    a comparison with [NaN] fails, so the loop does not run. *)
Definition loop_range (a b : option Z) : list Z :=
  match a, b with
  | Some a, Some b => zrange a b
  | _, _ => []
  end.

Definition set_changed (b : bool) (q : Quadrant) : Quadrant :=
  {| q_top := q_top q; q_right := q_right q; q_bottom := q_bottom q; q_left := q_left q;
     changed := b; things := things q; numthings := numthings q |}.

(** [markThingQuadrantsChanged(thing)]. *)
Definition markThingQuadrantsChanged (thing : Thing) (h : list Quadrant)
  : outcome (list Quadrant) :=
  foldM (fun h i =>
           match t_quadrants thing !! i with
           | Some (Some id) => q ← fetch h id; Ok (<[id := set_changed true q]> h)
           | _ => Throw TypeError
           end)
        (upto (numquads thing)) h.

Definition set_membership (thing : Thing) (n : Z) (qs : list (option nat)) (c : bool) : Thing :=
  {| t_top := t_top thing; t_right := t_right thing; t_bottom := t_bottom thing;
     t_left := t_left thing; t_offsetX := t_offsetX thing; t_offsetY := t_offsetY thing;
     group := group thing; t_changed := c; numquads := n; t_quadrants := qs |}.

(** [setThingInQuadrant(thing, quadrant, group)]: [tid] names the Thing,
    [id] the quadrant ([None] when the grid had none at that place); the
    Thing and the store as the call leaves them.  A quadrant without a list
    for the group makes the write throw; a list without a count (which
    [createQuadrant] never leaves) is outside the model. *)
Definition setThingInQuadrant (tid : nat) (thing : Thing) (id : option nat) (grp : string)
  (h : list Quadrant) : outcome (Thing * list Quadrant) :=
  match id with
  | None => Throw TypeError
  | Some id =>
      let thing' :=
        set_membership thing (numquads thing + 1)
          (array_set (t_quadrants thing) (Z.to_nat (numquads thing)) id)
          (t_changed thing) in
      q ← fetch h id;
      match things q !! grp with
      | None => Throw TypeError
      | Some members =>
          match numthings q !! grp with
          | None => Unmodelled
          | Some n =>
              let q' :=
                {| q_top := q_top q; q_right := q_right q; q_bottom := q_bottom q;
                   q_left := q_left q;
                   changed := if t_changed thing then true else changed q;
                   things := <[grp := array_set members (Z.to_nat n) tid]> (things q);
                   numthings := <[grp := n + 1]> (numthings q) |} in
              Ok (thing', <[id := q']> h)
          end
      end
  end.

(** [QuadsKeepr.prototype.determineThingQuadrants(thing)] for the Thing
    stored at [tid]. *)
Definition determineThingQuadrants (tid : nat) (s : QuadsKeepr) : outcome QuadsKeepr :=
  thing ← fetch (thingStore s) tid;
  let grp := group thing in
  let rowStart := findQuadrantRowStart s thing in
  let colStart := findQuadrantColStart s thing in
  let rowEnd := findQuadrantRowEnd s thing in
  let colEnd := findQuadrantColEnd s thing in
  h ← (if t_changed thing then markThingQuadrantsChanged thing (heap s) else Ok (heap s));
  let thing := set_membership thing 0 (t_quadrants thing) (t_changed thing) in
  r ← foldM (fun st row =>
               foldM (fun st col =>
                        r ← fetch (quadrantRows s) (Z.to_nat row);
                        setThingInQuadrant tid st.1 (quadrants r !! Z.to_nat col) grp st.2)
                     (loop_range colStart colEnd) st)
            (loop_range rowStart rowEnd) (thing, h);
  let thing := set_membership r.1 (numquads r.1) (t_quadrants r.1) false in
  Ok (set_thingStore (<[tid := thing]> (thingStore s)) (set_heap r.2 s)).

(** [QuadsKeepr.prototype.determineAllQuadrants(group, things)]. *)
Definition determineAllQuadrants (grp : string) (tids : list nat) (s : QuadsKeepr)
  : outcome QuadsKeepr :=
  h ← foldM (fun h row =>
               foldM (fun h col =>
                        r ← fetch (quadrantRows s) row;
                        id ← fetch (quadrants r) col;
                        q ← fetch h id;
                        Ok (<[id := {| q_top := q_top q; q_right := q_right q;
                                       q_bottom := q_bottom q; q_left := q_left q;
                                       changed := changed q; things := things q;
                                       numthings := <[grp := 0]> (numthings q) |}]> h))
                     (upto (numCols s)) h)
            (upto (numRows s)) (heap s);
  foldM (fun s tid => determineThingQuadrants tid s) tids (set_heap h s).

End QuadsKeepr.

(** ** PixelDrawr: refilling the canvas by quadrants *)
Module PixelDrawr.
Import JS.
Import QuadsKeepr.

Section Drawing.

(** What drawing one Thing onto a quadrant's canvas does is the work of
    [drawThingOnQuadrant] (bounds and opacity tests, then canvas calls); the
    refill loops below only pass Things to it.  It is a parameter here: the
    canvas calls it makes for a member of a group ([None] for a hole in the
    array), or the exception it raises. *)
Variable ThingDraw : Type.
Variable drawThingOnQuadrant : option nat → nat → Quadrant → outcome (list ThingDraw).

(** A call on a canvas context: onto the canvas of quadrant [id] (its
    background, or what drawing a Thing does), or
    [this.context.drawImage(quadrant.canvas, left, top)] onto the main
    canvas. *)
Inductive DrawCall : Type :=
| QuadrantBackground (id : nat) (left top : Z)
| QuadrantThing (id : nat) (call : ThingDraw)
| MainDrawImage (id : nat) (left top : Z).

(** The fields of a PixelDrawr the refill reads, and the canvas calls made
    so far. *)
Record PixelDrawr : Type := {
  framesDrawn : Z;
  framerateSkip : Z;
  noRefill : bool;
  groupNames : list string;
  screenWidth : Z;
  screenHeight : Z;
  calls : list DrawCall
}.

Definition add_calls (cs : list DrawCall) (pd : PixelDrawr) : PixelDrawr :=
  {| framesDrawn := framesDrawn pd; framerateSkip := framerateSkip pd;
     noRefill := noRefill pd; groupNames := groupNames pd;
     screenWidth := screenWidth pd; screenHeight := screenHeight pd;
     calls := calls pd ++ cs |}.

Definition count_frame (pd : PixelDrawr) : PixelDrawr :=
  {| framesDrawn := framesDrawn pd + 1; framerateSkip := framerateSkip pd;
     noRefill := noRefill pd; groupNames := groupNames pd;
     screenWidth := screenWidth pd; screenHeight := screenHeight pd;
     calls := calls pd |}.

(** [PixelDrawr.prototype.refillQuadrant(quadrant)]: the quadrant at [id] in
    the store [h]. *)
Definition refillQuadrant (id : nat) (st : PixelDrawr * list Quadrant)
  : outcome (PixelDrawr * list Quadrant) :=
  let '(pd, h) := st in
  quadrant ← fetch h id;
  let pd := if noRefill pd then pd
            else add_calls [QuadrantBackground id (q_left quadrant) (q_top quadrant)] pd in
  pd ← foldM (fun pd name =>
                match things quadrant !! name with
                | None => Throw TypeError
                | Some grp =>
                    foldM (fun pd member =>
                             cs ← drawThingOnQuadrant member id quadrant;
                             Ok (add_calls (QuadrantThing id <$> cs) pd))
                          grp pd
                end)
             (rev (groupNames pd)) pd;
  Ok (pd, <[id := set_changed false quadrant]> h).

(** The test of [refillQuadrants]: changed, and inside the screen. *)
Definition needs_refill (pd : PixelDrawr) (quadrant : Quadrant) : bool :=
  changed quadrant
  && (q_top quadrant <? screenHeight pd)
  && (0 <? q_right quadrant)
  && (0 <? q_bottom quadrant)
  && (q_left quadrant <? screenWidth pd).

(** [PixelDrawr.prototype.refillQuadrants(quadrants)]. *)
Definition refillQuadrants (ids : list nat) (st : PixelDrawr * list Quadrant)
  : outcome (PixelDrawr * list Quadrant) :=
  foldM (fun st id =>
           quadrant ← fetch st.2 id;
           if needs_refill st.1 quadrant then
             st ← refillQuadrant id st;
             Ok (add_calls [MainDrawImage id (q_left quadrant) (q_top quadrant)] st.1, st.2)
           else Ok st)
        ids st.

(** [PixelDrawr.prototype.refillQuadrantGroups(groups)]; [a % b !== 0] holds
    for [b] = 0, where the remainder is [NaN]. *)
Definition refillQuadrantGroups (groups : list QuadrantRow) (st : PixelDrawr * list Quadrant)
  : outcome (PixelDrawr * list Quadrant) :=
  let pd := count_frame st.1 in
  if (framerateSkip pd =? 0) || negb (Z.rem (framesDrawn pd) (framerateSkip pd) =? 0)
  then Ok (pd, st.2)
  else foldM (fun st g => refillQuadrants (quadrants g) st) groups (pd, st.2).

End Drawing.

Arguments QuadrantBackground {ThingDraw}.
Arguments QuadrantThing {ThingDraw}.
Arguments MainDrawImage {ThingDraw}.
Arguments framesDrawn {ThingDraw}.
Arguments framerateSkip {ThingDraw}.
Arguments noRefill {ThingDraw}.
Arguments groupNames {ThingDraw}.
Arguments screenWidth {ThingDraw}.
Arguments screenHeight {ThingDraw}.
Arguments calls {ThingDraw}.
Arguments needs_refill {ThingDraw}.
Arguments count_frame {ThingDraw}.
Arguments add_calls {ThingDraw}.
Arguments refillQuadrant {ThingDraw}.
Arguments refillQuadrants {ThingDraw}.
Arguments refillQuadrantGroups {ThingDraw}.

End PixelDrawr.

(** ** StringFilr: the check of the normal class *)
Module StringFilrChecks.
Import JS StringFilr.

(** [typeof v === "object"] for what a property lookup gave ([None] is
    [undefined]): plain objects and typed arrays. *)
Definition is_object (o : option value) : bool :=
  match o with
  | Some (VObj _) | Some (VSprite _) => true
  | _ => false
  end.

(** [for (i in current) if (current.hasOwnProperty(i)) ...] over a plain
    object visits its properties in the order they were created, unless a
    key is an array index, which would come first: that case is left outside
    the model. *)
Definition enumerable (props : list (string * value)) : bool :=
  negb (existsb (fun kv => index_like kv.1) props).

(** [StringFilr.prototype.findLackingNormal(current, path, output)].  The
    test [typeof current[i] === "object"] runs while [i] is still
    [undefined]: it reads the property named ["undefined"]. *)
Fixpoint findLackingNormal (normal : string) (current : value) (path : string)
  (output : list string) {struct current} : outcome (list string) :=
  b ← hasOwnProperty current normal;
  let output := if (b : bool) then output else output ++ [path] in
  match current with
  | VObj props =>
      if is_object (assoc "undefined" props) then
        if enumerable props then
          (fix go (props : list (string * value)) (output : list string)
             : outcome (list string) :=
             match props with
             | [] => Ok output
             | (i, child) :: props' =>
                 output ← findLackingNormal normal child (path +:+ " " +:+ i) output;
                 go props' output
             end) props output
        else Unmodelled
      else Ok output
  | _ => Ok output
  end.

(** The line break of the error message. *)
Definition crlf : string := String (ascii_of_nat 13) (String (ascii_of_nat 10) "").

(** [StringFilr.prototype.ensureLibraryNormal()]. *)
Definition ensureLibraryNormal (lib : value) (normal : string) : outcome unit :=
  caught ← findLackingNormal normal lib "base" [];
  match caught with
  | [] => Ok ()
  | _ :: _ =>
      Throw ("Found " +:+ string_of_Z (Z.of_nat (length caught)) +:+ " library "
             +:+ "sub-directories missing the normal: " +:+ crlf +:+ "  "
             +:+ join (crlf +:+ "  ") caught)
  end.

(** [new StringFilr({library, normal, requireNormalKey})]. *)
Definition new_StringFilr_checked (lib : value) (nrm : option string) (requireNormalKey : bool)
  : outcome StringFilr :=
  if negb (truthy lib) then Throw "No library given to StringFilr."
  else if requireNormalKey then
    match nrm with
    | None => Throw "StringFilr is given requireNormalKey, but no normal class."
    | Some n => _ ← ensureLibraryNormal lib n; Ok (new_StringFilr lib nrm)
    end
  else Ok (new_StringFilr lib nrm).

(** [StringFilr.prototype.clearCache()]. *)
Definition clearCache (sf : StringFilr) : StringFilr :=
  {| library := library sf; normal := normal sf; cache := ∅ |}.

End StringFilrChecks.

(** ** PixelRendr: a palette from image data *)
Module PaletteMakr.
Import JS PixelRendr QuadsKeepr.

(** The tree [generatePaletteFromRawData] keeps of the colours met:
    [tree[r][g][b][a] = true]. *)
Abbreviation Tree := (gmap Z (gmap Z (gmap Z (gmap Z bool)))).

(** [tree[r] && tree[r][g] && tree[r][g][b] && tree[r][g][b][a]]. *)
Definition tree_has (tree : Tree) (r g b a : Z) : bool :=
  match tree !! r with
  | None => false
  | Some t1 =>
      match t1 !! g with
      | None => false
      | Some t2 =>
          match t2 !! b with
          | None => false
          | Some t3 => default false (t3 !! a)
          end
      end
  end.

(** The state of the scan: the tree, [colorsGeneral], [colorsGrayscale] and
    [forceZeroColor]. *)
Record Scan : Type := {
  tree : Tree;
  colorsGeneral : list (list Z);
  colorsGrayscale : list (list Z);
  forceZeroColor : bool
}.

(** One turn of the loop over the pixels, on [data.subarray(i, i + 4)].  A
    last pixel of fewer than four members is outside the model. *)
Definition visit (st : Scan) (pixel : list Z) : outcome Scan :=
  match pixel with
  | [r; g; b; a] =>
      if a =? 0 then
        Ok {| tree := tree st; colorsGeneral := colorsGeneral st;
              colorsGrayscale := colorsGrayscale st; forceZeroColor := true |}
      else if tree_has (tree st) r g b a then Ok st
      else
        let t1 := default ∅ (tree st !! r) in
        let t2 := default ∅ (t1 !! g) in
        let t3 := default ∅ (t2 !! b) in
        if negb (default false (t3 !! a)) then
          let tree' := <[r := <[g := <[b := <[a := true]> t3]> t2]> t1]> (tree st) in
          if (r =? g) && (g =? b) then
            Ok {| tree := tree'; colorsGeneral := colorsGeneral st;
                  colorsGrayscale := colorsGrayscale st ++ [pixel];
                  forceZeroColor := forceZeroColor st |}
          else
            Ok {| tree := tree'; colorsGeneral := colorsGeneral st ++ [pixel];
                  colorsGrayscale := colorsGrayscale st;
                  forceZeroColor := forceZeroColor st |}
        else
          Ok {| tree := <[r := <[g := <[b := t3]> t2]> t1]> (tree st);
                colorsGeneral := colorsGeneral st;
                colorsGrayscale := colorsGrayscale st;
                forceZeroColor := forceZeroColor st |}
  | _ => Unmodelled
  end.

(** The comparison of the grayscale colours, [a[0] - b[0]]. *)
Definition by_first (a b : list Z) : Z := default 0 (a !! 0%nat) - default 0 (b !! 0%nat).

(** The comparison of the other colours: [b[i] - a[i]] at the first channel
    that differs; for equal colours the function returns [undefined], which
    [sort] takes for 0. *)
Definition by_channels (a b : list Z) : Z :=
  default 0
    (head (omap (fun i =>
                   let x := default 0 (a !! i) in
                   let y := default 0 (b !! i) in
                   if x =? y then None else Some (y - x))
                (seq 0 4))).

(** [generatePaletteFromRawData(data, forceZeroColor, giveArrays)].
    [sort] stands for the engine's [Array.prototype.sort] with a comparison
    function.  [giveArrays] only turns the typed arrays of the result into
    arrays, which the lists of the model do not tell apart. *)
Definition generatePaletteFromRawData
  (sort : (list Z → list Z → Z) → list (list Z) → list (list Z))
  (data : list Z) (forceZeroColor : bool) : outcome (list (list Z)) :=
  st ← foldM visit (subarrays (length data) data)
        {| tree := ∅; colorsGeneral := []; colorsGrayscale := [];
           forceZeroColor := forceZeroColor |};
  let colorsGrayscale := sort by_first (colorsGrayscale st) in
  let colorsGeneral := sort by_channels (colorsGeneral st) in
  Ok (if PaletteMakr.forceZeroColor st
      then [0; 0; 0; 0] :: colorsGrayscale ++ colorsGeneral
      else colorsGrayscale ++ colorsGeneral).

End PaletteMakr.

(** ** StatsHoldr and StatsValue: values with limits and callbacks *)
Module StatsHoldr.
Import JS QuadsKeepr.

(** The callbacks a StatsValue may make, each with the key of the value;
    they are recorded, and taken not to change the StatsHoldr themselves. *)
Inductive Call : Type :=
| OnMinimum (key : string)
| OnMaximum (key : string)
| OnModular (key : string)
| OnTrigger (key : string) (value : Z).

(** A StatsValue whose value is an integer.  [minimum] and [maximum] are
    [None] when the object has no such property; a [modularity] of 0 stands
    for one that is not set (both are falsy); [triggers] lists the values
    that have a trigger (none, if there is no such object); [textContent] is the text of the second child of
    the element, for a value that has one. *)
Record StatsValue : Type := {
  value : Z;
  minimum : option Z;
  maximum : option Z;
  onMinimum : bool;
  onMaximum : bool;
  modularity : Z;
  onModular : bool;
  triggers : list Z;
  hasElement : bool;
  textContent : string;
  storeLocally : bool
}.

Record StatsHoldr : Type := {
  prefix : string;
  autoSave : bool;
  localStorage : gmap string string;
  displayChanges : gmap string string;
  values : gmap string StatsValue;
  calls : list Call
}.

Definition set_value (v : Z) (sv : StatsValue) : StatsValue :=
  {| value := v; minimum := minimum sv; maximum := maximum sv;
     onMinimum := onMinimum sv; onMaximum := onMaximum sv;
     modularity := modularity sv; onModular := onModular sv;
     triggers := triggers sv; hasElement := hasElement sv;
     textContent := textContent sv; storeLocally := storeLocally sv |}.

Definition set_textContent (t : string) (sv : StatsValue) : StatsValue :=
  {| value := value sv; minimum := minimum sv; maximum := maximum sv;
     onMinimum := onMinimum sv; onMaximum := onMaximum sv;
     modularity := modularity sv; onModular := onModular sv;
     triggers := triggers sv; hasElement := hasElement sv;
     textContent := t; storeLocally := storeLocally sv |}.

Definition call (wanted : bool) (c : Call) (h : StatsHoldr) : StatsHoldr :=
  if wanted then
    {| prefix := prefix h; autoSave := autoSave h; localStorage := localStorage h;
       displayChanges := displayChanges h; values := values h;
       calls := calls h ++ [c] |}
  else h.

Definition set_localStorage (s : gmap string string) (h : StatsHoldr) : StatsHoldr :=
  {| prefix := prefix h; autoSave := autoSave h; localStorage := s;
     displayChanges := displayChanges h; values := values h; calls := calls h |}.

Definition set_values (vs : gmap string StatsValue) (h : StatsHoldr) : StatsHoldr :=
  {| prefix := prefix h; autoSave := autoSave h; localStorage := localStorage h;
     displayChanges := displayChanges h; values := vs; calls := calls h |}.

(** [StatsValue.prototype.checkModularity()]; one unit of fuel per test of
    the loop's condition. *)
Definition checkModularity (fuel : nat) (key : string) (st : StatsValue * StatsHoldr)
  : outcome (StatsValue * StatsHoldr) :=
  if modularity st.1 =? 0 then Ok st
  else
    while fuel (fun st => modularity st.1 <=? value st.1)
      (fun st => Ok (set_value (Z.max 0 (value st.1 - modularity st.1)) st.1,
                     call (onModular st.1) (OnModular key) st.2))
      st.

(** [StatsValue.prototype.checkTriggers()]. *)
Definition checkTriggers (key : string) (st : StatsValue * StatsHoldr)
  : StatsValue * StatsHoldr :=
  (st.1, call (bool_decide (value st.1 ∈ triggers st.1)) (OnTrigger key (value st.1)) st.2).

(** [StatsValue.prototype.updateElement()]. *)
Definition updateElement (st : StatsValue * StatsHoldr) : StatsValue * StatsHoldr :=
  (set_textContent
     (default (string_of_Z (value st.1))
        (displayChanges st.2 !! string_of_Z (value st.1))) st.1,
   st.2).

(** [StatsValue.prototype.updateLocalStorage(overrideAutoSave)];
    [JSON.stringify] of an integer is its decimal text. *)
Definition updateLocalStorage (overrideAutoSave : bool) (key : string)
  (st : StatsValue * StatsHoldr) : StatsValue * StatsHoldr :=
  if autoSave st.2 || overrideAutoSave then
    (st.1, set_localStorage (<[prefix st.2 +:+ key := string_of_Z (value st.1)]>
                               (localStorage st.2)) st.2)
  else st.

(** [this.hasOwnProperty(limit) && Number(this.value) <= Number(this[limit])],
    with the limit that was met. *)
Definition met (limit : option Z) (v : Z) : option Z :=
  match limit with
  | Some m => if v <=? m then Some m else None
  | None => None
  end.

(** [StatsValue.prototype.update()]: the maximum is tested with [<=], as the
    minimum is. *)
Definition update (fuel : nat) (key : string) (st : StatsValue * StatsHoldr)
  : outcome (StatsValue * StatsHoldr) :=
  let sv := st.1 in
  let st :=
    match met (minimum sv) (value sv) with
    | Some m => (set_value m sv, call (onMinimum sv) (OnMinimum key) st.2)
    | None =>
        match met (maximum sv) (value sv) with
        | Some m => (set_value m sv, call (onMaximum sv) (OnMaximum key) st.2)
        | None => st
        end
    end in
  st ← (if modularity st.1 =? 0 then Ok st else checkModularity fuel key st);
  let st := checkTriggers key st in
  let st := if hasElement st.1 then updateElement st else st in
  Ok (if storeLocally st.1 then updateLocalStorage false key st else st).

(** [StatsHoldr.prototype.checkExistence(key)]. *)
Definition checkExistence (h : StatsHoldr) (key : string) : outcome StatsValue :=
  match values h !! key with
  | Some sv => Ok sv
  | None => Throw ("Unknown key given to StatsHoldr: '" +:+ key +:+ "'.")
  end.

(** The common end of [set], [increase], [decrease] and [toggle]: the value
    is assigned and the StatsValue updated; the StatsValue stays the object
    filed under its key. *)
Definition assign (fuel : nat) (h : StatsHoldr) (key : string) (f : Z → Z)
  : outcome StatsHoldr :=
  sv ← checkExistence h key;
  st ← update fuel key (set_value (f (value sv)) sv, h);
  Ok (set_values (<[key := st.1]> (values st.2)) st.2).

(** [StatsHoldr.prototype.get(key)]. *)
Definition get (h : StatsHoldr) (key : string) : outcome Z :=
  sv ← checkExistence h key; Ok (value sv).

(** [StatsHoldr.prototype.set(key, value)]. *)
Definition set (fuel : nat) (h : StatsHoldr) (key : string) (v : Z) : outcome StatsHoldr :=
  assign fuel h key (fun _ => v).

(** [StatsHoldr.prototype.increase(key, amount)]; without an amount, 1. *)
Definition increase (fuel : nat) (h : StatsHoldr) (key : string) (amount : option Z)
  : outcome StatsHoldr :=
  assign fuel h key (fun v => v + default 1%Z amount).

(** [StatsHoldr.prototype.decrease(key, amount)]. *)
Definition decrease (fuel : nat) (h : StatsHoldr) (key : string) (amount : option Z)
  : outcome StatsHoldr :=
  assign fuel h key (fun v => v - default 1%Z amount).

(** [StatsHoldr.prototype.toggle(key)]. *)
Definition toggle (fuel : nat) (h : StatsHoldr) (key : string) : outcome StatsHoldr :=
  assign fuel h key (fun v => if v =? 0 then 1 else 0).

End StatsHoldr.

(** ** ChangeLinr: a pipeline of transforms with caches *)
Module ChangeLinr.
Import JS StringFilr PixelRendr QuadsKeepr.

(** [String(key)], the name under which a key files a property. *)
Definition property_name (key : value) : string :=
  match key with
  | VUndefined => "undefined"
  | VBool true => "true"
  | VBool false => "false"
  | VNum n => string_of_Z n
  | VStr s => s
  | VSprite data => join "," (string_of_Z <$> data)
  | VObj _ => "[object Object]"
  end.

Section Attributes.
Context {Attr : Type}.

(** A transform is called with the data, the key and the attributes (and
    with the global [self], which it is taken not to use). *)
Definition Transform : Type := value → value → option Attr → outcome value.

(** A ChangeLinr.  [cacheFull] is kept by the names of the pipeline; the
    source files every part under its index as well. *)
Record ChangeLinr : Type := {
  pipeline : list string;
  transforms : gmap string Transform;
  doMakeCache : bool;
  doUseCache : bool;
  cache : gmap string value;
  cacheFull : gmap string (gmap string value)
}.

(** The quotation mark of the error messages. *)
Definition quote : string := String (ascii_of_nat 34) "".

(** The checks of the constructor on the pipeline.  A name made of digits
    would meet the index of a part in [cacheFull]: that is outside the
    model. *)
Definition check_pipe (transforms : gmap string Transform) (i : nat) (name : string)
  : outcome unit :=
  let pipe := "Pipe[" +:+ string_of_Z (Z.of_nat i) +:+ "]" in
  if String.eqb name "" then Throw (pipe +:+ " is invalid.")
  else
    match transforms !! name with
    | None => Throw (pipe +:+ " (" +:+ quote +:+ name +:+ quote +:+ ") "
                     +:+ "not found in transforms.")
    | Some _ => if forallb is_digit (chars name) then Unmodelled else Ok ()
    end.

(** [new ChangeLinr({pipeline, transforms, doMakeCache, doUseCache})]. *)
Definition new_ChangeLinr (pipeline : option (list string))
  (transforms : option (gmap string Transform)) (doMakeCache doUseCache : option bool)
  : outcome ChangeLinr :=
  match pipeline, transforms with
  | None, _ => Throw "No pipeline given to ChangeLinr."
  | Some _, None => Throw "No transforms given to ChangeLinr."
  | Some pipeline, Some transforms =>
      _ ← foldM (fun (_ : unit) ip => check_pipe transforms ip.1 ip.2) (imap pair pipeline) ();
      Ok {| pipeline := pipeline; transforms := transforms;
            doMakeCache := default true doMakeCache;
            doUseCache := default true doUseCache;
            cache := ∅;
            cacheFull := list_to_map ((fun name => (name, ∅)) <$> pipeline) |}
  end.

(** One part of the pipeline in [process]: the transform, and its output
    filed in [cacheFull]. *)
Definition run_part (cl : ChangeLinr) (key : value) (attributes : option Attr)
  (st : value * gmap string (gmap string value)) (name : string)
  : outcome (value * gmap string (gmap string value)) :=
  match transforms cl !! name with
  | None => Throw TypeError
  | Some transform =>
      data ← transform st.1 key attributes;
      if doMakeCache cl then
        match st.2 !! name with
        | None => Throw TypeError
        | Some part => Ok (data, <[name := <[property_name key := data]> part]> st.2)
        end
      else Ok (data, st.2)
  end.

(** [ChangeLinr.prototype.process(data, key, attributes)]; [VUndefined] is a
    key that was not given. *)
Definition process (cl : ChangeLinr) (data key : value) (attributes : option Attr)
  : outcome (value * ChangeLinr) :=
  let key :=
    match key with
    | VUndefined => if doMakeCache cl || doUseCache cl then data else key
    | _ => key
    end in
  match (if doUseCache cl then cache cl !! property_name key else None) with
  | Some cached => Ok (cached, cl)
  | None =>
      r ← foldM (run_part cl key attributes) (pipeline cl) (data, cacheFull cl);
      Ok (r.1,
          {| pipeline := pipeline cl; transforms := transforms cl;
             doMakeCache := doMakeCache cl; doUseCache := doUseCache cl;
             cache := if doMakeCache cl then <[property_name key := r.1]> (cache cl)
                      else cache cl;
             cacheFull := r.2 |})
  end.

(** [ChangeLinr.prototype.processFull(raw, key, attributes)]: the output by
    the names of the pipeline, [None] for [undefined]. *)
Definition processFull (cl : ChangeLinr) (raw key : value) (attributes : option Attr)
  : outcome (list (string * option value) * ChangeLinr) :=
  r ← process cl raw key attributes;
  output ← mapM (fun name =>
                   match cacheFull r.2 !! name with
                   | None => Throw TypeError
                   | Some part => Ok (name, part !! property_name key)
                   end)
                (pipeline cl);
  Ok (output, r.2).

End Attributes.

Arguments ChangeLinr : clear implicits.
Arguments Transform : clear implicits.

End ChangeLinr.

(* ===================================================================== *)
(** * Part II: the terms of the statements                                 *)
(* ===================================================================== *)

(** ** Terms for the refill of the canvas *)
Module PixelDrawrTerms.
Import JS QuadsKeepr PixelDrawr.

Section Drawing.
Context {ThingDraw : Type}.

Abbreviation PixelDrawr := (PixelDrawr ThingDraw).
Abbreviation DrawCall := (DrawCall ThingDraw).

(** The quadrant a canvas call is about. *)
Definition target (c : DrawCall) : nat :=
  match c with
  | QuadrantBackground id _ _ => id
  | QuadrantThing id _ => id
  | MainDrawImage id _ _ => id
  end.

(** [pd'] is [pd] after some more canvas calls, all for quadrants in [P]. *)
Definition drew_only (P : nat → Prop) (pd pd' : PixelDrawr) : Prop :=
  framerateSkip pd' = framerateSkip pd ∧ noRefill pd' = noRefill pd
  ∧ groupNames pd' = groupNames pd
  ∧ screenWidth pd' = screenWidth pd ∧ screenHeight pd' = screenHeight pd
  ∧ ∃ new, calls pd' = calls pd ++ new ∧ ∀ c, c ∈ new → P (target c).

(** What a frame may do to the store: a quadrant is as it was, or it needed
    a refill and has had its flag cleared. *)
Definition refilled_from (pd : PixelDrawr) (h h' : list Quadrant) : Prop :=
  length h' = length h ∧
  ∀ id q, h !! id = Some q →
    h' !! id = Some q ∨ (needs_refill pd q = true ∧ h' !! id = Some (set_changed false q)).

Definition wanted (pd : PixelDrawr) (h : list Quadrant) (id : nat) : Prop :=
  ∃ q, h !! id = Some q ∧ needs_refill pd q = true.

Definition frame_inv (pd : PixelDrawr) (h : list Quadrant)
  (st : PixelDrawr * list Quadrant) : Prop :=
  drew_only (wanted pd h) pd st.1 ∧ refilled_from pd h st.2.

(** The part of the refill test that asks whether a quadrant meets the
    screen. *)
Definition on_screen (pd : PixelDrawr) (q : Quadrant) : bool :=
  (q_top q <? screenHeight pd) && (0 <? q_right q) && (0 <? q_bottom q)
  && (q_left q <? screenWidth pd).

End Drawing.

(** A screen of 100 by 100, two quadrants on it, neither changed, each
    listing one Thing; drawing a Thing is taken to make one call. *)
Definition quiet_quadrant (l : Z) : Quadrant :=
  {| q_top := 0; q_right := l + 50; q_bottom := 50; q_left := l; changed := false;
     things := {["solid" := [Some O]]}; numthings := {["solid" := 1]} |}.

Definition quiet_drawr : PixelDrawr unit :=
  {| framesDrawn := 0; framerateSkip := 1; noRefill := false; groupNames := ["solid"];
     screenWidth := 100; screenHeight := 100; calls := [] |}.

Definition quiet_row : QuadrantRow := {| c_left := 0; c_top := 0; quadrants := [0; 1]%nat |}.

End PixelDrawrTerms.

(** ** Terms for the sprite codec *)
Module PixelRendrTerms.
Import JS StringFilr PixelRendr.

(** The text of palette index [i] at the default digit size. *)
Definition padded (pr : PixelRendr) (i : nat) : string :=
  makeDigit (string_of_Z (Z.of_nat i)) (digitsizeDefault pr) "0".

(** The four bytes a palette colour puts into a sprite. *)
Definition color_bytes (rgba : list Z) : list Z :=
  (fun k => clamp8 (default 0 (rgba !! k))) <$> seq 0 4.

(** The palette of the scenarios: transparent black, opaque red, opaque
    green; digit size 1, scale 1. *)
Definition scenario_rendr : PixelRendr :=
  new_PixelRendr [[0; 0; 0; 0]; [255; 0; 0; 255]; [0; 255; 0; 255]] None (VObj []).

(** The scan of [getClosestInPalette], written as a fold from the first
    index outwards: index [i] is looked at after all the indices above it. *)
Definition closest_step (palette : list (list Z)) (rgba : list Z) (i : nat)
  (best : option (Z * nat)) : option (Z * nat) :=
  let difference := arrayDifference (default [] (palette !! i)) rgba in
  match best with
  | Some (bestDifference, _) =>
      if difference <? bestDifference then Some (difference, i) else best
  | None => Some (difference, i)
  end.

End PixelRendrTerms.

(** ** Terms for the library lookups *)
Module StringFilrTerms.
Import JS StringFilr.

(** The answer of [get] alone, without the filer. *)
Definition answer (o : outcome (value * StringFilr)) : outcome value :=
  match o with
  | Ok r => Ok r.1
  | Throw e => Throw e
  | OutOfFuel => OutOfFuel
  | Unmodelled => Unmodelled
  end.

(** The first key, in the order of [keys], that the object owns: its
    position, the key and what the object holds for it. *)
Fixpoint first_key (props : list (string * value)) (keys : list string)
  : option (nat * string * value) :=
  match keys with
  | [] => None
  | key :: keys' =>
      match assoc key props with
      | Some child => Some (O, key, child)
      | None => (fun r => (S r.1.1, r.1.2, r.2)) <$> first_key props keys'
      end
  end.

(** Does the object own [key]? *)
Definition owns (props : list (string * value)) (key : string) : bool :=
  bool_decide (is_Some (assoc key props)).

(** A key resolves without a choice when, at every object the descent
    reaches, the keys still to be used name at most one of its properties. *)
Fixpoint unambiguous (normal : option string) (current : value) (keys : list string)
  {struct current} : bool :=
  match keys with
  | [] => true
  | _ :: _ =>
      match current with
      | VObj props =>
          let kids := map (fun kv => (kv.1, unambiguous normal kv.2)) props in
          match first_owned kids O keys with
          | Some (i, check) =>
              forallb (fun k => implb (owns props k) (String.eqb k (nth i keys ""))) keys
              && check (delete i keys)
          | None =>
              match normal_set normal with
              | Some n =>
                  match list_find (fun kv => kv.1 = n) kids with
                  | Some (_, kv) => kv.2 keys
                  | None => true
                  end
              | None => true
              end
          end
      | _ => true
      end
  end.

Definition leaf_scan_result (current : value) (keys : list string) : outcome unit :=
  match current with
  | VUndefined => match keys with [] => Ok () | _ => Throw TypeError end
  | VBool _ | VNum _ => Ok ()
  | VStr _ | VSprite _ => if existsb index_like keys then Unmodelled else Ok ()
  | VObj props => scan_leaf (VObj props) keys
  end.

(** Does [p] start at one of the first [k] positions of [l]? *)
Definition occurs_before (p l : list ascii) (k : nat) : bool :=
  existsb (fun j => is_prefix p (drop j l)) (seq 0 k).

(** The first occurrence of [n] in a key starts right after [u]. *)
Definition first_at (n key u : string) : Prop :=
  occurs_before (chars n) (chars key) (length (chars u)) = false.

(** A library in which two classes each hold the other. *)
Definition crossed_library : value :=
  VObj [("big", VObj [("red", VSprite [0; 0; 0; 0])]);
        ("red", VObj [("big", VSprite [255; 0; 0; 255])])].

(** A library of one class with a size and a normal entry. *)
Definition plain_library : value :=
  VObj [("Mario", VObj [("small", VSprite [255; 0; 0; 255]);
                         ("normal", VSprite [0; 255; 0; 255])])].

(** A library with a normal entry below a normal entry. *)
Definition nested_normal_library : value :=
  VObj [("big", VObj [("normal", VObj [("small", VSprite [255; 0; 0; 255]);
                                        ("normal", VSprite [0; 255; 0; 255])])])].

End StringFilrTerms.

(** ** Terms for decoding by key *)
Module DecodeTerms.
Import JS StringFilr PixelRendr StringFilrTerms.

(** The answer of [decode] alone. *)
Definition decoded (o : outcome (value * PixelRendr)) : outcome value :=
  match o with
  | Ok r => Ok r.1
  | Throw e => Throw e
  | OutOfFuel => OutOfFuel
  | Unmodelled => Unmodelled
  end.

(** A SpriteMultiple as [evaluatePostMultiple] builds it: the flag
    [multiple] set, the parts under [sprites], the [processed] flag and the
    four border sizes. *)
Definition is_SpriteMultiple (v : value) : bool :=
  match v with
  | VObj props =>
      match assoc "multiple" props, assoc "sprites" props, assoc "processed" props,
            assoc "topheight" props, assoc "rightwidth" props,
            assoc "bottomheight" props, assoc "leftwidth" props with
      | Some (VBool true), Some (VObj _), Some (VBool _),
        Some (VNum _), Some (VNum _), Some (VNum _), Some (VNum _) => true
      | _, _, _, _, _, _, _ => false
      end
  | _ => false
  end.

(** A decoded sprite: a pixel buffer or a SpriteMultiple. *)
Definition is_decoded_sprite (v : value) : bool :=
  match v with
  | VSprite _ => true
  | _ => is_SpriteMultiple v
  end.

(** A library with a class named [multiple]. *)
Definition coin_library : value :=
  VObj [("Coin", VObj [("multiple", VSprite [255; 0; 0; 255]);
                        ("normal", VSprite [0; 255; 0; 255])])].

Definition coin_rendr : PixelRendr :=
  new_PixelRendr [[0; 0; 0; 0]; [255; 0; 0; 255]; [0; 255; 0; 255]] None coin_library.

(** The sprites of one class, asked for a class the library does not have
    below it. *)
Definition mario_rendr : PixelRendr :=
  new_PixelRendr [[0; 0; 0; 0]; [255; 0; 0; 255]; [0; 255; 0; 255]] None
    (VObj [("Mario", VObj [("small", VSprite [255; 0; 0; 255])])]).

End DecodeTerms.

(** ** Terms for the grid of quadrants *)
Module QuadsKeeprTerms.
Import JS QuadsKeepr.

(** The bounds of a quadrant: top, right, bottom, left. *)
Definition bounds (q : Quadrant) : Z * Z * Z * Z := (q_top q, q_right q, q_bottom q, q_left q).

(** The quadrant the grid lists at a row and column. *)
Definition grid_at (s : QuadsKeepr) (row col : nat) : option nat :=
  r ← quadrantRows s !! row; quadrants r !! col.

(** The bounds of the grid's quadrants, row by row. *)
Definition grid_bounds (s : QuadsKeepr) : list (list (option (Z * Z * Z * Z))) :=
  (fun r => (fun id => bounds <$> heap s !! id) <$> quadrants r) <$> quadrantRows s.

(** How often a quadrant is listed in a family of containers. *)
Definition listings (id : nat) (containers : list QuadrantRow) : nat :=
  length (List.filter (Nat.eqb id) (concat (quadrants <$> containers))).

(** Does the quadrant hold a reference to the Thing among the
    [numthings[group]] members it counts for the group? *)
Definition refers_to (grp : string) (tid : nat) (q : Quadrant) : bool :=
  match things q !! grp, numthings q !! grp with
  | Some members, Some n =>
      existsb (fun e => match e with
                        | Some t => (t =? tid)%nat
                        | None => false
                        end) (take (Z.to_nat n) members)
  | _, _ => false
  end.

(** The quadrants a Thing has on record: the first [numquads] entries of
    its list. *)
Definition recorded (thing : Thing) : list (option nat) :=
  take (Z.to_nat (numquads thing)) (t_quadrants thing).

(** Does the box of the Thing, as [getTop] and its siblings give it, meet
    the quadrant?  A quadrant covers its top and left edge and stops short of
    its bottom and right edge; the box of a Thing includes all of its edges.
    A box with a side that is [NaN] meets nothing. *)
Definition intersects (s : QuadsKeepr) (thing : Thing) (q : Quadrant) : bool :=
  match getTop s thing, getRight s thing, getBottom s thing, getLeft s thing with
  | Some t, Some r, Some b, Some l =>
      (q_left q <=? r) && (l <? q_right q) && (q_top q <=? b) && (t <? q_bottom q)
  | _, _, _, _ => false
  end.

(** The scenarios: a grid of 3 by 3 quadrants of 10 by 10 at the origin,
    with one group and one Thing. *)
Definition scenario_settings : Settings :=
  {| quadrantWidth := 10; quadrantHeight := 10; groupNames := ["solid"];
     startLeft := 0; startTop := 0; keyOffsetX := false; keyOffsetY := false;
     onAdd := true; onRemove := true |}.

Definition scenario_thing : Thing :=
  {| t_top := 5; t_right := 15; t_bottom := 15; t_left := 5;
     t_offsetX := 0; t_offsetY := 0; group := "solid"; t_changed := true;
     numquads := 0; t_quadrants := [] |}.

Definition scenario_grid : outcome QuadsKeepr :=
  resetQuadrants (new_QuadsKeepr scenario_settings 3 3 [scenario_thing]).

(** The Thing at [tid] moved to a new box by the game. *)
Definition move_thing (tid : nat) (t r b l : Z) (s : QuadsKeepr) : outcome QuadsKeepr :=
  thing ← fetch (thingStore s) tid;
  Ok (set_thingStore
        (<[tid := {| t_top := t; t_right := r; t_bottom := b; t_left := l;
                     t_offsetX := t_offsetX thing; t_offsetY := t_offsetY thing;
                     group := group thing; t_changed := true;
                     numquads := numquads thing; t_quadrants := t_quadrants thing |}]>
           (thingStore s)) s).

(** Projections of an outcome, for the statements below. *)
Definition view {A} (f : QuadsKeepr → A) (o : outcome QuadsKeepr) : option A :=
  match o with
  | Ok s => Some (f s)
  | _ => None
  end.

(** The containers agree with the counts, and list quadrants of the store. *)
Definition well_formed (s : QuadsKeepr) : bool :=
  (0 <=? numRows s) && (0 <=? numCols s)
  && (length (quadrantRows s) =? Z.to_nat (numRows s))%nat
  && (length (quadrantCols s) =? Z.to_nat (numCols s))%nat
  && forallb (fun r => (length (quadrants r) =? Z.to_nat (numCols s))%nat
                       && forallb (fun id => id <? length (heap s))%nat (quadrants r))
             (quadrantRows s).

(** [shiftQuadrant] as a change of one quadrant. *)
Definition shifted (dx dy : Z) (q : Quadrant) : Quadrant :=
  {| q_top := q_top q + dy; q_right := q_right q + dx;
     q_bottom := q_bottom q + dy; q_left := q_left q + dx;
     changed := true; things := things q; numthings := numthings q |}.

(** The grid of the scenarios, with the thing store left out. *)
Definition scenario_grid_state : QuadsKeepr :=
  match scenario_grid with
  | Ok s => s
  | _ => new_QuadsKeepr scenario_settings 3 3 []
  end.

(** The quadrants of the grid, row by row. *)
Definition cells (s : QuadsKeepr) : list nat := concat (quadrants <$> quadrantRows s).

(** Does the Thing meet the quadrant stored at [id]? *)
Definition meets (s : QuadsKeepr) (thing : Thing) (id : nat) : bool :=
  match heap s !! id with
  | Some q => intersects s thing q
  | None => false
  end.

(** The quadrants of the grid the Thing meets, row by row. *)
Definition occupied (s : QuadsKeepr) (thing : Thing) : list nat :=
  List.filter (meets s thing) (cells s).

(** The quadrant has a list and a count of members for the group, as
    [createQuadrant] gives it for every group name. *)
Definition has_group (grp : string) (q : Quadrant) : bool :=
  match things q !! grp, numthings q !! grp with
  | Some _, Some n => 0 <=? n
  | _, _ => false
  end.

(** The quadrant listed at a row and column lies there. *)
Definition cell_ok (s : QuadsKeepr) (grp : string) (row col id : nat) : bool :=
  match heap s !! id with
  | Some q =>
      (q_left q =? left s + Z.of_nat col * quadrantWidth (settings s))
      && (q_right q =? q_left q + quadrantWidth (settings s))
      && (q_top q =? top s + Z.of_nat row * quadrantHeight (settings s))
      && (q_bottom q =? q_top q + quadrantHeight (settings s))
      && has_group grp q
  | None => false
  end.

(** A grid as [resetQuadrants] lays it out and as shifting within a
    quadrant keeps it: [numRows] rows of [numCols] quadrants, each of the
    configured size, side by side from the top left corner of the grid. *)
Definition regular_grid (grp : string) (s : QuadsKeepr) : bool :=
  (0 <? quadrantWidth (settings s)) && (0 <? quadrantHeight (settings s))
  && (Z.of_nat (length (quadrantRows s)) =? numRows s)
  && forallb (fun r => Z.of_nat (length (quadrants r)) =? numCols s) (quadrantRows s)
  && forallb (fun ir => forallb (fun jid => cell_ok s grp ir.1 jid.1 jid.2)
                          (imap pair (quadrants ir.2)))
       (imap pair (quadrantRows s)).

(** The quadrants a Thing has on record exist. *)
Definition known_quadrants (s : QuadsKeepr) (thing : Thing) : bool :=
  (Z.to_nat (numquads thing) <=? length (t_quadrants thing))%nat
  && forallb (fun e => match e with
                       | Some id => (id <? length (heap s))%nat
                       | None => false
                       end) (recorded thing).

(** What [setThingInQuadrant] does to the quadrant and to the Thing. *)
Definition enter (tid : nat) (grp : string) (c : bool) (q : Quadrant) : Quadrant :=
  match things q !! grp, numthings q !! grp with
  | Some members, Some n =>
      {| q_top := q_top q; q_right := q_right q; q_bottom := q_bottom q; q_left := q_left q;
         changed := if c then true else changed q;
         things := <[grp := array_set members (Z.to_nat n) tid]> (things q);
         numthings := <[grp := n + 1]> (numthings q) |}
  | _, _ => q
  end.

Definition record_quadrant (thing : Thing) (id : nat) : Thing :=
  set_membership thing (numquads thing + 1)
    (array_set (t_quadrants thing) (Z.to_nat (numquads thing)) id) (t_changed thing).

(** The members [a] to [b] of an array. *)
Definition slice {A} (a b : Z) (l : list A) : list A :=
  take (Z.to_nat (b - a + 1)) (drop (Z.to_nat a) l).

(** The quadrants named have their entries for the group. *)
Definition grouped (grp : string) (h : list Quadrant) (ids : list nat) : Prop :=
  ∀ id, id ∈ ids → ∃ q, h !! id = Some q ∧ has_group grp q = true.

(** What the game knows of a Thing apart from its quadrants. *)
Definition box (thing : Thing) : Z * Z * Z * Z * Z * Z * string :=
  (t_top thing, t_right thing, t_bottom thing, t_left thing,
   t_offsetX thing, t_offsetY thing, group thing).

(** Two quadrants that differ in their [changed] flag at most. *)
Definition same_data (q q' : Quadrant) : Prop :=
  bounds q' = bounds q ∧ things q' = things q ∧ numthings q' = numthings q.

(** The quadrants the loops visit, in the order of the visits. *)
Definition visited (s : QuadsKeepr) (rs re cs ce : Z) : list nat :=
  concat ((fun r => slice cs ce (quadrants r)) <$> slice rs re (quadrantRows s)).

(** Which quadrants of the grid refer to the Thing, row by row. *)
Definition grid_refs (grp : string) (tid : nat) (s : QuadsKeepr) : list (list (option bool)) :=
  (fun r => (fun id => refers_to grp tid <$> heap s !! id) <$> quadrants r) <$> quadrantRows s.

End QuadsKeeprTerms.

(** ** Terms for Things with offsets *)
Module OffsetTerms.
Import JS QuadsKeepr QuadsKeeprTerms.

(** The settings of the scenarios with an offset key for x and none for y. *)
Definition offset_settings : Settings :=
  {| quadrantWidth := 10; quadrantHeight := 10; groupNames := ["solid"];
     startLeft := 0; startTop := 0; keyOffsetX := true; keyOffsetY := false;
     onAdd := true; onRemove := true |}.

Definition offset_grid_state : QuadsKeepr :=
  match resetQuadrants (new_QuadsKeepr offset_settings 3 3 [scenario_thing]) with
  | Ok s => s
  | _ => new_QuadsKeepr offset_settings 3 3 []
  end.

End OffsetTerms.

(** ** Terms for the layout of a new grid *)
Module LayoutTerms.
Import JS QuadsKeepr QuadsKeeprTerms.

(** The quadrant [createQuadrant] makes at a corner. *)
Definition fresh_quadrant (st : Settings) (l t : Z) : Quadrant :=
  {| q_top := t; q_right := l + quadrantWidth st;
     q_bottom := t + quadrantHeight st; q_left := l;
     changed := true;
     things := list_to_map ((fun g => (g, [])) <$> groupNames st);
     numthings := list_to_map ((fun g => (g, 0)) <$> groupNames st) |}.

(** Where [resetQuadrants] stores the quadrant of a row and column, and the
    quadrant it stores there. *)
Definition cell_id (s0 : QuadsKeepr) (i j : nat) : nat :=
  (length (heap s0) + i * Z.to_nat (numCols s0) + j)%nat.

Definition cell_quadrant (s0 : QuadsKeepr) (i j : nat) : Quadrant :=
  fresh_quadrant (settings s0)
    (startLeft (settings s0) + Z.of_nat j * quadrantWidth (settings s0))
    (startTop (settings s0) + Z.of_nat i * quadrantHeight (settings s0)).

(** The containers while [resetQuadrants] fills the grid: [i] rows are full
    and the next has its first [k] quadrants. *)
Definition row_of (s0 : QuadsKeepr) (i k i' : nat) : QuadrantRow :=
  {| c_left := startLeft (settings s0);
     c_top := startTop (settings s0) + Z.of_nat i' * quadrantHeight (settings s0);
     quadrants := cell_id s0 i' <$>
       seq 0 (if (i' <? i)%nat then Z.to_nat (numCols s0)
              else if (i' =? i)%nat then k else 0) |}.

Definition col_of (s0 : QuadsKeepr) (i k j : nat) : QuadrantRow :=
  {| c_left := startLeft (settings s0) + Z.of_nat j * quadrantWidth (settings s0);
     c_top := startTop (settings s0);
     quadrants := (fun i' => cell_id s0 i' j) <$> seq 0 (if (j <? k)%nat then S i else i) |}.

Definition laid_out (s0 : QuadsKeepr) (i k : nat) : QuadsKeepr :=
  let st := settings s0 in
  let C := Z.to_nat (numCols s0) in
  {| settings := st; numRows := numRows s0; numCols := numCols s0;
     top := startTop st; right := startLeft st + quadrantWidth st * numCols s0;
     bottom := startTop st + quadrantHeight st * numRows s0; left := startLeft st;
     offsetX := 0; offsetY := 0;
     quadrantRows := row_of s0 i k <$> seq 0 (Z.to_nat (numRows s0));
     quadrantCols := col_of s0 i k <$> seq 0 C;
     heap := heap s0 ++ concat ((fun i' => cell_quadrant s0 i' <$> seq 0 C) <$> seq 0 i)
             ++ (cell_quadrant s0 i <$> seq 0 k);
     thingStore := thingStore s0; events := events s0 |}.

(** The quadrant a column lists at a position. *)
Definition col_at (s : QuadsKeepr) (col row : nat) : option nat :=
  c ← quadrantCols s !! col; quadrants c !! row.

End LayoutTerms.

(** ** Terms for the placing of all Things *)
Module SettleTerms.
Import JS QuadsKeepr QuadsKeeprTerms.

(** Two states of a grid with the same settings, counts, bounds and
    containers: they differ in the stores at most. *)
Definition same_grid (s s' : QuadsKeepr) : Prop :=
  settings s' = settings s ∧ numRows s' = numRows s ∧ numCols s' = numCols s
  ∧ (top s', right s', bottom s', left s') = (top s, right s, bottom s, left s)
  ∧ quadrantRows s' = quadrantRows s ∧ quadrantCols s' = quadrantCols s.

(** Does the quadrant stored at [id] refer to the Thing? *)
Definition referring (s : QuadsKeepr) (grp : string) (tid id : nat) : bool :=
  match heap s !! id with
  | Some q => refers_to grp tid q
  | None => false
  end.

(** What the first loops of [determineAllQuadrants] do to a quadrant. *)
Definition clear_count (grp : string) (q : Quadrant) : Quadrant :=
  {| q_top := q_top q; q_right := q_right q; q_bottom := q_bottom q; q_left := q_left q;
     changed := changed q; things := things q;
     numthings := <[grp := 0]> (numthings q) |}.

(** The grid [s'] is [s] after the Things in [done] have been given their
    quadrants, all counts for the group having been reset first. *)
Definition settled (grp : string) (s : QuadsKeepr) (done : list nat) (s' : QuadsKeepr) : Prop :=
  same_grid s s'
  ∧ length (thingStore s') = length (thingStore s)
  ∧ length (heap s') = length (heap s)
  ∧ (∀ tid, tid ∉ done → thingStore s' !! tid = thingStore s !! tid)
  ∧ (∀ tid thing, tid ∈ done → thingStore s !! tid = Some thing →
       ∃ thing', thingStore s' !! tid = Some thing' ∧ box thing' = box thing
                 ∧ t_changed thing' = false
                 ∧ numquads thing' = Z.of_nat (length (occupied s thing))
                 ∧ recorded thing' = Some <$> occupied s thing)
  ∧ (∀ id, id ∈ cells s →
       ∃ q q', heap s !! id = Some q ∧ heap s' !! id = Some q' ∧ bounds q' = bounds q
               ∧ has_group grp q' = true
               ∧ ∀ tid, refers_to grp tid q'
                        = match thingStore s !! tid with
                          | Some thing => bool_decide (tid ∈ done) && meets s thing id
                          | None => false
                          end).

End SettleTerms.

(** ** Terms for the refill flags *)
Module RefillTerms.
Import JS QuadsKeepr PixelDrawr PixelDrawrTerms.

Section Drawing.
Context {ThingDraw : Type}.

(** No quadrant in [P] needs a refill on the screen of [pd], whose size
    the state has kept. *)
Definition all_clean (pd : PixelDrawr ThingDraw) (P : nat → Prop)
  (st : PixelDrawr ThingDraw * list Quadrant) : Prop :=
  screenWidth st.1 = screenWidth pd ∧ screenHeight st.1 = screenHeight pd
  ∧ ∀ id, P id → ∃ q, st.2 !! id = Some q ∧ needs_refill pd q = false.

End Drawing.

(** The quadrants of the quiet screen, flagged as changed. *)
Definition stale_quadrant (l : Z) : Quadrant := set_changed true (quiet_quadrant l).

End RefillTerms.

(** ** Terms for the cache of a StringFilr *)
Module FilerTerms.
Import JS StringFilr StringFilrTerms StringFilrChecks.

(** The filer after a run of lookups; a lookup that throws leaves the filer
    as it was. *)
Definition after_gets (sf : StringFilr) (keys : list string) : StringFilr :=
  foldl (fun sf key => match get sf key with
                       | Ok r => r.2
                       | _ => sf
                       end) sf keys.

(** Every cached answer is the one the library gives. *)
Definition coherent (sf : StringFilr) : Prop :=
  ∀ key v, cache sf !! key = Some v →
           followClass (normal sf) (library sf) (split_ws key) = Ok v.

(** The message of [ensureLibraryNormal] for the root alone. *)
Definition root_lacks_normal : string :=
  "Found 1 library sub-directories missing the normal: " +:+ crlf +:+ "  base".

(** A library with the normal class at its root and a class below that
    lacks it. *)
Definition shallow_library : list (string * value) :=
  [("normal", VSprite [0; 255; 0; 255]);
   ("Mario", VObj [("small", VSprite [255; 0; 0; 255])])].

End FilerTerms.

(** ** Terms for sprite attributes *)
Module CodecTerms.
Import JS StringFilr PixelRendr.

(** Attributes for a sprite of the given width and height, without a filter. *)
Definition sized (w h : Z) : Attributes :=
  {| filter := None; spriteWidth := w; spriteHeight := h |}.

End CodecTerms.

(** ** Terms for the flips of a sprite *)
Module FlipTerms.
Import JS PixelRendr.

(** The members of a [Uint8ClampedArray] are bytes. *)
Definition is_bytes (a : list Z) : bool := forallb (fun x => (0 <=? x) && (x <=? 255)) a.

(** Writes into a typed array, each of a member of [sprite]: the position
    written and the position read. *)
Definition apply_writes (sprite dst : list Z) (ws : list (Z * Z)) : list Z :=
  foldl (fun dst w => wr dst w.1 (rd sprite w.2)) dst ws.

(** The writes of [copy_pixel] for the pixels in [ps]: [D] gives the place
    written and [S] the place read. *)
Definition pixel_writes {A} (D S : A → Z) (ps : list A) : list (Z * Z) :=
  concat ((fun p => (fun k => (D p + k, S p + k)) <$> zseq 4) <$> ps).

(** [R] holds the pixels of [sprite], [h] rows of [w], moved: the pixel at
    row [i] and column [j] of [R] is the one [sprite] has at [move i j]. *)
Definition moved_pixels (w h : Z) (move : Z → Z → Z * Z) (sprite R : list Z) : Prop :=
  length R = length sprite
  ∧ ∀ i j k, 0 ≤ i < h → 0 ≤ j < w → 0 ≤ k < 4 →
      R !! Z.to_nat (i * (w * 4) + j * 4 + k)
      = Some (clamp8 (rd sprite ((move i j).1 * (w * 4) + (move i j).2 * 4 + k))).

(** A sprite of two rows of two pixels. *)
Definition two_by_two : list Z :=
  [255; 0; 0; 255;  0; 255; 0; 255;  0; 0; 255; 255;  9; 9; 9; 0].

End FlipTerms.

(** ** Terms for the repeat of rows *)
Module CopyTerms.
Import JS StringFilr PixelRendr.

(** The palette of the scenarios at scale 2. *)
Definition double_rendr : PixelRendr :=
  new_PixelRendr [[0; 0; 0; 0]; [255; 0; 0; 255]; [0; 255; 0; 255]] (Some 2) (VObj []).

End CopyTerms.

(** ** Terms for sprite texts *)
Module PiecesTerms.
Import JS StringFilr PixelRendr PixelRendrTerms.

(** The two ways a sprite text writes pixels of the default palette: one
    pixel as its digits, or a run as [x], the digits, the count and a
    comma. *)
Inductive piece : Type :=
| Single (i : nat)
| Run (i n : nat).

Definition colour_of (x : piece) : nat :=
  match x with Single i | Run i _ => i end.

Definition written (pr : PixelRendr) (x : piece) : string :=
  match x with
  | Single i => padded pr i
  | Run i n => "x" +:+ padded pr i +:+ string_of_Z (Z.of_nat n) +:+ ","
  end.

(** The palette indices a piece stands for. *)
Definition pixels (x : piece) : list nat :=
  match x with
  | Single i => [i]
  | Run i n => replicate n i
  end.

(** The index is in the default palette and its text is no wider than the
    default digit size. *)
Definition fits (pr : PixelRendr) (i : nat) : bool :=
  (strlen (string_of_Z (Z.of_nat i)) <=? digitsizeDefault pr)
  && (i <? length (paletteDefault pr))%nat.

Definition text (pr : PixelRendr) (xs : list piece) : string :=
  concat_strings (written pr <$> xs).

(** Palette indices written out at the default digit size. *)
Definition digits (pr : PixelRendr) (l : list nat) : string :=
  concat_strings (padded pr <$> l).

(** The bytes of palette index [i]. *)
Definition bytes_of (pr : PixelRendr) (i : nat) : list Z :=
  color_bytes (default [] (paletteDefault pr !! i)).

End PiecesTerms.

(** ** Terms for palette filters *)
Module FilterTerms.
Import JS StringFilr PixelRendr PixelRendrTerms.

(** The pixels after the entries of a palette filter, each entry replacing
    one palette index by another, taken one after the other. *)
Definition recolour (mapping : list (nat * nat)) (l : list nat) : list nat :=
  foldl (fun l ab => (fun i => if (i =? ab.1)%nat then ab.2 else i) <$> l) l mapping.

(** Attributes with the palette filter that has these entries, in the order
    in which [for (i in filter[1])] visits them. *)
Definition palette_filter (pr : PixelRendr) (mapping : list (nat * nat)) : Attributes :=
  {| filter := Some ("palette", (fun ab => (padded pr ab.1, padded pr ab.2)) <$> mapping);
     spriteWidth := 0;
     spriteHeight := 0 |}.

End FilterTerms.

(** ** Terms for generated palettes *)
Module PaletteTerms.
Import JS PixelRendr PaletteMakr.

(** The pixels of an image, four bytes each. *)
Definition pixels_of (data : list Z) : list (list Z) := subarrays (length data) data.

Definition alpha (c : list Z) : Z := default 0 (c !! 3%nat).

Definition opaque (c : list Z) : bool := negb (alpha c =? 0).

Definition grayscale (c : list Z) : bool :=
  (default 0 (c !! 0%nat) =? default 0 (c !! 1%nat))
  && (default 0 (c !! 1%nat) =? default 0 (c !! 2%nat)).

(** What [Array.prototype.sort] promises for a comparison function that is
    consistent: the result holds the same members, and no member comes
    before one that compares below it. *)
Definition consistent (cmp : list Z → list Z → Z) (l : list (list Z)) : Prop :=
  (∀ a, a ∈ l → cmp a a = 0)
  ∧ (∀ a b, a ∈ l → b ∈ l → cmp a b < 0 ↔ 0 < cmp b a)
  ∧ (∀ a b c, a ∈ l → b ∈ l → c ∈ l → cmp a b ≤ 0 → cmp b c ≤ 0 → cmp a c ≤ 0).

(** No member comes before one that compares below it. *)
Definition in_order (cmp : list Z → list Z → Z) (l : list (list Z)) : Prop :=
  ∀ i j a b, (i < j)%nat → l !! i = Some a → l !! j = Some b → cmp a b ≤ 0.

Definition conforming (sort : (list Z → list Z → Z) → list (list Z) → list (list Z)) : Prop :=
  ∀ cmp l,
    Permutation (sort cmp l) l
    ∧ (consistent cmp l → in_order cmp (sort cmp l)).

(** A sort by insertion, which is stable. *)
Fixpoint insert_sorted (cmp : list Z → list Z → Z) (x : list Z) (l : list (list Z))
  : list (list Z) :=
  match l with
  | [] => [x]
  | y :: l' => if 0 <? cmp x y then y :: insert_sorted cmp x l' else x :: l
  end.

Definition insertion_sort (cmp : list Z → list Z → Z) (l : list (list Z)) : list (list Z) :=
  foldr (insert_sorted cmp) [] l.

(** The mark the tree holds for a colour. *)
Definition leaf (tree : Tree) (r g b a : Z) : bool :=
  default false
    ((default ∅ ((default ∅ ((default ∅ (tree !! r)) !! g)) !! b)) !! a).

(** The state of the scan after the pixels [seen]: the two lists hold,
    once each, the opaque pixels seen, the grayscale ones apart from the
    others; the tree marks just these; and the flag tells whether the zero
    colour was asked for or a transparent pixel seen. *)
Definition scanned (force : bool) (seen : list (list Z)) (st : Scan) : Prop :=
  (∀ r g b a, leaf (tree st) r g b a = true
              ↔ [r; g; b; a] ∈ colorsGrayscale st ++ colorsGeneral st)
  ∧ NoDup (colorsGrayscale st ++ colorsGeneral st)
  ∧ (∀ c, c ∈ colorsGrayscale st ++ colorsGeneral st ↔ c ∈ seen ∧ opaque c = true)
  ∧ Forall (fun c => grayscale c = true) (colorsGrayscale st)
  ∧ Forall (fun c => grayscale c = false) (colorsGeneral st)
  ∧ forceZeroColor st = force || existsb (fun c => negb (opaque c)) seen.

(** The first channel of a colour. *)
Definition brightness (c : list Z) : Z := default 0 (c !! 0%nat).

(** At the first channel where the two colours differ, [a] has the larger
    value. *)
Definition outranks (a b : list Z) : Prop :=
  ∃ k, (k < 4)%nat
       ∧ (∀ m, (m < k)%nat → default 0 (a !! m) = default 0 (b !! m))
       ∧ default 0 (b !! k) < default 0 (a !! k).

(** The zero colour, if the palette is to start with it. *)
Definition zero_colour (wanted : bool) : list (list Z) :=
  if wanted then [[0; 0; 0; 0]] else [].

(** An image of five pixels: red, a gray, red again, a transparent pixel
    and white. *)
Definition five_pixels : list Z :=
  [255; 0; 0; 255;  9; 9; 9; 255;  255; 0; 0; 255;  1; 2; 3; 0;  255; 255; 255; 255].

End PaletteTerms.

(** ** Terms for the StatsHoldr *)
Module StatsHoldrTerms.
Import JS StatsHoldr.

(** The StatsHoldr with [n] more calls of [c] recorded. *)
Definition called (n : nat) (c : Call) (h : StatsHoldr) : StatsHoldr :=
  {| prefix := prefix h; autoSave := autoSave h; localStorage := localStorage h;
     displayChanges := displayChanges h; values := values h;
     calls := calls h ++ replicate n c |}.

(** What [update] does after the limits and the modularity. *)
Definition finish (key : string) (st : StatsValue * StatsHoldr) : StatsValue * StatsHoldr :=
  let st := checkTriggers key st in
  let st := if hasElement st.1 then updateElement st else st in
  if storeLocally st.1 then updateLocalStorage false key st else st.

(** The call of the trigger of a value, if it has one. *)
Definition triggered (key : string) (sv : StatsValue) (v : Z) : list Call :=
  if bool_decide (v ∈ triggers sv) then [OnTrigger key v] else [].

(** A counter of coins that turns over at 100, and a count of lives with a
    maximum of 9. *)
Definition coins : StatsValue :=
  {| value := 98; minimum := None; maximum := None; onMinimum := false; onMaximum := false;
     modularity := 100; onModular := true; triggers := []; hasElement := false;
     textContent := ""; storeLocally := true |}.

Definition lives : StatsValue :=
  {| value := 3; minimum := None; maximum := Some 9; onMinimum := false; onMaximum := true;
     modularity := 0; onModular := false; triggers := []; hasElement := false;
     textContent := ""; storeLocally := false |}.

Definition score : StatsValue :=
  {| value := 0; minimum := None; maximum := None; onMinimum := false; onMaximum := false;
     modularity := 0; onModular := false; triggers := []; hasElement := true;
     textContent := "0"; storeLocally := true |}.

Definition game_stats : StatsHoldr :=
  {| prefix := "Game::"; autoSave := true; localStorage := ∅; displayChanges := ∅;
     values := <["coins" := coins]> (<["lives" := lives]> (<["score" := score]> ∅));
     calls := [] |}.

End StatsHoldrTerms.

(** ** Terms for the ChangeLinr *)
Module ChangeLinrTerms.
Import JS StringFilr PixelRendr QuadsKeepr ChangeLinr.

Section Attributes.
Context {Attr : Type}.

(** Every part of the pipeline has its place in [cacheFull]. *)
Definition complete (cl : ChangeLinr Attr) : Prop :=
  ∀ name, name ∈ pipeline cl → is_Some (cacheFull cl !! name).

(** Nothing is filed under the name [k] in [cacheFull]. *)
Definition unfiled (cl : ChangeLinr Attr) (k : string) : Prop :=
  ∀ name part, cacheFull cl !! name = Some part → part !! k = None.

(** The outputs of the parts named, each run on the output of the one
    before. *)
Fixpoint outputs (cl : ChangeLinr Attr) (key : value) (attributes : option Attr)
  (names : list string) (data : value) : outcome (list value) :=
  match names with
  | [] => Ok []
  | name :: names' =>
      match transforms cl !! name with
      | None => Throw TypeError
      | Some transform =>
          out ← transform data key attributes;
          outs ← outputs cl key attributes names' out;
          Ok (out :: outs)
      end
  end.

End Attributes.

(** Two transforms of numbers, and a ChangeLinr that runs one after the
    other. *)
Definition double : Transform unit := fun data _ _ =>
  match data with
  | VNum n => Ok (VNum (2 * n))
  | _ => Throw TypeError
  end.

Definition successor : Transform unit := fun data _ _ =>
  match data with
  | VNum n => Ok (VNum (n + 1))
  | _ => Throw TypeError
  end.

Definition twice_plus_one : ChangeLinr unit :=
  {| pipeline := ["double"; "successor"];
     transforms := <["double" := double]> (<["successor" := successor]> ∅);
     doMakeCache := true;
     doUseCache := true;
     cache := ∅;
     cacheFull := list_to_map [("double", ∅); ("successor", ∅)] |}.

End ChangeLinrTerms.

(* ===================================================================== *)
(** * Part III: properties                                                 *)
(* ===================================================================== *)

(** ** Generic facts about the loops *)
Module LoopFacts.
Import JS QuadsKeepr.

Lemma bind_Ok {A B} (m : outcome A) (k : A → outcome B) (b : B) :
  m ≫= k = Ok b → ∃ a, m = Ok a ∧ k a = Ok b.
Proof. destruct m; simpl; intros H; try discriminate; eauto. Qed.

Lemma foldM_app {A B} (body : B → A → outcome B) (l1 l2 : list A) (b : B) :
  foldM body (l1 ++ l2) b = foldM body l1 b ≫= foldM body l2.
Proof.
  revert b; induction l1 as [|a l1 IH]; intros b; simpl; [reflexivity|].
  destruct (body b a); simpl; auto.
Qed.

(** An invariant kept by every turn of a loop holds when the loop ends. *)
Lemma foldM_invariant {A B} (P : B → Prop) (body : B → A → outcome B) (l : list A) :
  (∀ b a b', a ∈ l → P b → body b a = Ok b' → P b') →
  ∀ b b', P b → foldM body l b = Ok b' → P b'.
Proof.
  induction l as [|a l IH]; intros Hstep b b' Hb Hrun; simpl in Hrun.
  - congruence.
  - apply bind_Ok in Hrun as (b1 & H1 & H2).
    eapply IH; [| |exact H2].
    + intros; eapply Hstep; eauto. by right.
    + eapply Hstep; eauto. by left.
Qed.

(** A loop whose every turn leaves the state alone leaves the state alone. *)
Lemma foldM_skip {A B} (body : B → A → outcome B) (l : list A) (b : B) :
  (∀ a, a ∈ l → body b a = Ok b) → foldM body l b = Ok b.
Proof.
  induction l as [|a l IH]; intros Hstep; simpl; [reflexivity|].
  rewrite Hstep by (by left). simpl. apply IH. intros; apply Hstep. by right.
Qed.

Lemma fetch_Ok {A} (l : list A) (i : nat) (a : A) : fetch l i = Ok a ↔ l !! i = Some a.
Proof. unfold fetch. destruct (l !! i); split; congruence. Qed.

End LoopFacts.

(** ** The dirty-rectangle refill *)
Module PixelDrawrFacts.
Import JS QuadsKeepr PixelDrawr PixelDrawrTerms LoopFacts.

Section Drawing.
Context {ThingDraw : Type}.
Variable drawThingOnQuadrant : option nat → nat → Quadrant → outcome (list ThingDraw).

Abbreviation PixelDrawr := (PixelDrawr ThingDraw).
Abbreviation DrawCall := (DrawCall ThingDraw).
Abbreviation target := (@target ThingDraw).
Abbreviation drew_only := (@drew_only ThingDraw).
Abbreviation refilled_from := (@refilled_from ThingDraw).
Abbreviation wanted := (@wanted ThingDraw).
Abbreviation frame_inv := (@frame_inv ThingDraw).
Abbreviation on_screen := (@on_screen ThingDraw).

Lemma drew_only_refl P pd : framesDrawn pd = framesDrawn pd → drew_only P pd pd.
Proof.
  intros _. repeat split; try reflexivity. exists []. split; [by rewrite app_nil_r|].
  intros c Hc. inversion Hc.
Qed.

Lemma drew_only_add P pd pd' cs :
  drew_only P pd pd' → (∀ c, c ∈ cs → P (target c)) → drew_only P pd (add_calls cs pd').
Proof.
  intros (H1 & H2 & H3 & H4 & H5 & new & Hn & Hall) Hcs.
  repeat split; simpl; try assumption.
  exists (new ++ cs). split; [by rewrite Hn, app_assoc|].
  intros c [Hc|Hc]%elem_of_app; auto.
Qed.

Lemma needs_refill_ext (pd pd' : PixelDrawr) q :
  screenWidth pd' = screenWidth pd → screenHeight pd' = screenHeight pd →
  needs_refill pd' q = needs_refill pd q.
Proof. unfold needs_refill. by intros -> ->. Qed.

Lemma needs_refill_unchanged (pd : PixelDrawr) q : needs_refill pd (set_changed false q) = false.
Proof. reflexivity. Qed.

(** A refill of one quadrant draws on that quadrant only and clears its
    flag. *)
Lemma refillQuadrant_effect id pd h pd' h' :
  refillQuadrant drawThingOnQuadrant id (pd, h) = Ok (pd', h') →
  ∃ q, h !! id = Some q ∧ h' = <[id := set_changed false q]> h
       ∧ drew_only (fun i => i = id) pd pd'.
Proof.
  unfold refillQuadrant. intros H.
  apply bind_Ok in H as (q & Hq%fetch_Ok & H).
  apply bind_Ok in H as (pd1 & Hloop & H). injection H as <- <-.
  exists q. split; [done|]. split; [done|].
  revert Hloop.
  apply (foldM_invariant (drew_only (fun i => i = id) pd)).
  - intros b name b' _ Hb Hbody.
    destruct (things q !! name) as [grp|]; [|discriminate].
    revert Hbody. apply (foldM_invariant (drew_only (fun i => i = id) pd)); [|done].
    intros b1 member b2 _ Hb1 Hdraw.
    apply bind_Ok in Hdraw as (cs & _ & Hcs). injection Hcs as <-.
    apply drew_only_add; [done|].
    intros c (x & -> & _)%list_elem_of_fmap. reflexivity.
  - destruct (noRefill pd).
    + by apply drew_only_refl.
    + apply drew_only_add; [by apply drew_only_refl|].
      intros c ->%list_elem_of_singleton. reflexivity.
Qed.

Lemma drew_only_weaken (P Q : nat → Prop) pd pd' :
  (∀ i, P i → Q i) → drew_only P pd pd' → drew_only Q pd pd'.
Proof.
  intros HPQ (H1 & H2 & H3 & H4 & H5 & new & Hn & Hall).
  repeat split; try assumption. exists new. split; auto.
Qed.

Lemma drew_only_trans P pd pd1 pd2 :
  drew_only P pd pd1 → drew_only P pd1 pd2 → drew_only P pd pd2.
Proof.
  intros (H1 & H2 & H3 & H4 & H5 & new & Hn & Hall)
         (K1 & K2 & K3 & K4 & K5 & new' & Hn' & Hall').
  repeat split; try congruence.
  exists (new ++ new'). split; [by rewrite Hn', Hn, app_assoc|].
  intros c [Hc|Hc]%elem_of_app; auto.
Qed.

Lemma refillQuadrants_inv pd h ids st st' :
  frame_inv pd h st →
  refillQuadrants drawThingOnQuadrant ids st = Ok st' →
  frame_inv pd h st'.
Proof.
  intros Hst. unfold refillQuadrants.
  apply (foldM_invariant (frame_inv pd h)); [|done].
  clear st st' Hst. intros [pd1 h1] id [pd2 h2] _ [Hd [Hlen Hh]] Hbody. simpl in *.
  apply bind_Ok in Hbody as (q1 & Hq1%fetch_Ok & Hbody).
  assert (Hscr : needs_refill pd1 q1 = needs_refill pd q1).
  { destruct Hd as (_ & _ & _ & Hw & Hh' & _). by apply needs_refill_ext. }
  rewrite Hscr in Hbody.
  destruct (needs_refill pd q1) eqn:Hneed; [|by injection Hbody as <- <-].
  apply bind_Ok in Hbody as ([pd3 h3] & Hrefill & Hbody). injection Hbody as <- <-.
  apply refillQuadrant_effect in Hrefill as (q1' & Hq1' & -> & Hd3).
  assert (q1' = q1) as -> by congruence.
  assert (Hid : (id < length h)%nat).
  { rewrite <- Hlen. eapply lookup_lt_Some; eauto. }
  destruct (lookup_lt_is_Some_2 h id Hid) as [q Hq].
  assert (q1 = q) as ->.
  { destruct (Hh id q Hq) as [Hs|[_ Hs]]; [congruence|].
    rewrite Hs in Hq1. injection Hq1 as <-. by rewrite needs_refill_unchanged in Hneed. }
  assert (Hw : wanted pd h id) by (exists q; done).
  split; simpl.
  - apply drew_only_add.
    + eapply drew_only_trans; [exact Hd|].
      eapply drew_only_weaken; [|exact Hd3]. by intros i ->.
    + by intros c ->%list_elem_of_singleton.
  - split; [by rewrite length_insert|].
    intros id' q' Hq'. destruct (decide (id' = id)) as [->|Hne].
    + right. assert (q' = q) as -> by congruence. split; [done|].
      apply list_lookup_insert_eq. by rewrite Hlen.
    + rewrite list_lookup_insert_ne by done. by apply Hh.
Qed.

(** The store and the calls after a frame, against those before it. *)
Lemma refillQuadrantGroups_inv groups pd h pd' h' :
  refillQuadrantGroups drawThingOnQuadrant groups (pd, h) = Ok (pd', h') →
  framesDrawn pd' = framesDrawn pd + 1 ∧ frame_inv pd h (pd', h').
Proof.
  unfold refillQuadrantGroups. simpl.
  assert (Hstart : frame_inv pd h (count_frame pd, h)).
  { split; simpl.
    - repeat split; try reflexivity. exists []. split; [by rewrite app_nil_r|].
      intros c Hc; inversion Hc.
    - split; [done|]. by left. }
  destruct (_ || _).
  - intros H; injection H as <- <-. done.
  - intros H. split.
    + revert H.
      apply (foldM_invariant (fun st => framesDrawn st.1 = framesDrawn pd + 1)); [|done].
      intros [pd1 h1] g [pd2 h2] _ Hfd Hbody. simpl in *.
      revert Hbody.
      apply (foldM_invariant (fun st => framesDrawn st.1 = framesDrawn pd + 1)); [|done].
      intros [pd3 h3] id [pd4 h4] _ Hfd3 Hbody. simpl in *.
      apply bind_Ok in Hbody as (q & _ & Hbody).
      destruct (needs_refill pd3 q); [|by injection Hbody as <- <-].
      apply bind_Ok in Hbody as ([pd5 h5] & Hr & Hbody). injection Hbody as <- <-. simpl.
      unfold refillQuadrant in Hr.
      apply bind_Ok in Hr as (q' & _ & Hr).
      apply bind_Ok in Hr as (pd6 & Hloop & Hr). injection Hr as <- <-.
      revert Hloop.
      apply (foldM_invariant (fun p => framesDrawn p = framesDrawn pd + 1)).
      * intros b name b' _ Hb Hbody. destruct (things q' !! name); [|discriminate].
        revert Hbody. apply (foldM_invariant (fun p => framesDrawn p = framesDrawn pd + 1)); [|done].
        intros b1 m b2 _ Hb1 Hdraw. apply bind_Ok in Hdraw as (cs & _ & Hcs).
        by injection Hcs as <-.
      * by destruct (noRefill pd3).
    + revert H. apply (foldM_invariant (frame_inv pd h)); [|done].
      intros st g st' _ Hst Hbody. eapply refillQuadrants_inv; eauto.
Qed.

(** With no listed quadrant changed, a frame only counts itself. *)
Lemma refill_nothing_changed groups (pd : PixelDrawr) h :
  (∀ g id, g ∈ groups → id ∈ quadrants g → ∃ q, h !! id = Some q ∧ changed q = false) →
  refillQuadrantGroups drawThingOnQuadrant groups (pd, h) = Ok (count_frame pd, h).
Proof.
  intros Hall. unfold refillQuadrantGroups. simpl.
  destruct (_ || _); [reflexivity|].
  apply foldM_skip. intros g Hg. unfold refillQuadrants.
  apply foldM_skip. intros id Hid. simpl.
  destruct (Hall g id Hg Hid) as (q & Hq & Hch).
  apply fetch_Ok in Hq. rewrite Hq. simpl.
  unfold needs_refill. by rewrite Hch.
Qed.

Lemma needs_refill_split (pd : PixelDrawr) q :
  needs_refill pd q = changed q && on_screen pd q.
Proof. unfold needs_refill, on_screen. by rewrite <- !andb_assoc. Qed.

(** C5.  A quadrant-mode frame over quadrants none of which is flagged
    changed makes no canvas call, on the main canvas or any other, and leaves
    every quadrant as it was; and whatever the flags, every canvas call of a
    frame is for a quadrant that was flagged changed and met the screen when
    the frame began, while a quadrant that was not both is left as it was. *)
Theorem dirty_rectangle_refill groups (pd : PixelDrawr) (h : list Quadrant) :
  ((∀ g id, g ∈ groups → id ∈ quadrants g → ∃ q, h !! id = Some q ∧ changed q = false) →
   ∃ pd', refillQuadrantGroups drawThingOnQuadrant groups (pd, h) = Ok (pd', h)
          ∧ calls pd' = calls pd)
  ∧ (∀ pd' h',
       refillQuadrantGroups drawThingOnQuadrant groups (pd, h) = Ok (pd', h') →
       (∃ new, calls pd' = calls pd ++ new
               ∧ ∀ c, c ∈ new →
                   ∃ q, h !! target c = Some q ∧ changed q = true ∧ on_screen pd q = true)
       ∧ ∀ id q, h !! id = Some q → changed q && on_screen pd q = false →
                 h' !! id = Some q).
Proof.
  split.
  - intros Hall. exists (count_frame pd). split; [|reflexivity].
    by apply refill_nothing_changed.
  - intros pd' h' Hrun.
    apply refillQuadrantGroups_inv in Hrun as [_ [Hd [_ Hh]]]. simpl in *.
    destruct Hd as (_ & _ & _ & _ & _ & new & Hn & Hnew). split.
    + exists new. split; [done|]. intros c Hc.
      destruct (Hnew c Hc) as (q & Hq & Hneed).
      rewrite needs_refill_split in Hneed. apply andb_true_iff in Hneed as [? ?].
      by exists q.
    + intros id q Hq Hno. destruct (Hh id q Hq) as [?|[Hneed _]]; [done|].
      rewrite needs_refill_split in Hneed. congruence.
Qed.

End Drawing.

Lemma dirty_rectangle_refill_witness :
  ∃ pd', refillQuadrantGroups (fun _ _ _ => Ok [()]) [quiet_row]
           (quiet_drawr, [quiet_quadrant 0; quiet_quadrant 50])
         = Ok (pd', [quiet_quadrant 0; quiet_quadrant 50])
         ∧ calls pd' = calls quiet_drawr.
Proof.
  apply (proj1 (dirty_rectangle_refill (fun _ _ _ => Ok [()]) [quiet_row] quiet_drawr
                  [quiet_quadrant 0; quiet_quadrant 50])).
  intros g id ->%list_elem_of_singleton Hid. simpl in Hid.
  apply elem_of_cons in Hid as [->|Hid]; [by exists (quiet_quadrant 0)|].
  apply list_elem_of_singleton in Hid as ->. by exists (quiet_quadrant 50).
Defined.

End PixelDrawrFacts.

(** ** Facts about the string operations *)
Module StringFacts.
Import JS.

Lemma chars_of_chars l : chars (of_chars l) = l.
Proof. apply list_ascii_of_string_of_list_ascii. Qed.

Lemma of_chars_chars s : of_chars (chars s) = s.
Proof. apply string_of_list_ascii_of_string. Qed.

Lemma chars_app a b : chars (a +:+ b) = chars a ++ chars b.
Proof. induction a as [|c a IH]; simpl; [reflexivity|]. unfold chars in *. simpl. by rewrite IH. Qed.

Lemma chars_inj a b : chars a = chars b → a = b.
Proof. intros H. rewrite <- (of_chars_chars a), <- (of_chars_chars b). by rewrite H. Qed.

Lemma of_chars_app l1 l2 : of_chars (l1 ++ l2) = of_chars l1 +:+ of_chars l2.
Proof. apply chars_inj. by rewrite chars_app, !chars_of_chars. Qed.

Lemma app_assoc_string a b c : (a +:+ b) +:+ c = a +:+ (b +:+ c).
Proof. apply chars_inj. by rewrite !chars_app, app_assoc. Qed.

Lemma app_empty_r a : a +:+ "" = a.
Proof. apply chars_inj. rewrite chars_app. apply app_nil_r. Qed.

Lemma strlen_app a b : strlen (a +:+ b) = strlen a + strlen b.
Proof. unfold strlen. rewrite chars_app, length_app. lia. Qed.

Lemma strlen_nonneg a : 0 ≤ strlen a.
Proof. unfold strlen. lia. Qed.

Lemma strlen_String c a : strlen (String c a) = 1 + strlen a.
Proof. unfold strlen, chars. simpl. lia. Qed.

(** The text between two positions of a string cut in three. *)
Lemma slice_middle p m q :
  slice (p +:+ m +:+ q) (strlen p) (strlen p + strlen m) = m.
Proof.
  unfold slice, clampIndex. rewrite !strlen_app.
  pose proof (strlen_nonneg p). pose proof (strlen_nonneg m). pose proof (strlen_nonneg q).
  destruct (Z.ltb_spec (strlen p) 0); [lia|].
  destruct (Z.ltb_spec (strlen p + strlen m) 0); [lia|].
  rewrite !Z.min_l by lia.
  rewrite !chars_app. unfold strlen.
  rewrite Nat2Z.id.
  replace (Z.to_nat _) with (length (chars m)) by lia.
  rewrite drop_app_length, take_app_length. apply of_chars_chars.
Qed.

Lemma charAt_after p c q : charAt (p +:+ String c q) (strlen p) = Some c.
Proof.
  unfold charAt. pose proof (strlen_nonneg p).
  destruct (Z.ltb_spec (strlen p) 0); [lia|].
  rewrite chars_app. unfold strlen. rewrite Nat2Z.id.
  rewrite lookup_app_r by lia. by rewrite Nat.sub_diag.
Qed.

Lemma find_char_app_skip c l1 l2 :
  c ∉ l1 → find_char c (l1 ++ c :: l2) = Some (length l1).
Proof.
  induction l1 as [|x l1 IH]; intros Hc; simpl.
  - by rewrite Ascii.eqb_refl.
  - destruct (Ascii.eqb_spec x c) as [->|Hne].
    + exfalso. apply Hc. by left.
    + rewrite IH; [reflexivity|]. intros ?. apply Hc. by right.
Qed.

(** The first [c] at or after a position, when none stands in between. *)
Lemma indexOf_after p m c q :
  c ∉ chars m →
  indexOf (p +:+ m +:+ String c q) c (strlen p) = strlen p + strlen m.
Proof.
  intros Hc. unfold indexOf. pose proof (strlen_nonneg p).
  rewrite Z.max_l by lia. unfold strlen. rewrite Nat2Z.id.
  rewrite !chars_app, drop_app_length.
  change (chars (String c q)) with (c :: chars q).
  rewrite find_char_app_skip by done. lia.
Qed.

Lemma repeat_string_S_r s n : repeat_string s (S n) = repeat_string s n +:+ s.
Proof.
  induction n as [|n IH]; simpl.
  - by rewrite app_empty_r.
  - simpl in IH. rewrite IH at 1. by rewrite app_assoc_string.
Qed.

Lemma repeat_string_add s n m :
  repeat_string s (n + m) = repeat_string s n +:+ repeat_string s m.
Proof.
  induction n as [|n IH]; simpl; [reflexivity|]. by rewrite IH, app_assoc_string.
Qed.

Lemma strlen_repeat_string s n : strlen (repeat_string s n) = Z.of_nat n * strlen s.
Proof.
  induction n as [|n IH]; [reflexivity|].
  cbn [repeat_string]. rewrite strlen_app, IH. lia.
Qed.

(** *** Decimal numerals *)

Lemma is_digit_uint d : forallb is_digit (chars (NilEmpty.string_of_uint d)) = true.
Proof. induction d; simpl; auto. Qed.

Lemma uint_of_string_zeros k s d :
  NilEmpty.uint_of_string s = Some d →
  ∃ d', NilEmpty.uint_of_string (repeat_string "0" k +:+ s) = Some d'
        ∧ Pos.of_uint d' = Pos.of_uint d.
Proof.
  intros Hs. induction k as [|k (d' & Hd' & Heq)].
  - simpl. eauto.
  - change (repeat_string "0" (S k) +:+ s) with (String "0" (repeat_string "0" k +:+ s)).
    cbn [NilEmpty.uint_of_string]. rewrite Hd'. simpl. eauto.
Qed.

Lemma uint_of_string_nonempty s :
  s ≠ "" → NilZero.uint_of_string s = NilEmpty.uint_of_string s.
Proof. by destruct s. Qed.

(** [Number] reads a numeral back, leading zeros or not. *)
Lemma Number_padded (n : nat) (k : nat) :
  Number (repeat_string "0" k +:+ string_of_Z (Z.of_nat n)) = Some (Z.of_nat n).
Proof.
  assert (Hsz : ∃ d, string_of_Z (Z.of_nat n) = NilEmpty.string_of_uint d
                     ∧ d ≠ Nil ∧ Z.of_uint d = Z.of_nat n).
  { unfold string_of_Z. destruct n as [|n].
    - exists (D0 Nil). by repeat split.
    - simpl. exists (Pos.to_uint (Pos.of_succ_nat n)).
      pose proof (DecimalPos.Unsigned.to_uint_nonnil (Pos.of_succ_nat n)) as Hnn.
      split; [|split; [done|]].
      + unfold NilZero.string_of_uint. by destruct (Pos.to_uint _).
      + unfold Z.of_uint. by rewrite DecimalPos.Unsigned.of_to. }
  destruct Hsz as (d & -> & Hd & Hval).
  set (s := repeat_string "0" k +:+ NilEmpty.string_of_uint d).
  assert (Hne : s ≠ "").
  { intros Hs. apply (f_equal chars) in Hs. subst s. rewrite chars_app in Hs.
    apply app_eq_nil in Hs as [_ Hs]. apply Hd.
    destruct d; [reflexivity|..]; unfold chars in Hs; simpl in Hs; discriminate Hs. }
  assert (Hdig : forallb is_digit (chars s) = true).
  { subst s. rewrite chars_app, forallb_app, is_digit_uint, andb_true_r.
    clear. induction k; simpl; auto. }
  unfold Number. destruct s eqn:Es; [done|]. rewrite <- Es in *.
  rewrite Hdig, uint_of_string_nonempty by done.
  destruct (uint_of_string_zeros k _ d (NilEmpty.usu d)) as (d' & Hd' & Heq).
  subst s. rewrite Hd'. simpl. unfold Z.of_uint in *. by rewrite Heq, Hval.
Qed.

Lemma Number_string_of_Z (n : nat) : Number (string_of_Z (Z.of_nat n)) = Some (Z.of_nat n).
Proof. apply (Number_padded n 0). Qed.

Lemma is_digit_string_of_Z (n : nat) :
  forallb is_digit (chars (string_of_Z (Z.of_nat n))) = true.
Proof.
  unfold string_of_Z. destruct n as [|n]; [reflexivity|]. simpl.
  unfold NilZero.string_of_uint.
  pose proof (is_digit_uint (Pos.to_uint (Pos.of_succ_nat n))).
  by destruct (Pos.to_uint _).
Qed.

Lemma is_digit_repeat_zero k : forallb is_digit (chars (repeat_string "0" k)) = true.
Proof. induction k; simpl; auto. Qed.

(** A digit is none of the characters the sprite format gives a meaning. *)
Lemma digits_no_comma s : forallb is_digit (chars s) = true → ","%char ∉ chars s.
Proof.
  intros H Hin. rewrite forallb_forall in H.
  apply list_elem_of_In in Hin. by apply H in Hin.
Qed.


End StringFacts.

(** ** The decoder *)
Module PixelRendrFacts.
Import JS StringFilr PixelRendr PixelRendrTerms StringFacts.

Lemma stringOf_repeat str times : stringOf str times = repeat_string str (Z.to_nat times).
Proof. unfold stringOf. destruct (Z.eqb_spec times 0) as [->|]; reflexivity. Qed.

Lemma makeDigit_pad num size :
  makeDigit num size "0" = repeat_string "0" (Z.to_nat (Z.max 0 (size - strlen num))) +:+ num.
Proof. unfold makeDigit. by rewrite stringOf_repeat. Qed.

(** A text already as wide as asked is left as it is. *)
Lemma makeDigit_full num size : size ≤ strlen num → makeDigit num size "0" = num.
Proof.
  intros H. rewrite makeDigit_pad. replace (Z.to_nat _) with O by lia. reflexivity.
Qed.

(** A digit is neither of the command characters. *)
Lemma digit_is_literal {A} (c : ascii) (a b d : A) :
  is_digit c = true →
  match Some c with Some "x"%char => a | Some "p"%char => b | _ => d end = d.
Proof.
  destruct c as [[] [] [] [] [] [] [] []]; intros H; try discriminate H; reflexivity.
Qed.

Lemma digit_groups_repeat d n size fuel :
  (1 ≤ size)%nat → length (chars d) = size → (n ≤ fuel)%nat →
  digit_groups_chars fuel size (chars (repeat_string d n)) = replicate n d.
Proof.
  intros Hsize Hd. revert fuel. induction n as [|n IH]; intros fuel Hfuel.
  - by destruct fuel.
  - destruct fuel as [|fuel]; [lia|]. cbn [repeat_string digit_groups_chars].
    rewrite chars_app. destruct (chars d ++ _) eqn:E.
    { apply (f_equal length) in E. rewrite length_app in E. simpl in E. lia. }
    rewrite <- E, <- Hd, take_app_length, drop_app_length, of_chars_chars.
    rewrite Hd, IH by lia. reflexivity.
Qed.

Lemma concat_strings_repeat d n k :
  concat_strings ((fun current => repeat_string current k) <$> replicate n d)
  = repeat_string d (n * k).
Proof.
  induction n as [|n IH]; [reflexivity|].
  change (S n * k)%nat with (k + n * k)%nat. rewrite repeat_string_add, <- IH. reflexivity.
Qed.

Lemma mapM_replicate {A B} (f : A → outcome B) a b n :
  f a = Ok b → mapM f (replicate n a) = Ok (replicate n b).
Proof. intros H. induction n as [|n IH]; simpl; [reflexivity|]. by rewrite H, IH. Qed.

Lemma repeat_string_nonempty d n : d ≠ "" → (1 ≤ n)%nat → repeat_string d n ≠ "".
Proof. intros Hd Hn. destruct n; [lia|]. simpl. by destruct d. Qed.

Section Decoding.
Variable pr : PixelRendr.
Hypothesis digitsize_pos : 1 ≤ digitsizeDefault pr.

Lemma padded_strlen i :
  strlen (string_of_Z (Z.of_nat i)) ≤ digitsizeDefault pr →
  strlen (padded pr i) = digitsizeDefault pr.
Proof.
  intros H. unfold padded. rewrite makeDigit_pad, strlen_app, strlen_repeat_string.
  change (strlen "0") with 1. lia.
Qed.

Lemma padded_digits i : forallb is_digit (chars (padded pr i)) = true.
Proof.
  unfold padded. rewrite makeDigit_pad, chars_app, forallb_app.
  by rewrite is_digit_repeat_zero, is_digit_string_of_Z.
Qed.

Lemma padded_Number i : Number (padded pr i) = Some (Z.of_nat i).
Proof. unfold padded. rewrite makeDigit_pad. apply Number_padded. Qed.

Lemma starting_reference_lookup (len i : nat) :
  (i < len)%nat →
  getPaletteReferenceStarting pr (replicate len []) !! padded pr i = Some (padded pr i).
Proof.
  unfold getPaletteReferenceStarting. rewrite length_replicate. intros Hi.
  assert (Hin : i ∈ seq 0 len) by (apply elem_of_seq; lia).
  generalize (seq 0 len) Hin. clear Hi Hin.
  fold (padded pr i).
  assert (Hgen : ∀ (l : list nat) (out : gmap string string),
             i ∈ l ∨ out !! padded pr i = Some (padded pr i) →
             foldl (fun output j =>
                      <[makeDigit (string_of_Z (Z.of_nat j)) (digitsizeDefault pr) "0"
                        := makeDigit (string_of_Z (Z.of_nat j)) (digitsizeDefault pr) "0"]>
                        output) out l !! padded pr i = Some (padded pr i)).
  { induction l as [|a l IH]; intros out H; simpl.
    - destruct H as [H|H]; [inversion H|done].
    - apply IH. fold (padded pr a).
      destruct (decide (padded pr a = padded pr i)) as [->|Hne].
      + right. apply lookup_insert_eq.
      + rewrite lookup_insert_ne by done.
        destruct H as [H|H]; [|by right].
        apply elem_of_cons in H as [->|H]; [done|by left]. }
  intros l Hl. apply Hgen. by left.
Qed.

Lemma starting_reference_length palette :
  getPaletteReferenceStarting pr palette
  = getPaletteReferenceStarting pr (replicate (length palette) []).
Proof. unfold getPaletteReferenceStarting. by rewrite length_replicate. Qed.

Lemma padded_cons i :
  strlen (string_of_Z (Z.of_nat i)) ≤ digitsizeDefault pr →
  ∃ c rest, padded pr i = String c rest ∧ is_digit c = true.
Proof.
  intros H. pose proof (padded_strlen i H) as Hlen. pose proof (padded_digits i) as Hd.
  destruct (padded pr i) as [|c rest].
  - unfold strlen in Hlen. simpl in Hlen. lia.
  - exists c, rest. split; [done|]. unfold chars in Hd. simpl in Hd.
    by apply andb_true_iff in Hd as [? _].
Qed.

(** Unravelling the run-length form of [n] pixels of colour [i]. *)
Lemma spriteUnravel_run i n fuel :
  strlen (string_of_Z (Z.of_nat i)) ≤ digitsizeDefault pr →
  (i < length (paletteDefault pr))%nat →
  (2 ≤ fuel)%nat →
  spriteUnravel fuel pr ("x" +:+ padded pr i +:+ string_of_Z (Z.of_nat n) +:+ ",")
  = Ok (repeat_string (padded pr i) n).
Proof.
  intros Hfit Hi Hfuel. destruct fuel as [|[|fuel]]; try lia.
  pose proof (padded_strlen i Hfit) as Hlen.
  pose proof (starting_reference_lookup _ i Hi) as Href.
  set (d := padded pr i) in *. set (ns := string_of_Z (Z.of_nat n)).
  set (colors := "x" +:+ d +:+ ns +:+ ",").
  assert (Hcl : strlen colors = 1 + digitsizeDefault pr + strlen ns + 1).
  { subst colors. rewrite !strlen_app, Hlen.
    change (strlen "x") with 1. change (strlen ",") with 1. lia. }
  pose proof (strlen_nonneg ns) as Hns.
  unfold spriteUnravel. cbn [spriteUnravel_loop].
  destruct (Z.ltb_spec 0 (strlen colors)); [|lia].
  change (charAt colors 0) with (Some "x"%char). cbv iota.
  assert (Hnix : indexOf colors ","%char (0 + 1) = 1 + digitsizeDefault pr + strlen ns).
  { change (0 + 1) with (strlen "x"). subst colors.
    rewrite <- (app_assoc_string d ns ",").
    rewrite (indexOf_after "x" (d +:+ ns) ","%char "").
    - rewrite strlen_app, Hlen. change (strlen "x") with 1. lia.
    - rewrite chars_app. intros [H0|H0]%elem_of_app.
      + by apply (digits_no_comma d (padded_digits i)).
      + by apply (digits_no_comma ns (is_digit_string_of_Z n)). }
  rewrite Hnix.
  assert (Hd : slice colors (0 + 1) (0 + 1 + digitsizeDefault pr) = d).
  { change (0 + 1) with (strlen "x"). rewrite <- Hlen. subst colors.
    apply (slice_middle "x" d (ns +:+ ",")). }
  rewrite Hd.
  assert (Hn : slice colors (0 + 1 + digitsizeDefault pr) (1 + digitsizeDefault pr + strlen ns) = ns).
  { subst colors. rewrite <- (app_assoc_string "x" d (ns +:+ ",")).
    replace (0 + 1 + digitsizeDefault pr) with (strlen ("x" +:+ d))
      by (rewrite strlen_app, Hlen; reflexivity).
    replace (1 + digitsizeDefault pr + strlen ns) with (strlen ("x" +:+ d) + strlen ns)
      by (rewrite strlen_app, Hlen; reflexivity).
    apply (slice_middle ("x" +:+ d) ns ","). }
  rewrite Hn. subst ns. rewrite Number_string_of_Z.
  rewrite starting_reference_length, Href.
  change (show (Some d)) with d. rewrite makeDigit_full by lia.
  destruct (Z.ltb_spec (1 + digitsizeDefault pr + strlen (string_of_Z (Z.of_nat n)) + 1)
                       (strlen colors)); [lia|].
  by rewrite Nat2Z.id.
Qed.

(** Unravelling the same pixels written out one by one. *)
Lemma spriteUnravel_literal_loop i m k fuel output :
  strlen (string_of_Z (Z.of_nat i)) ≤ digitsizeDefault pr →
  (i < length (paletteDefault pr))%nat →
  (m < fuel)%nat →
  spriteUnravel_loop fuel pr (repeat_string (padded pr i) k +:+ repeat_string (padded pr i) m)
    (getPaletteReferenceStarting pr (paletteDefault pr)) (digitsizeDefault pr)
    (Z.of_nat k * digitsizeDefault pr) output
  = Ok (output +:+ repeat_string (padded pr i) m).
Proof.
  intros Hfit Hi. pose proof (padded_strlen i Hfit) as Hlen.
  pose proof (starting_reference_lookup _ i Hi) as Href.
  destruct (padded_cons i Hfit) as (c & rest & Hcons & Hc).
  revert k fuel output. induction m as [|m IH]; intros k fuel output Hfuel.
  - destruct fuel as [|fuel]; [lia|]. cbn [spriteUnravel_loop repeat_string].
    rewrite app_empty_r, strlen_repeat_string, Hlen.
    destruct (Z.ltb_spec (Z.of_nat k * digitsizeDefault pr) (Z.of_nat k * digitsizeDefault pr)); [lia|].
    by rewrite app_empty_r.
  - destruct fuel as [|fuel]; [lia|]. cbn [spriteUnravel_loop repeat_string].
    set (d := padded pr i) in *.
    rewrite strlen_app, !strlen_app, !strlen_repeat_string, Hlen.
    destruct (Z.ltb_spec (Z.of_nat k * digitsizeDefault pr)
                (Z.of_nat k * digitsizeDefault pr
                 + (digitsizeDefault pr + Z.of_nat m * digitsizeDefault pr))); [|lia].
    assert (Hat : charAt (repeat_string d k +:+ d +:+ repeat_string d m)
                    (Z.of_nat k * digitsizeDefault pr) = Some c).
    { rewrite <- Hlen, <- strlen_repeat_string. rewrite Hcons at 2.
      change (String c rest +:+ repeat_string d m) with (String c (rest +:+ repeat_string d m)).
      apply charAt_after. }
    rewrite Hat, (digit_is_literal c) by done.
    assert (Hsl : slice (repeat_string d k +:+ d +:+ repeat_string d m)
                    (Z.of_nat k * digitsizeDefault pr)
                    (Z.of_nat k * digitsizeDefault pr + digitsizeDefault pr) = d).
    { rewrite <- Hlen at 3. rewrite <- Hlen, <- strlen_repeat_string. apply slice_middle. }
    rewrite Hsl, starting_reference_length, Href.
    change (show (Some d)) with d. rewrite makeDigit_full by lia.
    replace (Z.of_nat k * digitsizeDefault pr + digitsizeDefault pr)
      with (Z.of_nat (S k) * digitsizeDefault pr) by lia.
    rewrite <- (app_assoc_string (repeat_string d k) d), <- repeat_string_S_r.
    rewrite <- starting_reference_length, IH by lia.
    by rewrite app_assoc_string.
Qed.

Lemma spriteUnravel_literal i n fuel :
  strlen (string_of_Z (Z.of_nat i)) ≤ digitsizeDefault pr →
  (i < length (paletteDefault pr))%nat →
  (n < fuel)%nat →
  spriteUnravel fuel pr (repeat_string (padded pr i) n) = Ok (repeat_string (padded pr i) n).
Proof.
  intros Hfit Hi Hfuel. unfold spriteUnravel.
  apply (spriteUnravel_literal_loop i n 0 fuel "" Hfit Hi Hfuel).
Qed.

(** The stages after unravelling, on [m] pixels of colour [i]. *)
Lemma spriteExpand_repeat i n :
  strlen (string_of_Z (Z.of_nat i)) ≤ digitsizeDefault pr →
  spriteExpand pr (repeat_string (padded pr i) n)
  = Ok (repeat_string (padded pr i) (n * Z.to_nat (scale pr))).
Proof.
  intros Hfit. pose proof (padded_strlen i Hfit) as Hlen. unfold spriteExpand.
  destruct (String.eqb_spec (repeat_string (padded pr i) n) "") as [E|E].
  - destruct n as [|n]; [reflexivity|]. exfalso.
    apply (f_equal strlen) in E. rewrite strlen_repeat_string, Hlen in E.
    change (strlen "") with 0 in E. nia.
  - destruct (Z.ltb_spec (digitsizeDefault pr) 1); [lia|].
    unfold digit_groups. rewrite digit_groups_repeat.
    + by rewrite concat_strings_repeat.
    + lia.
    + unfold strlen in Hlen. lia.
    + pose proof (strlen_repeat_string (padded pr i) n) as Hl. unfold strlen in Hl, Hlen. nia.
Qed.

Lemma spriteGetArray_repeat i m rgba :
  strlen (string_of_Z (Z.of_nat i)) ≤ digitsizeDefault pr →
  paletteDefault pr !! i = Some rgba →
  spriteGetArray pr (repeat_string (padded pr i) m)
  = Ok (concat (replicate m (color_bytes rgba))).
Proof.
  intros Hfit Hrgba. pose proof (padded_strlen i Hfit) as Hlen. unfold spriteGetArray.
  unfold digit_groups. rewrite digit_groups_repeat.
  - rewrite (mapM_replicate _ _ (color_bytes rgba)).
    + cbn. f_equal. apply take_ge.
      rewrite length_concat, fmap_replicate, sum_list_replicate.
      rewrite strlen_repeat_string, Hlen.
      replace (Z.of_nat m * digitsizeDefault pr * 4) with (Z.of_nat m * 4 * digitsizeDefault pr) by lia.
      rewrite Z.div_mul by lia. unfold color_bytes. simpl. lia.
    + by rewrite padded_Number, Nat2Z.id, Hrgba.
  - lia.
  - unfold strlen in Hlen. lia.
  - pose proof (strlen_repeat_string (padded pr i) m) as Hl. unfold strlen in Hl, Hlen. nia.
Qed.

(** Both ways of writing [n] pixels of colour [i] unravel to the same
    digits, so every later stage sees the same input. *)
Lemma decode_run_as_literal i n fuel fuel' attributes :
  strlen (string_of_Z (Z.of_nat i)) ≤ digitsizeDefault pr →
  (i < length (paletteDefault pr))%nat →
  (2 ≤ fuel)%nat → (n < fuel')%nat →
  ProcessorBase_run fuel pr ("x" +:+ padded pr i +:+ string_of_Z (Z.of_nat n) +:+ ",") attributes
  = ProcessorBase_run fuel' pr (repeat_string (padded pr i) n) attributes.
Proof.
  intros Hfit Hi Hfuel Hfuel'. unfold ProcessorBase_run.
  by rewrite spriteUnravel_run, spriteUnravel_literal.
Qed.

Lemma decode_literal i n fuel rgba :
  strlen (string_of_Z (Z.of_nat i)) ≤ digitsizeDefault pr →
  paletteDefault pr !! i = Some rgba →
  (n < fuel)%nat →
  ProcessorBase_run fuel pr (repeat_string (padded pr i) n) None
  = Ok (concat (replicate (n * Z.to_nat (scale pr)) (color_bytes rgba))).
Proof.
  intros Hfit Hrgba Hfuel. unfold ProcessorBase_run.
  rewrite spriteUnravel_literal by (try done; by eapply lookup_lt_Some).
  cbn. rewrite spriteExpand_repeat by done. cbn.
  by apply spriteGetArray_repeat.
Qed.

End Decoding.

(** C6.  For a palette index [i] written at the default digit size and a
    count [n] of at least 1, decoding the run-length form [x<d><n>,] and
    decoding [d] written [n] times give the same result whatever the
    attributes, and without a filter that result is the buffer of [n * scale]
    pixels of colour [i]; with the three-colour palette, ["x022,1"] decodes to
    22 transparent-black pixels and one opaque-red pixel. *)
Theorem run_length_decodes_as_literal :
  (∀ (pr : PixelRendr) (i n : nat) (rgba : list Z) (fuel fuel' : nat),
     1 ≤ digitsizeDefault pr →
     strlen (string_of_Z (Z.of_nat i)) ≤ digitsizeDefault pr →
     paletteDefault pr !! i = Some rgba →
     (1 ≤ n)%nat → (2 ≤ fuel)%nat → (n < fuel')%nat →
     let run := "x" +:+ padded pr i +:+ string_of_Z (Z.of_nat n) +:+ "," in
     let literal := repeat_string (padded pr i) n in
     (∀ attributes,
        ProcessorBase_run fuel pr run attributes
        = ProcessorBase_run fuel' pr literal attributes)
     ∧ ProcessorBase_run fuel pr run None
       = Ok (concat (replicate (n * Z.to_nat (scale pr)) (color_bytes rgba)))
     ∧ ProcessorBase_run fuel' pr literal None
       = Ok (concat (replicate (n * Z.to_nat (scale pr)) (color_bytes rgba))))
  ∧ ProcessorBase_run 3 scenario_rendr "x022,1" None
    = Ok (concat (replicate 22 [0; 0; 0; 0]) ++ [255; 0; 0; 255]).
Proof.
  split; [|by vm_compute].
  intros pr i n rgba fuel fuel' Hds Hfit Hrgba Hn Hfuel Hfuel' run literal.
  assert (Hi : (i < length (paletteDefault pr))%nat) by (by eapply lookup_lt_Some).
  assert (Heq : ∀ attributes,
             ProcessorBase_run fuel pr run attributes
             = ProcessorBase_run fuel' pr literal attributes).
  { intros a. by apply decode_run_as_literal. }
  split; [exact Heq|]. rewrite Heq. split; by apply decode_literal.
Qed.

Lemma run_length_decodes_as_literal_witness :
  (∀ attributes,
     ProcessorBase_run 2 scenario_rendr ("x" +:+ padded scenario_rendr 2 +:+ "5" +:+ ",") attributes
     = ProcessorBase_run 6 scenario_rendr (repeat_string (padded scenario_rendr 2) 5) attributes)
  ∧ ProcessorBase_run 2 scenario_rendr ("x" +:+ padded scenario_rendr 2 +:+ "5" +:+ ",") None
    = Ok (concat (replicate 5 [0; 255; 0; 255]))
  ∧ ProcessorBase_run 6 scenario_rendr (repeat_string (padded scenario_rendr 2) 5) None
    = Ok (concat (replicate 5 [0; 255; 0; 255])).
Proof.
  apply (proj1 run_length_decodes_as_literal scenario_rendr 2%nat 5%nat [0; 255; 0; 255] 2%nat 6%nat).
  - by vm_compute.
  - by vm_compute.
  - reflexivity.
  - lia.
  - lia.
  - lia.
Defined.

(** *** What the palette commands do *)

(** C8, first half, at a failing input.  At the start of an encoding the
    digit [1] unravels to [1]; after a bare [p] the same digit unravels to the
    text of the palette colour, [255,0,0,255]: [getPaletteReference] is handed
    the colours of the default palette where it expects indices. *)
Lemma palette_reset_garbles_digits :
  spriteUnravel 2 scenario_rendr "1" = Ok "1"
  ∧ spriteUnravel 4 scenario_rendr "1p1" = Ok "1255,0,0,255".
Proof. split; by vm_compute. Qed.

(** C8, second half, at a failing input.  The end of a [p[...]] block is
    looked for from the start of the text ([colors.indexOf("]")]), so a second
    block sends the scan back to the end of the first one: on ["p[1]0p[2]0"]
    the loop never ends, whatever the fuel. *)
Lemma second_palette_block_never_ends fuel :
  spriteUnravel fuel scenario_rendr "p[1]0p[2]0" = OutOfFuel.
Proof.
  set (colors := "p[1]0p[2]0").
  assert (Hloop : ∀ fuel ref output,
             spriteUnravel_loop fuel scenario_rendr colors ref 1 4 output = OutOfFuel
             ∧ spriteUnravel_loop fuel scenario_rendr colors ref 1 5 output = OutOfFuel).
  { clear fuel. induction fuel as [|fuel IH]; intros ref output; [done|]. split.
    - cbn [spriteUnravel_loop].
      change (4 <? strlen colors) with true. change (charAt colors 4) with (Some "0"%char).
      cbv iota. apply IH.
    - cbn [spriteUnravel_loop].
      change (5 <? strlen colors) with true. change (charAt colors 5) with (Some "p"%char).
      cbv iota. change (charAt colors (5 + 1)) with (Some "["%char). cbv iota.
      change (indexOf colors "]"%char 0 + 1) with 4. apply IH. }
  destruct fuel as [|fuel]; [done|].
  unfold spriteUnravel. cbn [spriteUnravel_loop].
  change (0 <? strlen colors) with true. change (charAt colors 0) with (Some "p"%char).
  cbv iota. change (charAt colors (0 + 1)) with (Some "["%char). cbv iota.
  change (indexOf colors "]"%char 0 + 1) with 4. apply Hloop.
Qed.

(** A single [p[...]] block does switch palettes: with the custom palette
    [2,1] the digits [0] and [1] unravel to the default indices 2 and 1. *)
Lemma single_palette_block_switches :
  spriteUnravel 5 scenario_rendr "p[2,1]011" = Ok "211".
Proof. by vm_compute. Qed.

(** C8 at its failing inputs, as one statement: a bare [p] does not bring
    back the decoding of the start of the encoding, and a second [p[...]]
    block keeps [spriteUnravel] from returning. *)
Theorem palette_commands_at_failing_inputs :
  (spriteUnravel 2 scenario_rendr "1" = Ok "1"
   ∧ spriteUnravel 4 scenario_rendr "1p1" = Ok "1255,0,0,255")
  ∧ ∀ fuel, spriteUnravel fuel scenario_rendr "p[1]0p[2]0" = OutOfFuel.
Proof.
  split; [exact palette_reset_garbles_digits|exact second_palette_block_never_ends].
Qed.

(** *** The encoder *)

Lemma foldl_rev_foldr {A B} (f : A → B → A) (a : A) (l : list B) :
  foldl f a (rev l) = foldr (fun x acc => f acc x) a l.
Proof.
  induction l as [|x l IH]; [reflexivity|].
  simpl. rewrite foldl_app. simpl. by rewrite IH.
Qed.

Lemma getClosestInPalette_foldr palette rgba :
  getClosestInPalette palette rgba
  = snd <$> foldr (closest_step palette rgba) None (seq 0 (length palette)).
Proof.
  unfold getClosestInPalette. rewrite foldl_rev_foldr.
  change (fun (x : nat) (acc : option (Z * nat)) => _) with (closest_step palette rgba).
  by destruct (foldr _ _ _) as [[? ?]|].
Qed.

(** What the scan holds after the indices from [s] on: the least difference
    among them, at the highest index that reaches it (an index scanned later
    takes over only with a strictly smaller difference). *)
Lemma closest_scan palette rgba s n :
  match foldr (closest_step palette rgba) None (seq s n) with
  | None => n = O
  | Some (d, i) =>
      (s ≤ i < s + n)%nat
      ∧ d = arrayDifference (default [] (palette !! i)) rgba
      ∧ ∀ j, (s ≤ j < s + n)%nat →
             d ≤ arrayDifference (default [] (palette !! j)) rgba
             ∧ (arrayDifference (default [] (palette !! j)) rgba = d → (j ≤ i)%nat)
  end.
Proof.
  revert s. induction n as [|n IH]; intros s; [reflexivity|].
  cbn [seq foldr]. specialize (IH (S s)).
  destruct (foldr _ _ (seq (S s) n)) as [[d i]|]; unfold closest_step.
  - destruct IH as (Hi & Hd & Hmin).
    destruct (Z.ltb_spec (arrayDifference (default [] (palette !! s)) rgba) d).
    + split; [lia|]. split; [reflexivity|]. intros j Hj.
      destruct (decide (j = s)) as [->|Hne]; [lia|].
      destruct (Hmin j) as [? ?]; lia.
    + split; [lia|]. split; [exact Hd|]. intros j Hj.
      destruct (decide (j = s)) as [->|Hne]; [lia|].
      apply Hmin. lia.
  - subst n. split; [lia|]. split; [reflexivity|]. intros j Hj.
    assert (j = s) as -> by lia. lia.
Qed.

(** [getClosestInPalette] answers with the palette entry of least summed
    channel difference, the highest such index on a tie; only an empty
    palette has no answer. *)
Lemma getClosestInPalette_nearest palette rgba :
  match getClosestInPalette palette rgba with
  | None => palette = []
  | Some i =>
      (i < length palette)%nat
      ∧ ∀ j, (j < length palette)%nat →
             arrayDifference (default [] (palette !! i)) rgba
             ≤ arrayDifference (default [] (palette !! j)) rgba
             ∧ (arrayDifference (default [] (palette !! j)) rgba
                = arrayDifference (default [] (palette !! i)) rgba → (j ≤ i)%nat)
  end.
Proof.
  rewrite getClosestInPalette_foldr.
  pose proof (closest_scan palette rgba 0 (length palette)) as H.
  destruct (foldr _ _ _) as [[d i]|]; simpl.
  - destruct H as (Hi & -> & Hmin). split; [lia|]. intros j Hj. apply Hmin. lia.
  - by apply length_zero_iff_nil.
Qed.

Lemma subarrays_nonempty data : data ≠ [] → subarrays (length data) data ≠ [].
Proof. by destruct data. Qed.

(** The working palette of an image with a pixel is not empty. *)
Lemma working_palette_nonempty (pr : PixelRendr) data :
  data ≠ [] → occurence_keys pr (imageGetPixels pr data) ≠ [].
Proof.
  intros Hdata. unfold imageGetPixels.
  destruct (subarrays (length data) data) as [|rgba rest] eqn:E.
  { by apply subarrays_nonempty in E. }
  cbn [fmap list_fmap]. set (pixels := _ :: _).
  assert (Hin : getClosestInPalette (paletteDefault pr) rgba ∈ pixels) by (by left).
  unfold occurence_keys.
  pose proof (getClosestInPalette_nearest (paletteDefault pr) rgba) as Hnear.
  destruct (getClosestInPalette (paletteDefault pr) rgba) as [i|].
  - destruct Hnear as [Hi _].
    assert (Hf : i ∈ List.filter (fun i => bool_decide (Some i ∈ pixels))
                       (seq 0 (length (paletteDefault pr)))).
    { apply list_elem_of_In, filter_In. split.
      - apply in_seq. lia.
      - by apply bool_decide_eq_true. }
    intros Hnil. apply app_eq_nil in Hnil as [Hnil _].
    apply fmap_nil_inv in Hnil. rewrite Hnil in Hf. inversion Hf.
  - rewrite bool_decide_eq_true_2 by done.
    intros Hnil. apply app_eq_nil in Hnil as [_ Hnil]. discriminate.
Qed.

(** C2 at its failing inputs.  [encode] throws on every image that has a
    pixel: the palette header is written by [makeSizedDigit] bound to no
    [this], whose first call fails.  No text comes out, so there is nothing
    for [decode] to read back. *)
Theorem encode_throws (pr : PixelRendr) (data : list Z) :
  data ≠ [] → encode pr data = Throw TypeError.
Proof.
  intros Hdata. unfold encode, imageMapPalette.
  pose proof (working_palette_nonempty pr data Hdata) as Hne.
  destruct (occurence_keys pr (imageGetPixels pr data)) as [|k ks]; [done|].
  reflexivity.
Qed.

Lemma encode_throws_witness :
  encode scenario_rendr [255; 0; 0; 255] = Throw TypeError.
Proof. apply (encode_throws scenario_rendr [255; 0; 0; 255]). discriminate. Defined.

End PixelRendrFacts.

(** ** The library index *)
Module StringFilrFacts.
Import JS StringFilr StringFilrTerms StringFacts.

(** Induction over a library: a plain object may assume the property of all
    it holds. *)
Lemma value_ind_props (P : value → Prop) :
  P VUndefined → (∀ b, P (VBool b)) → (∀ n, P (VNum n)) → (∀ s, P (VStr s)) →
  (∀ data, P (VSprite data)) →
  (∀ props, Forall (fun kv => P kv.2) props → P (VObj props)) →
  ∀ v, P v.
Proof.
  intros Hu Hb Hn Hs Hsp Hobj.
  refine (fix IH (v : value) : P v :=
            match v with
            | VUndefined => Hu
            | VBool b => Hb b
            | VNum n => Hn n
            | VStr s => Hs s
            | VSprite data => Hsp data
            | VObj props =>
                Hobj props
                  ((fix go (ps : list (string * value)) : Forall (fun kv => P kv.2) ps :=
                      match ps with
                      | [] => @List.Forall_nil _ (fun kv => P kv.2)
                      | kv :: ps' => @List.Forall_cons _ (fun kv => P kv.2) kv ps' (IH kv.2) (go ps')
                      end) props)
            end).
Qed.

Lemma list_find_kids_None {B} (f : value → B) key props :
  assoc key props = None →
  list_find (fun kv : string * B => kv.1 = key) (map (fun kv => (kv.1, f kv.2)) props) = None.
Proof.
  induction props as [|[k v] props IH]; [reflexivity|].
  cbn [map list_find assoc fst snd].
  destruct (String.eqb_spec k key) as [->|Hne]; [discriminate|].
  intros H. rewrite decide_False by done. by rewrite (IH H).
Qed.

Lemma list_find_kids_Some {B} (f : value → B) key props child :
  assoc key props = Some child →
  ∃ i, list_find (fun kv : string * B => kv.1 = key) (map (fun kv => (kv.1, f kv.2)) props)
       = Some (i, (key, f child)).
Proof.
  induction props as [|[k v] props IH]; [discriminate|].
  cbn [map list_find assoc fst snd].
  destruct (String.eqb_spec k key) as [->|Hne]; intros H.
  - injection H as <-. exists O. by rewrite decide_True.
  - destruct (IH H) as [i Hi]. exists (S i). rewrite decide_False by done.
    by rewrite Hi.
Qed.

Lemma first_owned_kids {B} (f : value → B) props keys i0 :
  first_owned (map (fun kv => (kv.1, f kv.2)) props) i0 keys
  = (fun r => ((i0 + r.1.1)%nat, f r.2)) <$> first_key props keys.
Proof.
  revert i0. induction keys as [|key keys IH]; intros i0; [reflexivity|].
  cbn [first_owned first_key].
  destruct (assoc key props) as [child|] eqn:E.
  - destruct (list_find_kids_Some f key props child E) as [i ->]. cbn.
    by rewrite Nat.add_0_r.
  - rewrite (list_find_kids_None f key props E), IH.
    destruct (first_key props keys) as [[[i k] c]|]; cbn; [|reflexivity].
    f_equal. f_equal. lia.
Qed.

(** [followClass] at a plain object, in terms of what the object holds. *)
Lemma followClass_object normal props key keys :
  followClass normal (VObj props) (key :: keys)
  = match first_key props (key :: keys) with
    | Some (i, _, child) => followClass normal child (delete i (key :: keys))
    | None =>
        match normal_set normal with
        | Some n =>
            match assoc n props with
            | Some child => followClass normal child (key :: keys)
            | None => Ok (VObj props)
            end
        | None => Ok (VObj props)
        end
    end.
Proof.
  cbn [followClass]. rewrite first_owned_kids.
  destruct (first_key props (key :: keys)) as [[[i k] c]|]; [reflexivity|].
  cbn. destruct (normal_set normal) as [n|]; [|reflexivity].
  destruct (assoc n props) as [child|] eqn:E.
  - by destruct (list_find_kids_Some (followClass normal) n props child E) as [i ->].
  - by rewrite (list_find_kids_None (followClass normal) n props E).
Qed.

Lemma first_key_Some props keys i k child :
  first_key props keys = Some (i, k, child) →
  keys !! i = Some k ∧ assoc k props = Some child
  ∧ ∀ j k', (j < i)%nat → keys !! j = Some k' → assoc k' props = None.
Proof.
  revert i. induction keys as [|key keys IH]; intros i; [discriminate|].
  cbn [first_key]. destruct (assoc key props) as [c|] eqn:E.
  - intros H; injection H as <- <- <-. repeat split; [done|]. intros; lia.
  - destruct (first_key props keys) as [[[i' k''] c]|]; [|discriminate].
    intros H; injection H as <- <- <-.
    destruct (IH i' eq_refl) as (H1 & H2 & H3). repeat split; [done..|].
    intros [|j] k' Hj Hk'; [by injection Hk' as <-|].
    apply (H3 j); [lia|done].
Qed.

Lemma first_key_None props keys :
  first_key props keys = None ↔ ∀ k, k ∈ keys → assoc k props = None.
Proof.
  induction keys as [|key keys IH]; cbn [first_key].
  - split; [|done]. intros _ k Hk. inversion Hk.
  - destruct (assoc key props) as [c|] eqn:E.
    + split; [discriminate|]. intros H. specialize (H key (list_elem_of_here _ _)). congruence.
    + destruct (first_key props keys) as [[[i k] c]|].
      * split; [discriminate|]. intros H.
        assert (Hn : @None (nat * string * value) = None) by done.
        exfalso. destruct IH as [_ IH]. discriminate IH.
        intros k' Hk'. apply H. by right.
      * split; [|done]. intros _ k [->|Hk]%elem_of_cons; [done|].
        by apply IH.
Qed.

Lemma unambiguous_object normal props key keys :
  unambiguous normal (VObj props) (key :: keys)
  = match first_key props (key :: keys) with
    | Some (i, k, child) =>
        forallb (fun k' => implb (owns props k') (String.eqb k' k)) (key :: keys)
        && unambiguous normal child (delete i (key :: keys))
    | None =>
        match normal_set normal with
        | Some n =>
            match assoc n props with
            | Some child => unambiguous normal child (key :: keys)
            | None => true
            end
        | None => true
        end
    end.
Proof.
  cbn [unambiguous]. rewrite first_owned_kids.
  destruct (first_key props (key :: keys)) as [[[i k] c]|] eqn:E.
  - cbn [fmap option_fmap option_map fst snd]. rewrite Nat.add_0_l.
    apply first_key_Some in E as (Hi & _ & _).
    by rewrite (nth_lookup_Some _ _ _ _ Hi).
  - cbn. destruct (normal_set normal) as [n|]; [|reflexivity].
    destruct (assoc n props) as [child|] eqn:E'.
    + by destruct (list_find_kids_Some (unambiguous normal) n props child E') as [i ->].
    + by rewrite (list_find_kids_None (unambiguous normal) n props E').
Qed.

(** *** A value that is no plain object answers alike for all orders *)

Lemma scan_leaf_result current keys :
  scan_leaf current keys = leaf_scan_result current keys.
Proof.
  destruct current; cbn [leaf_scan_result]; try reflexivity.
  - by destruct keys.
  - induction keys; [reflexivity|]. cbn. done.
  - induction keys; [reflexivity|]. cbn. done.
  - induction keys as [|k keys IH]; [reflexivity|]. cbn.
    destruct (index_like k); [reflexivity|]. cbn. exact IH.
  - induction keys as [|k keys IH]; [reflexivity|]. cbn.
    destruct (index_like k); [reflexivity|]. cbn. exact IH.
Qed.

Lemma existsb_Permutation {A} (f : A → bool) l1 l2 :
  Permutation l1 l2 → existsb f l1 = existsb f l2.
Proof.
  induction 1 as [|x l l' _ IH|x y l|l l' l'' _ IH1 _ IH2]; cbn.
  - reflexivity.
  - by rewrite IH.
  - destruct (f x), (f y); reflexivity.
  - congruence.
Qed.

Lemma forallb_Permutation {A} (f : A → bool) l1 l2 :
  Permutation l1 l2 → forallb f l1 = forallb f l2.
Proof.
  induction 1 as [|x l l' _ IH|x y l|l l' l'' _ IH1 _ IH2]; cbn.
  - reflexivity.
  - by rewrite IH.
  - destruct (f x), (f y); reflexivity.
  - congruence.
Qed.

Lemma leaf_scan_Permutation current keys1 keys2 :
  (∀ props, current ≠ VObj props) →
  Permutation keys1 keys2 →
  leaf_scan_result current keys1 = leaf_scan_result current keys2.
Proof.
  intros Hleaf Hperm. destruct current; cbn; try reflexivity.
  - destruct keys1, keys2; try reflexivity.
    + by apply Permutation_nil_cons in Hperm.
    + symmetry in Hperm. by apply Permutation_nil_cons in Hperm.
  - by rewrite (existsb_Permutation _ _ _ Hperm).
  - by rewrite (existsb_Permutation _ _ _ Hperm).
  - by destruct (Hleaf props).
Qed.

Lemma followClass_leaf normal current key keys :
  (∀ props, current ≠ VObj props) →
  followClass normal current (key :: keys)
  = (scan_leaf current (key :: keys) ≫= fun _ =>
       match normal_set normal with
       | Some n => hasOwnProperty current n ≫= fun b : bool =>
                     if b then Unmodelled else Ok current
       | None => Ok current
       end).
Proof. intros Hleaf. destruct current; try reflexivity. by destruct (Hleaf props). Qed.

(** *** Order of the keys *)

Lemma first_key_Permutation props keys1 keys2 i1 k child :
  Permutation keys1 keys2 →
  first_key props keys1 = Some (i1, k, child) →
  forallb (fun k' => implb (owns props k') (String.eqb k' k)) keys1 = true →
  ∃ i2, first_key props keys2 = Some (i2, k, child)
        ∧ Permutation (delete i1 keys1) (delete i2 keys2).
Proof.
  intros Hperm H1 Hall.
  apply first_key_Some in H1 as (Hi1 & Hk & _).
  destruct (first_key props keys2) as [[[i2 k2] c2]|] eqn:H2.
  - apply first_key_Some in H2 as (Hi2 & Hk2 & _).
    assert (k2 = k) as ->.
    { rewrite forallb_forall in Hall.
      assert (Hin : In k2 keys1).
      { apply list_elem_of_In. rewrite Hperm. by eapply list_elem_of_lookup_2. }
      specialize (Hall k2 Hin). unfold owns in Hall. rewrite Hk2 in Hall.
      rewrite bool_decide_eq_true_2 in Hall by eauto. cbn in Hall.
      by apply String.eqb_eq in Hall. }
    assert (c2 = child) as -> by congruence.
    exists i2. split; [done|].
    apply (Permutation_cons_inv (a := k)).
    rewrite <- (delete_Permutation keys1 i1 k Hi1), <- (delete_Permutation keys2 i2 k Hi2).
    exact Hperm.
  - exfalso. rewrite first_key_None in H2.
    assert (Hin : k ∈ keys2) by (rewrite <- Hperm; by eapply list_elem_of_lookup_2).
    specialize (H2 k Hin). congruence.
Qed.

Lemma first_key_None_Permutation props keys1 keys2 :
  Permutation keys1 keys2 → first_key props keys1 = None → first_key props keys2 = None.
Proof.
  intros Hperm H1. rewrite first_key_None in *. intros k Hk. apply H1. by rewrite Hperm.
Qed.

(** Where the keys resolve without a choice, their order does not matter. *)
Lemma followClass_Permutation normal current :
  ∀ keys1 keys2,
    Permutation keys1 keys2 →
    unambiguous normal current keys1 = true →
    followClass normal current keys1 = followClass normal current keys2.
Proof.
  induction current as [| | | | |props IH] using value_ind_props;
    intros keys1 keys2 Hperm Hun.
  1-5: (destruct keys1 as [|k1 keys1], keys2 as [|k2 keys2];
        [ reflexivity
        | by apply Permutation_nil_cons in Hperm
        | symmetry in Hperm; by apply Permutation_nil_cons in Hperm
        | rewrite !followClass_leaf by (intros ?; discriminate);
          rewrite !scan_leaf_result;
          rewrite (leaf_scan_Permutation _ (k1 :: keys1) (k2 :: keys2));
          [reflexivity | intros ?; discriminate | exact Hperm] ]).
  destruct keys1 as [|k1 keys1], keys2 as [|k2 keys2].
  - reflexivity.
  - by apply Permutation_nil_cons in Hperm.
  - symmetry in Hperm. by apply Permutation_nil_cons in Hperm.
  - rewrite unambiguous_object in Hun. rewrite !followClass_object.
    destruct (first_key props (k1 :: keys1)) as [[[i1 k] child]|] eqn:H1.
    + apply andb_true_iff in Hun as [Hall Hchild].
      destruct (first_key_Permutation _ _ _ _ _ _ Hperm H1 Hall) as (i2 & -> & Hperm').
      apply first_key_Some in H1 as (_ & Hk & _).
      assert (Hin : (k, child) ∈ props).
      { clear -Hk. induction props as [|[k' v'] props IHp]; [discriminate|].
        cbn in Hk. destruct (String.eqb_spec k' k) as [->|].
        - injection Hk as ->. by left.
        - right. by apply IHp. }
      rewrite Forall_forall in IH. by apply (IH _ Hin).
    + rewrite (first_key_None_Permutation _ _ _ Hperm H1).
      destruct (normal_set normal) as [n|]; [|reflexivity].
      destruct (assoc n props) as [child|] eqn:Hn; [|reflexivity].
      assert (Hin : (n, child) ∈ props).
      { clear -Hn. induction props as [|[k' v'] props IHp]; [discriminate|].
        cbn in Hn. destruct (String.eqb_spec k' n) as [->|].
        - injection Hn as ->. by left.
        - right. by apply IHp. }
      rewrite Forall_forall in IH. by apply (IH _ Hin).
Qed.

(** *** Cutting the normal class out of a key *)

Lemma is_prefix_app p v : is_prefix p (p ++ v) = true.
Proof. induction p as [|a p IH]; [reflexivity|]. cbn. by rewrite Ascii.eqb_refl. Qed.

Lemma is_prefix_split p l : is_prefix p l = true → l = p ++ drop (length p) l.
Proof.
  revert l. induction p as [|a p IH]; intros l H; [reflexivity|].
  destruct l as [|b l]; [discriminate|]. cbn in H.
  apply andb_true_iff in H as [Hab Hp]. apply Ascii.eqb_eq in Hab as ->.
  cbn. f_equal. by apply IH.
Qed.

Lemma remove_first_chars_unfold p l :
  remove_first_chars p l
  = if is_prefix p l then drop (length p) l
    else match l with
         | [] => []
         | x :: l' => x :: remove_first_chars p l'
         end.
Proof. by destruct l. Qed.

Lemma occurs_before_S p x l k :
  occurs_before p (x :: l) (S k) = is_prefix p (x :: l) || occurs_before p l k.
Proof.
  unfold occurs_before. cbn [seq existsb drop]. f_equal.
  generalize 0%nat. induction k as [|k IH]; intros s; [reflexivity|].
  cbn [seq existsb drop]. by rewrite IH.
Qed.

(** [replace] cuts out the occurrence that no other one precedes. *)
Lemma remove_first_chars_at p u v :
  occurs_before p (u ++ p ++ v) (length u) = false →
  remove_first_chars p (u ++ p ++ v) = u ++ v.
Proof.
  induction u as [|x u IH]; intros H.
  - cbn [app]. rewrite remove_first_chars_unfold, is_prefix_app.
    by rewrite drop_app_length.
  - cbn [app length] in *. rewrite occurs_before_S in H.
    apply orb_false_iff in H as [H0 H].
    rewrite remove_first_chars_unfold.
    cbn [app] in H0. rewrite H0. f_equal. by apply IH.
Qed.

Lemma remove_first_chars_absent p l : occurs_chars p l = false → remove_first_chars p l = l.
Proof.
  induction l as [|x l IH]; intros H.
  - cbn in *. rewrite orb_false_r in H. by rewrite H.
  - cbn [occurs_chars] in H. apply orb_false_iff in H as [H0 H].
    rewrite remove_first_chars_unfold, H0. f_equal. by apply IH.
Qed.

(** Where the pattern occurs, there is a first occurrence. *)
Lemma occurs_chars_first p l :
  occurs_chars p l = true →
  ∃ u v, l = u ++ p ++ v ∧ occurs_before p l (length u) = false.
Proof.
  induction l as [|x l IH]; intros H.
  - cbn in H. rewrite orb_false_r in H. exists [], []. split; [|reflexivity].
    apply is_prefix_split in H. rewrite drop_nil, app_nil_r in H. by subst p.
  - destruct (is_prefix p (x :: l)) eqn:H0.
    + exists [], (drop (length p) (x :: l)). split; [|reflexivity].
      by apply is_prefix_split.
    + cbn [occurs_chars] in H. rewrite H0 in H. cbn in H.
      destruct (IH H) as (u & v & -> & Hu).
      exists (x :: u), v. split; [reflexivity|].
      cbn [length]. rewrite occurs_before_S. cbn [app] in H0. by rewrite H0.
Qed.

Lemma replace_first_at n u v :
  first_at n (u +:+ n +:+ v) u → replace_first (u +:+ n +:+ v) n = u +:+ v.
Proof.
  unfold first_at, replace_first. rewrite !chars_app. intros H.
  rewrite remove_first_chars_at by done. by rewrite of_chars_app, !of_chars_chars.
Qed.

Lemma replace_first_absent n key : includes key n = false → replace_first key n = key.
Proof.
  unfold includes, replace_first. intros H.
  rewrite remove_first_chars_absent by done. apply of_chars_chars.
Qed.

Lemma includes_first n key :
  includes key n = true → ∃ u v, key = u +:+ n +:+ v ∧ first_at n key u.
Proof.
  unfold includes. intros H.
  destruct (occurs_chars_first _ _ H) as (u & v & Hl & Hu).
  exists (of_chars u), (of_chars v). split.
  - apply chars_inj. by rewrite !chars_app, !chars_of_chars.
  - unfold first_at. by rewrite chars_of_chars.
Qed.

Lemma normal_set_nonempty normal n : normal_set normal = Some n → n ≠ "".
Proof.
  unfold normal_set. destruct normal as [m|]; [|discriminate].
  destruct (String.eqb_spec m ""); [discriminate|]. by intros [= ->].
Qed.

(** *** The cache *)

Lemma get_hit sf keyRaw v :
  cache sf !! normalize sf keyRaw = Some v → get sf keyRaw = Ok (v, sf).
Proof. unfold get. by intros ->. Qed.

Lemma get_miss sf keyRaw :
  cache sf !! normalize sf keyRaw = None →
  get sf keyRaw
  = (followClass (normal sf) (library sf) (split_ws (normalize sf keyRaw)) ≫= fun result =>
       Ok (result,
           {| library := library sf; normal := normal sf;
              cache := <[normalize sf keyRaw := result]> (<[keyRaw := result]> (cache sf)) |})).
Proof. unfold get. by intros ->. Qed.

(** Two raw keys with one normalized key get one answer from any filer, and
    the second of two calls in a row finds the answer of the first. *)
Lemma get_same_normalized sf k1 k2 :
  normalize sf k1 = normalize sf k2 →
  answer (get sf k1) = answer (get sf k2)
  ∧ ∀ r sf', get sf k1 = Ok (r, sf') →
             cache sf' !! normalize sf k2 = Some r ∧ get sf' k2 = Ok (r, sf').
Proof.
  intros Hk. split.
  - unfold get. rewrite Hk. destruct (cache sf !! normalize sf k2); [reflexivity|].
    by destruct (followClass _ _ _).
  - intros r sf' Hget. unfold get in Hget. rewrite Hk in Hget.
    destruct (cache sf !! normalize sf k2) as [v|] eqn:Hc.
    + injection Hget as <- <-. split; [done|]. by apply get_hit.
    + destruct (followClass _ _ _) as [res| | |]; try discriminate.
      cbn in Hget. injection Hget as <- <-.
      assert (Hn : normalize {| library := library sf; normal := normal sf;
                                cache := <[normalize sf k2 := res]> (<[k1 := res]> (cache sf)) |} k2
                   = normalize sf k2) by reflexivity.
      split; [apply lookup_insert_eq|].
      apply get_hit. rewrite Hn. apply lookup_insert_eq.
Qed.

(** *** Order of the tokens of a key *)




(** *** The normal class inside a key *)




(** The cut is not aware of tokens: it takes the normal class out of the
    middle of a longer one, and the lookup then runs on what is left. *)
Lemma cut_inside_a_token :
  normalize (new_StringFilr plain_library (Some "normal")) "Mario abnormally" = "Mario ably"
  ∧ includes "Mario ably" "normal" = false
  ∧ answer (get (new_StringFilr plain_library (Some "normal")) "Mario abnormally")
    = answer (get (new_StringFilr plain_library (Some "normal")) "Mario ably").
Proof. repeat split; by vm_compute. Qed.

End StringFilrFacts.

(** ** Decoding by key *)
Module DecodeFacts.
Import JS StringFilr PixelRendr StringFilrTerms DecodeTerms StringFilrFacts.

Lemma SpriteMultiple_flag v : is_SpriteMultiple v = true → truthy (get_prop v "multiple") = true.
Proof.
  destruct v as [| | | | |props]; try discriminate. cbn.
  destruct (assoc "multiple" props) as [[|[]| | | |]|]; try discriminate. reflexivity.
Qed.




(** An unknown key ends at the root of the library, and [decode] throws. *)
Lemma decode_unknown_key :
  decode mario_rendr "Luigi" None = Throw "No single raw sprite found for: 'Luigi'".
Proof. by vm_compute. Qed.

End DecodeFacts.


(** ** The grid of quadrants *)
Module QuadsKeeprFacts.
Import JS QuadsKeepr QuadsKeeprTerms LoopFacts.

(** *** The containers after a column is dropped *)

(** C4 at a failing input.  After [resetQuadrants] every quadrant is listed
    once in the rows and once in the columns.  Shifting the grid by -11
    drops a column on the left and adds one on the right: the rows lose their
    first quadrants, but [shiftQuadrantCol] pops the last column container
    instead of the first.  Quadrants 2, 5 and 8 stay in the rows and are in
    no column; quadrants 0, 3 and 6 are gone from the rows and stay in a
    column. *)
Theorem dropped_column_breaks_containers :
  view (fun s => (quadrants <$> quadrantRows s, quadrants <$> quadrantCols s)) scenario_grid
  = Some ([[0; 1; 2]; [3; 4; 5]; [6; 7; 8]], [[0; 3; 6]; [1; 4; 7]; [2; 5; 8]])%nat
  ∧ view (fun s => (numRows s, numCols s,
                    quadrants <$> quadrantRows s, quadrants <$> quadrantCols s))
         (scenario_grid ≫= shiftQuadrants 2 (-11) 0)
    = Some (3, 3, [[1; 2; 9]; [4; 5; 10]; [7; 8; 11]]%nat,
            [[0; 3; 6]; [1; 4; 7]; [9; 10; 11]]%nat)
  ∧ view (fun s => (listings 2 (quadrantRows s), listings 2 (quadrantCols s),
                    listings 0 (quadrantRows s), listings 0 (quadrantCols s)))
         (scenario_grid ≫= shiftQuadrants 2 (-11) 0)
    = Some (1, 0, 0, 1)%nat.
Proof. repeat split; by vm_compute. Qed.

(** The same slip in [shiftQuadrantRow], called on its own. *)
Lemma dropped_row_breaks_containers :
  view (fun s => (quadrants <$> quadrantRows s, quadrants <$> quadrantCols s))
       (scenario_grid ≫= shiftQuadrantRow false)
  = Some ([[0; 1; 2]; [3; 4; 5]], [[3; 6]; [4; 7]; [5; 8]])%nat.
Proof. by vm_compute. Qed.

(** Scrolling up by more than a quadrant adds a row at both ends: the third
    loop of [adjustOffsets] unshifts where its siblings drop a row. *)
Lemma scrolling_up_adds_two_rows :
  view (fun s => (numRows s, top s, bottom s)) (scenario_grid ≫= shiftQuadrants 2 0 (-11))
  = Some (5, -21, 29).
Proof. by vm_compute. Qed.

(** *** Shifting there and back *)


Lemma well_formed_spec s :
  well_formed s = true →
  length (quadrantRows s) = Z.to_nat (numRows s)
  ∧ length (quadrantCols s) = Z.to_nat (numCols s)
  ∧ ∀ r, r ∈ quadrantRows s →
         length (quadrants r) = Z.to_nat (numCols s)
         ∧ ∀ id, id ∈ quadrants r → (id < length (heap s))%nat.
Proof.
  unfold well_formed. rewrite !andb_true_iff.
  intros [[[[_ _] Hr%Nat.eqb_eq] Hc%Nat.eqb_eq] Hall]. repeat split; [done..| |].
  - rewrite forallb_forall in Hall. apply list_elem_of_In, Hall in H.
    by apply andb_true_iff in H as [?%Nat.eqb_eq _].
  - intros id Hid. rewrite forallb_forall in Hall. apply list_elem_of_In, Hall in H.
    apply andb_true_iff in H as [_ H]. rewrite forallb_forall in H.
    apply list_elem_of_In, H in Hid. by apply Nat.ltb_lt.
Qed.

(** *** Loops over all of an array *)

Lemma foldM_ext {A B} (f g : B → A → outcome B) (l : list A) (b : B) :
  (∀ b a, a ∈ l → f b a = g b a) → foldM f l b = foldM g l b.
Proof.
  revert b. induction l as [|a l IH]; intros b H; [reflexivity|].
  cbn. rewrite H by (by left). destruct (g b a); cbn; try reflexivity.
  apply IH. intros; apply H. by right.
Qed.

(** Fetching the members of an array by index, first to last, visits the
    array. *)
Lemma foldM_fetch {A B} (g : B → A → outcome B) (l1 l2 : list A) (b : B) :
  foldM (fun b i => a ← fetch (l1 ++ l2) i; g b a) (seq (length l1) (length l2)) b
  = foldM g l2 b.
Proof.
  revert l1 b. induction l2 as [|a l2 IH]; intros l1 b; [reflexivity|].
  cbn [length seq foldM].
  assert (Hf : fetch (l1 ++ a :: l2) (length l1) = Ok a).
  { apply fetch_Ok. by rewrite lookup_app_r, Nat.sub_diag by lia. }
  rewrite Hf. cbn.
  destruct (g b a) as [b'| | |]; cbn; try reflexivity.
  specialize (IH (l1 ++ [a]) b'). rewrite <- app_assoc, length_app in IH. cbn in IH.
  by rewrite Nat.add_1_r in IH.
Qed.

Lemma foldM_fetch_all {A B} (g : B → A → outcome B) (l : list A) (b : B) :
  foldM (fun b i => a ← fetch l i; g b a) (seq 0 (length l)) b = foldM g l b.
Proof. apply (foldM_fetch g [] l b). Qed.

(** Updating the members of an array by index, first to last, maps the
    array. *)
Lemma foldM_update {A} (f : A → A) (l1 l2 : list A) :
  foldM (fun cs i => c ← fetch cs i; Ok (<[i := f c]> cs))
        (seq (length l1) (length l2)) (l1 ++ l2)
  = Ok (l1 ++ (f <$> l2)).
Proof.
  revert l1. induction l2 as [|a l2 IH]; intros l1; [reflexivity|].
  cbn [length seq foldM].
  assert (Hf : fetch (l1 ++ a :: l2) (length l1) = Ok a).
  { apply fetch_Ok. by rewrite lookup_app_r, Nat.sub_diag by lia. }
  rewrite Hf. cbn.
  rewrite insert_app_r_alt, Nat.sub_diag by lia. cbn [insert list_insert].
  specialize (IH (l1 ++ [f a])). rewrite <- !app_assoc, length_app in IH. cbn in IH.
  rewrite Nat.add_1_r in IH. by rewrite IH.
Qed.

Lemma move_containers_all n dx dy containers :
  length containers = Z.to_nat n →
  move_containers n dx dy containers = Ok (move_container dx dy <$> containers).
Proof.
  intros Hn. unfold move_containers, upto. rewrite <- Hn.
  apply (foldM_update (move_container dx dy) [] containers).
Qed.

(** *** Shifting every quadrant of the grid *)

Lemma shiftQuadrant_alter id dx dy h :
  (id < length h)%nat → shiftQuadrant id dx dy h = Ok (alter (shifted dx dy) id h).
Proof.
  intros Hid. unfold shiftQuadrant.
  destruct (lookup_lt_is_Some_2 h id Hid) as [q Hq].
  rewrite (proj2 (fetch_Ok h id q) Hq). cbn. f_equal.
  apply list_eq. intros i. destruct (decide (i = id)) as [->|Hne].
  - rewrite list_lookup_insert_eq, list_lookup_alter_eq, Hq by done. reflexivity.
  - by rewrite list_lookup_insert_ne, list_lookup_alter_ne.
Qed.

Lemma foldM_shiftQuadrant ids dx dy h :
  (∀ id, id ∈ ids → (id < length h)%nat) →
  foldM (fun h id => shiftQuadrant id dx dy h) ids h
  = Ok (foldl (fun h id => alter (shifted dx dy) id h) h ids).
Proof.
  revert h. induction ids as [|id ids IH]; intros h Hids; [reflexivity|].
  cbn. rewrite shiftQuadrant_alter by (apply Hids; by left). cbn.
  apply IH. intros id' Hid'. rewrite length_alter. apply Hids. by right.
Qed.

Lemma foldl_alter_lookup {A} (f : A → A) ids (h : list A) i :
  foldl (fun h id => alter f id h) h ids !! i
  = Nat.iter (length (List.filter (Nat.eqb i) ids)) f <$> h !! i.
Proof.
  revert h. induction ids as [|id ids IH]; intros h.
  - cbn. by destruct (h !! i).
  - cbn [foldl List.filter]. rewrite IH. destruct (Nat.eqb_spec i id) as [->|Hne].
    + rewrite list_lookup_alter_eq. cbn [length].
      destruct (h !! id) as [q|]; [|reflexivity]. cbn [fmap option_fmap option_map].
      by rewrite Nat.iter_succ_r.
    + by rewrite list_lookup_alter_ne.
Qed.

Lemma foldl_alter_length {A} (f : A → A) ids (h : list A) :
  length (foldl (fun h id => alter f id h) h ids) = length h.
Proof.
  revert h. induction ids as [|id ids IH]; intros h; [reflexivity|].
  cbn. by rewrite IH, length_alter.
Qed.

Lemma iter_shifted n dx dy q :
  q_top (Nat.iter n (shifted dx dy) q) = q_top q + Z.of_nat n * dy
  ∧ q_right (Nat.iter n (shifted dx dy) q) = q_right q + Z.of_nat n * dx
  ∧ q_bottom (Nat.iter n (shifted dx dy) q) = q_bottom q + Z.of_nat n * dy
  ∧ q_left (Nat.iter n (shifted dx dy) q) = q_left q + Z.of_nat n * dx
  ∧ things (Nat.iter n (shifted dx dy) q) = things q
  ∧ numthings (Nat.iter n (shifted dx dy) q) = numthings q.
Proof.
  induction n as [|n (Ht & Hr & Hb & Hl & Hth & Hn)].
  - cbn. repeat split; lia.
  - rewrite !Nat.iter_succ.
    cbn [shifted q_top q_right q_bottom q_left things numthings].
    rewrite Ht, Hr, Hb, Hl. repeat split; try done; lia.
Qed.

(** The three nested loops of [shiftQuadrants] over a well-formed grid. *)
Lemma shift_all_quadrants s dx dy :
  well_formed s = true →
  foldM (fun h row =>
           foldM (fun h col =>
                    r ← fetch (quadrantRows s) row;
                    id ← fetch (quadrants r) col;
                    shiftQuadrant id dx dy h)
                 (upto (numCols s)) h)
        (upto (numRows s)) (heap s)
  = Ok (foldl (fun h id => alter (shifted dx dy) id h) (heap s)
          (concat (quadrants <$> quadrantRows s))).
Proof.
  intros Hwf. destruct (well_formed_spec s Hwf) as (Hrows & _ & Hrow).
  unfold upto. rewrite <- Hrows.
  transitivity (foldM (fun h r => foldM (fun h id => shiftQuadrant id dx dy h) (quadrants r) h)
                      (quadrantRows s) (heap s)).
  - rewrite <- (foldM_fetch_all
                  (fun h r => foldM (fun h id => shiftQuadrant id dx dy h) (quadrants r) h)).
    apply foldM_ext. intros h row Hrow_in.
    apply elem_of_seq in Hrow_in as [_ Hlt]. cbn in Hlt.
    destruct (lookup_lt_is_Some_2 (quadrantRows s) row Hlt) as [r Hr].
    assert (Hfr : fetch (quadrantRows s) row = Ok r) by (by apply fetch_Ok).
    assert (Hin : r ∈ quadrantRows s) by (by eapply list_elem_of_lookup_2).
    destruct (Hrow r Hin) as [Hlen _]. rewrite <- Hlen, Hfr.
    change (Ok r ≫= ?k) with (k r). cbv beta.
    rewrite <- (foldM_fetch_all (fun h id => shiftQuadrant id dx dy h)).
    apply foldM_ext. intros h' col _. reflexivity.
  - assert (Hids : ∀ r, r ∈ quadrantRows s → ∀ id, id ∈ quadrants r → (id < length (heap s))%nat)
      by (intros r Hr; apply (Hrow r Hr)).
    clear Hrows Hrow Hwf. revert Hids. generalize (heap s) as h.
    induction (quadrantRows s) as [|r rows IH]; intros h Hids; [reflexivity|].
    cbn [foldM fmap list_fmap concat]. rewrite foldl_app.
    rewrite foldM_shiftQuadrant by (apply (Hids r); by left). cbn.
    apply IH. intros r' Hr' id Hid. rewrite foldl_alter_length. apply (Hids r'); [by right|done].
Qed.

Lemma while_done {S} fuel (cond : S → bool) body (s : S) :
  (1 ≤ fuel)%nat → cond s = false → while fuel cond body s = Ok s.
Proof. intros Hf Hc. destruct fuel; [lia|]. cbn. by rewrite Hc. Qed.

(** Within one quadrant of offset either way, [adjustOffsets] moves no row
    and no column. *)
Lemma adjustOffsets_within fuel s :
  (1 ≤ fuel)%nat →
  - quadrantWidth (settings s) ≤ offsetX s ≤ quadrantWidth (settings s) →
  - quadrantHeight (settings s) ≤ offsetY s ≤ quadrantHeight (settings s) →
  adjustOffsets fuel s = Ok s.
Proof.
  intros Hf Hx Hy. unfold adjustOffsets.
  rewrite while_done by (try done; apply Z.ltb_ge; lia). cbn.
  rewrite while_done by (try done; apply Z.ltb_ge; lia). cbn.
  rewrite while_done by (try done; apply Z.ltb_ge; lia). cbn.
  apply while_done; [done|]. apply Z.ltb_ge; lia.
Qed.

Lemma toInt32_small z : - 2 ^ 31 ≤ z < 2 ^ 31 → toInt32 z = z.
Proof. intros H. unfold toInt32. rewrite Z.mod_small; lia. Qed.

(** A shift that triggers no rebalancing, in full. *)
Lemma shiftQuadrants_within fuel dx dy s :
  well_formed s = true → (1 ≤ fuel)%nat →
  - 2 ^ 31 ≤ dx < 2 ^ 31 → - 2 ^ 31 ≤ dy < 2 ^ 31 →
  - quadrantWidth (settings s) ≤ offsetX s + dx ≤ quadrantWidth (settings s) →
  - quadrantHeight (settings s) ≤ offsetY s + dy ≤ quadrantHeight (settings s) →
  shiftQuadrants fuel dx dy s
  = Ok {| settings := settings s; numRows := numRows s; numCols := numCols s;
          top := top s + dy; right := right s + dx;
          bottom := bottom s + dy; left := left s + dx;
          offsetX := offsetX s + dx; offsetY := offsetY s + dy;
          quadrantRows := move_container dx dy <$> quadrantRows s;
          quadrantCols := move_container dx dy <$> quadrantCols s;
          heap := foldl (fun h id => alter (shifted dx dy) id h) (heap s)
                    (concat (quadrants <$> quadrantRows s));
          thingStore := thingStore s; events := events s |}.
Proof.
  intros Hwf Hf Hdx Hdy Hx Hy. destruct (well_formed_spec s Hwf) as (Hrows & Hcols & _).
  unfold shiftQuadrants. rewrite !toInt32_small by done. cbn.
  rewrite !move_containers_all by done. cbn.
  set (s1 := set_containers _ _ _).
  assert (Hloop := shift_all_quadrants s dx dy Hwf).
  replace (foldM _ (upto (numRows s1)) (heap s1))
    with (@Ok (list Quadrant)
            (foldl (fun h id => alter (shifted dx dy) id h) (heap s)
               (concat (quadrants <$> quadrantRows s)))).
  - cbn. by apply adjustOffsets_within.
  - rewrite <- Hloop. subst s1. cbn.
    apply foldM_ext. intros h row Hrow. apply foldM_ext. intros h' col Hcol.
    unfold fetch. rewrite list_lookup_fmap.
    by destruct (quadrantRows s !! row).
Qed.

Lemma move_container_quadrants dx dy (rows : list QuadrantRow) :
  quadrants <$> (move_container dx dy <$> rows) = quadrants <$> rows.
Proof. rewrite <- list_fmap_compose. by apply list_fmap_ext. Qed.

Lemma move_container_back dx dy (rows : list QuadrantRow) :
  move_container (- dx) (- dy) <$> (move_container dx dy <$> rows) = rows.
Proof.
  rewrite <- list_fmap_compose. rewrite <- (list_fmap_id rows) at 2.
  apply list_fmap_ext. intros i [l t qs] _. unfold move_container. cbn.
  f_equal; lia.
Qed.



(** *** The quadrants of a Thing *)


Lemma regular_grid_spec grp s :
  regular_grid grp s = true →
  0 < quadrantWidth (settings s) ∧ 0 < quadrantHeight (settings s)
  ∧ Z.of_nat (length (quadrantRows s)) = numRows s
  ∧ ∀ row r, quadrantRows s !! row = Some r →
      Z.of_nat (length (quadrants r)) = numCols s
      ∧ ∀ col id, quadrants r !! col = Some id →
          ∃ q, heap s !! id = Some q
               ∧ q_left q = left s + Z.of_nat col * quadrantWidth (settings s)
               ∧ q_right q = q_left q + quadrantWidth (settings s)
               ∧ q_top q = top s + Z.of_nat row * quadrantHeight (settings s)
               ∧ q_bottom q = q_top q + quadrantHeight (settings s)
               ∧ has_group grp q = true.
Proof.
  unfold regular_grid. rewrite !andb_true_iff.
  intros [[[[Hw%Z.ltb_lt Hh%Z.ltb_lt] Hr%Z.eqb_eq] Hlen] Hcells].
  split; [done|]. split; [done|]. split; [done|].
  intros row r Hrow. split.
  - rewrite forallb_forall in Hlen. apply Z.eqb_eq, Hlen, list_elem_of_In.
    by eapply list_elem_of_lookup_2.
  - intros col id Hcol. rewrite forallb_forall in Hcells.
    specialize (Hcells (row, r)). cbn in Hcells.
    assert (Hin : In (row, r) (imap pair (quadrantRows s))).
    { apply list_elem_of_In, list_elem_of_lookup. exists row.
      by rewrite list_lookup_imap, Hrow. }
    apply Hcells in Hin. rewrite forallb_forall in Hin.
    specialize (Hin (col, id)). cbn in Hin.
    assert (Hin' : In (col, id) (imap pair (quadrants r))).
    { apply list_elem_of_In, list_elem_of_lookup. exists col.
      by rewrite list_lookup_imap, Hcol. }
    apply Hin in Hin'. unfold cell_ok in Hin'.
    destruct (heap s !! id) as [q|]; [|done]. exists q.
    rewrite !andb_true_iff in Hin'.
    destruct Hin' as [[[[?%Z.eqb_eq ?%Z.eqb_eq] ?%Z.eqb_eq] ?%Z.eqb_eq] ?].
    done.
Qed.

(** *** Two ways to walk a part of an array *)

Lemma foldM_range {A B} (F : B → option A → outcome B) (l : list A) (n : nat) (a : Z) (st : B) :
  0 ≤ a → (Z.to_nat a + n ≤ length l)%nat →
  foldM (fun st k => F st (l !! Z.to_nat k)) ((fun k => a + Z.of_nat k) <$> seq 0 n) st
  = foldM (fun st x => F st (Some x)) (take n (drop (Z.to_nat a) l)) st.
Proof.
  revert a st. induction n as [|n IH]; intros a st Ha Hlen; [reflexivity|].
  destruct (lookup_lt_is_Some_2 l (Z.to_nat a)) as [x Hx]; [lia|].
  rewrite (drop_S _ _ _ Hx). cbn [seq fmap list_fmap take foldM].
  rewrite Z.add_0_r, Hx. destruct (F st (Some x)) as [st'| | |]; cbn; try reflexivity.
  rewrite <- fmap_S_seq, <- list_fmap_compose.
  specialize (IH (a + 1) st'). replace (Z.to_nat (a + 1)) with (S (Z.to_nat a)) in IH by lia.
  rewrite <- IH by lia. f_equal. apply list_fmap_ext. intros i k _. cbn. lia.
Qed.

Lemma foldM_slice {A B} (F : B → option A → outcome B) (l : list A) (a b : Z) (st : B) :
  0 ≤ a → b < Z.of_nat (length l) →
  foldM (fun st k => F st (l !! Z.to_nat k)) (zrange a b) st
  = foldM (fun st x => F st (Some x)) (slice a b l) st.
Proof.
  intros Ha Hb. unfold zrange, slice. destruct (Z.le_gt_cases a b).
  - apply foldM_range; lia.
  - by replace (Z.to_nat (b - a + 1)) with 0%nat by lia.
Qed.

Lemma band_head (a b : Z) :
  0 ≤ a → (a <=? Z.of_nat 0) && (Z.of_nat 0 <=? b) = (a =? 0) && (0 <=? b).
Proof. intros Ha. change (Z.of_nat 0) with 0. destruct (Z.eqb_spec a 0); lia. Qed.

Lemma band_tail (a b : Z) (j : nat) :
  0 ≤ a →
  (a <=? Z.of_nat (S j)) && (Z.of_nat (S j) <=? b)
  = (Z.max (a - 1) 0 <=? Z.of_nat j) && (Z.of_nat j <=? b - 1).
Proof.
  intros Ha. rewrite Nat2Z.inj_succ.
  destruct (Z.leb_spec a (Z.succ (Z.of_nat j))), (Z.leb_spec (Z.succ (Z.of_nat j)) b),
    (Z.leb_spec (Z.max (a - 1) 0) (Z.of_nat j)), (Z.leb_spec (Z.of_nat j) (b - 1));
    cbn; try reflexivity; lia.
Qed.

Lemma slice_cons {A} (x : A) (l : list A) (a b : Z) :
  0 ≤ a →
  slice a b (x :: l)
  = if (a =? 0) && (0 <=? b) then x :: slice (Z.max (a - 1) 0) (b - 1) l
    else slice (Z.max (a - 1) 0) (b - 1) l.
Proof.
  intros Ha. unfold slice. destruct (Z.eqb_spec a 0) as [->|Hne].
  - change (Z.to_nat (Z.max (0 - 1) 0)) with 0%nat. change (Z.to_nat 0) with 0%nat.
    cbn [drop andb]. destruct (Z.leb_spec 0 b).
    + replace (Z.to_nat (b - 0 + 1)) with (S (Z.to_nat (b - 1 - Z.max (0 - 1) 0 + 1))) by lia.
      reflexivity.
    + replace (Z.to_nat (b - 0 + 1)) with 0%nat by lia.
      by replace (Z.to_nat (b - 1 - Z.max (0 - 1) 0 + 1)) with 0%nat by lia.
  - cbn [andb]. replace (Z.to_nat a) with (S (Z.to_nat (Z.max (a - 1) 0))) by lia.
    cbn [drop]. do 2 f_equal. lia.
Qed.

Lemma filter_slice {A} (P : A → bool) (l : list A) (a b : Z) :
  0 ≤ a →
  (∀ j x, l !! j = Some x → P x = (a <=? Z.of_nat j) && (Z.of_nat j <=? b)) →
  List.filter P l = slice a b l.
Proof.
  revert a b. induction l as [|x l IH]; intros a b Ha HP.
  - unfold slice. by rewrite drop_nil, take_nil.
  - cbn [List.filter]. rewrite (HP 0%nat x eq_refl), band_head, slice_cons by done.
    rewrite (IH (Z.max (a - 1) 0) (b - 1)); [done|lia|].
    intros j y Hy. rewrite (HP (S j) y Hy). by apply band_tail.
Qed.

Lemma concat_slice {A B} (g h : A → list B) (l : list A) (a b : Z) :
  0 ≤ a →
  (∀ j x, l !! j = Some x →
          g x = if (a <=? Z.of_nat j) && (Z.of_nat j <=? b) then h x else []) →
  concat (g <$> l) = concat (h <$> slice a b l).
Proof.
  revert a b. induction l as [|x l IH]; intros a b Ha HP.
  - unfold slice. by rewrite drop_nil, take_nil.
  - cbn [fmap list_fmap concat]. rewrite (HP 0%nat x eq_refl), band_head, slice_cons by done.
    rewrite (IH (Z.max (a - 1) 0) (b - 1)); [by destruct ((a =? 0) && (0 <=? b))|lia|].
    intros j y Hy. rewrite (HP (S j) y Hy). by rewrite band_tail.
Qed.

(** *** One quadrant entered *)

Lemma take_array_set {A} (l : list (option A)) (n : nat) (v : A) :
  take (S n) (array_set l n v) = take n l ++ replicate (n - length l) None ++ [Some v].
Proof.
  unfold array_set. destruct (Nat.ltb_spec n (length l)) as [Hlt|Hge].
  - replace (n - length l)%nat with 0%nat by lia. cbn [replicate app].
    rewrite (take_S_r _ _ (Some v)) by (by apply list_lookup_insert_eq).
    by rewrite take_insert_ge by lia.
  - rewrite (take_ge l n) by lia. apply take_ge.
    rewrite !length_app, length_replicate. cbn. lia.
Qed.

Lemma has_group_enter tid grp c q :
  has_group grp q = true → has_group grp (enter tid grp c q) = true.
Proof.
  unfold has_group, enter.
  destruct (things q !! grp) as [members|] eqn:Hm; [|done].
  destruct (numthings q !! grp) as [n|] eqn:Hn; [|done]. cbn.
  rewrite !lookup_insert_eq. lia.
Qed.

Lemma bounds_enter tid grp c q : bounds (enter tid grp c q) = bounds q.
Proof.
  unfold enter. destruct (things q !! grp); [|done]. by destruct (numthings q !! grp).
Qed.

Lemma refers_to_enter tid grp c q :
  has_group grp q = true → refers_to grp tid (enter tid grp c q) = true.
Proof.
  unfold has_group, enter, refers_to.
  destruct (things q !! grp) as [members|] eqn:Hm; [|done].
  destruct (numthings q !! grp) as [n|] eqn:Hn; [|done]. intros Hpos%Z.leb_le. cbn.
  rewrite !lookup_insert_eq.
  replace (Z.to_nat (n + 1)) with (S (Z.to_nat n)) by lia.
  rewrite take_array_set, !existsb_app. cbn. by rewrite Nat.eqb_refl, !orb_true_r.
Qed.

Lemma iter_enter tid grp c k q :
  has_group grp q = true →
  has_group grp (Nat.iter k (enter tid grp c) q) = true
  ∧ bounds (Nat.iter k (enter tid grp c) q) = bounds q
  ∧ refers_to grp tid (Nat.iter k (enter tid grp c) q) = (0 <? k)%nat || refers_to grp tid q.
Proof.
  intros Hq. induction k as [|k (Hg & Hb & _)].
  - cbn. done.
  - rewrite Nat.iter_succ. split; [by apply has_group_enter|].
    split; [by rewrite bounds_enter|]. by rewrite refers_to_enter.
Qed.

Lemma setThingInQuadrant_enter tid thing id grp h q :
  h !! id = Some q → has_group grp q = true →
  setThingInQuadrant tid thing (Some id) grp h
  = Ok (record_quadrant thing id, alter (enter tid grp (t_changed thing)) id h).
Proof.
  intros Hq Hg. unfold setThingInQuadrant, has_group in *.
  rewrite (proj2 (fetch_Ok h id q) Hq). cbn.
  destruct (things q !! grp) as [members|] eqn:Hm; [|done].
  destruct (numthings q !! grp) as [n|] eqn:Hn; [|done].
  unfold record_quadrant. do 2 f_equal.
  apply list_eq. intros i. destruct (decide (i = id)) as [->|Hne].
  - rewrite list_lookup_insert_eq, list_lookup_alter_eq, Hq by (by eapply lookup_lt_Some).
    cbn. unfold enter. by rewrite Hm, Hn.
  - by rewrite list_lookup_insert_ne, list_lookup_alter_ne.
Qed.

Lemma grouped_alter tid grp c h ids id :
  grouped grp h ids → grouped grp (alter (enter tid grp c) id h) ids.
Proof.
  intros Hg id' Hid'. destruct (Hg id' Hid') as (q & Hq & Hgq).
  destruct (decide (id' = id)) as [->|Hne].
  - exists (enter tid grp c q). rewrite list_lookup_alter_eq, Hq. split; [done|].
    by apply has_group_enter.
  - exists q. by rewrite list_lookup_alter_ne.
Qed.

Lemma t_changed_foldl thing ids :
  t_changed (foldl record_quadrant thing ids) = t_changed thing.
Proof.
  revert thing. induction ids as [|id ids IH]; intros thing; [done|].
  cbn [foldl]. by rewrite IH.
Qed.

(** The loop body of [determineThingQuadrants] over a list of quadrants. *)
Lemma foldM_setThingInQuadrant tid grp ids all thing h :
  grouped grp h all → ids ⊆ all →
  foldM (fun st id => setThingInQuadrant tid st.1 (Some id) grp st.2) ids (thing, h)
  = Ok (foldl record_quadrant thing ids,
        foldl (fun h id => alter (enter tid grp (t_changed thing)) id h) h ids).
Proof.
  revert thing h. induction ids as [|id ids IH]; intros thing h Hg Hsub; [done|].
  cbn [foldM foldl fst snd].
  destruct (Hg id) as (q & Hq & Hgq); [apply Hsub; by left|].
  rewrite (setThingInQuadrant_enter _ _ _ _ _ q) by done. cbn.
  rewrite IH; [done|by apply grouped_alter|].
  intros id' Hid'. apply Hsub. by right.
Qed.

Lemma recorded_foldl ids thing pre :
  numquads thing = Z.of_nat (length pre) → recorded thing = Some <$> pre →
  recorded (foldl record_quadrant thing ids) = Some <$> (pre ++ ids)
  ∧ box (foldl record_quadrant thing ids) = box thing.
Proof.
  revert thing pre. induction ids as [|id ids IH]; intros thing pre Hn Hrec.
  - cbn. by rewrite app_nil_r.
  - cbn [foldl]. destruct (IH (record_quadrant thing id) (pre ++ [id])) as [Hr Hb].
    + cbn. rewrite Hn, length_app. cbn. lia.
    + unfold recorded in *. cbn [record_quadrant set_membership numquads t_quadrants].
      rewrite Hn in *. rewrite Nat2Z.id in *.
      replace (Z.to_nat (Z.of_nat (length pre) + 1)) with (S (length pre)) by lia.
      rewrite take_array_set, Hrec, fmap_app.
      assert (Hlen : (length pre ≤ length (t_quadrants thing))%nat).
      { rewrite <- (length_fmap Some pre), <- Hrec, length_take. lia. }
      by replace (length pre - length (t_quadrants thing))%nat with 0%nat by lia.
    + rewrite <- app_assoc in Hr. by rewrite Hr, Hb.
Qed.

(** *** The quadrants a Thing leaves are marked *)

Lemma mark_loop thing h0 (indices : list nat) h :
  (∀ i, i ∈ indices → ∃ id, t_quadrants thing !! i = Some (Some id) ∧ (id < length h0)%nat) →
  Forall2 same_data h0 h →
  ∃ h', foldM (fun h i =>
                 match t_quadrants thing !! i with
                 | Some (Some id) => q ← fetch h id; Ok (<[id := set_changed true q]> h)
                 | _ => Throw TypeError
                 end) indices h = Ok h'
        ∧ Forall2 same_data h0 h'.
Proof.
  revert h. induction indices as [|i indices IH]; intros h Hi Hsim; [by exists h|].
  cbn [foldM]. destruct (Hi i) as (id & -> & Hid); [by left|].
  assert (Hlen : length h0 = length h) by (by eapply Forall2_length).
  destruct (lookup_lt_is_Some_2 h id) as [q Hq]; [lia|].
  destruct (lookup_lt_is_Some_2 h0 id Hid) as [q0 Hq0].
  rewrite (proj2 (fetch_Ok h id q) Hq). cbn.
  apply IH; [intros; apply Hi; by right|].
  rewrite <- (list_insert_id h0 id q0 Hq0). apply Forall2_insert; [done|].
  destruct (Forall2_lookup_lr _ _ _ _ _ _ Hsim Hq0 Hq) as (Hb & Ht & Hn). by split.
Qed.

Lemma markThingQuadrantsChanged_ok s thing :
  known_quadrants s thing = true →
  ∃ h', markThingQuadrantsChanged thing (heap s) = Ok h' ∧ Forall2 same_data (heap s) h'.
Proof.
  unfold known_quadrants. rewrite andb_true_iff. intros [Hlen%Nat.leb_le Hall].
  apply mark_loop; [|by apply Forall_Forall2_diag, Forall_forall].
  intros i [_ Hi]%elem_of_seq. cbn in Hi.
  destruct (lookup_lt_is_Some_2 (t_quadrants thing) i) as [e He]; [lia|].
  rewrite forallb_forall in Hall. specialize (Hall e).
  destruct e as [id|].
  - exists id. split; [done|]. apply Nat.ltb_lt, Hall, list_elem_of_In.
    apply list_elem_of_lookup. exists i. unfold recorded. by rewrite lookup_take_lt.
  - discriminate Hall. apply list_elem_of_In, list_elem_of_lookup. exists i.
    unfold recorded. by rewrite lookup_take_lt.
Qed.

(** *** The loops of [determineThingQuadrants] *)

Lemma foldM_concat {A B C} (g : B → C → outcome B) (f : A → list C) (l : list A) (b : B) :
  foldM (fun b a => foldM g (f a) b) l b = foldM g (concat (f <$> l)) b.
Proof.
  revert b. induction l as [|a l IH]; intros b; [done|].
  cbn [foldM fmap list_fmap concat]. rewrite foldM_app.
  destruct (foldM g (f a) b); cbn; auto.
Qed.

Lemma slice_subseteq {A} (a b : Z) (l : list A) : slice a b l ⊆ l.
Proof. unfold slice. etrans; [apply subseteq_take|apply subseteq_drop]. Qed.

Lemma visit_loop s tid grp rs re cs ce st :
  0 ≤ rs → re < Z.of_nat (length (quadrantRows s)) → 0 ≤ cs →
  (∀ r, r ∈ quadrantRows s → ce < Z.of_nat (length (quadrants r))) →
  foldM (fun st row =>
           foldM (fun st col =>
                    r ← fetch (quadrantRows s) (Z.to_nat row);
                    setThingInQuadrant tid st.1 (quadrants r !! Z.to_nat col) grp st.2)
                 (zrange cs ce) st)
        (zrange rs re) st
  = foldM (fun st id => setThingInQuadrant tid st.1 (Some id) grp st.2)
          (visited s rs re cs ce) st.
Proof.
  intros Hrs Hre Hcs Hce. unfold visited. rewrite <- foldM_concat.
  pose (F := fun (st : Thing * list Quadrant) (o : option QuadrantRow) =>
               foldM (fun st col =>
                        r ← match o with Some a => Ok a | None => Throw TypeError end;
                        setThingInQuadrant tid st.1 (quadrants r !! Z.to_nat col) grp st.2)
                     (zrange cs ce) st).
  transitivity (foldM (fun st r => F st (Some r)) (slice rs re (quadrantRows s)) st).
  - exact (foldM_slice F (quadrantRows s) rs re st Hrs Hre).
  - apply foldM_ext. intros st' r Hr.
    exact (foldM_slice (fun st o => setThingInQuadrant tid st.1 o grp st.2)
             (quadrants r) cs ce st' Hcs (Hce r (slice_subseteq _ _ _ _ Hr))).
Qed.

(** *** The quadrants visited are the quadrants met *)

(** The indices between the clamped quotients are those of the cells that
    reach from the lower coordinate to the upper. *)
Lemma band_cells (o w x1 x2 n j : Z) :
  0 < w → 0 ≤ j < n →
  (Z.max ((x1 - o) / w) 0 <=? j) && (j <=? Z.min ((x2 - o) / w) (n - 1))
  = (o + j * w <=? x2) && (x1 <? o + j * w + w).
Proof.
  intros Hw Hj. apply eq_iff_eq_true.
  rewrite !andb_true_iff, !Z.leb_le, Z.ltb_lt.
  pose proof (Z.div_mod (x1 - o) w ltac:(lia)) as H1.
  pose proof (Z.mod_pos_bound (x1 - o) w Hw) as H1'.
  pose proof (Z.div_mod (x2 - o) w ltac:(lia)) as H2.
  pose proof (Z.mod_pos_bound (x2 - o) w Hw) as H2'.
  split; intros [Ha Hb]; split; nia.
Qed.

Section Visits.
Variables (s : QuadsKeepr) (thing : Thing) (t r b l : Z).
Hypothesis regular : regular_grid (group thing) s = true.
Hypothesis Htop : getTop s thing = Some t.
Hypothesis Hright : getRight s thing = Some r.
Hypothesis Hbottom : getBottom s thing = Some b.
Hypothesis Hleft : getLeft s thing = Some l.

Let rs := Z.max ((t - top s) / quadrantHeight (settings s)) 0.
Let re := Z.min ((b - top s) / quadrantHeight (settings s)) (numRows s - 1).
Let cs := Z.max ((l - left s) / quadrantWidth (settings s)) 0.
Let ce := Z.min ((r - left s) / quadrantWidth (settings s)) (numCols s - 1).

Lemma meets_cell (i j : nat) (row : QuadrantRow) (id : nat) :
  quadrantRows s !! i = Some row → quadrants row !! j = Some id →
  meets s thing id
  = ((rs <=? Z.of_nat i) && (Z.of_nat i <=? re)) && ((cs <=? Z.of_nat j) && (Z.of_nat j <=? ce)).
Proof.
  intros Hrow Hid.
  destruct (regular_grid_spec _ _ regular) as (Hw & Hh & Hrows & Hcells).
  destruct (Hcells i row Hrow) as [Hlen Hcell].
  destruct (Hcell j id Hid) as (q & Hq & Hql & Hqr & Hqt & Hqb & _).
  apply lookup_lt_Some in Hrow, Hid.
  unfold meets, intersects. rewrite Hq, Htop, Hright, Hbottom, Hleft.
  subst rs re cs ce.
  rewrite (band_cells (top s) _ t b (numRows s)) by lia.
  rewrite (band_cells (left s) _ l r (numCols s)) by lia.
  rewrite Hqb, Hqr, Hqt, Hql.
  rewrite (andb_comm (_ && _) (_ && _)), !andb_assoc. reflexivity.
Qed.

Lemma visited_occupied : visited s rs re cs ce = occupied s thing.
Proof.
  unfold visited, occupied, cells.
  rewrite <- concat_filter_map. change (@map) with (@fmap list _). 
  rewrite <- list_fmap_compose. symmetry. apply concat_slice; [subst rs; lia|].
  intros i row Hrow. cbn.
  destruct ((rs <=? Z.of_nat i) && (Z.of_nat i <=? re)) eqn:Hband.
  - apply filter_slice; [subst cs; lia|].
    intros j id Hid. by rewrite (meets_cell i j row id), Hband.
  - change [] with (slice 0 (-1) (quadrants row)).
    apply filter_slice; [lia|].
    intros j id Hid. rewrite (meets_cell i j row id), Hband by done. cbn. lia.
Qed.

End Visits.

Lemma loops_occupied s tid thing st :
  regular_grid (group thing) s = true →
  foldM (fun st row =>
           foldM (fun st col =>
                    r ← fetch (quadrantRows s) (Z.to_nat row);
                    setThingInQuadrant tid st.1 (quadrants r !! Z.to_nat col) (group thing) st.2)
                 (loop_range (findQuadrantColStart s thing) (findQuadrantColEnd s thing)) st)
        (loop_range (findQuadrantRowStart s thing) (findQuadrantRowEnd s thing)) st
  = foldM (fun st id => setThingInQuadrant tid st.1 (Some id) (group thing) st.2)
          (occupied s thing) st.
Proof.
  intros Hreg. destruct (regular_grid_spec _ _ Hreg) as (Hw & Hh & Hrows & Hcells).
  unfold findQuadrantRowStart, findQuadrantRowEnd, findQuadrantColStart, findQuadrantColEnd.
  destruct (getBottom s thing) as [b|] eqn:Hb.
  - assert (∃ t, getTop s thing = Some t) as [t Ht]
      by (unfold getTop; destruct (keyOffsetY (settings s)); eauto).
    assert (∃ r, getRight s thing = Some r) as [r Hr]
      by (unfold getRight; destruct (keyOffsetX (settings s)); eauto).
    assert (∃ l, getLeft s thing = Some l) as [l Hl]
      by (unfold getLeft; destruct (keyOffsetX (settings s)); eauto).
    rewrite Ht, Hr, Hl. cbn [fmap option_fmap option_map loop_range].
    rewrite <- (visited_occupied s thing t r b l) by done.
    apply visit_loop; [lia..|].
    intros row [i Hrow]%list_elem_of_lookup. destruct (Hcells i row Hrow) as [Hlen _]. lia.
  - cbn [fmap option_fmap option_map].
    replace (occupied s thing) with (@nil nat).
    + by destruct (_ <$> getTop s thing).
    + unfold occupied. symmetry. apply (filter_slice _ _ 0 (-1)); [lia|].
      intros j id _. unfold meets, intersects. rewrite Hb.
      destruct (heap s !! id), (getTop s thing), (getRight s thing); lia.
Qed.

Lemma intersects_ext s s' thing thing' q q' :
  settings s' = settings s → box thing' = box thing → bounds q' = bounds q →
  intersects s' thing' q' = intersects s thing q.
Proof.
  unfold box, bounds, intersects, getTop, getRight, getBottom, getLeft.
  intros -> [= -> -> -> -> -> -> _] [= -> -> -> ->]. reflexivity.
Qed.

Lemma refers_to_same_data grp tid q q' :
  same_data q q' → refers_to grp tid q' = refers_to grp tid q.
Proof. intros (_ & Ht & Hn). unfold refers_to. by rewrite Ht, Hn. Qed.

Lemma has_group_same_data grp q q' : same_data q q' → has_group grp q' = has_group grp q.
Proof. intros (_ & Ht & Hn). unfold has_group. by rewrite Ht, Hn. Qed.

Lemma regular_grid_cell grp s id :
  regular_grid grp s = true → id ∈ cells s →
  ∃ q, heap s !! id = Some q ∧ has_group grp q = true.
Proof.
  intros Hreg Hid. destruct (regular_grid_spec _ _ Hreg) as (_ & _ & _ & Hcells).
  unfold cells in Hid. apply list_elem_of_In, in_concat in Hid as (ids & Hids & Hid).
  apply list_elem_of_In in Hids, Hid.
  apply list_elem_of_fmap in Hids as (row & -> & Hrow).
  apply list_elem_of_lookup in Hrow as [i Hrow], Hid as [j Hid].
  destruct (Hcells i row Hrow) as [_ Hcell].
  destruct (Hcell j id Hid) as (q & Hq & _ & _ & _ & _ & Hg). eauto.
Qed.

Lemma counted_elem_of (id : nat) (ids : list nat) :
  (0 < length (List.filter (Nat.eqb id) ids))%nat ↔ id ∈ ids.
Proof.
  induction ids as [|id' ids IH]; cbn.
  - split; [lia|]. by intros ?%elem_of_nil.
  - rewrite elem_of_cons. destruct (Nat.eqb_spec id id') as [->|Hne]; cbn.
    + split; [auto|lia].
    + rewrite IH. split; [auto|]. intros [?|?]; [congruence|done].
Qed.

Lemma counted_occupied s thing id :
  id ∈ cells s →
  (0 <? length (List.filter (Nat.eqb id) (occupied s thing)))%nat = meets s thing id.
Proof.
  intros Hid. apply eq_iff_eq_true.
  rewrite Nat.ltb_lt, counted_elem_of. unfold occupied.
  rewrite list_elem_of_In, filter_In, <- list_elem_of_In. tauto.
Qed.

(** *** The quadrants of a Thing after [determineThingQuadrants] *)



(** The scenario of C1: on the grid of 3 by 3 quadrants of 10 by 10, the
    Thing with top 5, left 5, right 15 and bottom 15 has the quadrants of
    rows 0 and 1 and columns 0 and 1 on record, and they are the quadrants
    that refer to it. *)
Lemma scenario_occupies_four_cells :
  view (fun s => (recorded <$> thingStore s !! 0%nat, quadrants <$> quadrantRows s,
                  grid_refs "solid" 0 s))
       (scenario_grid ≫= determineThingQuadrants 0)
  = Some (Some [Some 0; Some 1; Some 3; Some 4]%nat,
          [[0; 1; 2]; [3; 4; 5]; [6; 7; 8]]%nat,
          [[Some true; Some true; Some false];
           [Some true; Some true; Some false];
           [Some false; Some false; Some false]]).
Proof. by vm_compute. Qed.

(** The quadrant the Thing left still lists it after the Thing has moved
    to the far corner and its quadrants are determined anew. *)
Lemma moved_thing_leaves_references :
  view (fun s => (recorded <$> thingStore s !! 0%nat, grid_refs "solid" 0 s))
       (((scenario_grid ≫= determineThingQuadrants 0) ≫= move_thing 0 25 27 27 25)
          ≫= determineThingQuadrants 0)
  = Some (Some [Some 8%nat],
          [[Some true; Some true; Some false];
           [Some true; Some true; Some false];
           [Some false; Some false; Some true]]).
Proof. by vm_compute. Qed.

End QuadsKeeprFacts.

(** ** The bottom of a Thing with offsets *)
Module OffsetFacts.
Import JS QuadsKeepr QuadsKeeprTerms OffsetTerms LoopFacts QuadsKeeprFacts.

Lemma marked_heap s thing :
  (t_changed thing = true → known_quadrants s thing = true) →
  ∃ h1, (if t_changed thing then markThingQuadrantsChanged thing (heap s) else Ok (heap s)) = Ok h1
        ∧ Forall2 same_data (heap s) h1.
Proof.
  intros Hknown. destruct (t_changed thing).
  - by apply markThingQuadrantsChanged_ok, Hknown.
  - exists (heap s). split; [done|]. by apply Forall_Forall2_diag, Forall_forall.
Qed.

(** X3.  With an offset key for x and none for y, [getBottom] adds the absolute
    value of a field that no Thing has: the bottom of every Thing is [NaN],
    the loop over the rows never runs, and the Thing is put into no
    quadrant, wherever it lies. *)
Theorem bottom_offset_slip (s : QuadsKeepr) (tid : nat) (thing : Thing) :
  keyOffsetX (settings s) = true → keyOffsetY (settings s) = false →
  thingStore s !! tid = Some thing →
  (t_changed thing = true → known_quadrants s thing = true) →
  ∃ s' thing',
    determineThingQuadrants tid s = Ok s'
    ∧ thingStore s' !! tid = Some thing'
    ∧ numquads thing' = 0 ∧ recorded thing' = []
    ∧ Forall2 same_data (heap s) (heap s').
Proof.
  intros Hx Hy Hthing Hknown.
  destruct (marked_heap s thing Hknown) as (h1 & Hmark & Hsim).
  unfold determineThingQuadrants. rewrite (proj2 (fetch_Ok _ _ _) Hthing). cbn.
  rewrite Hmark. cbn.
  unfold findQuadrantRowEnd, getBottom. rewrite Hx, Hy. cbn.
  replace (loop_range (findQuadrantRowStart s thing) None) with (@nil Z)
    by (by destruct (findQuadrantRowStart s thing)).
  cbn. eexists _, _. split; [reflexivity|]. cbn.
  split; [apply list_lookup_insert_eq; by eapply lookup_lt_Some|]. done.
Qed.

Lemma bottom_offset_slip_witness :
  ∃ s' thing',
    determineThingQuadrants 0
      offset_grid_state = Ok s'
    ∧ thingStore s' !! 0%nat = Some thing'
    ∧ numquads thing' = 0 ∧ recorded thing' = []
    ∧ Forall2 same_data (heap offset_grid_state) (heap s').
Proof.
  apply (bottom_offset_slip _ 0 scenario_thing); reflexivity.
Defined.

End OffsetFacts.

(** ** The grid resetQuadrants lays out *)
Module LayoutFacts.
Import JS QuadsKeepr QuadsKeeprTerms OffsetTerms LayoutTerms LoopFacts QuadsKeeprFacts.

Lemma insert_fmap_seq {A} (f g : nat → A) (n i : nat) :
  (∀ i', i' ≠ i → f i' = g i') →
  <[i := g i]> (f <$> seq 0 n) = g <$> seq 0 n.
Proof.
  intros Hfg. apply list_eq. intros i'.
  destruct (decide (i' < n)%nat) as [Hlt|Hge].
  - destruct (decide (i' = i)) as [->|Hne].
    + rewrite list_lookup_insert_eq by (by rewrite length_fmap, length_seq).
      by rewrite list_lookup_fmap, lookup_seq_lt.
    + rewrite list_lookup_insert_ne by done.
      rewrite !list_lookup_fmap, lookup_seq_lt by done. cbn. by rewrite Hfg.
  - rewrite !lookup_ge_None_2; [done| |];
      rewrite ?length_insert, length_fmap, length_seq; lia.
Qed.

Lemma length_concat_rows {A} (f : nat → nat → A) (C n : nat) :
  length (concat ((fun i => f i <$> seq 0 C) <$> seq 0 n)) = (n * C)%nat.
Proof.
  induction n as [|n IH]; [done|].
  rewrite seq_S, fmap_app, concat_app, length_app, IH. cbn.
  rewrite app_nil_r, length_fmap, length_seq. lia.
Qed.

Lemma laid_out_row_full s0 i :
  laid_out s0 i (Z.to_nat (numCols s0)) = laid_out s0 (S i) 0.
Proof.
  unfold laid_out. f_equal.
  - apply list_fmap_ext. intros n i' _. unfold row_of. f_equal. f_equal. f_equal.
    destruct (Nat.ltb_spec i' i), (Nat.eqb_spec i' i), (Nat.ltb_spec i' (S i)),
      (Nat.eqb_spec i' (S i)); try lia; reflexivity.
  - apply list_fmap_ext. intros n j Hj. apply lookup_seq in Hj as [-> Hj].
    unfold col_of. f_equal. f_equal. f_equal.
    destruct (Nat.ltb_spec (0 + n) (Z.to_nat (numCols s0))); [|lia].
    reflexivity.
  - f_equal. rewrite seq_S, fmap_app, concat_app. cbn. by rewrite !app_nil_r.
Qed.

(** One turn of the inner loop of [resetQuadrants]. *)
Lemma laid_out_cell s0 (i k : nat) :
  (i < Z.to_nat (numRows s0))%nat → (k < Z.to_nat (numCols s0))%nat →
  (let '(quadrant, s) :=
     createQuadrant (startLeft (settings s0) + Z.of_nat k * quadrantWidth (settings s0))
                    (startTop (settings s0) + Z.of_nat i * quadrantHeight (settings s0))
                    (laid_out s0 i k) in
   row ← fetch (quadrantRows s) i;
   col ← fetch (quadrantCols s) k;
   Ok (set_containers
         (<[i := set_quadrants (quadrants row ++ [quadrant]) row]> (quadrantRows s))
         (<[k := set_quadrants (quadrants col ++ [quadrant]) col]> (quadrantCols s))
         s))
  = Ok (laid_out s0 i (S k)).
Proof.
  intros Hi Hk. unfold createQuadrant.
  assert (Hlen : length (heap (laid_out s0 i k)) = cell_id s0 i k).
  { unfold laid_out, cell_id. cbn. rewrite !length_app, length_concat_rows, length_fmap, length_seq.
    lia. }
  rewrite Hlen.
  assert (Hrow : fetch (row_of s0 i k <$> seq 0 (Z.to_nat (numRows s0))) i = Ok (row_of s0 i k i)).
  { apply fetch_Ok. by rewrite list_lookup_fmap, lookup_seq_lt. }
  assert (Hcol : fetch (col_of s0 i k <$> seq 0 (Z.to_nat (numCols s0))) k = Ok (col_of s0 i k k)).
  { apply fetch_Ok. by rewrite list_lookup_fmap, lookup_seq_lt. }
  cbn [set_heap quadrantRows quadrantCols laid_out settings].
  rewrite Hrow. cbn [mbind outcome_bind]. rewrite Hcol. cbn [mbind outcome_bind].
  assert (Hr : set_quadrants (quadrants (row_of s0 i k i) ++ [cell_id s0 i k]) (row_of s0 i k i)
               = row_of s0 i (S k) i).
  { unfold set_quadrants, row_of. rewrite Nat.ltb_irrefl, Nat.eqb_refl.
    cbn [quadrants c_left c_top]. f_equal. by rewrite seq_S, fmap_app. }
  assert (Hc : set_quadrants (quadrants (col_of s0 i k k) ++ [cell_id s0 i k]) (col_of s0 i k k)
               = col_of s0 i (S k) k).
  { unfold set_quadrants, col_of. rewrite Nat.ltb_irrefl.
    replace (k <? S k)%nat with true by (symmetry; apply Nat.ltb_lt; lia).
    cbn [quadrants c_left c_top]. f_equal. by rewrite seq_S, fmap_app. }
  rewrite Hr, Hc. f_equal. unfold laid_out, set_containers.
  cbn [settings numRows numCols top right bottom left offsetX offsetY quadrantRows
       quadrantCols heap thingStore events set_heap].
  f_equal.
  - apply insert_fmap_seq. intros i' Hne. unfold row_of. do 3 f_equal.
    destruct (Nat.eqb_spec i' i); [done|]. reflexivity.
  - apply insert_fmap_seq. intros j Hne. unfold col_of. do 3 f_equal.
    destruct (Nat.ltb_spec j k), (Nat.ltb_spec j (S k)); try lia; reflexivity.
  - rewrite seq_S, fmap_app, <- !app_assoc. reflexivity.
Qed.

Lemma foldM_seq_steps {B} (body : B → nat → outcome B) (state : nat → B) (n : nat) :
  (∀ k, (k < n)%nat → body (state k) k = Ok (state (S k))) →
  foldM body (seq 0 n) (state 0%nat) = Ok (state n).
Proof.
  intros Hstep. induction n as [|n IH]; [done|].
  rewrite seq_S, foldM_app, IH by (intros; apply Hstep; lia). cbn.
  rewrite Hstep by lia. reflexivity.
Qed.

(** [resetQuadrants], in full: the quadrants of the grid are new ones, stored
    row by row behind those the store held before. *)
Lemma resetQuadrants_laid_out s0 :
  resetQuadrants s0
  = Ok (notify (onAdd (settings s0))
          (OnAdd "xInc" (startTop (settings s0))
                 (startLeft (settings s0) + quadrantWidth (settings s0) * numCols s0)
                 (startTop (settings s0) + quadrantHeight (settings s0) * numRows s0)
                 (startLeft (settings s0)))
          (laid_out s0 (Z.to_nat (numRows s0)) 0)).
Proof.
  unfold resetQuadrants.
  match goal with
  | |- foldM ?body ?l ?init ≫= _ = _ =>
      assert (Hrun : foldM body l init = Ok (laid_out s0 (Z.to_nat (numRows s0)) 0));
      [|by rewrite Hrun]
  end.
  match goal with
  | |- foldM ?body ?l ?init = _ =>
      assert (Hinit : init = laid_out s0 0 0);
      [|rewrite Hinit; change l with (seq 0 (Z.to_nat (numRows s0)));
        apply (foldM_seq_steps body (fun i => laid_out s0 i 0))]
  end.
  - unfold laid_out, set_containers, set_offsets, set_bounds. cbn. f_equal.
    + apply list_fmap_ext. intros n i' _. unfold row_of. f_equal. by destruct i'.
    + by rewrite app_nil_r.
  - intros i Hi. cbn beta. rewrite <- laid_out_row_full.
    apply (foldM_seq_steps _ (fun k => laid_out s0 i k)).
    intros k Hk. by apply laid_out_cell.
Qed.

Lemma lookup_concat_rows {A} (f : nat → nat → A) (C n i j : nat) :
  (i < n)%nat → (j < C)%nat →
  concat ((fun i => f i <$> seq 0 C) <$> seq 0 n) !! (i * C + j)%nat = Some (f i j).
Proof.
  intros Hi Hj. induction n as [|n IH]; [lia|].
  rewrite seq_S, fmap_app, concat_app. cbn [fmap list_fmap concat]. rewrite app_nil_r.
  destruct (decide (i = n)) as [->|Hne].
  - rewrite lookup_app_r; rewrite length_concat_rows; [|lia].
    replace (n * C + j - n * C)%nat with j by lia.
    by rewrite list_lookup_fmap, lookup_seq_lt.
  - rewrite lookup_app_l; [apply IH; lia|]. rewrite length_concat_rows. nia.
Qed.

Lemma concat_cell_ids (base C n : nat) :
  concat ((fun i => (fun j => base + i * C + j)%nat <$> seq 0 C) <$> seq 0 n)
  = seq base (n * C).
Proof.
  induction n as [|n IH]; [done|].
  rewrite seq_S, fmap_app, concat_app, IH. cbn [fmap list_fmap concat]. rewrite app_nil_r.
  replace (S n * C)%nat with (n * C + C)%nat by lia. rewrite seq_app. f_equal.
  pose proof (fmap_add_seq (base + n * C) 0 C) as H. rewrite Nat.add_0_r in H.
  by rewrite <- H.
Qed.

Lemma lookup_group_map {V} (names : list string) (v : V) (g : string) :
  g ∈ names → (list_to_map ((fun g => (g, v)) <$> names) : gmap string V) !! g = Some v.
Proof.
  induction names as [|n names IH]; [by intros ?%elem_of_nil|].
  intros Hg. cbn. destruct (decide (n = g)) as [->|Hne].
  - by rewrite lookup_insert_eq.
  - rewrite lookup_insert_ne by done. apply IH. by apply elem_of_cons in Hg as [->|?].
Qed.

Lemma regular_grid_intro grp s :
  0 < quadrantWidth (settings s) → 0 < quadrantHeight (settings s) →
  Z.of_nat (length (quadrantRows s)) = numRows s →
  (∀ row r, quadrantRows s !! row = Some r →
      Z.of_nat (length (quadrants r)) = numCols s
      ∧ ∀ col id, quadrants r !! col = Some id →
          ∃ q, heap s !! id = Some q
               ∧ q_left q = left s + Z.of_nat col * quadrantWidth (settings s)
               ∧ q_right q = q_left q + quadrantWidth (settings s)
               ∧ q_top q = top s + Z.of_nat row * quadrantHeight (settings s)
               ∧ q_bottom q = q_top q + quadrantHeight (settings s)
               ∧ has_group grp q = true) →
  regular_grid grp s = true.
Proof.
  intros Hw Hh Hrows Hcells. unfold regular_grid. rewrite !andb_true_iff.
  split; [split; [split; [split|]|]|].
  - by apply Z.ltb_lt.
  - by apply Z.ltb_lt.
  - by apply Z.eqb_eq.
  - apply forallb_forall. intros r [row Hr]%list_elem_of_In%list_elem_of_lookup.
    apply Z.eqb_eq. by apply (Hcells row r Hr).
  - apply forallb_forall. intros [row r] [n Hn]%list_elem_of_In%list_elem_of_lookup.
    rewrite list_lookup_imap in Hn.
    destruct (quadrantRows s !! n) as [r'|] eqn:Hr; [|done]. injection Hn as <- <-.
    apply forallb_forall. intros [col id] [m Hm]%list_elem_of_In%list_elem_of_lookup.
    rewrite list_lookup_imap in Hm. cbn in Hm.
    destruct (quadrants r' !! m) as [id'|] eqn:Hid; [|done]. injection Hm as <- <-.
    destruct (Hcells n r' Hr) as [_ Hcell].
    destruct (Hcell m id' Hid) as (q & Hq & H1 & H2 & H3 & H4 & H5).
    unfold cell_ok. cbn. rewrite Hq, !andb_true_iff.
    repeat split; try (by apply Z.eqb_eq). done.
Qed.

Lemma laid_out_row s0 i r :
  quadrantRows (laid_out s0 (Z.to_nat (numRows s0)) 0) !! i = Some r →
  (i < Z.to_nat (numRows s0))%nat
  ∧ quadrants r = cell_id s0 i <$> seq 0 (Z.to_nat (numCols s0)).
Proof.
  cbn. rewrite list_lookup_fmap. intros Hr.
  destruct (seq 0 (Z.to_nat (numRows s0)) !! i) as [i'|] eqn:Hi; [|done].
  apply lookup_seq in Hi as [-> Hi]. injection Hr as <-. split; [done|].
  unfold row_of. cbn [quadrants Nat.add].
  by rewrite (proj2 (Nat.ltb_lt i (Z.to_nat (numRows s0))) Hi).
Qed.

Lemma laid_out_col s0 j c :
  quadrantCols (laid_out s0 (Z.to_nat (numRows s0)) 0) !! j = Some c →
  (j < Z.to_nat (numCols s0))%nat
  ∧ quadrants c = (fun i => cell_id s0 i j) <$> seq 0 (Z.to_nat (numRows s0)).
Proof.
  cbn. rewrite list_lookup_fmap. intros Hc.
  destruct (seq 0 (Z.to_nat (numCols s0)) !! j) as [j'|] eqn:Hj; [|done].
  apply lookup_seq in Hj as [-> Hj]. injection Hc as <-. done.
Qed.

Lemma laid_out_heap s0 i j :
  (i < Z.to_nat (numRows s0))%nat → (j < Z.to_nat (numCols s0))%nat →
  heap (laid_out s0 (Z.to_nat (numRows s0)) 0) !! cell_id s0 i j = Some (cell_quadrant s0 i j).
Proof.
  intros Hi Hj. cbn. rewrite app_nil_r. unfold cell_id.
  rewrite lookup_app_r by lia.
  replace (length (heap s0) + i * Z.to_nat (numCols s0) + j - length (heap s0))%nat
    with (i * Z.to_nat (numCols s0) + j)%nat by lia.
  by apply (lookup_concat_rows (cell_quadrant s0)).
Qed.

Lemma laid_out_cells s0 :
  cells (laid_out s0 (Z.to_nat (numRows s0)) 0)
  = seq (length (heap s0)) (Z.to_nat (numRows s0) * Z.to_nat (numCols s0)).
Proof.
  unfold cells. cbn. rewrite <- concat_cell_ids. f_equal.
  rewrite <- list_fmap_compose. apply list_fmap_ext. intros n i [-> Hi]%lookup_seq.
  cbn [quadrants row_of compose Nat.add].
  by rewrite (proj2 (Nat.ltb_lt n (Z.to_nat (numRows s0))) Hi).
Qed.



End LayoutFacts.

(** ** determineAllQuadrants places every Thing *)
Module SettleFacts.
Import JS QuadsKeepr QuadsKeeprTerms OffsetTerms LayoutTerms SettleTerms LoopFacts QuadsKeeprFacts.
Import OffsetFacts LayoutFacts.

Lemma numquads_foldl thing ids :
  numquads (foldl record_quadrant thing ids) = numquads thing + Z.of_nat (length ids).
Proof.
  revert thing. induction ids as [|id ids IH]; intros thing; [cbn; lia|].
  cbn [foldl length]. rewrite IH. cbn. lia.
Qed.

(** [determineThingQuadrants], in full. *)
Lemma determineThingQuadrants_effect s tid thing :
  thingStore s !! tid = Some thing →
  regular_grid (group thing) s = true →
  (t_changed thing = true → known_quadrants s thing = true) →
  ∃ h1 thing',
    Forall2 same_data (heap s) h1
    ∧ box thing' = box thing ∧ t_changed thing' = false
    ∧ numquads thing' = Z.of_nat (length (occupied s thing))
    ∧ recorded thing' = Some <$> occupied s thing
    ∧ determineThingQuadrants tid s
      = Ok (set_thingStore (<[tid := thing']> (thingStore s))
              (set_heap (foldl (fun h id => alter (enter tid (group thing) (t_changed thing)) id h)
                           h1 (occupied s thing)) s)).
Proof.
  intros Hthing Hreg Hknown.
  destruct (marked_heap s thing Hknown) as (h1 & Hmark & Hsim).
  set (thing0 := set_membership thing 0 (t_quadrants thing) (t_changed thing)).
  set (thing1 := foldl record_quadrant thing0 (occupied s thing)).
  exists h1, (set_membership thing1 (numquads thing1) (t_quadrants thing1) false).
  destruct (recorded_foldl (occupied s thing) thing0 []) as [Hrec Hbox]; [done..|].
  split; [done|]. split; [exact Hbox|]. split; [done|].
  split; [cbn; unfold thing1; by rewrite numquads_foldl|]. split; [exact Hrec|].
  assert (Hgrouped : grouped (group thing) h1 (cells s)).
  { intros id Hid. destruct (regular_grid_cell _ _ _ Hreg Hid) as (q & Hq & Hg).
    destruct (Forall2_lookup_l _ _ _ _ _ Hsim Hq) as (q1 & Hq1 & Hsame).
    exists q1. split; [done|]. by rewrite (has_group_same_data _ _ _ Hsame). }
  assert (Hvis : occupied s thing ⊆ cells s).
  { intros id Hid. apply list_elem_of_In. apply list_elem_of_In in Hid.
    by apply filter_In in Hid as [? _]. }
  unfold determineThingQuadrants. rewrite (proj2 (fetch_Ok _ _ _) Hthing). cbn.
  fold thing0. rewrite Hmark. cbn.
  rewrite (loops_occupied s tid thing (thing0, h1) Hreg).
  rewrite (foldM_setThingInQuadrant tid (group thing) (occupied s thing) (cells s)) by done.
  reflexivity.
Qed.

Lemma refers_to_enter_other tid tid' grp c q :
  has_group grp q = true →
  refers_to grp tid' (enter tid grp c q) = (tid =? tid')%nat || refers_to grp tid' q.
Proof.
  unfold has_group, enter, refers_to.
  destruct (things q !! grp) as [members|] eqn:Hm; [|done].
  destruct (numthings q !! grp) as [n|] eqn:Hn; [|done]. intros Hpos%Z.leb_le. cbn.
  rewrite !lookup_insert_eq.
  replace (Z.to_nat (n + 1)) with (S (Z.to_nat n)) by lia.
  rewrite take_array_set, !existsb_app. cbn.
  assert (Hholes : ∀ k, existsb (fun e : option nat => match e with
                                   | Some t => (t =? tid')%nat
                                   | None => false
                                   end) (replicate k None) = false).
  { intros k. induction k; [done|]. cbn. done. }
  rewrite Hholes. cbn. rewrite orb_false_r. apply orb_comm.
Qed.

Lemma iter_enter_other tid tid' grp c k q :
  has_group grp q = true →
  refers_to grp tid' (Nat.iter k (enter tid grp c) q)
  = ((0 <? k)%nat && (tid =? tid')%nat) || refers_to grp tid' q.
Proof.
  intros Hq. induction k as [|k IH]; [done|].
  rewrite Nat.iter_succ, refers_to_enter_other by (by apply iter_enter).
  rewrite IH. change (0 <? S k)%nat with true.
  by destruct (0 <? k)%nat, (tid =? tid')%nat, (refers_to grp tid' q).
Qed.

Lemma cells_elem s row r col id :
  quadrantRows s !! row = Some r → quadrants r !! col = Some id → id ∈ cells s.
Proof.
  intros Hr Hid. apply list_elem_of_In, in_concat. exists (quadrants r).
  split; apply list_elem_of_In.
  - apply list_elem_of_fmap. exists r. split; [done|]. by eapply list_elem_of_lookup_2.
  - by eapply list_elem_of_lookup_2.
Qed.

Lemma settled_regular grp s done s' :
  regular_grid grp s = true → settled grp s done s' → regular_grid grp s' = true.
Proof.
  intros Hreg ((Hst & HR & HC & [= Ht Hr Hb Hl] & Hrows & Hcols) & _ & _ & _ & _ & Hcells).
  destruct (regular_grid_spec _ _ Hreg) as (Hw & Hh & Hlen & Hrow).
  apply regular_grid_intro; rewrite ?Hst, ?Hrows, ?HR, ?HC, ?Hl, ?Ht; try done.
  intros row r Hrw. destruct (Hrow row r Hrw) as [Hn Hcell]. split; [done|].
  intros col id Hid. destruct (Hcell col id Hid) as (q & Hq & H1 & H2 & H3 & H4 & _).
  destruct (Hcells id (cells_elem _ _ _ _ _ Hrw Hid))
    as (q0 & q' & Hq0 & Hq' & [= Hbt Hbr Hbb Hbl] & Hg & _).
  assert (q0 = q) as -> by congruence.
  exists q'. rewrite Hbt, Hbr, Hbb, Hbl. done.
Qed.

Lemma meets_settled grp s done s' thing thing' id :
  settled grp s done s' → box thing' = box thing → id ∈ cells s →
  meets s' thing' id = meets s thing id.
Proof.
  intros ((Hst & _) & _ & _ & _ & _ & Hcells) Hbox Hid.
  destruct (Hcells id Hid) as (q & q' & Hq & Hq' & Hb & _).
  unfold meets. rewrite Hq, Hq'. by apply intersects_ext.
Qed.

Lemma cells_settled grp s done s' : settled grp s done s' → cells s' = cells s.
Proof. intros ((_ & _ & _ & _ & Hrows & _) & _). unfold cells. by rewrite Hrows. Qed.

Lemma occupied_settled grp s done s' thing thing' :
  settled grp s done s' → box thing' = box thing → occupied s' thing' = occupied s thing.
Proof.
  intros Hs Hbox. unfold occupied. rewrite (cells_settled _ _ _ _ Hs).
  apply filter_ext_in. intros id Hid%list_elem_of_In. by eapply meets_settled.
Qed.

Lemma known_quadrants_length s s' thing :
  length (heap s') = length (heap s) → known_quadrants s' thing = known_quadrants s thing.
Proof. intros Hlen. unfold known_quadrants. by rewrite Hlen. Qed.

(** One more Thing is given its quadrants. *)
Lemma settled_step grp s done s1 tid thing :
  regular_grid grp s = true → settled grp s done s1 →
  tid ∉ done → thingStore s !! tid = Some thing → group thing = grp →
  (t_changed thing = true → known_quadrants s thing = true) →
  ∃ s2, determineThingQuadrants tid s1 = Ok s2 ∧ settled grp s (tid :: done) s2.
Proof.
  intros Hreg Hs Hnew Hthing Hgrp Hknown.
  pose proof Hs as (Hgrid & Hlt & Hlh & Hothers & Hdone & Hcells).
  assert (Hthing1 : thingStore s1 !! tid = Some thing) by (by rewrite Hothers).
  assert (Hreg1 : regular_grid (group thing) s1 = true)
    by (rewrite Hgrp; by eapply settled_regular).
  assert (Hknown1 : t_changed thing = true → known_quadrants s1 thing = true)
    by (by rewrite (known_quadrants_length s s1)).
  destruct (determineThingQuadrants_effect s1 tid thing Hthing1 Hreg1 Hknown1)
    as (h1 & thing' & Hsim & Hbox & Hch & Hnq & Hrec & Hrun).
  rewrite (occupied_settled _ _ _ _ _ _ Hs eq_refl), Hgrp in *.
  eexists. split; [exact Hrun|].
  split; [exact Hgrid|]. split; [by rewrite <- Hlt; cbn; rewrite length_insert|].
  split; [cbn; rewrite foldl_alter_length, <- Hlh; symmetry; by eapply Forall2_length|].
  split; [|split].
  - intros tid' Hn. cbn. rewrite list_lookup_insert_ne by (intros ->; apply Hn; by left).
    apply Hothers. intros ?. apply Hn. by right.
  - intros tid' thing0 Hin Hth0. cbn. destruct (decide (tid' = tid)) as [->|Hne].
    + assert (thing0 = thing) as -> by congruence.
      exists thing'. rewrite list_lookup_insert_eq by (by eapply lookup_lt_Some). done.
    + rewrite list_lookup_insert_ne by done. apply Hdone; [|done].
      by apply elem_of_cons in Hin as [?|?].
  - intros id Hid. destruct (Hcells id Hid) as (q & q1 & Hq & Hq1 & Hb & Hg & Href).
    destruct (Forall2_lookup_l _ _ _ _ _ Hsim Hq1) as (q1' & Hq1' & Hsame).
    rewrite <- (has_group_same_data _ _ _ Hsame) in Hg.
    set (k := length (List.filter (Nat.eqb id) (occupied s thing))).
    destruct (iter_enter tid grp (t_changed thing) k q1' Hg) as (Hg' & Hb' & _).
    exists q, (Nat.iter k (enter tid grp (t_changed thing)) q1').
    split; [done|]. split; [cbn; by rewrite foldl_alter_lookup, Hq1'|].
    split; [rewrite Hb', <- Hb; apply Hsame|]. split; [done|].
    intros tid'. rewrite iter_enter_other, (refers_to_same_data _ _ _ _ Hsame), Href by done.
    subst k. rewrite counted_occupied by done.
    destruct (Nat.eqb_spec tid tid') as [<-|Hne].
    + rewrite Hthing. rewrite (bool_decide_eq_true_2 (tid ∈ tid :: done)) by (by left).
      rewrite (bool_decide_eq_false_2 (tid ∈ done)) by done.
      by destruct (meets s thing id).
    + rewrite andb_false_r. cbn [orb].
      destruct (thingStore s !! tid'); [|done]. f_equal.
      apply bool_decide_ext. rewrite elem_of_cons. split; [auto|]. by intros [?|?].
Qed.

(** *** A loop over all quadrants of the grid *)

Lemma update_alter (f : Quadrant → Quadrant) id (h : list Quadrant) :
  (id < length h)%nat → (q ← fetch h id; Ok (<[id := f q]> h)) = Ok (alter f id h).
Proof.
  intros Hid. destruct (lookup_lt_is_Some_2 h id Hid) as [q Hq].
  rewrite (proj2 (fetch_Ok h id q) Hq). cbn. f_equal.
  apply list_eq. intros i. destruct (decide (i = id)) as [->|Hne].
  - by rewrite list_lookup_insert_eq, list_lookup_alter_eq, Hq.
  - by rewrite list_lookup_insert_ne, list_lookup_alter_ne.
Qed.

Lemma foldM_update_alter (f : Quadrant → Quadrant) ids (h : list Quadrant) :
  (∀ id, id ∈ ids → (id < length h)%nat) →
  foldM (fun h id => q ← fetch h id; Ok (<[id := f q]> h)) ids h
  = Ok (foldl (fun h id => alter f id h) h ids).
Proof.
  revert h. induction ids as [|id ids IH]; intros h Hids; [reflexivity|].
  cbn [foldM foldl]. rewrite update_alter by (apply Hids; by left). cbn.
  apply IH. intros id' Hid'. rewrite length_alter. apply Hids. by right.
Qed.

Lemma update_all_quadrants (f : Quadrant → Quadrant) grp s :
  regular_grid grp s = true →
  foldM (fun h row =>
           foldM (fun h col =>
                    r ← fetch (quadrantRows s) row;
                    id ← fetch (quadrants r) col;
                    q ← fetch h id;
                    Ok (<[id := f q]> h))
                 (upto (numCols s)) h)
        (upto (numRows s)) (heap s)
  = Ok (foldl (fun h id => alter f id h) (heap s) (cells s)).
Proof.
  intros Hreg. destruct (regular_grid_spec _ _ Hreg) as (_ & _ & Hrows & Hrow).
  unfold upto. rewrite <- Hrows, Nat2Z.id.
  set (g := fun (h : list Quadrant) id => q ← fetch h id; Ok (<[id := f q]> h)).
  transitivity (foldM (fun h r => foldM g (quadrants r) h) (quadrantRows s) (heap s)).
  - rewrite <- (foldM_fetch_all (fun h r => foldM g (quadrants r) h)).
    apply foldM_ext. intros h row Hrow_in.
    apply elem_of_seq in Hrow_in as [_ Hlt]. cbn in Hlt.
    destruct (lookup_lt_is_Some_2 (quadrantRows s) row Hlt) as [r Hr].
    assert (Hfr : fetch (quadrantRows s) row = Ok r) by (by apply fetch_Ok).
    destruct (Hrow row r Hr) as [Hlen _]. rewrite <- Hlen, Nat2Z.id, Hfr.
    change (Ok r ≫= ?k) with (k r). cbv beta.
    rewrite <- (foldM_fetch_all g).
    apply foldM_ext. intros h' col _. reflexivity.
  - unfold cells.
    assert (Hids : ∀ r, r ∈ quadrantRows s → ∀ id, id ∈ quadrants r → (id < length (heap s))%nat).
    { intros r [i Hr]%list_elem_of_lookup id [j Hid]%list_elem_of_lookup.
      destruct (Hrow i r Hr) as [_ Hcell]. destruct (Hcell j id Hid) as (q & Hq & _).
      by eapply lookup_lt_Some. }
    clear Hrows Hrow Hreg. subst g. revert Hids. generalize (heap s) as h.
    induction (quadrantRows s) as [|r rows IH]; intros h Hids; [reflexivity|].
    cbn [foldM fmap list_fmap concat]. rewrite foldl_app.
    rewrite (foldM_update_alter f (quadrants r) h) by (apply (Hids r); by left). cbn.
    apply IH. intros r' Hr' id Hid. rewrite foldl_alter_length. apply (Hids r'); [by right|done].
Qed.

Lemma iter_clear_count grp k q :
  has_group grp q = true → (0 < k)%nat →
  bounds (Nat.iter k (clear_count grp) q) = bounds q
  ∧ has_group grp (Nat.iter k (clear_count grp) q) = true
  ∧ ∀ tid, refers_to grp tid (Nat.iter k (clear_count grp) q) = false.
Proof.
  intros Hg Hk. destruct k as [|k]; [lia|]. clear Hk.
  assert (Hiter : ∀ k, bounds (Nat.iter k (clear_count grp) q) = bounds q
                       ∧ is_Some (things (Nat.iter k (clear_count grp) q) !! grp)).
  { intros k'. induction k' as [|k' [IH1 IH2]].
    - split; [done|]. cbn. unfold has_group in Hg. by destruct (things q !! grp).
    - rewrite Nat.iter_succ. split; [exact IH1|exact IH2]. }
  destruct (Hiter k) as [Hb [members Hm]]. rewrite Nat.iter_succ.
  split; [exact Hb|]. unfold has_group, refers_to. cbn [clear_count things numthings].
  rewrite Hm, lookup_insert_eq. split; [done|]. intros tid. reflexivity.
Qed.

(** After the counts have been reset no quadrant refers to any Thing. *)
Lemma settled_reset grp s :
  regular_grid grp s = true →
  settled grp s []
    (set_heap (foldl (fun h id => alter (clear_count grp) id h) (heap s) (cells s)) s).
Proof.
  intros Hreg. split; [done|]. split; [done|].
  split; [cbn; by rewrite foldl_alter_length|]. split; [done|].
  split; [by intros tid thing ?%elem_of_nil|].
  intros id Hid. destruct (regular_grid_cell _ _ _ Hreg Hid) as (q & Hq & Hg).
  set (k := length (List.filter (Nat.eqb id) (cells s))).
  assert (Hk : (0 < k)%nat) by (by apply counted_elem_of).
  destruct (iter_clear_count grp k q Hg Hk) as (Hb & Hg' & Href).
  exists q, (Nat.iter k (clear_count grp) q). split; [done|].
  split; [cbn; by rewrite foldl_alter_lookup, Hq|]. split; [done|]. split; [done|].
  intros tid. rewrite Href. by destruct (thingStore s !! tid).
Qed.

Lemma settled_ext grp s done done' s' :
  (∀ tid, tid ∈ done ↔ tid ∈ done') → settled grp s done s' → settled grp s done' s'.
Proof.
  intros Heq (H1 & H2 & H3 & H4 & H5 & H6).
  split; [done|]. split; [done|]. split; [done|]. split; [|split].
  - intros tid Hn. apply H4. by rewrite Heq.
  - intros tid thing Hin. apply H5. by rewrite Heq.
  - intros id Hid. destruct (H6 id Hid) as (q & q' & Hq & Hq' & Hb & Hg & Href).
    exists q, q'. repeat (split; [done|]). intros tid. rewrite Href.
    destruct (thingStore s !! tid); [|done]. f_equal. by apply bool_decide_ext.
Qed.

Lemma settled_all grp s tids :
  regular_grid grp s = true →
  ∀ done s1, settled grp s done s1 → NoDup tids → (∀ tid, tid ∈ tids → tid ∉ done) →
  (∀ tid, tid ∈ tids →
     ∃ thing, thingStore s !! tid = Some thing ∧ group thing = grp
              ∧ (t_changed thing = true → known_quadrants s thing = true)) →
  ∃ s2, foldM (fun s tid => determineThingQuadrants tid s) tids s1 = Ok s2
        ∧ settled grp s (tids ++ done) s2.
Proof.
  intros Hreg. induction tids as [|tid tids IH]; intros done s1 Hs Hnd Hnew Hthings.
  - by exists s1.
  - apply NoDup_cons in Hnd as [Hnotin Hnd].
    destruct (Hthings tid) as (thing & Hthing & Hgrp & Hknown); [by left|].
    destruct (settled_step grp s done s1 tid thing) as (s2 & Hrun & Hs2); try done.
    { apply Hnew. by left. }
    destruct (IH (tid :: done) s2 Hs2 Hnd) as (s3 & Hrun3 & Hs3).
    { intros tid' Hin [->|Hd]%elem_of_cons; [done|]. apply (Hnew tid'); [by right|done]. }
    { intros tid' Hin. apply Hthings. by right. }
    exists s3. cbn [foldM]. rewrite Hrun. cbn. split; [done|].
    eapply settled_ext; [|exact Hs3]. intros tid'.
    rewrite !elem_of_app, !elem_of_cons, elem_of_app. tauto.
Qed.



End SettleFacts.

(** ** A refill uses up the flags *)
Module RefillFacts.
Import JS QuadsKeepr PixelDrawr PixelDrawrTerms RefillTerms LoopFacts PixelDrawrFacts.

Section Drawing.
Context {ThingDraw : Type}.
Variable drawThingOnQuadrant : option nat → nat → Quadrant → outcome (list ThingDraw).

Abbreviation PixelDrawr := (PixelDrawr ThingDraw).

Lemma refillQuadrants_clean pd ids :
  ∀ P st st', all_clean pd P st →
  refillQuadrants drawThingOnQuadrant ids st = Ok st' →
  all_clean pd (fun id => id ∈ ids ∨ P id) st'.
Proof.
  unfold refillQuadrants. induction ids as [|id ids IH]; intros P st st' Hst Hrun.
  - injection Hrun as <-. destruct Hst as (Hw & Hh & Hall). split; [done|]. split; [done|].
    intros id [?%elem_of_nil|?]; [done|]. by apply Hall.
  - cbn [foldM] in Hrun. apply bind_Ok in Hrun as (st1 & Hbody & Hrun).
    apply (IH (fun i => i = id ∨ P i)) in Hrun.
    + destruct Hrun as (Hw & Hh & Hall). split; [done|]. split; [done|].
      intros i [[->|?]%elem_of_cons|?]; apply Hall; auto.
    + clear Hrun IH. destruct st as [pd1 h1]. destruct Hst as (Hw & Hh & Hall). cbn in *.
      apply bind_Ok in Hbody as (q1 & Hq1%fetch_Ok & Hbody).
      rewrite (needs_refill_ext pd pd1 q1 Hw Hh) in Hbody.
      destruct (needs_refill pd q1) eqn:Hneed.
      * apply bind_Ok in Hbody as ([pd2 h2] & Hrefill & Hbody). injection Hbody as <-.
        apply refillQuadrant_effect in Hrefill
          as (q & Hq & -> & (_ & _ & _ & Hw2 & Hh2 & _)).
        assert (q = q1) as -> by congruence.
        split; [cbn; congruence|]. split; [cbn; congruence|].
        intros i Hi. cbn. destruct (decide (i = id)) as [->|Hne].
        -- exists (set_changed false q1).
           by rewrite list_lookup_insert_eq by (by eapply lookup_lt_Some).
        -- rewrite list_lookup_insert_ne by done. destruct Hi as [?|Hi]; [done|]. by apply Hall.
      * injection Hbody as <-. split; [done|]. split; [done|].
        intros i [->|Hi]; [by exists q1|by apply Hall].
Qed.

Lemma refill_groups_clean pd groups :
  ∀ P st st', all_clean pd P st →
  foldM (fun st g => refillQuadrants drawThingOnQuadrant (quadrants g) st) groups st = Ok st' →
  all_clean pd (fun id => (∃ g, g ∈ groups ∧ id ∈ quadrants g) ∨ P id) st'.
Proof.
  induction groups as [|g groups IH]; intros P st st' Hst Hrun.
  - injection Hrun as <-. destruct Hst as (Hw & Hh & Hall). split; [done|]. split; [done|].
    intros id [(g & ?%elem_of_nil & _)|?]; [done|]. by apply Hall.
  - cbn [foldM] in Hrun. apply bind_Ok in Hrun as (st1 & Hbody & Hrun).
    apply (refillQuadrants_clean pd (quadrants g) P st st1 Hst) in Hbody.
    apply (IH _ _ _ Hbody) in Hrun. destruct Hrun as (Hw & Hh & Hall).
    split; [done|]. split; [done|].
    intros id [(g' & [->|Hg']%elem_of_cons & Hid)|?]; apply Hall; eauto.
Qed.

(** Nothing is drawn where no listed quadrant needs a refill. *)
Lemma refill_nothing_needed groups (pd : PixelDrawr) h :
  (∀ g id, g ∈ groups → id ∈ quadrants g → ∃ q, h !! id = Some q ∧ needs_refill pd q = false) →
  refillQuadrantGroups drawThingOnQuadrant groups (pd, h) = Ok (count_frame pd, h).
Proof.
  intros Hall. unfold refillQuadrantGroups. simpl.
  destruct (_ || _); [reflexivity|].
  apply foldM_skip. intros g Hg. unfold refillQuadrants.
  apply foldM_skip. intros id Hid. simpl.
  destruct (Hall g id Hg Hid) as (q & Hq & Hch).
  apply fetch_Ok in Hq. rewrite Hq. simpl.
  by rewrite (needs_refill_ext pd (count_frame pd) q eq_refl eq_refl), Hch.
Qed.

(** X4.  A frame that is drawn uses up the flags: when [refillQuadrantGroups]
    has drawn a frame (its count is a multiple of the skip rate), no listed
    quadrant needs a refill any more, and the next call, drawn or skipped,
    makes no canvas call and leaves every quadrant as it is. *)
Theorem refill_uses_up_flags groups (pd pd' : PixelDrawr) (h h' : list Quadrant) :
  framerateSkip pd ≠ 0 → Z.rem (framesDrawn pd + 1) (framerateSkip pd) = 0 →
  refillQuadrantGroups drawThingOnQuadrant groups (pd, h) = Ok (pd', h') →
  (∀ g id, g ∈ groups → id ∈ quadrants g →
     ∃ q, h' !! id = Some q ∧ needs_refill pd' q = false)
  ∧ refillQuadrantGroups drawThingOnQuadrant groups (pd', h') = Ok (count_frame pd', h').
Proof.
  intros Hskip Hrem Hrun.
  assert (Hclean : all_clean pd (fun id => (∃ g, g ∈ groups ∧ id ∈ quadrants g) ∨ False)
                     (pd', h')).
  { revert Hrun. unfold refillQuadrantGroups. cbn [fst snd count_frame framerateSkip framesDrawn].
    rewrite (proj2 (Z.eqb_neq _ _) Hskip), Hrem. cbn [orb negb Z.eqb].
    apply refill_groups_clean. by split. }
  destruct Hclean as (Hw & Hh & Hall). cbn in Hw, Hh.
  assert (Hall' : ∀ g id, g ∈ groups → id ∈ quadrants g →
            ∃ q, h' !! id = Some q ∧ needs_refill pd' q = false).
  { intros g id Hg Hid. destruct (Hall id) as (q & Hq & Hn); [eauto|].
    exists q. split; [done|]. by rewrite (needs_refill_ext pd pd' q Hw Hh). }
  split; [exact Hall'|]. by apply refill_nothing_needed.
Qed.

End Drawing.

Lemma refill_uses_up_flags_witness :
  ∃ pd' h',
    refillQuadrantGroups (fun _ _ _ => Ok [()]) [quiet_row]
      (quiet_drawr, [stale_quadrant 0; stale_quadrant 50]) = Ok (pd', h')
    ∧ (∀ g id, g ∈ [quiet_row] → id ∈ quadrants g →
         ∃ q, h' !! id = Some q ∧ needs_refill pd' q = false)
    ∧ refillQuadrantGroups (fun _ _ _ => Ok [()]) [quiet_row] (pd', h')
      = Ok (count_frame pd', h').
Proof.
  eexists _, _. split; [by vm_compute|].
  apply (refill_uses_up_flags (fun _ _ _ => Ok [()]) [quiet_row] quiet_drawr _
           [stale_quadrant 0; stale_quadrant 50]).
  - by vm_compute.
  - by vm_compute.
  - by vm_compute.
Defined.

End RefillFacts.

(** ** The cache and the checks of a StringFilr *)
Module FilerFacts.
Import JS StringFilr StringFilrTerms StringFilrChecks FilerTerms StringFacts StringFilrFacts.

Lemma normalize_plain sf key : normal_set (normal sf) = None → normalize sf key = key.
Proof. unfold normalize. by intros ->. Qed.

Lemma get_coherent sf key :
  normal_set (normal sf) = None → coherent sf →
  answer (get sf key) = followClass (normal sf) (library sf) (split_ws key)
  ∧ ∀ r, get sf key = Ok r →
         library r.2 = library sf ∧ normal r.2 = normal sf ∧ coherent r.2.
Proof.
  intros Hn Hc. unfold get. rewrite (normalize_plain sf key Hn).
  destruct (cache sf !! key) as [v|] eqn:Hk.
  - split; [cbn; by rewrite (Hc key v Hk)|]. by intros r [= <-].
  - destruct (followClass (normal sf) (library sf) (split_ws key)) as [v| | |] eqn:Hf;
      cbn; (split; [done|]); intros r Hr; try discriminate.
    injection Hr as <-. cbn. split; [done|]. split; [done|].
    intros key' v'. cbn. rewrite insert_insert_eq.
    destruct (decide (key = key')) as [<-|Hne].
    + rewrite lookup_insert_eq. by intros [= <-].
    + rewrite lookup_insert_ne by done. apply Hc.
Qed.

Lemma after_gets_coherent sf keys :
  normal_set (normal sf) = None → coherent sf →
  library (after_gets sf keys) = library sf ∧ normal (after_gets sf keys) = normal sf
  ∧ coherent (after_gets sf keys).
Proof.
  revert sf. induction keys as [|key keys IH]; intros sf Hn Hc; [done|].
  cbn [after_gets foldl]. destruct (get_coherent sf key Hn Hc) as [_ Hstep].
  destruct (get sf key) as [r| | |]; try (by apply IH).
  destruct (Hstep r eq_refl) as (Hl & Hnm & Hc').
  destruct (IH r.2) as (H1 & H2 & H3); [by rewrite Hnm|done|].
  unfold after_gets in *. rewrite H1, H2. done.
Qed.



Lemma split_ws_chars_nonempty cur run l : split_ws_chars cur run l ≠ [].
Proof.
  revert cur run. induction l as [|x l IH]; intros cur run; [done|].
  cbn. destruct (is_space x); [destruct run|]; try done; apply IH.
Qed.



(** X7.  With [requireNormalKey], the constructor looks at the root of the
    library only: [findLackingNormal] descends into the children of an
    object only if the object has a property named ["undefined"] that is
    itself an object.  Without such a property at the root, the constructor
    succeeds exactly if the root holds the normal class, whatever lies
    below. *)
Theorem normal_check_is_shallow (props : list (string * value)) (n : string) :
  is_object (assoc "undefined" props) = false →
  new_StringFilr_checked (VObj props) (Some n) true
  = if bool_decide (is_Some (assoc n props))
    then Ok (new_StringFilr (VObj props) (Some n))
    else Throw root_lacks_normal.
Proof.
  intros Hobj. unfold new_StringFilr_checked, ensureLibraryNormal. cbn [truthy negb].
  cbn [findLackingNormal hasOwnProperty mbind outcome_bind]. rewrite Hobj.
  by destruct (bool_decide (is_Some (assoc n props))).
Qed.

Lemma normal_check_is_shallow_witness :
  new_StringFilr_checked (VObj shallow_library) (Some "normal") true
  = Ok (new_StringFilr (VObj shallow_library) (Some "normal")).
Proof. exact (normal_check_is_shallow shallow_library "normal" eq_refl). Defined.

End FilerFacts.

(** ** Digits, nearest colours and the cache of decode *)
Module CodecFacts.
Import JS StringFilr PixelRendr PixelRendrTerms StringFilrTerms DecodeTerms CodecTerms StringFacts PixelRendrFacts
  StringFilrFacts LoopFacts.

(** X8.  [makeDigit] pads with zeros on the left up to the size, never cuts a
    number that is wider, and what it writes reads back as the number. *)
Theorem makeDigit_reads_back (n : nat) (size : Z) :
  strlen (makeDigit (string_of_Z (Z.of_nat n)) size "0")
  = Z.max size (strlen (string_of_Z (Z.of_nat n)))
  ∧ Number (makeDigit (string_of_Z (Z.of_nat n)) size "0") = Some (Z.of_nat n).
Proof.
  rewrite makeDigit_pad. split.
  - rewrite strlen_app, strlen_repeat_string.
    pose proof (strlen_nonneg (string_of_Z (Z.of_nat n))).
    change (strlen "0") with 1. lia.
  - apply Number_padded.
Qed.

(** X9.  [getClosestInPalette] finds a colour of least summed difference: an
    empty palette gives [undefined]; otherwise the index returned is in the
    palette, no entry is closer to the colour asked for, and among the
    entries equally close it is the last. *)
Theorem getClosestInPalette_least (palette : list (list Z)) (rgba : list Z) :
  (getClosestInPalette palette rgba = None ↔ palette = [])
  ∧ ∀ i, getClosestInPalette palette rgba = Some i →
         (i < length palette)%nat
         ∧ ∀ j, (j < length palette)%nat →
                arrayDifference (default [] (palette !! i)) rgba
                ≤ arrayDifference (default [] (palette !! j)) rgba
                ∧ (arrayDifference (default [] (palette !! j)) rgba
                   = arrayDifference (default [] (palette !! i)) rgba → (j ≤ i)%nat).
Proof.
  pose proof (getClosestInPalette_nearest palette rgba) as H.
  destruct (getClosestInPalette palette rgba) as [i|].
  - split.
    + split; [done|]. intros ->. destruct H as [H _]. cbn in H. lia.
    + by intros i' [= <-].
  - split; [done|]. by intros i.
Qed.

Lemma with_caches_same pr :
  with_caches pr (baseCache pr) (dimsCache pr) (BaseFiler pr) = pr.
Proof. by destruct pr. Qed.



End CodecFacts.

(** ** The flips of a sprite *)
Module FlipFacts.
Import JS PixelRendr CodecTerms FlipTerms.

Lemma wr_length a i v : length (wr a i v) = length a.
Proof. unfold wr. destruct (i <? 0); [done|]. apply length_insert. Qed.

Lemma wr_lookup_eq a i v :
  0 ≤ i < Z.of_nat (length a) → wr a i v !! Z.to_nat i = Some (clamp8 v).
Proof.
  intros Hi. unfold wr. destruct (Z.ltb_spec i 0); [lia|].
  apply list_lookup_insert_eq. lia.
Qed.

Lemma wr_lookup_ne a i j v : i ≠ j → 0 ≤ j → wr a i v !! Z.to_nat j = a !! Z.to_nat j.
Proof.
  intros Hne Hj. unfold wr. destruct (Z.ltb_spec i 0); [done|].
  apply list_lookup_insert_ne. lia.
Qed.

Lemma apply_writes_length sprite dst ws : length (apply_writes sprite dst ws) = length dst.
Proof.
  revert dst. induction ws as [|w ws IH]; intros dst; [done|].
  cbn. unfold apply_writes in IH. by rewrite IH, wr_length.
Qed.

Lemma apply_writes_skip sprite dst ws i :
  (∀ w, w ∈ ws → w.1 ≠ i) → 0 ≤ i →
  apply_writes sprite dst ws !! Z.to_nat i = dst !! Z.to_nat i.
Proof.
  revert dst. induction ws as [|w ws IH]; intros dst Hws Hi; [done|].
  cbn. unfold apply_writes in IH. rewrite IH by (try done; intros; apply Hws; by right).
  apply wr_lookup_ne; [|done]. apply Hws. by left.
Qed.

Lemma apply_writes_lookup sprite dst ws i src :
  0 ≤ i < Z.of_nat (length dst) →
  (∃ w, w ∈ ws ∧ w.1 = i) → (∀ w, w ∈ ws → w.1 = i → w.2 = src) →
  apply_writes sprite dst ws !! Z.to_nat i = Some (clamp8 (rd sprite src)).
Proof.
  revert dst. induction ws as [|w ws IH]; intros dst Hi Hex Hall.
  { destruct Hex as (w & ?%elem_of_nil & _). done. }
  cbn. fold (apply_writes sprite (wr dst w.1 (rd sprite w.2)) ws).
  destruct (decide (Exists (fun w' => w'.1 = i) ws)) as [Hlater|Hnone].
  - apply IH.
    + by rewrite wr_length.
    + apply Exists_exists in Hlater as (w' & Hw' & Hwi). eauto.
    + intros w' Hw'. apply Hall. by right.
  - rewrite apply_writes_skip; [| |lia].
    + assert (Hw : w.1 = i).
      { destruct Hex as (w' & [->|Hin]%elem_of_cons & Hwi); [done|].
        exfalso. apply Hnone, Exists_exists. eauto. }
      rewrite Hw, (Hall w) by (done || by left). by apply wr_lookup_eq.
    + intros w' Hw' Hwi. apply Hnone, Exists_exists. eauto.
Qed.

Lemma apply_writes_app sprite dst ws1 ws2 :
  apply_writes sprite dst (ws1 ++ ws2) = apply_writes sprite (apply_writes sprite dst ws1) ws2.
Proof. unfold apply_writes. by rewrite foldl_app. Qed.

Lemma apply_writes_concat {A} sprite (W : A → list (Z * Z)) ps dst :
  foldl (fun dst p => apply_writes sprite dst (W p)) dst ps
  = apply_writes sprite dst (concat (W <$> ps)).
Proof.
  revert dst. induction ps as [|p ps IH]; intros dst; [done|].
  cbn [foldl fmap list_fmap concat]. by rewrite IH, apply_writes_app.
Qed.

Lemma copy_pixel_writes sprite dst newloc oldloc :
  copy_pixel sprite dst newloc oldloc
  = apply_writes sprite dst ((fun k => (newloc + k, oldloc + k)) <$> zseq 4).
Proof. unfold copy_pixel, apply_writes. by rewrite foldl_fmap. Qed.

Lemma elem_of_zseq z n : z ∈ zseq n ↔ 0 ≤ z < n.
Proof.
  unfold zseq. rewrite list_elem_of_fmap. split.
  - intros (k & -> & Hk%elem_of_seq). lia.
  - intros Hz. exists (Z.to_nat z). split; [lia|]. apply elem_of_seq. lia.
Qed.

(** A list is given by its members. *)
Lemma list_by_lookup (R : list Z) (f : Z → Z) (len : nat) :
  length R = len →
  (∀ i, 0 ≤ i < Z.of_nat len → R !! Z.to_nat i = Some (f i)) →
  R = f <$> zseq (Z.of_nat len).
Proof.
  intros Hlen HR. apply list_eq. intros i. unfold zseq.
  rewrite Nat2Z.id, <- list_fmap_compose, list_lookup_fmap.
  destruct (decide (i < len)%nat) as [Hi|Hi].
  - rewrite lookup_seq_lt by done. cbn. rewrite <- (Nat2Z.id i) at 1. apply HR. lia.
  - rewrite lookup_seq_ge by lia. apply lookup_ge_None_2. lia.
Qed.

Lemma rd_lookup (a : list Z) i x : 0 ≤ i → a !! Z.to_nat i = Some x → rd a i = x.
Proof. intros Hi Hx. unfold rd. destruct (Z.ltb_spec i 0); [lia|]. by rewrite Hx. Qed.

Lemma clamp8_byte x : 0 ≤ x ≤ 255 → clamp8 x = x.
Proof. unfold clamp8. lia. Qed.

Lemma clamp8_clamp8 x : clamp8 (clamp8 x) = clamp8 x.
Proof. unfold clamp8. lia. Qed.

Lemma is_bytes_lookup a i x : is_bytes a = true → a !! i = Some x → 0 ≤ x ≤ 255.
Proof.
  unfold is_bytes. rewrite forallb_forall. intros Hall Hx.
  specialize (Hall x). rewrite andb_true_iff, !Z.leb_le in Hall. apply Hall.
  apply list_elem_of_In. by eapply list_elem_of_lookup_2.
Qed.

Lemma foldl_fun_ext {A B} (f g : A → B → A) (a : A) (l : list B) :
  (∀ a x, f a x = g a x) → foldl f a l = foldl g a l.
Proof. intros H. revert a. induction l as [|x l IH]; intros a; [done|]. cbn. by rewrite H, IH. Qed.

Lemma copy_pixels_writes {A} sprite (D S : A → Z) ps dst :
  foldl (fun dst p => copy_pixel sprite dst (D p) (S p)) dst ps
  = apply_writes sprite dst (pixel_writes D S ps).
Proof.
  unfold pixel_writes. rewrite <- apply_writes_concat.
  apply foldl_fun_ext. intros a x. apply copy_pixel_writes.
Qed.

Lemma copy_pixels_nested sprite (D S : Z → Z → Z) (m h : Z) dst :
  foldl (fun dst i => foldl (fun dst j => copy_pixel sprite dst (D i j) (S i j)) dst (zseq m))
        dst (zseq h)
  = apply_writes sprite dst
      (pixel_writes (fun ij => D ij.1 ij.2) (fun ij => S ij.1 ij.2)
         (concat ((fun i => (fun j => (i, j)) <$> zseq m) <$> zseq h))).
Proof.
  rewrite <- (copy_pixels_writes sprite (fun ij => D ij.1 ij.2) (fun ij => S ij.1 ij.2)).
  generalize (zseq h) as rows. intros rows. revert dst.
  induction rows as [|i rows IH]; intros dst; [done|].
  cbn [foldl fmap list_fmap concat]. rewrite foldl_app, IH. f_equal.
  by rewrite foldl_fmap.
Qed.

Lemma elem_of_pairs (m h i j : Z) :
  (i, j) ∈ concat ((fun i => (fun j => (i, j)) <$> zseq m) <$> zseq h)
  ↔ 0 ≤ i < h ∧ 0 ≤ j < m.
Proof.
  rewrite list_elem_of_In, in_concat. split.
  - intros (l & Hl%list_elem_of_In & Hin%list_elem_of_In).
    apply list_elem_of_fmap in Hl as (i' & -> & Hi').
    apply list_elem_of_fmap in Hin as (j' & [= -> ->] & Hj').
    by rewrite elem_of_zseq in Hi', Hj'.
  - intros [Hi Hj]. exists ((fun j => (i, j)) <$> zseq m). split; apply list_elem_of_In.
    + apply list_elem_of_fmap. exists i. split; [done|]. by apply elem_of_zseq.
    + apply list_elem_of_fmap. exists j. split; [done|]. by apply elem_of_zseq.
Qed.

Lemma pixel_writes_lookup {A} sprite dst (D S : A → Z) ps p k :
  0 ≤ D p + k < Z.of_nat (length dst) → p ∈ ps → 0 ≤ k < 4 →
  (∀ p' k', p' ∈ ps → 0 ≤ k' < 4 → D p' + k' = D p + k → S p' + k' = S p + k) →
  apply_writes sprite dst (pixel_writes D S ps) !! Z.to_nat (D p + k)
  = Some (clamp8 (rd sprite (S p + k))).
Proof.
  intros Hi Hp Hk Huniq.
  assert (Helem : ∀ w, w ∈ pixel_writes D S ps
                       ↔ ∃ p' k', p' ∈ ps ∧ 0 ≤ k' < 4 ∧ w = (D p' + k', S p' + k')).
  { intros w. unfold pixel_writes. rewrite list_elem_of_In, in_concat. split.
    - intros (l & Hl%list_elem_of_In & Hin%list_elem_of_In).
      apply list_elem_of_fmap in Hl as (p' & -> & Hp').
      apply list_elem_of_fmap in Hin as (k' & -> & Hk'%elem_of_zseq). eauto.
    - intros (p' & k' & Hp' & Hk' & ->).
      exists ((fun k => (D p' + k, S p' + k)) <$> zseq 4). split; apply list_elem_of_In.
      + apply list_elem_of_fmap. eauto.
      + apply list_elem_of_fmap. exists k'. split; [done|]. by apply elem_of_zseq. }
  apply apply_writes_lookup; [done| |].
  - exists (D p + k, S p + k). split; [|done]. apply Helem. eauto.
  - intros w (p' & k' & Hp' & Hk' & ->)%Helem Heq. cbn in *. by apply Huniq.
Qed.

Lemma strides_exact (n step : Z) : 0 < step → 0 ≤ n → strides (step * n) step = n.
Proof.
  intros Hs Hn. unfold strides. symmetry.
  apply (Z.div_unique_pos _ _ _ (step - 1)); lia.
Qed.

Lemma strides_exact_r (n step : Z) : 0 < step → 0 ≤ n → strides (n * step) step = n.
Proof. intros. rewrite Z.mul_comm. by apply strides_exact. Qed.

Lemma replicate_length_Z (len : nat) : length (replicate (Z.to_nat (Z.of_nat len)) 0) = len.
Proof. by rewrite length_replicate, Nat2Z.id. Qed.

Lemma in_sprite (sprite : list Z) (w h : Z) i j k :
  Z.of_nat (length sprite) = w * 4 * h →
  0 ≤ i < h → 0 ≤ j < w → 0 ≤ k < 4 →
  0 ≤ i * (w * 4) + j * 4 + k < Z.of_nat (length sprite).
Proof. intros size Hi Hj Hk. rewrite size. nia. Qed.

Lemma place_unique (w : Z) i j k i' j' k' :
  0 ≤ j < w → 0 ≤ k < 4 → 0 ≤ j' < w → 0 ≤ k' < 4 →
  i' * (w * 4) + j' * 4 + k' = i * (w * 4) + j * 4 + k → i' = i ∧ j' = j ∧ k' = k.
Proof.
  intros Hj Hk Hj' Hk' Heq.
  assert (i' = i) as -> by nia. lia.
Qed.

Lemma flipHoriz_moved (sprite : list Z) (a : Attributes) (w h : Z) :
  spriteWidth a = w → 1 ≤ w → 0 ≤ h → Z.of_nat (length sprite) = w * 4 * h →
  ∃ R, flipSpriteArrayHoriz sprite a = Ok R
       ∧ moved_pixels w h (fun i j => (i, w - 1 - j)) sprite R.
Proof.
  intros width w_pos h_nonneg size. unfold flipSpriteArrayHoriz. cbv zeta. rewrite width.
  destruct (Z.leb_spec (Z.of_nat (length sprite)) 0) as [Hz|Hpos].
  { exists sprite. split; [done|]. split; [done|]. intros i j k Hi Hj Hk.
    pose proof (in_sprite sprite w h i j k size Hi Hj Hk). lia. }
  destruct (Z.ltb_spec (w * 4) 1) as [?|_]; [lia|]. eexists. split; [reflexivity|].
  rewrite size, (strides_exact h (w * 4)), (strides_exact_r w 4) by lia.
  rewrite (copy_pixels_nested sprite (fun i j => i * (w * 4) + j * 4)
             (fun i j => i * (w * 4) + w * 4 - 4 - j * 4)).
  split; [by rewrite apply_writes_length, length_replicate, <- size, Nat2Z.id|].
  intros i j k Hi Hj Hk. cbn [fst snd].
  pose proof (pixel_writes_lookup sprite (replicate (Z.to_nat (w * 4 * h)) 0)
                (fun ij : Z * Z => ij.1 * (w * 4) + ij.2 * 4)
                (fun ij : Z * Z => ij.1 * (w * 4) + w * 4 - 4 - ij.2 * 4)
                (concat ((fun i => (fun j => (i, j)) <$> zseq w) <$> zseq h)) (i, j) k) as Hw.
  cbn [fst snd] in Hw.
  replace (i * (w * 4) + (w - 1 - j) * 4 + k) with (i * (w * 4) + w * 4 - 4 - j * 4 + k) by lia.
  apply Hw; [|by apply elem_of_pairs|done|].
  - rewrite length_replicate. nia.
  - intros [i' j'] k' [Hi' Hj']%elem_of_pairs Hk' Heq. cbn [fst snd] in *.
    destruct (place_unique w i j k i' j' k') as (-> & -> & ->); [done..|lia].
Qed.

Lemma flipVert_moved (sprite : list Z) (a : Attributes) (w h : Z) :
  spriteWidth a = w → 1 ≤ w → 0 ≤ h → Z.of_nat (length sprite) = w * 4 * h →
  ∃ R, flipSpriteArrayVert sprite a = Ok R
       ∧ moved_pixels w h (fun i j => (h - 1 - i, j)) sprite R.
Proof.
  intros width w_pos h_nonneg size. unfold flipSpriteArrayVert. cbv zeta. rewrite width.
  destruct (Z.leb_spec (Z.of_nat (length sprite)) 0) as [Hz|Hpos].
  { exists sprite. split; [done|]. split; [done|]. intros i j k Hi Hj Hk.
    pose proof (in_sprite sprite w h i j k size Hi Hj Hk). lia. }
  destruct (Z.ltb_spec (w * 4) 1) as [?|_]; [lia|]. eexists. split; [reflexivity|].
  rewrite size, (strides_exact h (w * 4)), (strides_exact_r w 4) by lia.
  rewrite (copy_pixels_nested sprite (fun r i => r * (w * 4) + i * 4)
             (fun r i => w * 4 * h - w * 4 - r * (w * 4) + i * 4)).
  split; [by rewrite apply_writes_length, length_replicate, <- size, Nat2Z.id|].
  intros i j k Hi Hj Hk. cbn [fst snd].
  pose proof (pixel_writes_lookup sprite (replicate (Z.to_nat (w * 4 * h)) 0)
                (fun ij : Z * Z => ij.1 * (w * 4) + ij.2 * 4)
                (fun ij : Z * Z => w * 4 * h - w * 4 - ij.1 * (w * 4) + ij.2 * 4)
                (concat ((fun i => (fun j => (i, j)) <$> zseq w) <$> zseq h)) (i, j) k) as Hw.
  cbn [fst snd] in Hw.
  replace ((h - 1 - i) * (w * 4) + j * 4 + k)
    with (w * 4 * h - w * 4 - i * (w * 4) + j * 4 + k) by lia.
  apply Hw; [|by apply elem_of_pairs|done|].
  - rewrite length_replicate. nia.
  - intros [i' j'] k' [Hi' Hj']%elem_of_pairs Hk' Heq. cbn [fst snd] in *.
    destruct (place_unique w i j k i' j' k') as (-> & -> & ->); [done..|lia].
Qed.

Lemma flipBoth_moved (sprite : list Z) (w h : Z) :
  1 ≤ w → 0 ≤ h → Z.of_nat (length sprite) = w * 4 * h →
  moved_pixels w h (fun i j => (h - 1 - i, w - 1 - j)) sprite (flipSpriteArrayBoth sprite).
Proof.
  intros w_pos h_nonneg size. unfold flipSpriteArrayBoth. cbv zeta.
  replace (Z.of_nat (length sprite)) with (w * h * 4) by lia.
  rewrite (strides_exact_r (w * h) 4) by nia.
  rewrite (copy_pixels_writes sprite (fun p => p * 4) (fun p => w * h * 4 - 4 - p * 4)).
  split; [rewrite apply_writes_length, length_replicate; lia|].
  intros i j k Hi Hj Hk. cbn [fst snd].
  pose proof (pixel_writes_lookup sprite (replicate (Z.to_nat (w * h * 4)) 0)
                (fun p => p * 4) (fun p => w * h * 4 - 4 - p * 4)
                (zseq (w * h)) (i * w + j) k) as Hw.
  cbn beta in Hw.
  replace (i * (w * 4) + j * 4 + k) with ((i * w + j) * 4 + k) by lia.
  replace ((h - 1 - i) * (w * 4) + (w - 1 - j) * 4 + k)
    with (w * h * 4 - 4 - (i * w + j) * 4 + k) by lia.
  apply Hw; [| |done|].
  - rewrite length_replicate. nia.
  - apply elem_of_zseq. nia.
  - intros p' k' Hp' Hk' Heq. lia.
Qed.

Lemma place_split (w h d : Z) :
  1 ≤ w → 0 ≤ d < w * 4 * h →
  ∃ i j k, 0 ≤ i < h ∧ 0 ≤ j < w ∧ 0 ≤ k < 4 ∧ d = i * (w * 4) + j * 4 + k.
Proof.
  intros Hw Hd.
  exists (d / 4 / w), ((d / 4) mod w), (d mod 4).
  pose proof (Z.div_mod d 4 ltac:(lia)) as H1.
  pose proof (Z.mod_pos_bound d 4 ltac:(lia)) as H2.
  pose proof (Z.div_mod (d / 4) w ltac:(lia)) as H3.
  pose proof (Z.mod_pos_bound (d / 4) w ltac:(lia)) as H4.
  assert (0 ≤ d / 4 < w * h) by (split; [apply Z.div_pos; lia|apply Z.div_lt_upper_bound; lia]).
  assert (0 ≤ d / 4 / w < h) by (split; [apply Z.div_pos; lia|apply Z.div_lt_upper_bound; lia]).
  repeat split; try lia.
Qed.

Lemma moved_unique (w h : Z) (m m' : Z → Z → Z * Z) (sprite R R' : list Z) :
  1 ≤ w → Z.of_nat (length sprite) = w * 4 * h →
  moved_pixels w h m sprite R → moved_pixels w h m' sprite R' →
  (∀ i j, 0 ≤ i < h → 0 ≤ j < w → m i j = m' i j) → R = R'.
Proof.
  intros Hw Hsize [HlenR HR] [HlenR' HR'] Hm. apply list_eq. intros d.
  destruct (decide (d < length sprite)%nat) as [Hd|Hd].
  - destruct (place_split w h (Z.of_nat d) Hw ltac:(lia)) as (i & j & k & Hi & Hj & Hk & Heq).
    rewrite <- (Nat2Z.id d), Heq, HR, HR', Hm by done. done.
  - rewrite !lookup_ge_None_2 by lia. done.
Qed.

Lemma moved_self (w h : Z) (sprite : list Z) :
  1 ≤ w → Z.of_nat (length sprite) = w * 4 * h → is_bytes sprite = true →
  moved_pixels w h (fun i j => (i, j)) sprite sprite.
Proof.
  intros Hw Hsize Hbytes. split; [done|]. intros i j k Hi Hj Hk. cbn [fst snd].
  pose proof (in_sprite sprite w h i j k Hsize Hi Hj Hk) as Hin.
  destruct (lookup_lt_is_Some_2 sprite (Z.to_nat (i * (w * 4) + j * 4 + k)) ltac:(lia))
    as [x Hx].
  rewrite Hx, (rd_lookup _ _ x), clamp8_byte; [done| |lia|done].
  by eapply is_bytes_lookup.
Qed.

Lemma moved_compose (w h : Z) (m1 m2 : Z → Z → Z * Z) (sprite R1 R2 : list Z) :
  Z.of_nat (length sprite) = w * 4 * h →
  moved_pixels w h m1 sprite R1 → moved_pixels w h m2 R1 R2 →
  (∀ i j, 0 ≤ i < h → 0 ≤ j < w → 0 ≤ (m2 i j).1 < h ∧ 0 ≤ (m2 i j).2 < w) →
  moved_pixels w h (fun i j => m1 (m2 i j).1 (m2 i j).2) sprite R2.
Proof.
  intros Hsize [Hlen1 H1] [Hlen2 H2] Hin. split; [congruence|].
  intros i j k Hi Hj Hk. rewrite H2 by done.
  destruct (Hin i j Hi Hj) as [Hi' Hj'].
  pose proof (in_sprite sprite w h _ _ k Hsize Hi' Hj' Hk) as Hplace.
  rewrite (rd_lookup R1 _ _ (proj1 Hplace) (H1 _ _ k Hi' Hj' Hk)).
  by rewrite clamp8_clamp8.
Qed.

Lemma moved_length (w h : Z) m (sprite R : list Z) :
  moved_pixels w h m sprite R → length R = length sprite.
Proof. by intros [? _]. Qed.

(** X11.  Flipping a sprite twice the same way gives the sprite back: across, down
    and both at once. *)
Theorem flips_undo_themselves (sprite : list Z) (a : Attributes) (h : Z) :
  1 ≤ spriteWidth a →
  Z.of_nat (length sprite) = spriteWidth a * 4 * h →
  is_bytes sprite = true →
  (∃ across, flipSpriteArrayHoriz sprite a = Ok across
             ∧ flipSpriteArrayHoriz across a = Ok sprite)
  ∧ (∃ down, flipSpriteArrayVert sprite a = Ok down
             ∧ flipSpriteArrayVert down a = Ok sprite)
  ∧ flipSpriteArrayBoth (flipSpriteArrayBoth sprite) = sprite.
Proof.
  intros Hw Hsize Hbytes. set (w := spriteWidth a) in *.
  assert (Hh : 0 ≤ h) by nia.
  pose proof (moved_self w h sprite Hw Hsize Hbytes) as Hself.
  split; [|split].
  - destruct (flipHoriz_moved sprite a w h eq_refl Hw Hh Hsize) as (R & HR & Hm1).
    exists R. split; [done|].
    pose proof (moved_length _ _ _ _ _ Hm1) as Hlen.
    destruct (flipHoriz_moved R a w h eq_refl Hw Hh ltac:(lia)) as (R2 & HR2 & Hm2).
    rewrite HR2. f_equal.
    eapply (moved_unique w h _ _ sprite); [done..| |apply Hself|].
    + apply (moved_compose w h _ _ sprite R R2 Hsize Hm1 Hm2). cbn. lia.
    + intros i j Hi Hj. cbn. f_equal. lia.
  - destruct (flipVert_moved sprite a w h eq_refl Hw Hh Hsize) as (R & HR & Hm1).
    exists R. split; [done|].
    pose proof (moved_length _ _ _ _ _ Hm1) as Hlen.
    destruct (flipVert_moved R a w h eq_refl Hw Hh ltac:(lia)) as (R2 & HR2 & Hm2).
    rewrite HR2. f_equal.
    eapply (moved_unique w h _ _ sprite); [done..| |apply Hself|].
    + apply (moved_compose w h _ _ sprite R R2 Hsize Hm1 Hm2). cbn. lia.
    + intros i j Hi Hj. cbn. f_equal. lia.
  - pose proof (flipBoth_moved sprite w h Hw Hh Hsize) as Hm1.
    pose proof (moved_length _ _ _ _ _ Hm1) as Hlen.
    pose proof (flipBoth_moved (flipSpriteArrayBoth sprite) w h Hw Hh ltac:(lia)) as Hm2.
    eapply (moved_unique w h _ _ sprite); [done..| |apply Hself|].
    + apply (moved_compose w h _ _ sprite _ _ Hsize Hm1 Hm2). cbn. lia.
    + intros i j Hi Hj. cbn. f_equal; lia.
Qed.

Lemma flips_undo_themselves_witness :
  (∃ across, flipSpriteArrayHoriz two_by_two (sized 2 2) = Ok across
             ∧ flipSpriteArrayHoriz across (sized 2 2) = Ok two_by_two)
  ∧ (∃ down, flipSpriteArrayVert two_by_two (sized 2 2) = Ok down
             ∧ flipSpriteArrayVert down (sized 2 2) = Ok two_by_two)
  ∧ flipSpriteArrayBoth (flipSpriteArrayBoth two_by_two) = two_by_two.
Proof.
  apply (flips_undo_themselves two_by_two (sized 2 2) 2); [cbn; lia|reflexivity..].
Defined.

(** X12.  Flipping across and then down, or down and then across, is the flip both
    ways at once. *)
Theorem flip_both_is_two_flips (sprite : list Z) (a : Attributes) (h : Z) :
  1 ≤ spriteWidth a →
  Z.of_nat (length sprite) = spriteWidth a * 4 * h →
  ∃ across down,
    flipSpriteArrayHoriz sprite a = Ok across
    ∧ flipSpriteArrayVert sprite a = Ok down
    ∧ flipSpriteArrayVert across a = Ok (flipSpriteArrayBoth sprite)
    ∧ flipSpriteArrayHoriz down a = Ok (flipSpriteArrayBoth sprite).
Proof.
  intros Hw Hsize. set (w := spriteWidth a) in *.
  assert (Hh : 0 ≤ h) by nia.
  destruct (flipHoriz_moved sprite a w h eq_refl Hw Hh Hsize) as (across & Hacross & Hm1).
  destruct (flipVert_moved sprite a w h eq_refl Hw Hh Hsize) as (down & Hdown & Hm2).
  pose proof (moved_length _ _ _ _ _ Hm1) as Hlen1.
  pose proof (moved_length _ _ _ _ _ Hm2) as Hlen2.
  pose proof (flipBoth_moved sprite w h Hw Hh Hsize) as Hboth.
  exists across, down. repeat split; try done.
  - destruct (flipVert_moved across a w h eq_refl Hw Hh ltac:(lia)) as (R & -> & Hm).
    f_equal. eapply (moved_unique w h _ _ sprite); [done..| |apply Hboth|].
    + apply (moved_compose w h _ _ sprite _ _ Hsize Hm1 Hm). cbn. lia.
    + intros i j Hi Hj. done.
  - destruct (flipHoriz_moved down a w h eq_refl Hw Hh ltac:(lia)) as (R & -> & Hm).
    f_equal. eapply (moved_unique w h _ _ sprite); [done..| |apply Hboth|].
    + apply (moved_compose w h _ _ sprite _ _ Hsize Hm2 Hm). cbn. lia.
    + intros i j Hi Hj. done.
Qed.

Lemma flip_both_is_two_flips_witness :
  ∃ across down,
    flipSpriteArrayHoriz two_by_two (sized 2 2) = Ok across
    ∧ flipSpriteArrayVert two_by_two (sized 2 2) = Ok down
    ∧ flipSpriteArrayVert across (sized 2 2) = Ok (flipSpriteArrayBoth two_by_two)
    ∧ flipSpriteArrayHoriz down (sized 2 2) = Ok (flipSpriteArrayBoth two_by_two).
Proof.
  apply (flip_both_is_two_flips two_by_two (sized 2 2) 2); [cbn; lia|reflexivity].
Defined.

End FlipFacts.

(** ** memcpyU8 and the repeat of rows *)
Module CopyFacts.
Import JS PixelRendr CodecTerms FlipTerms CopyTerms FlipFacts.

Lemma memcpyU8_length src dst rl wl len : length (memcpyU8 src dst rl wl len) = length dst.
Proof.
  unfold memcpyU8. repeat (destruct (_ || _); [done|]).
  generalize (zseq len). intros l. revert dst.
  induction l as [|k l IH]; intros dst; [done|]. cbn. by rewrite IH, wr_length.
Qed.

Lemma memcpyU8_lookup (src dst : list Z) (rl wl len : Z) (p : nat) :
  memcpyU8 src dst rl wl len !! p
  = if bool_decide (0 ≤ rl < Z.of_nat (length src) ∧ 0 ≤ wl ≤ Z.of_nat p
                    ∧ Z.of_nat p < wl + len ∧ (p < length dst)%nat)
    then Some (clamp8 (rd src (rl + (Z.of_nat p - wl))))
    else dst !! p.
Proof.
  unfold memcpyU8.
  destruct (Z.ltb_spec rl 0); cbn [orb]; [by rewrite bool_decide_eq_false_2 by lia|].
  destruct (Z.ltb_spec wl 0); cbn [orb]; [by rewrite bool_decide_eq_false_2 by lia|].
  destruct (Z.leb_spec len 0); cbn [orb]; [by rewrite bool_decide_eq_false_2 by lia|].
  destruct (Z.leb_spec (Z.of_nat (length src)) rl); cbn [orb];
    [by rewrite bool_decide_eq_false_2 by lia|].
  destruct (Z.leb_spec (Z.of_nat (length dst)) wl); cbn [orb];
    [by rewrite bool_decide_eq_false_2 by lia|].
  change (foldl _ dst (zseq len))
    with (foldl (fun dst k => wr dst (wl + k) (rd src (rl + k))) dst (zseq len)).
  assert (Hw : foldl (fun dst k => wr dst (wl + k) (rd src (rl + k))) dst (zseq len)
               = apply_writes src dst ((fun k => (wl + k, rl + k)) <$> zseq len)).
  { unfold apply_writes. by rewrite foldl_fmap. }
  rewrite Hw. rewrite <- (Nat2Z.id p) at 1.
  case_bool_decide as Hin.
  - apply apply_writes_lookup; [lia| |].
    + exists (Z.of_nat p, rl + (Z.of_nat p - wl)). split; [|done].
      apply list_elem_of_fmap. exists (Z.of_nat p - wl). split; [f_equal; lia|].
      apply elem_of_zseq. lia.
    + intros w (k & -> & Hk)%list_elem_of_fmap Heq. cbn in *. f_equal. lia.
  - destruct (decide (p < length dst)%nat) as [Hp|Hp].
    + rewrite apply_writes_skip; [by rewrite Nat2Z.id| |lia].
      intros w (k & -> & Hk%elem_of_zseq)%list_elem_of_fmap Heq. cbn in *. lia.
    + rewrite Nat2Z.id, !lookup_ge_None_2; [done|lia|rewrite apply_writes_length; lia].
Qed.

(** X13.  [memcpyU8] copies a window: the members of the destination from
    [writeloc] on, [writelength] of them and no further than the
    destination's end, take the members of the source from [readloc] on, 0
    where the source has ended; every other member stays.  A start outside
    the source or the destination copies nothing. *)
Theorem memcpyU8_window (src dst : list Z) (rl wl len : Z) (p : nat) :
  length (memcpyU8 src dst rl wl len) = length dst
  ∧ memcpyU8 src dst rl wl len !! p
    = if bool_decide (0 ≤ rl < Z.of_nat (length src) ∧ 0 ≤ wl ≤ Z.of_nat p
                      ∧ Z.of_nat p < wl + len ∧ (p < length dst)%nat)
      then Some (clamp8 (rd src (rl + (Z.of_nat p - wl))))
      else dst !! p.
Proof. split; [apply memcpyU8_length|apply memcpyU8_lookup]. Qed.

Section Rows.
Variables (sprite : list Z) (rs : Z).
Hypothesis rs_pos : 1 ≤ rs.

(** The copies of one source row: the inner loop of [spriteRepeatRows]. *)
Lemma repeat_row (rl : Z) (l : list Z) (P : list Z) (wl : Z) :
  0 ≤ wl →
  let r := foldl (fun pw (_ : Z) => (memcpyU8 sprite pw.1 rl pw.2 rs, pw.2 + rs)) (P, wl) l in
  r.2 = wl + Z.of_nat (length l) * rs
  ∧ length r.1 = length P
  ∧ ∀ p : nat,
      r.1 !! p
      = if bool_decide (0 ≤ rl < Z.of_nat (length sprite)
                        ∧ wl ≤ Z.of_nat p < wl + Z.of_nat (length l) * rs
                        ∧ (p < length P)%nat)
        then Some (clamp8 (rd sprite (rl + (Z.of_nat p - wl) mod rs)))
        else P !! p.
Proof.
  revert P wl. induction l as [|x l IH]; intros P wl Hwl.
  - cbn. split; [lia|]. split; [done|]. intros p.
    by rewrite bool_decide_eq_false_2 by lia.
  - cbn [foldl fst snd length].
    destruct (IH (memcpyU8 sprite P rl wl rs) (wl + rs) ltac:(lia)) as (H2 & Hlen & Hp).
    cbv zeta in *. split; [lia|]. split; [by rewrite Hlen, memcpyU8_length|].
    intros p. rewrite Hp, memcpyU8_length, memcpyU8_lookup.
    repeat case_bool_decide; try lia; try done.
    + do 2 f_equal. f_equal.
      replace (Z.of_nat p - wl) with (Z.of_nat p - (wl + rs) + 1 * rs) by lia.
      by rewrite Z.mod_add by lia.
    + do 2 f_equal. f_equal. rewrite Z.mod_small; lia.
Qed.

Variables (sc rows : Z).
Hypothesis sc_pos : 1 ≤ sc.
Hypothesis rows_nonneg : 0 ≤ rows.
Hypothesis size : Z.of_nat (length sprite) = rs * rows.

Lemma zseq_length n : length (zseq n) = Z.to_nat n.
Proof. unfold zseq. by rewrite length_fmap, length_seq. Qed.

Lemma block_div (n p : Z) : n * (sc * rs) ≤ p < (n + 1) * (sc * rs) → p / (sc * rs) = n.
Proof. intros H. symmetry. apply (Z.div_unique_pos _ _ _ (p - n * (sc * rs))); lia. Qed.

Lemma block_mod (n p : Z) : (p - n * (sc * rs)) mod rs = p mod rs.
Proof.
  replace (p - n * (sc * rs)) with (p + (- n * sc) * rs) by lia.
  apply Z.mod_add. lia.
Qed.

(** The outer loop of [spriteRepeatRows], from its [n]th turn on. *)
Lemma repeat_rows (l : list Z) (P : list Z) (n : Z) :
  0 ≤ n → Z.of_nat (length P) = rows * (sc * rs) →
  let r := foldl (fun st (_ : Z) =>
                    let '(parsed, readloc, writeloc) := st in
                    let '(parsed, writeloc) :=
                      foldl (fun pw (_ : Z) =>
                               (memcpyU8 sprite pw.1 readloc pw.2 rs, pw.2 + rs))
                            (parsed, writeloc) (zseq sc) in
                    (parsed, readloc + rs, writeloc))
                 (P, n * rs, n * (sc * rs)) l in
  length r.1.1 = length P
  ∧ ∀ p : nat,
      r.1.1 !! p
      = if bool_decide (n * (sc * rs) ≤ Z.of_nat p
                        < Z.min (n + Z.of_nat (length l)) rows * (sc * rs))
        then Some (clamp8 (rd sprite (Z.of_nat p / (sc * rs) * rs + Z.of_nat p mod rs)))
        else P !! p.
Proof.
  revert P n. induction l as [|x l IH]; intros P n Hn HP.
  - cbn [foldl fst snd length]. split; [done|]. intros p.
    assert (Z.min (n + Z.of_nat 0) rows * (sc * rs) ≤ n * (sc * rs))
      by (apply Z.mul_le_mono_nonneg_r; lia).
    by rewrite bool_decide_eq_false_2 by lia.
  - cbn [foldl length].
    destruct (repeat_row (n * rs) (zseq sc) P (n * (sc * rs)) ltac:(nia))
      as (Hwl & Hlen & Hrow).
    cbv zeta in Hwl, Hlen, Hrow. rewrite zseq_length, Z2Nat.id in Hwl, Hrow by lia.
    destruct (foldl _ (P, n * (sc * rs)) (zseq sc)) as [P1 wl1].
    cbn [fst snd] in Hwl, Hlen, Hrow. subst wl1.
    replace (n * rs + rs) with ((n + 1) * rs) by lia.
    replace (n * (sc * rs) + sc * rs) with ((n + 1) * (sc * rs)) by lia.
    destruct (IH P1 (n + 1) ltac:(lia) ltac:(lia)) as (Hlen' & Hp').
    cbv zeta in *. split; [lia|].
    intros p. rewrite Hp', Hrow.
    replace (n + 1 + Z.of_nat (length l)) with (n + Z.of_nat (S (length l))) by lia.
    set (m := Z.min (n + Z.of_nat (S (length l))) rows).
    assert (Hm : m * (sc * rs) ≤ rows * (sc * rs)) by (apply Z.mul_le_mono_nonneg_r; lia).
    repeat case_bool_decide; try done; try lia.
    + rewrite block_mod. do 3 f_equal. rewrite (block_div n); lia.
    + exfalso.
      assert (n < m) by nia.
      assert (n < rows) by lia.
      assert ((n + 1) * (sc * rs) ≤ m * (sc * rs)) by (apply Z.mul_le_mono_nonneg_r; lia).
      nia.
Qed.

End Rows.

(** X14.  [spriteRepeatRows] writes every row of the sprite [scale] times: row
    [r] of the result is row [r / scale] of the sprite.  The loop is set to
    run [spriteHeight * scale] times; the turns past the sprite's last row
    copy nothing. *)
Theorem spriteRepeatRows_rows (pr : PixelRendr) (sprite : list Z) (a : Attributes)
  (rows : Z) :
  1 ≤ spriteWidth a → 1 ≤ scale pr →
  Z.of_nat (length sprite) = spriteWidth a * 4 * rows →
  rows ≤ spriteHeight a * scale pr →
  is_bytes sprite = true →
  Z.of_nat (length (spriteRepeatRows pr sprite a)) = Z.of_nat (length sprite) * scale pr
  ∧ ∀ r c, 0 ≤ r < rows * scale pr → 0 ≤ c < spriteWidth a * 4 →
      spriteRepeatRows pr sprite a !! Z.to_nat (r * (spriteWidth a * 4) + c)
      = sprite !! Z.to_nat (r / scale pr * (spriteWidth a * 4) + c).
Proof.
  intros Hw Hsc Hsize Hrows Hbytes. unfold spriteRepeatRows. cbv zeta.
  set (rs := spriteWidth a * 4) in *. set (sc := scale pr) in *.
  assert (Hr : 0 ≤ rows) by nia.
  pose proof (repeat_rows sprite rs ltac:(lia) sc rows Hsc Hr Hsize
                (zseq (spriteHeight a * sc))
                (replicate (Z.to_nat (Z.of_nat (length sprite) * sc)) 0) 0 ltac:(lia)) as H.
  rewrite length_replicate, zseq_length in H.
  specialize (H ltac:(nia)). cbv zeta in H.
  change (0 * rs) with 0 in H. change (0 * (sc * rs)) with 0 in H.
  destruct H as [Hlen Hp]. split; [rewrite Hlen; nia|].
  intros r c Hr' Hc. rewrite Hp.
  rewrite bool_decide_eq_true_2.
  2:{ rewrite Z.add_0_l, Z2Nat.id, Z.min_r by nia. nia. }
  rewrite Z2Nat.id by nia.
  assert (Hdiv : (r * rs + c) / (sc * rs) = r / sc).
  { rewrite (Z.mul_comm sc rs), <- Z.div_div by lia.
    f_equal. symmetry. apply (Z.div_unique_pos _ _ _ c); lia. }
  assert (Hmod : (r * rs + c) mod rs = c).
  { rewrite Z.add_comm, Z.mod_add by lia. apply Z.mod_small. lia. }
  rewrite Hdiv, Hmod.
  assert (0 ≤ r / sc < rows).
  { split; [apply Z.div_pos; lia|apply Z.div_lt_upper_bound; lia]. }
  assert (Hin : 0 ≤ r / sc * rs + c < Z.of_nat (length sprite)) by nia.
  destruct (lookup_lt_is_Some_2 sprite (Z.to_nat (r / sc * rs + c)) ltac:(lia)) as [x Hx].
  rewrite Hx, (rd_lookup _ _ x), clamp8_byte; [done| |lia|done].
  by eapply is_bytes_lookup.
Qed.

Lemma spriteRepeatRows_rows_witness :
  Z.of_nat (length (spriteRepeatRows double_rendr two_by_two (sized 2 1)))
  = Z.of_nat (length two_by_two) * 2
  ∧ ∀ r c, 0 ≤ r < 2 * 2 → 0 ≤ c < 2 * 4 →
      spriteRepeatRows double_rendr two_by_two (sized 2 1) !! Z.to_nat (r * (2 * 4) + c)
      = two_by_two !! Z.to_nat (r / 2 * (2 * 4) + c).
Proof.
  apply (spriteRepeatRows_rows double_rendr two_by_two (sized 2 1) 2);
    [cbn; lia|cbn; lia|reflexivity|cbn; lia|reflexivity].
Defined.


End CopyFacts.

(** ** Decoding sprite texts *)
Module PiecesFacts.
Import JS StringFilr PixelRendr PixelRendrTerms CopyTerms PiecesTerms StringFacts PixelRendrFacts
  LoopFacts.

Lemma concat_strings_app l1 l2 :
  concat_strings (l1 ++ l2) = concat_strings l1 +:+ concat_strings l2.
Proof.
  induction l1 as [|s l1 IH]; [done|]. cbn. unfold concat_strings in IH.
  by rewrite IH, app_assoc_string.
Qed.

Lemma digits_app pr l1 l2 : digits pr (l1 ++ l2) = digits pr l1 +:+ digits pr l2.
Proof. unfold digits. by rewrite fmap_app, concat_strings_app. Qed.

Lemma digits_replicate pr i n : digits pr (replicate n i) = repeat_string (padded pr i) n.
Proof.
  induction n as [|n IH]; [done|].
  change (digits pr (replicate (S n) i)) with (padded pr i +:+ digits pr (replicate n i)).
  by rewrite IH.
Qed.

Lemma string_of_Z_nonempty (n : nat) : 1 ≤ strlen (string_of_Z (Z.of_nat n)).
Proof.
  destruct n as [|n]; [done|].
  change (Z.of_nat (S n)) with (Z.pos (Pos.of_succ_nat n)).
  unfold string_of_Z. cbn [Z.to_int NilZero.string_of_int]. unfold NilZero.string_of_uint.
  destruct (Pos.to_uint (Pos.of_succ_nat n)) as [|u|u|u|u|u|u|u|u|u|u]; [done|..];
    cbn [NilEmpty.string_of_uint]; rewrite strlen_String;
    pose proof (strlen_nonneg (NilEmpty.string_of_uint u)); lia.
Qed.

Ltac same_text :=
  apply chars_inj; rewrite ?chars_app; unfold chars; cbn [list_ascii_of_string append];
  rewrite <- ?app_assoc; cbn [app]; reflexivity.

Lemma fits_spec pr i :
  fits pr i = true →
  strlen (string_of_Z (Z.of_nat i)) ≤ digitsizeDefault pr
  ∧ (i < length (paletteDefault pr))%nat ∧ 1 ≤ digitsizeDefault pr.
Proof.
  unfold fits. rewrite andb_true_iff, Z.leb_le, Nat.ltb_lt. intros [H1 H2].
  pose proof (string_of_Z_nonempty i). lia.
Qed.

Section Pieces.
Variable pr : PixelRendr.

Abbreviation start := (getPaletteReferenceStarting pr (paletteDefault pr)).
Abbreviation size := (digitsizeDefault pr).

Lemma unravel_single i pre rest fuel output :
  fits pr i = true →
  spriteUnravel_loop (S fuel) pr (pre +:+ padded pr i +:+ rest) start size (strlen pre) output
  = spriteUnravel_loop fuel pr ((pre +:+ padded pr i) +:+ rest) start size
      (strlen (pre +:+ padded pr i)) (output +:+ padded pr i).
Proof.
  intros (Hfit & Hi & Hpos)%fits_spec.
  pose proof (padded_strlen pr i Hfit) as Hlen.
  pose proof (starting_reference_lookup pr _ i Hi) as Href.
  destruct (padded_cons pr Hpos i Hfit) as (c & tl & Hcons & Hc).
  set (d := padded pr i) in *.
  cbn [spriteUnravel_loop].
  pose proof (strlen_nonneg rest). pose proof (strlen_nonneg pre).
  rewrite !strlen_app, Hlen.
  destruct (Z.ltb_spec (strlen pre) (strlen pre + (size + strlen rest))); [|lia].
  assert (Hat : charAt (pre +:+ d +:+ rest) (strlen pre) = Some c).
  { rewrite Hcons. apply (charAt_after pre c (tl +:+ rest)). }
  rewrite Hat, (digit_is_literal c) by done.
  assert (Hsl : slice (pre +:+ d +:+ rest) (strlen pre) (strlen pre + size) = d).
  { rewrite <- Hlen. apply slice_middle. }
  rewrite Hsl, starting_reference_length, Href, <- starting_reference_length.
  change (show (Some d)) with d. rewrite makeDigit_full by lia.
  by rewrite app_assoc_string.
Qed.

Lemma unravel_run i n pre rest fuel output :
  fits pr i = true →
  spriteUnravel_loop (S fuel) pr (pre +:+ written pr (Run i n) +:+ rest) start size
    (strlen pre) output
  = spriteUnravel_loop fuel pr ((pre +:+ written pr (Run i n)) +:+ rest) start size
      (strlen (pre +:+ written pr (Run i n))) (output +:+ repeat_string (padded pr i) n).
Proof.
  intros (Hfit & Hi & Hpos)%fits_spec.
  pose proof (padded_strlen pr i Hfit) as Hlen.
  pose proof (starting_reference_lookup pr _ i Hi) as Href.
  cbn [written]. set (d := padded pr i) in *. set (ns := string_of_Z (Z.of_nat n)).
  set (colors := pre +:+ ("x" +:+ d +:+ ns +:+ ",") +:+ rest).
  pose proof (strlen_nonneg rest). pose proof (strlen_nonneg pre).
  pose proof (strlen_nonneg ns) as Hns.
  assert (Hcl : strlen colors = strlen pre + (1 + size + strlen ns + 1) + strlen rest).
  { subst colors. rewrite !strlen_app, Hlen.
    change (strlen "x") with 1. change (strlen ",") with 1. lia. }
  assert (Hw : strlen (pre +:+ "x" +:+ d +:+ ns +:+ ",") = strlen pre + (1 + size + strlen ns + 1)).
  { rewrite !strlen_app, Hlen. change (strlen "x") with 1. change (strlen ",") with 1. lia. }
  cbn [spriteUnravel_loop]. rewrite Hcl.
  destruct (Z.ltb_spec (strlen pre) (strlen pre + (1 + size + strlen ns + 1) + strlen rest));
    [|lia].
  assert (Hat : charAt colors (strlen pre) = Some "x"%char).
  { subst colors. apply (charAt_after pre "x"%char ((d +:+ ns +:+ ",") +:+ rest)). }
  rewrite Hat. cbv iota.
  assert (Hx1 : strlen pre + 1 = strlen (pre +:+ "x")) by (by rewrite strlen_app).
  assert (Hnix : indexOf colors ","%char (strlen pre + 1)
                 = strlen pre + 1 + size + strlen ns).
  { rewrite Hx1.
    replace colors with ((pre +:+ "x") +:+ (d +:+ ns) +:+ String ","%char rest)
      by (subst colors; same_text).
    rewrite indexOf_after.
    - rewrite !strlen_app, Hlen. change (strlen "x") with 1. lia.
    - rewrite chars_app. intros [Hc|Hc]%elem_of_app.
      + by apply (digits_no_comma d (padded_digits pr i)).
      + by apply (digits_no_comma ns (is_digit_string_of_Z n)). }
  rewrite Hnix.
  assert (Hd : slice colors (strlen pre + 1) (strlen pre + 1 + size) = d).
  { rewrite Hx1, <- Hlen.
    replace colors with ((pre +:+ "x") +:+ d +:+ (ns +:+ "," +:+ rest))
      by (subst colors; same_text).
    apply slice_middle. }
  rewrite Hd.
  assert (Hn : slice colors (strlen pre + 1 + size) (strlen pre + 1 + size + strlen ns) = ns).
  { replace (strlen pre + 1 + size) with (strlen (pre +:+ "x" +:+ d))
      by (rewrite !strlen_app, Hlen; change (strlen "x") with 1; lia).
    replace colors with ((pre +:+ "x" +:+ d) +:+ ns +:+ ("," +:+ rest))
      by (subst colors; same_text).
    apply slice_middle. }
  rewrite Hn. subst ns. rewrite Number_string_of_Z.
  rewrite starting_reference_length, Href, <- starting_reference_length.
  change (show (Some d)) with d. rewrite makeDigit_full by lia.
  rewrite Nat2Z.id, Hw.
  replace (strlen pre + 1 + size + strlen (string_of_Z (Z.of_nat n)) + 1)
    with (strlen pre + (1 + size + strlen (string_of_Z (Z.of_nat n)) + 1)) by lia.
  f_equal. subst colors. same_text.
Qed.

Lemma unravel_pieces xs :
  ∀ pre fuel output,
    forallb (fun x => fits pr (colour_of x)) xs = true → (length xs < fuel)%nat →
    spriteUnravel_loop fuel pr (pre +:+ text pr xs) start size (strlen pre) output
    = Ok (output +:+ digits pr (concat (pixels <$> xs))).
Proof.
  induction xs as [|x xs IH]; intros pre fuel output Hfits Hfuel.
  - destruct fuel as [|fuel]; [cbn in Hfuel; lia|].
    cbn [spriteUnravel_loop]. change (text pr []) with "". rewrite app_empty_r.
    rewrite Z.ltb_irrefl. change (digits pr _) with "". by rewrite app_empty_r.
  - destruct fuel as [|fuel]; [cbn in Hfuel; lia|].
    cbn [forallb] in Hfits. apply andb_true_iff in Hfits as [Hx Hxs].
    change (text pr (x :: xs)) with (written pr x +:+ text pr xs).
    cbn [fmap list_fmap concat]. rewrite digits_app.
    destruct x as [i|i n]; cbn [colour_of] in Hx.
    + change (written pr (Single i)) with (padded pr i).
      rewrite unravel_single, IH by (try done; cbn in Hfuel; lia).
      change (digits pr (pixels (Single i))) with (padded pr i +:+ "").
      by rewrite app_empty_r, app_assoc_string.
    + rewrite unravel_run, IH by (try done; cbn in Hfuel; lia).
      cbn [pixels]. by rewrite digits_replicate, app_assoc_string.
Qed.

Lemma unravel_text xs fuel :
  forallb (fun x => fits pr (colour_of x)) xs = true → (length xs < fuel)%nat →
  spriteUnravel fuel pr (text pr xs) = Ok (digits pr (concat (pixels <$> xs))).
Proof. intros Hfits Hfuel. unfold spriteUnravel. by apply (unravel_pieces xs "" fuel ""). Qed.

Lemma digits_strlen l :
  forallb (fits pr) l = true → strlen (digits pr l) = Z.of_nat (length l) * size.
Proof.
  induction l as [|i l IH]; intros Hl; [done|].
  cbn [forallb] in Hl. apply andb_true_iff in Hl as [(Hfit & _ & _)%fits_spec Hl].
  change (digits pr (i :: l)) with (padded pr i +:+ digits pr l).
  rewrite strlen_app, IH, padded_strlen by done. cbn [length]. lia.
Qed.

Lemma digit_groups_digits l fuel :
  forallb (fits pr) l = true → (length l ≤ fuel)%nat →
  digit_groups_chars fuel (Z.to_nat size) (chars (digits pr l)) = padded pr <$> l.
Proof.
  revert fuel. induction l as [|i l IH]; intros fuel Hl Hfuel.
  - by destruct fuel.
  - destruct fuel as [|fuel]; [cbn in Hfuel; lia|].
    cbn [forallb] in Hl. apply andb_true_iff in Hl as [(Hfit & _ & Hpos)%fits_spec Hl].
    pose proof (padded_strlen pr i Hfit) as Hlen.
    change (digits pr (i :: l)) with (padded pr i +:+ digits pr l).
    rewrite chars_app. cbn [digit_groups_chars].
    assert (Hd : length (chars (padded pr i)) = Z.to_nat size) by (unfold strlen in Hlen; lia).
    destruct (chars (padded pr i) ++ chars (digits pr l)) as [|c cs] eqn:E.
    { apply (f_equal length) in E. rewrite length_app in E. cbn in E. lia. }
    rewrite <- E, take_app_length', drop_app_length' by done.
    rewrite of_chars_chars, IH by (try done; cbn in Hfuel; lia). done.
Qed.

Lemma digit_groups_of_digits l :
  forallb (fits pr) l = true → digit_groups size (digits pr l) = padded pr <$> l.
Proof.
  intros Hl. unfold digit_groups. apply digit_groups_digits; [done|].
  pose proof (digits_strlen l Hl) as Hlen. unfold strlen in Hlen.
  destruct l as [|i l]; [cbn; lia|].
  cbn [forallb] in Hl. apply andb_true_iff in Hl as [(_ & _ & Hpos)%fits_spec _].
  nia.
Qed.

Lemma spriteExpand_digits l :
  forallb (fits pr) l = true →
  spriteExpand pr (digits pr l)
  = Ok (digits pr (concat (replicate (Z.to_nat (scale pr)) <$> l))).
Proof.
  intros Hl. unfold spriteExpand.
  destruct (String.eqb_spec (digits pr l) "") as [E|E].
  - pose proof (digits_strlen l Hl) as Hlen. rewrite E in Hlen.
    destruct l as [|i l]; [done|]. exfalso.
    cbn [forallb] in Hl. apply andb_true_iff in Hl as [(_ & _ & Hpos)%fits_spec _].
    change (strlen "") with 0 in Hlen. cbn [length] in Hlen. nia.
  - destruct l as [|i l]; [done|].
    pose proof Hl as Hl'.
    cbn [forallb] in Hl'. apply andb_true_iff in Hl' as [(_ & _ & Hpos)%fits_spec _].
    destruct (Z.ltb_spec size 1); [lia|].
    rewrite digit_groups_of_digits by done. f_equal.
    generalize (i :: l). clear. intros l.
    induction l as [|j l IH]; [done|].
    cbn [fmap list_fmap concat]. rewrite digits_app, digits_replicate, <- IH. done.
Qed.

Lemma mapM_fmap_Ok {A B C} (f : B → outcome C) (g : A → B) (h : A → C) (l : list A) :
  (∀ x, x ∈ l → f (g x) = Ok (h x)) → mapM f (g <$> l) = Ok (h <$> l).
Proof.
  induction l as [|x l IH]; intros H; [done|].
  cbn. rewrite (H x) by (by left). cbn. rewrite IH by (intros; apply H; by right). done.
Qed.

Lemma spriteGetArray_digits l :
  forallb (fits pr) l = true →
  spriteGetArray pr (digits pr l) = Ok (concat (bytes_of pr <$> l)).
Proof.
  intros Hl. unfold spriteGetArray. rewrite digit_groups_of_digits by done.
  rewrite (mapM_fmap_Ok _ _ (bytes_of pr)).
  - cbn. f_equal. apply take_ge.
    rewrite digits_strlen by done.
    assert (Hlen : length (concat (bytes_of pr <$> l)) = (length l * 4)%nat).
    { clear. induction l as [|i l IH]; [done|].
      cbn [fmap list_fmap concat]. rewrite length_app, IH. done. }
    rewrite Hlen.
    destruct l as [|i l]; [cbn; lia|].
    cbn [forallb] in Hl. apply andb_true_iff in Hl as [(_ & _ & Hpos)%fits_spec _].
    replace (Z.of_nat (length (i :: l)) * size * 4)
      with (Z.of_nat (length (i :: l)) * 4 * size) by lia.
    rewrite Z.div_mul by lia. lia.
  - intros i Hi. rewrite padded_Number, Nat2Z.id.
    rewrite forallb_forall in Hl. specialize (Hl i (proj1 (list_elem_of_In _ _) Hi)).
    apply fits_spec in Hl as (_ & Hlt & _).
    destruct (lookup_lt_is_Some_2 (paletteDefault pr) i Hlt) as [rgba Hrgba].
    unfold bytes_of. by rewrite Hrgba.
Qed.

End Pieces.

(** X15.  Decoding a sprite text of single pixels and runs over the default
    palette: unravelling writes every pixel out at the default digit size,
    and the whole pipeline, without a filter, gives for every pixel the four
    bytes of its colour, [scale] times. *)
Theorem decode_pieces (pr : PixelRendr) (xs : list piece) (fuel : nat) :
  forallb (fun x => fits pr (colour_of x)) xs = true →
  (length xs < fuel)%nat →
  spriteUnravel fuel pr (text pr xs) = Ok (digits pr (concat (pixels <$> xs)))
  ∧ ProcessorBase_run fuel pr (text pr xs) None
    = Ok (concat ((fun i => concat (replicate (Z.to_nat (scale pr)) (bytes_of pr i)))
                    <$> concat (pixels <$> xs))).
Proof.
  intros Hfits Hfuel.
  assert (Hun : spriteUnravel fuel pr (text pr xs) = Ok (digits pr (concat (pixels <$> xs)))).
  { unfold spriteUnravel. apply (unravel_pieces pr xs "" fuel "" Hfits Hfuel). }
  split; [done|]. unfold ProcessorBase_run. rewrite Hun. cbn.
  assert (Hall : forallb (fits pr) (concat (pixels <$> xs)) = true).
  { clear -Hfits. induction xs as [|x xs IH]; [done|].
    cbn [forallb] in Hfits. apply andb_true_iff in Hfits as [Hx Hxs].
    cbn [fmap list_fmap concat]. rewrite forallb_app, IH, andb_true_r by done.
    destruct x as [i|i n]; cbn [pixels colour_of forallb] in *; [by rewrite Hx|].
    induction n as [|n IHn]; [done|]. cbn. by rewrite Hx, IHn. }
  rewrite spriteExpand_digits by done. cbn.
  rewrite spriteGetArray_digits.
  - f_equal. generalize (concat (pixels <$> xs)). clear. intros l.
    induction l as [|i l IH]; [done|].
    cbn [fmap list_fmap concat]. rewrite fmap_app, concat_app, IH. f_equal.
    generalize (Z.to_nat (scale pr)). intros n.
    induction n as [|n IHn]; [done|]. cbn. by rewrite IHn.
  - generalize (concat (pixels <$> xs)) Hall. clear. intros l Hl.
    induction l as [|i l IH]; [done|].
    cbn [forallb] in Hl. apply andb_true_iff in Hl as [Hi Hl].
    cbn [fmap list_fmap concat]. rewrite forallb_app, IH, andb_true_r by done.
    generalize (Z.to_nat (scale pr)). intros n.
    induction n as [|n IHn]; [done|]. cbn. by rewrite Hi, IHn.
Qed.

Lemma decode_pieces_witness :
  spriteUnravel 4 double_rendr "1x23,0" = Ok "12220"
  ∧ ProcessorBase_run 4 double_rendr "1x23,0" None
    = Ok (concat ((fun i => concat (replicate 2 (bytes_of double_rendr i)))
                    <$> [1; 2; 2; 2; 0]%nat)).
Proof.
  apply (decode_pieces double_rendr [Single 1; Run 2 3; Single 0] 4); [reflexivity|cbn; lia].
Defined.


End PiecesFacts.

(** ** Palette filters *)
Module FilterFacts.
Import JS StringFilr PixelRendr PixelRendrTerms CopyTerms PiecesTerms FilterTerms StringFacts
  PixelRendrFacts LoopFacts PiecesFacts.

Lemma padded_inj pr i j : padded pr i = padded pr j → i = j.
Proof.
  intros H. pose proof (padded_Number pr i) as Hi. rewrite H, padded_Number in Hi.
  injection Hi as Hi. lia.
Qed.

Lemma arrayReplace_padded pr l a b :
  arrayReplace (padded pr <$> l) (padded pr a) (padded pr b)
  = padded pr <$> ((fun i => if (i =? a)%nat then b else i) <$> l).
Proof.
  unfold arrayReplace. rewrite <- !list_fmap_compose. apply list_fmap_ext.
  intros _ i _. cbn.
  destruct (String.eqb_spec (padded pr i) (padded pr a)) as [E|E].
  - apply padded_inj in E as ->. by rewrite Nat.eqb_refl.
  - destruct (Nat.eqb_spec i a) as [->|_]; done.
Qed.

Lemma arrayReplace_recolour pr mapping :
  ∀ l,
    foldl (fun split im => arrayReplace split im.1 im.2) (padded pr <$> l)
          ((fun ab => (padded pr ab.1, padded pr ab.2)) <$> mapping)
    = padded pr <$> recolour mapping l.
Proof.
  induction mapping as [|[a b] mapping IH]; intros l; [done|].
  cbn [fmap list_fmap foldl fst snd recolour]. by rewrite arrayReplace_padded, IH.
Qed.

Lemma recolour_fits pr mapping :
  ∀ l,
    forallb (fun ab => fits pr ab.1 && fits pr ab.2) mapping = true →
    forallb (fits pr) l = true → forallb (fits pr) (recolour mapping l) = true.
Proof.
  induction mapping as [|[a b] mapping IH]; intros l Hm Hl; [done|].
  cbn [forallb fst snd] in Hm. apply andb_true_iff in Hm as [[_ Hb]%andb_true_iff Hm].
  cbn [recolour foldl fst snd]. apply IH; [done|].
  rewrite forallb_forall in *. intros i (j & <- & Hj)%in_map_iff.
  destruct (j =? a)%nat; [done|]. by apply Hl.
Qed.

Lemma recolour_nil mapping : recolour mapping [] = [].
Proof. induction mapping as [|ab mapping IH]; [done|]. apply IH. Qed.

Lemma pixels_fit pr xs :
  forallb (fun x => fits pr (colour_of x)) xs = true →
  forallb (fits pr) (concat (pixels <$> xs)) = true.
Proof.
  induction xs as [|x xs IH]; intros Hfits; [done|].
  cbn [forallb] in Hfits. apply andb_true_iff in Hfits as [Hx Hxs].
  cbn [fmap list_fmap concat]. rewrite forallb_app, IH, andb_true_r by done.
  destruct x as [i|i n]; cbn [pixels colour_of forallb] in *; [by rewrite Hx|].
  induction n as [|n IHn]; [done|]. cbn. by rewrite Hx, IHn.
Qed.

Lemma bytes_scale pr (l : list nat) :
  concat (bytes_of pr <$> concat (replicate (Z.to_nat (scale pr)) <$> l))
  = concat ((fun i => concat (replicate (Z.to_nat (scale pr)) (bytes_of pr i))) <$> l).
Proof.
  induction l as [|i l IH]; [done|].
  cbn [fmap list_fmap concat]. rewrite fmap_app, concat_app, IH. f_equal.
  generalize (Z.to_nat (scale pr)). intros n.
  induction n as [|n IHn]; [done|]. cbn. by rewrite IHn.
Qed.

Lemma scale_fits pr (l : list nat) :
  forallb (fits pr) l = true →
  forallb (fits pr) (concat (replicate (Z.to_nat (scale pr)) <$> l)) = true.
Proof.
  induction l as [|i l IH]; intros Hl; [done|].
  cbn [forallb] in Hl. apply andb_true_iff in Hl as [Hi Hl].
  cbn [fmap list_fmap concat]. rewrite forallb_app, IH, andb_true_r by done.
  generalize (Z.to_nat (scale pr)). intros n.
  induction n as [|n IHn]; [done|]. cbn. by rewrite Hi, IHn.
Qed.



End FilterFacts.

(** ** The palette made of an image *)
Module PaletteFacts.
Import JS PixelRendr QuadsKeepr PaletteMakr PixelRendrTerms FlipTerms PaletteTerms LoopFacts
  PixelRendrFacts.

Lemma tree_has_leaf t r g b a : tree_has t r g b a = leaf t r g b a.
Proof.
  unfold tree_has, leaf.
  destruct (t !! r) as [t1|]; cbn; [|done].
  destruct (t1 !! g) as [t2|]; cbn; [|done].
  by destruct (t2 !! b) as [t3|].
Qed.

Lemma leaf_mark t r g b a r' g' b' a' :
  let t1 := default ∅ (t !! r) in
  let t2 := default ∅ (t1 !! g) in
  let t3 := default ∅ (t2 !! b) in
  leaf (<[r := <[g := <[b := <[a := true]> t3]> t2]> t1]> t) r' g' b' a'
  = if bool_decide ([r'; g'; b'; a'] = [r; g; b; a]) then true else leaf t r' g' b' a'.
Proof.
  intros t1 t2 t3. unfold leaf.
  destruct (decide (r' = r)) as [->|Hr].
  2:{ rewrite lookup_insert_ne by done. rewrite bool_decide_eq_false_2; [done|congruence]. }
  rewrite lookup_insert_eq. cbn [from_option id]. fold t1.
  destruct (decide (g' = g)) as [->|Hg].
  2:{ rewrite lookup_insert_ne by done. rewrite bool_decide_eq_false_2; [done|congruence]. }
  rewrite lookup_insert_eq. cbn [from_option id]. fold t2.
  destruct (decide (b' = b)) as [->|Hb].
  2:{ rewrite lookup_insert_ne by done. rewrite bool_decide_eq_false_2; [done|congruence]. }
  rewrite lookup_insert_eq. cbn [from_option id]. fold t3.
  destruct (decide (a' = a)) as [->|Ha].
  2:{ rewrite lookup_insert_ne by done. rewrite bool_decide_eq_false_2; [done|congruence]. }
  rewrite lookup_insert_eq. by rewrite bool_decide_eq_true_2.
Qed.

Lemma leaf_empty r g b a : leaf ∅ r g b a = false.
Proof. unfold leaf. by rewrite lookup_empty. Qed.

Lemma scanned_start force :
  scanned force [] {| tree := ∅; colorsGeneral := []; colorsGrayscale := [];
                      forceZeroColor := force |}.
Proof.
  unfold scanned. cbn [tree colorsGeneral colorsGrayscale forceZeroColor app existsb].
  split; [|split; [|split; [|split; [|split]]]].
  - intros r g b a. rewrite leaf_empty. split; [done|by intros ?%elem_of_nil].
  - constructor.
  - intros c. split; [by intros ?%elem_of_nil|by intros [?%elem_of_nil _]].
  - constructor.
  - constructor.
  - by rewrite orb_false_r.
Qed.

Lemma opaque_pixel r g b a : opaque [r; g; b; a] = negb (a =? 0).
Proof. done. Qed.

Lemma grayscale_pixel r g b a : grayscale [r; g; b; a] = (r =? g) && (g =? b).
Proof. done. Qed.

Lemma visit_scanned force seen st r g b a :
  scanned force seen st →
  ∃ st', visit st [r; g; b; a] = Ok st' ∧ scanned force (seen ++ [[r; g; b; a]]) st'.
Proof.
  intros (Hleaf & Hnodup & Hseen & Hgray & Hgen & Hforce).
  unfold visit. rewrite tree_has_leaf.
  change (default false (_ !! a)) with (leaf (tree st) r g b a).
  set (px := [r; g; b; a]).
  pose proof (opaque_pixel r g b a) as Hop. fold px in Hop.
  pose proof (grayscale_pixel r g b a) as Hgr. fold px in Hgr.
  destruct (Z.eqb_spec a 0) as [Ha|Ha]; cbn [negb] in Hop.
  { eexists. split; [done|]. unfold scanned.
    cbn [tree colorsGeneral colorsGrayscale forceZeroColor].
    split; [done|]. split; [done|]. split; [|split; [done|split; [done|]]].
    - intros c. rewrite Hseen, elem_of_app, list_elem_of_singleton.
      split; [tauto|]. intros [[?| ->] Hc]; [done|congruence].
    - rewrite existsb_app. cbn [existsb]. rewrite Hop. cbn. by rewrite !orb_true_r. }
  assert (Hex : existsb (fun c => negb (opaque c)) (seen ++ [px])
                = existsb (fun c => negb (opaque c)) seen).
  { rewrite existsb_app. cbn [existsb]. rewrite Hop. cbn. by rewrite orb_false_r. }
  destruct (leaf (tree st) r g b a) eqn:Hl; cbn [negb].
  { exists st. split; [done|]. unfold scanned.
    split; [done|]. split; [done|]. split; [|split; [done|split; [done|]]].
    - intros c. rewrite Hseen, elem_of_app, list_elem_of_singleton.
      split; [tauto|]. intros [[?| ->] Hc]; [done|].
      apply Hseen. by apply Hleaf.
    - by rewrite Hex. }
  assert (Hnew : px ∉ colorsGrayscale st ++ colorsGeneral st).
  { intros Hin%Hleaf. congruence. }
  assert (Hmark : ∀ r' g' b' a' (l : list (list Z)),
             (∀ c, c ∈ l ↔ c ∈ colorsGrayscale st ++ colorsGeneral st ∨ c = px) →
             leaf (<[r:=<[g:=<[b:=<[a:=true]>
                     (default ∅ (default ∅ (default ∅ (tree st !! r) !! g) !! b))]>
                     (default ∅ (default ∅ (tree st !! r) !! g))]>
                     (default ∅ (tree st !! r))]> (tree st)) r' g' b' a' = true
             ↔ [r'; g'; b'; a'] ∈ l).
  { intros r' g' b' a' l Hl'. rewrite leaf_mark, Hl'.
    case_bool_decide as Heq; [by split; [right|]|].
    rewrite Hleaf. split; [by left|]. by intros [?|?]. }
  assert (Hin : ∀ (l : list (list Z)),
             (∀ c, c ∈ l ↔ c ∈ colorsGrayscale st ++ colorsGeneral st ∨ c = px) →
             ∀ c, c ∈ l ↔ c ∈ seen ++ [px] ∧ opaque c = true).
  { intros l Hl' c. rewrite Hl', Hseen, elem_of_app, list_elem_of_singleton.
    split; [|tauto]. intros [[? ?]| ->]; [tauto|]. split; [by right|]. by rewrite Hop. }
  destruct ((r =? g) && (g =? b)) eqn:Hg.
  - eexists. split; [done|]. unfold scanned.
    cbn [tree colorsGeneral colorsGrayscale forceZeroColor].
    assert (Hl' : ∀ c, c ∈ (colorsGrayscale st ++ [px]) ++ colorsGeneral st
                       ↔ c ∈ colorsGrayscale st ++ colorsGeneral st ∨ c = px).
    { intros c. rewrite !elem_of_app, list_elem_of_singleton. tauto. }
    split; [intros; by apply Hmark|]. split; [|split; [by apply Hin|split; [|split; [done|]]]].
    + apply NoDup_app in Hnodup as (H1 & H2 & H3).
      apply NoDup_app. split; [|split; [|done]].
      * apply NoDup_app. split; [done|]. split; [|apply NoDup_singleton].
        intros c Hc ->%list_elem_of_singleton. apply Hnew, elem_of_app. by left.
      * intros c [Hc| ->%list_elem_of_singleton]%elem_of_app; [by apply H2|].
        intros Hc. apply Hnew, elem_of_app. by right.
    + apply Forall_app. split; [done|]. constructor; [|constructor]. by rewrite Hgr.
    + by rewrite Hex.
  - eexists. split; [done|]. unfold scanned.
    cbn [tree colorsGeneral colorsGrayscale forceZeroColor].
    assert (Hl' : ∀ c, c ∈ colorsGrayscale st ++ colorsGeneral st ++ [px]
                       ↔ c ∈ colorsGrayscale st ++ colorsGeneral st ∨ c = px).
    { intros c. rewrite !elem_of_app, list_elem_of_singleton. tauto. }
    split; [intros; by apply Hmark|]. split; [|split; [by apply Hin|split; [done|split]]].
    + rewrite app_assoc. apply NoDup_app. split; [done|]. split; [|apply NoDup_singleton].
      by intros c Hc ->%list_elem_of_singleton.
    + apply Forall_app. split; [done|]. constructor; [|constructor]. by rewrite Hgr.
    + by rewrite Hex.
Qed.

Lemma scan_scanned force pixels :
  ∀ seen st,
    Forall (fun px => length px = 4%nat) pixels → scanned force seen st →
    ∃ st', foldM visit pixels st = Ok st' ∧ scanned force (seen ++ pixels) st'.
Proof.
  induction pixels as [|px pixels IH]; intros seen st Hpx Hst.
  - exists st. by rewrite app_nil_r.
  - apply Forall_cons in Hpx as [Hlen Hpx].
    destruct px as [|r [|g [|b [|a [|]]]]]; try discriminate Hlen.
    destruct (visit_scanned force seen st r g b a Hst) as (st1 & Hv & Hst1).
    destruct (IH _ st1 Hpx Hst1) as (st' & Hrun & Hst').
    exists st'. cbn [foldM]. rewrite Hv. cbn. split; [done|].
    by rewrite <- app_assoc in Hst'.
Qed.

Lemma subarrays_quads n :
  ∀ fuel data,
    length data = (4 * n)%nat → (n ≤ fuel)%nat →
    Forall (fun px => length px = 4%nat ∧ ∀ x, x ∈ px → x ∈ data) (subarrays fuel data).
Proof.
  induction n as [|n IH]; intros fuel data Hlen Hfuel.
  - destruct data; [|discriminate Hlen]. destruct fuel; constructor.
  - destruct fuel as [|fuel]; [lia|].
    destruct data as [|r [|g [|b [|a rest]]]]; try (cbn in Hlen; lia).
    cbn [subarrays take drop]. constructor.
    + split; [done|]. intros x Hx. rewrite <- (take_drop 4 (r :: g :: b :: a :: rest)).
      apply elem_of_app. by left.
    + eapply Forall_impl; [apply (IH fuel rest); [cbn in Hlen |- *; lia|lia]|].
      cbn beta. intros px [H4 Hin]. split; [done|]. intros x Hx.
      do 4 right. by apply Hin.
Qed.

Lemma by_first_consistent l : consistent by_first l.
Proof. unfold consistent, by_first. repeat split; intros; lia. Qed.

Lemma by_channels_nested a b :
  by_channels a b
  = let d (c : list Z) (i : nat) := default 0 (c !! i) in
    if d a 0%nat =? d b 0%nat then
      if d a 1%nat =? d b 1%nat then
        if d a 2%nat =? d b 2%nat then
          if d a 3%nat =? d b 3%nat then 0 else d b 3%nat - d a 3%nat
        else d b 2%nat - d a 2%nat
      else d b 1%nat - d a 1%nat
    else d b 0%nat - d a 0%nat.
Proof.
  unfold by_channels. cbn [seq omap list_omap]. cbv zeta.
  repeat (destruct (_ =? _); cbn [omap list_omap head from_option id]; try done).
Qed.

Ltac split_channels :=
  repeat match goal with
         | |- context [if ?x =? ?y then _ else _] => destruct (Z.eqb_spec x y)
         end.

Lemma by_channels_consistent l : consistent by_channels l.
Proof.
  unfold consistent. split; [|split].
  - intros a _. rewrite by_channels_nested. cbv zeta. by rewrite !Z.eqb_refl.
  - intros a b _ _. rewrite !by_channels_nested. cbv zeta.
    generalize (default 0 (a !! 0%nat)) (default 0 (a !! 1%nat)) (default 0 (a !! 2%nat))
               (default 0 (a !! 3%nat)) (default 0 (b !! 0%nat)) (default 0 (b !! 1%nat))
               (default 0 (b !! 2%nat)) (default 0 (b !! 3%nat)).
    intros. split_channels; lia.
  - intros a b c _ _ _. rewrite !by_channels_nested. cbv zeta.
    generalize (default 0 (a !! 0%nat)) (default 0 (a !! 1%nat)) (default 0 (a !! 2%nat))
               (default 0 (a !! 3%nat)) (default 0 (b !! 0%nat)) (default 0 (b !! 1%nat))
               (default 0 (b !! 2%nat)) (default 0 (b !! 3%nat)) (default 0 (c !! 0%nat))
               (default 0 (c !! 1%nat)) (default 0 (c !! 2%nat)) (default 0 (c !! 3%nat)).
    do 12 intro. split_channels; lia.
Qed.

Lemma in_order_cons cmp x l :
  in_order cmp (x :: l) ↔ (∀ b, b ∈ l → cmp x b ≤ 0) ∧ in_order cmp l.
Proof.
  unfold in_order. split.
  - intros H. split.
    + intros b [j Hj]%list_elem_of_lookup_1. apply (H 0%nat (S j) x b); [lia|done..].
    + intros i j a b Hij Ha Hb. apply (H (S i) (S j) a b); [lia|done..].
  - intros [Hx Hl] i j a b Hij Ha Hb.
    destruct j as [|j]; [lia|]. cbn in Hb.
    destruct i as [|i]; cbn in Ha.
    + injection Ha as <-. apply Hx. by eapply list_elem_of_lookup_2.
    + apply (Hl i j a b); [lia|done..].
Qed.

Lemma insert_sorted_perm cmp x l : Permutation (insert_sorted cmp x l) (x :: l).
Proof.
  induction l as [|y l IH]; [done|]. cbn.
  destruct (0 <? cmp x y); [|done]. rewrite IH. apply perm_swap.
Qed.

Lemma insertion_sort_perm cmp l : Permutation (insertion_sort cmp l) l.
Proof.
  induction l as [|x l IH]; [done|]. cbn. fold (insertion_sort cmp l).
  by rewrite insert_sorted_perm, IH.
Qed.

Lemma consistent_sub cmp (l l' : list (list Z)) :
  (∀ c, c ∈ l' → c ∈ l) → consistent cmp l → consistent cmp l'.
Proof.
  intros Hsub (H1 & H2 & H3). split; [|split].
  - intros a Ha. apply H1. auto.
  - intros a b Ha Hb. apply H2; auto.
  - intros a b c Ha Hb Hc. apply H3; auto.
Qed.

Lemma insert_sorted_order cmp x l :
  consistent cmp (x :: l) → in_order cmp l → in_order cmp (insert_sorted cmp x l).
Proof.
  intros Hc. induction l as [|y l IH]; intros Hl.
  - cbn. apply in_order_cons. split; [by intros b ?%elem_of_nil|done].
  - cbn. apply in_order_cons in Hl as [Hy Hl].
    destruct Hc as (Hc1 & Hc2 & Hc3).
    destruct (Z.ltb_spec 0 (cmp x y)) as [Hxy|Hxy].
    + apply in_order_cons. split.
      * intros b Hb. rewrite insert_sorted_perm in Hb.
        apply elem_of_cons in Hb as [->|Hb]; [|by apply Hy].
        assert (cmp y x < 0); [|lia].
        apply Hc2; [by right; left|by left|done].
      * apply IH; [|done].
        apply (consistent_sub cmp (x :: y :: l)); [|done].
        intros c [->|Hc]%elem_of_cons; [by left|by do 2 right].
    + apply in_order_cons. split.
      * intros b [->|Hb]%elem_of_cons; [done|].
        apply (Hc3 x y b); [by left|by right; left|by do 2 right|done|by apply Hy].
      * apply in_order_cons. by split.
Qed.

Lemma insertion_sort_conforming : conforming insertion_sort.
Proof.
  intros cmp l. split; [apply insertion_sort_perm|].
  induction l as [|x l IH]; intros Hc.
  - by intros i j a b _ ?.
  - cbn. fold (insertion_sort cmp l). apply insert_sorted_order.
    + apply (consistent_sub cmp (x :: l)); [|done].
      intros c Hc'. rewrite insertion_sort_perm in Hc'. done.
    + apply IH. apply (consistent_sub cmp (x :: l)); [|done]. intros c ?. by right.
Qed.

(** The parts of the palette. *)
Lemma palette_parts sort data force (n : nat) :
  conforming sort → length data = (4 * n)%nat →
  ∃ grays others,
    generatePaletteFromRawData sort data force
    = Ok (zero_colour (force || existsb (fun c => negb (opaque c)) (pixels_of data))
          ++ grays ++ others)
    ∧ NoDup (grays ++ others)
    ∧ (∀ c, c ∈ grays ↔ c ∈ pixels_of data ∧ opaque c = true ∧ grayscale c = true)
    ∧ (∀ c, c ∈ others ↔ c ∈ pixels_of data ∧ opaque c = true ∧ grayscale c = false)
    ∧ in_order by_first grays ∧ in_order by_channels others.
Proof.
  intros Hsort Hlen. unfold generatePaletteFromRawData. fold (pixels_of data).
  assert (Hquads : Forall (fun px => length px = 4%nat) (pixels_of data)).
  { eapply Forall_impl; [apply (subarrays_quads n); [done|lia]|]. by intros px [? _]. }
  destruct (scan_scanned force (pixels_of data) [] _ Hquads (scanned_start force))
    as (st & -> & Hleaf & Hnodup & Hseen & Hgray & Hgen & Hforce).
  cbn [app] in Hseen, Hforce. cbn [mbind outcome_bind].
  destruct (Hsort by_first (colorsGrayscale st)) as [Hp1 Ho1].
  destruct (Hsort by_channels (colorsGeneral st)) as [Hp2 Ho2].
  exists (sort by_first (colorsGrayscale st)), (sort by_channels (colorsGeneral st)).
  rewrite Forall_forall in Hgray, Hgen.
  split; [rewrite Hforce; by destruct (_ || _)|].
  split; [by rewrite Hp1, Hp2|].
  split; [|split; [|split]].
  - intros c. rewrite Hp1. split.
    + intros Hc. destruct (proj1 (Hseen c)) as [? ?]; [apply elem_of_app; by left|].
      split; [done|]. split; [done|]. by apply Hgray.
    + intros (Hc & Hop & Hg).
      pose proof (proj2 (Hseen c) (conj Hc Hop)) as Hin.
      apply elem_of_app in Hin as [?|Hin]; [done|].
      apply Hgen in Hin. congruence.
  - intros c. rewrite Hp2. split.
    + intros Hc. destruct (proj1 (Hseen c)) as [? ?]; [apply elem_of_app; by right|].
      split; [done|]. split; [done|]. by apply Hgen.
    + intros (Hc & Hop & Hg).
      pose proof (proj2 (Hseen c) (conj Hc Hop)) as Hin.
      apply elem_of_app in Hin as [Hin|?]; [|done].
      apply Hgray in Hin. congruence.
  - apply Ho1, by_first_consistent.
  - apply Ho2, by_channels_consistent.
Qed.

Lemma by_channels_outranks a b :
  length a = 4%nat → length b = 4%nat → a ≠ b → by_channels a b ≤ 0 → outranks a b.
Proof.
  intros Ha Hb Hne.
  destruct a as [|a0 [|a1 [|a2 [|a3 [|]]]]]; try discriminate Ha.
  destruct b as [|b0 [|b1 [|b2 [|b3 [|]]]]]; try discriminate Hb.
  rewrite by_channels_nested. cbn.
  destruct (Z.eqb_spec a0 b0) as [->|H0];
    [|intros; exists 0%nat; split; [lia|]; split; [lia|cbn; lia]].
  destruct (Z.eqb_spec a1 b1) as [->|H1].
  2:{ intros; exists 1%nat; split; [lia|]. split; [|cbn; lia].
      intros [|m] Hm; [done|lia]. }
  destruct (Z.eqb_spec a2 b2) as [->|H2].
  2:{ intros; exists 2%nat; split; [lia|]. split; [|cbn; lia].
      intros [|[|m]] Hm; [done..|lia]. }
  destruct (Z.eqb_spec a3 b3) as [->|H3]; [done|].
  intros; exists 3%nat; split; [lia|]. split; [|cbn; lia].
  intros [|[|[|m]]] Hm; [done..|lia].
Qed.

(** X17.  The palette [generatePaletteFromRawData] makes of an image of whole
    pixels: the zero colour first, if it was asked for or the image has a
    transparent pixel; then the opaque grayscale colours of the image, by
    rising first channel; then its other opaque colours, each before those
    it outranks at the first channel that differs.  Every opaque colour of
    the image is there once, and nothing else. *)
Theorem palette_of_image
  (sort : (list Z → list Z → Z) → list (list Z) → list (list Z))
  (data : list Z) (force : bool) (n : nat) :
  conforming sort → length data = (4 * n)%nat →
  ∃ grays others,
    generatePaletteFromRawData sort data force
    = Ok (zero_colour (force || existsb (fun c => negb (opaque c)) (pixels_of data))
          ++ grays ++ others)
    ∧ NoDup (grays ++ others)
    ∧ (∀ c, c ∈ grays ↔ c ∈ pixels_of data ∧ opaque c = true ∧ grayscale c = true)
    ∧ (∀ c, c ∈ others ↔ c ∈ pixels_of data ∧ opaque c = true ∧ grayscale c = false)
    ∧ (∀ i j a b, (i < j)%nat → grays !! i = Some a → grays !! j = Some b →
                  brightness a ≤ brightness b)
    ∧ (∀ i j a b, (i < j)%nat → others !! i = Some a → others !! j = Some b →
                  outranks a b).
Proof.
  intros Hsort Hlen.
  destruct (palette_parts sort data force n Hsort Hlen)
    as (grays & others & Hrun & Hnodup & Hgrays & Hothers & Ho1 & Ho2).
  exists grays, others. split; [done|]. split; [done|]. split; [done|]. split; [done|].
  split.
  - intros i j a b Hij Ha Hb. specialize (Ho1 i j a b Hij Ha Hb).
    unfold by_first in Ho1. unfold brightness. lia.
  - intros i j a b Hij Ha Hb.
    assert (Hquads : Forall (fun px => length px = 4%nat) (pixels_of data)).
    { eapply Forall_impl; [apply (subarrays_quads n); [done|lia]|]. by intros px [? _]. }
    rewrite Forall_forall in Hquads.
    apply by_channels_outranks.
    + apply Hquads, Hothers. by eapply list_elem_of_lookup_2.
    + apply Hquads, Hothers. by eapply list_elem_of_lookup_2.
    + intros ->. apply NoDup_app in Hnodup as (_ & _ & Hnd).
      pose proof (NoDup_lookup _ _ _ _ Hnd Ha Hb). lia.
    + by apply (Ho2 i j).
Qed.

Lemma palette_of_image_witness :
  ∃ grays others,
    generatePaletteFromRawData insertion_sort five_pixels false
    = Ok (zero_colour (false || existsb (fun c => negb (opaque c)) (pixels_of five_pixels))
          ++ grays ++ others)
    ∧ NoDup (grays ++ others)
    ∧ (∀ c, c ∈ grays ↔ c ∈ pixels_of five_pixels ∧ opaque c = true ∧ grayscale c = true)
    ∧ (∀ c, c ∈ others
            ↔ c ∈ pixels_of five_pixels ∧ opaque c = true ∧ grayscale c = false)
    ∧ (∀ i j a b, (i < j)%nat → grays !! i = Some a → grays !! j = Some b →
                  brightness a ≤ brightness b)
    ∧ (∀ i j a b, (i < j)%nat → others !! i = Some a → others !! j = Some b →
                  outranks a b).
Proof.
  apply (palette_of_image insertion_sort five_pixels false 5);
    [exact insertion_sort_conforming|reflexivity].
Defined.

Lemma toInt32_within z : - 2 ^ 31 ≤ z < 2 ^ 31 → toInt32 z = z.
Proof. intros H. unfold toInt32. rewrite Z.mod_small; lia. Qed.

Lemma arrayDifference_bytes a0 a1 a2 a3 b0 b1 b2 b3 :
  is_bytes [a0; a1; a2; a3] = true → is_bytes [b0; b1; b2; b3] = true →
  0 ≤ arrayDifference [a0; a1; a2; a3] [b0; b1; b2; b3]
  ∧ (arrayDifference [a0; a1; a2; a3] [b0; b1; b2; b3] = 0
     → [a0; a1; a2; a3] = [b0; b1; b2; b3]).
Proof.
  unfold is_bytes. cbn [forallb]. rewrite !andb_true_iff, !Z.leb_le.
  intros Ha Hb. unfold arrayDifference. cbn.
  rewrite !toInt32_within by lia. split; [lia|]. intros H.
  repeat f_equal; lia.
Qed.

Lemma is_bytes_sub (l l' : list Z) :
  (∀ x, x ∈ l' → x ∈ l) → is_bytes l = true → is_bytes l' = true.
Proof.
  unfold is_bytes. rewrite !forallb_forall. intros Hsub H x Hx%list_elem_of_In.
  apply H, list_elem_of_In. auto.
Qed.

(** X18.  The palette made of an image holds every opaque pixel of the image as it
    is: looked up with [getClosestInPalette], an opaque pixel gets the index
    of its own colour. *)
Theorem palette_reproduces_image
  (sort : (list Z → list Z → Z) → list (list Z) → list (list Z))
  (data : list Z) (force : bool) (n : nat) :
  conforming sort → length data = (4 * n)%nat → is_bytes data = true →
  ∃ palette,
    generatePaletteFromRawData sort data force = Ok palette
    ∧ ∀ px, px ∈ pixels_of data → opaque px = true →
            ∃ i, getClosestInPalette palette px = Some i ∧ palette !! i = Some px.
Proof.
  intros Hsort Hlen Hbytes.
  destruct (palette_parts sort data force n Hsort Hlen)
    as (grays & others & Hrun & Hnodup & Hgrays & Hothers & _ & _).
  eexists. split; [exact Hrun|]. intros px Hpx Hop.
  set (palette := zero_colour _ ++ grays ++ others).
  pose proof (subarrays_quads n (length data) data Hlen ltac:(lia)) as Hquads.
  rewrite Forall_forall in Hquads. fold (pixels_of data) in Hquads.
  assert (Hshape : ∀ c, c ∈ palette →
             ∃ c0 c1 c2 c3, c = [c0; c1; c2; c3] ∧ is_bytes c = true).
  { intros c Hc.
    assert (Hc' : c = [0; 0; 0; 0] ∨ c ∈ pixels_of data).
    { subst palette. apply elem_of_app in Hc as [Hc|Hc].
      - left. unfold zero_colour in Hc. destruct (_ || _).
        + by apply list_elem_of_singleton in Hc.
        + by apply elem_of_nil in Hc.
      - right. apply elem_of_app in Hc as [Hc|Hc]; [by apply Hgrays in Hc as [? _]|].
        by apply Hothers in Hc as [? _]. }
    destruct Hc' as [->|Hc']; [by exists 0, 0, 0, 0|].
    destruct (Hquads c Hc') as [H4 Hin].
    destruct c as [|c0 [|c1 [|c2 [|c3 [|]]]]]; try discriminate H4.
    exists c0, c1, c2, c3. split; [done|]. by apply (is_bytes_sub data). }
  assert (Hin : px ∈ palette).
  { subst palette. apply elem_of_app. right. apply elem_of_app.
    destruct (grayscale px) eqn:Hg; [left; by apply Hgrays|right; by apply Hothers]. }
  destruct (Hshape px Hin) as (p0 & p1 & p2 & p3 & -> & Hpb).
  apply list_elem_of_lookup_1 in Hin as [j Hj].
  pose proof (getClosestInPalette_nearest palette [p0; p1; p2; p3]) as Hnear.
  destruct (getClosestInPalette palette [p0; p1; p2; p3]) as [i|].
  2:{ rewrite Hnear in Hj. done. }
  destruct Hnear as [Hi Hmin]. exists i. split; [done|].
  destruct (lookup_lt_is_Some_2 palette i Hi) as [c Hc].
  destruct (Hshape c (list_elem_of_lookup_2 _ _ _ Hc)) as (c0 & c1 & c2 & c3 & -> & Hcb).
  destruct (Hmin j (lookup_lt_Some _ _ _ Hj)) as [Hle _].
  rewrite Hc, Hj in Hle. cbn [from_option id] in Hle.
  destruct (arrayDifference_bytes c0 c1 c2 c3 p0 p1 p2 p3 Hcb Hpb) as [H0 Heq].
  destruct (arrayDifference_bytes p0 p1 p2 p3 p0 p1 p2 p3 Hpb Hpb) as [_ _].
  assert (Hself : arrayDifference [p0; p1; p2; p3] [p0; p1; p2; p3] = 0).
  { unfold arrayDifference. cbn. rewrite !Z.sub_diag. done. }
  rewrite Hself in Hle. rewrite Hc. f_equal. apply Heq. lia.
Qed.

Lemma palette_reproduces_image_witness :
  ∃ palette,
    generatePaletteFromRawData insertion_sort five_pixels false = Ok palette
    ∧ ∀ px, px ∈ pixels_of five_pixels → opaque px = true →
            ∃ i, getClosestInPalette palette px = Some i ∧ palette !! i = Some px.
Proof.
  apply (palette_reproduces_image insertion_sort five_pixels false 5);
    [exact insertion_sort_conforming|reflexivity|reflexivity].
Defined.

End PaletteFacts.

(** ** Limits, modularity and storage of a StatsValue *)
Module StatsHoldrFacts.
Import JS QuadsKeepr StatsHoldr StatsHoldrTerms LoopFacts.

Lemma set_value_same sv : set_value (value sv) sv = sv.
Proof. by destruct sv. Qed.

Lemma called_0 c h : called 0 c h = h.
Proof. destruct h. unfold called. cbn. by rewrite app_nil_r. Qed.

Lemma called_S n c h : called n c (call true c h) = called (S n) c h.
Proof. unfold called, call. cbn. by rewrite <- app_assoc. Qed.

(** The loop of [checkModularity] on a value that is not negative: it ends,
    with the remainder, after one call for every time the value turned
    over. *)
Lemma modular_loop key fuel :
  ∀ sv h,
    0 < modularity sv → 0 ≤ value sv →
    (Z.to_nat (value sv / modularity sv) < fuel)%nat →
    while fuel (fun st : StatsValue * StatsHoldr => modularity st.1 <=? value st.1)
      (fun st => Ok (set_value (Z.max 0 (value st.1 - modularity st.1)) st.1,
                     call (onModular st.1) (OnModular key) st.2))
      (sv, h)
    = Ok (set_value (value sv mod modularity sv) sv,
          called (if onModular sv then Z.to_nat (value sv / modularity sv) else 0)
                 (OnModular key) h).
Proof.
  induction fuel as [|fuel IH]; intros sv h Hm Hv Hfuel; [lia|].
  cbn [while fst snd].
  destruct (Z.leb_spec (modularity sv) (value sv)) as [Hle|Hlt].
  - cbn [mbind outcome_bind].
    assert (Hdiv : value sv / modularity sv = (value sv - modularity sv) / modularity sv + 1).
    { replace (value sv) with ((value sv - modularity sv) + 1 * modularity sv) at 1 by lia.
      rewrite Z.div_add by lia. done. }
    assert (0 ≤ (value sv - modularity sv) / modularity sv) by (apply Z.div_pos; lia).
    rewrite (Z.max_r 0 (value sv - modularity sv)) by lia.
    rewrite IH; cbn [value modularity set_value onModular]; [|done|lia|lia].
    assert (Hmod : (value sv - modularity sv) mod modularity sv
                   = value sv mod modularity sv).
    { replace (value sv) with ((value sv - modularity sv) + 1 * modularity sv) at 2 by lia.
      by rewrite Z.mod_add by lia. }
    rewrite Hmod. f_equal. f_equal.
    destruct (onModular sv); [|done].
    rewrite called_S. f_equal. lia.
  - rewrite Z.mod_small, Z.div_small by lia. rewrite set_value_same.
    destruct (onModular sv); by rewrite called_0.
Qed.

Lemma finish_value key st : value (finish key st).1 = value st.1.
Proof.
  unfold finish, checkTriggers, updateElement, updateLocalStorage. cbn [fst snd].
  repeat (destruct (_ : bool); cbn [fst snd value set_textContent]); done.
Qed.

Lemma finish_calls key st :
  calls (finish key st).2 = calls st.2 ++ triggered key st.1 (value st.1).
Proof.
  unfold finish, checkTriggers, updateElement, updateLocalStorage, triggered, call.
  cbn [fst snd].
  repeat (destruct (_ : bool); cbn [fst snd calls set_localStorage]);
    by rewrite ?app_nil_r.
Qed.

Lemma finish_values key st : values (finish key st).2 = values st.2.
Proof.
  unfold finish, checkTriggers, updateElement, updateLocalStorage, call. cbn [fst snd].
  repeat (destruct (_ : bool); cbn [fst snd values set_localStorage]); done.
Qed.

Lemma finish_storage key st :
  storeLocally st.1 = true → autoSave st.2 = true →
  localStorage (finish key st).2 !! (prefix st.2 +:+ key) = Some (string_of_Z (value st.1)).
Proof.
  intros Hs Ha.
  unfold finish, checkTriggers, updateElement, updateLocalStorage, call. cbn [fst snd].
  destruct (bool_decide _), (hasElement st.1);
    cbn [fst snd storeLocally set_textContent autoSave prefix value];
    rewrite Hs, Ha; cbn [orb snd localStorage set_localStorage]; apply lookup_insert_eq.
Qed.

Lemma finish_text key st :
  hasElement st.1 = true →
  textContent (finish key st).1
  = default (string_of_Z (value st.1)) (displayChanges st.2 !! string_of_Z (value st.1)).
Proof.
  intros Hel.
  unfold finish, checkTriggers, updateElement, updateLocalStorage, call. cbn [fst snd].
  rewrite Hel. cbn [fst snd storeLocally set_textContent].
  by destruct (bool_decide _), (storeLocally st.1), (autoSave st.2).
Qed.

(** [update] as its stages: the limits, the modularity, the rest. *)
Lemma update_stages fuel key sv h :
  update fuel key (sv, h)
  = (let st :=
       match met (minimum sv) (value sv) with
       | Some m => (set_value m sv, call (onMinimum sv) (OnMinimum key) h)
       | None =>
           match met (maximum sv) (value sv) with
           | Some m => (set_value m sv, call (onMaximum sv) (OnMaximum key) h)
           | None => (sv, h)
           end
       end in
     st ← (if modularity st.1 =? 0 then Ok st else checkModularity fuel key st);
     Ok (finish key st)).
Proof. done. Qed.

Lemma get_after h key sv' vs :
  get (set_values (<[key := sv']> vs) h) key = Ok (value sv').
Proof. unfold get, checkExistence. cbn [values set_values]. by rewrite lookup_insert_eq. Qed.

(** X19.  A counter with a modularity turns over: raised to a total that is not
    negative, it keeps the remainder of the total by the modularity, and
    [onModular] is called once for every time the modularity fits into the
    total, before the trigger of the value reached. *)
Theorem increase_turns_over (fuel : nat) (h : StatsHoldr) (key : string) (sv : StatsValue)
  (amount : option Z) :
  values h !! key = Some sv →
  minimum sv = None → maximum sv = None →
  0 < modularity sv →
  0 ≤ value sv + default 1%Z amount →
  (Z.to_nat ((value sv + default 1%Z amount) / modularity sv) < fuel)%nat →
  ∃ h',
    increase fuel h key amount = Ok h'
    ∧ get h' key = Ok ((value sv + default 1%Z amount) mod modularity sv)
    ∧ calls h'
      = calls h
        ++ (if onModular sv
            then replicate (Z.to_nat ((value sv + default 1%Z amount) / modularity sv))
                           (OnModular key)
            else [])
        ++ triggered key sv ((value sv + default 1%Z amount) mod modularity sv).
Proof.
  intros Hkey Hmin Hmax Hm Htotal Hfuel.
  unfold increase, assign, checkExistence. rewrite Hkey. cbn [mbind outcome_bind].
  rewrite update_stages. cbn [minimum maximum set_value value]. rewrite Hmin, Hmax.
  cbn [met fst snd modularity set_value].
  destruct (Z.eqb_spec (modularity sv) 0) as [?|_]; [lia|].
  unfold checkModularity. cbn [fst snd modularity set_value].
  destruct (Z.eqb_spec (modularity sv) 0) as [?|_]; [lia|].
  rewrite modular_loop by (cbn [modularity value set_value]; done).
  cbn [modularity value set_value onModular mbind outcome_bind].
  eexists. split; [done|]. split.
  - rewrite get_after. by rewrite finish_value.
  - cbn [calls set_values]. rewrite finish_calls. cbn [fst snd value set_value calls called].
    rewrite <- app_assoc. by destruct (onModular sv).
Qed.

Lemma increase_turns_over_witness :
  ∃ h',
    increase 3 game_stats "coins" (Some 105) = Ok h'
    ∧ get h' "coins" = Ok ((98 + 105) mod 100)
    ∧ calls h'
      = calls game_stats ++ replicate (Z.to_nat ((98 + 105) / 100)) (OnModular "coins")
        ++ triggered "coins" coins ((98 + 105) mod 100).
Proof.
  apply (increase_turns_over 3 game_stats "coins" coins (Some 105));
    [reflexivity|reflexivity|reflexivity|reflexivity|vm_compute; discriminate|vm_compute; lia].
Defined.

(** X20.  The maximum of a StatsValue does not cap it: [update] tests
    [value <= maximum], so a value set at or below the maximum is put up to
    the maximum, with a call of [onMaximum], and a value set above the
    maximum is kept. *)
Theorem maximum_lifts (fuel : nat) (h : StatsHoldr) (key : string) (sv : StatsValue)
  (M v : Z) :
  values h !! key = Some sv →
  minimum sv = None → maximum sv = Some M → modularity sv = 0 →
  ∃ h',
    set fuel h key v = Ok h'
    ∧ get h' key = Ok (Z.max v M)
    ∧ calls h'
      = calls h ++ (if (v <=? M) && onMaximum sv then [OnMaximum key] else [])
        ++ triggered key sv (Z.max v M).
Proof.
  intros Hkey Hmin Hmax Hm.
  unfold set, assign, checkExistence. rewrite Hkey. cbn [mbind outcome_bind].
  rewrite update_stages. cbn [minimum maximum set_value value]. rewrite Hmin, Hmax.
  cbn [met]. destruct (Z.leb_spec v M) as [Hle|Hgt];
    cbn [fst snd modularity set_value]; rewrite Hm; cbn [Z.eqb mbind outcome_bind].
  - eexists. split; [done|]. split.
    + rewrite get_after, finish_value. cbn. f_equal. lia.
    + cbn [calls set_values]. rewrite finish_calls. cbn [fst snd value set_value andb].
      rewrite Z.max_r by lia. unfold call. cbn [onMaximum set_value].
      destruct (onMaximum sv); cbn [calls];
        [|reflexivity].
      rewrite <- app_assoc. reflexivity.
  - eexists. split; [done|]. split.
    + rewrite get_after, finish_value. cbn. f_equal. lia.
    + cbn [calls set_values]. rewrite finish_calls. cbn [fst snd value set_value andb app].
      rewrite Z.max_l by lia. reflexivity.
Qed.

Lemma maximum_lifts_witness :
  ∃ h',
    set 0 game_stats "lives" 12 = Ok h'
    ∧ get h' "lives" = Ok (Z.max 12 9)
    ∧ calls h'
      = calls game_stats ++ (if (12 <=? 9) && onMaximum lives then [OnMaximum "lives"] else [])
        ++ triggered "lives" lives (Z.max 12 9).
Proof.
  apply (maximum_lifts 0 game_stats "lives" lives 9 12); reflexivity.
Defined.

(** X21.  A value without limits and modularity holds what it is set to: [get]
    gives it back, the other values stay, the element shows it (or the
    display change filed for it) and, with [autoSave], it is stored under
    the prefix and the key. *)
Theorem set_then_get (fuel : nat) (h : StatsHoldr) (key : string) (sv : StatsValue) (v : Z) :
  values h !! key = Some sv →
  minimum sv = None → maximum sv = None → modularity sv = 0 →
  ∃ h',
    set fuel h key v = Ok h'
    ∧ get h' key = Ok v
    ∧ (∀ other, other ≠ key → values h' !! other = values h !! other)
    ∧ (∀ sv', values h' !! key = Some sv' → hasElement sv = true →
              textContent sv'
              = default (string_of_Z v) (displayChanges h !! string_of_Z v))
    ∧ (storeLocally sv = true → autoSave h = true →
       localStorage h' !! (prefix h +:+ key) = Some (string_of_Z v)).
Proof.
  intros Hkey Hmin Hmax Hm.
  unfold set, assign, checkExistence. rewrite Hkey. cbn [mbind outcome_bind].
  rewrite update_stages. cbn [minimum maximum set_value value]. rewrite Hmin, Hmax.
  cbn [met fst snd modularity set_value]. rewrite Hm. cbn [Z.eqb mbind outcome_bind].
  eexists. split; [done|]. split; [|split; [|split]].
  - by rewrite get_after, finish_value.
  - intros other Hne. cbn [values set_values].
    by rewrite lookup_insert_ne, finish_values by done.
  - intros sv' Hsv' Hel. cbn [values set_values] in Hsv'.
    rewrite lookup_insert_eq in Hsv'. injection Hsv' as <-.
    by rewrite finish_text.
  - intros Hs Ha. cbn [localStorage set_values].
    apply (finish_storage key (set_value v sv, h)); done.
Qed.

Lemma set_then_get_witness :
  ∃ h',
    set 0 game_stats "score" 400 = Ok h'
    ∧ get h' "score" = Ok 400
    ∧ (∀ other, other ≠ "score" → values h' !! other = values game_stats !! other)
    ∧ (∀ sv', values h' !! "score" = Some sv' → hasElement score = true →
              textContent sv'
              = default (string_of_Z 400) (displayChanges game_stats !! string_of_Z 400))
    ∧ (storeLocally score = true → autoSave game_stats = true →
       localStorage h' !! (prefix game_stats +:+ "score") = Some (string_of_Z 400)).
Proof.
  apply (set_then_get 0 game_stats "score" score 400); reflexivity.
Defined.



End StatsHoldrFacts.

(** ** process and processFull *)
Module ChangeLinrFacts.
Import JS StringFilr PixelRendr QuadsKeepr ChangeLinr ChangeLinrTerms LoopFacts.

Section Attributes.
Context {Attr : Type}.
Implicit Types (cl : ChangeLinr Attr) (attributes : option Attr).

Lemma run_part_Ok cl key attributes st name st' :
  run_part cl key attributes st name = Ok st' →
  ∃ transform,
    transforms cl !! name = Some transform
    ∧ transform st.1 key attributes = Ok st'.1
    ∧ (if doMakeCache cl
       then ∃ part, st.2 !! name = Some part
                    ∧ st'.2 = <[name := <[property_name key := st'.1]> part]> st.2
       else st'.2 = st.2).
Proof.
  unfold run_part. destruct (transforms cl !! name) as [transform|]; [|done].
  intros (data & Hd & Hrest)%bind_Ok. exists transform. split; [done|].
  destruct (doMakeCache cl).
  - destruct (st.2 !! name) as [part|] eqn:Hp; [|done].
    injection Hrest as <-. cbn. split; [done|]. by exists part.
  - by injection Hrest as <-.
Qed.

(** What a run of parts leaves in [cacheFull]: the places stay, and only
    what is filed under the key changes. *)
Lemma run_parts_frame cl key attributes names :
  ∀ st st',
    foldM (run_part cl key attributes) names st = Ok st' →
    (∀ name, is_Some (st'.2 !! name) ↔ is_Some (st.2 !! name))
    ∧ (∀ name part' k, st'.2 !! name = Some part' → k ≠ property_name key →
         ∃ part, st.2 !! name = Some part ∧ part' !! k = part !! k)
    ∧ (doMakeCache cl = false → st'.2 = st.2).
Proof.
  induction names as [|name names IH]; intros st st' Hrun.
  - injection Hrun as <-. split; [done|]. split; [|done]. intros name part' k Hp _. eauto.
  - cbn [foldM] in Hrun. apply bind_Ok in Hrun as (st1 & Hstep & Hrun).
    destruct (IH st1 st' Hrun) as (Hdom & Hkeep & Hoff).
    apply run_part_Ok in Hstep as (transform & _ & _ & Hfull).
    destruct (doMakeCache cl).
    + destruct Hfull as (part & Hpart & Hst1). split; [|split; [|done]].
      * intros name'. rewrite Hdom, Hst1.
        destruct (decide (name = name')) as [<-|Hne].
        -- rewrite lookup_insert_eq, Hpart. by split.
        -- by rewrite lookup_insert_ne.
      * intros name' part' k Hp' Hk.
        destruct (Hkeep name' part' k Hp' Hk) as (part1 & Hp1 & Heq).
        rewrite Hst1 in Hp1. destruct (decide (name = name')) as [<-|Hne].
        -- rewrite lookup_insert_eq in Hp1. injection Hp1 as <-.
           exists part. split; [done|]. by rewrite Heq, lookup_insert_ne.
        -- rewrite lookup_insert_ne in Hp1 by done. eauto.
    + rewrite Hfull in *. split; [done|]. split; [done|]. intros _. by apply Hoff.
Qed.

Lemma mapM_all {A B} (f : A → outcome B) (h : A → B) (l : list A) :
  (∀ x, x ∈ l → f x = Ok (h x)) → mapM f l = Ok (h <$> l).
Proof.
  induction l as [|x l IH]; intros H; [done|].
  cbn. rewrite (H x) by (by left). cbn. rewrite IH by (intros; apply H; by right). done.
Qed.

(** [process] keeps the places of [cacheFull] and files only under the key
    it works with. *)
Lemma process_frame cl data key attributes v cl' :
  process cl data key attributes = Ok (v, cl') →
  pipeline cl' = pipeline cl
  ∧ (∀ name, is_Some (cacheFull cl' !! name) ↔ is_Some (cacheFull cl !! name))
  ∧ (∀ name part' k,
       cacheFull cl' !! name = Some part' →
       (doMakeCache cl = true →
        k ≠ property_name (match key with
                           | VUndefined => data
                           | _ => key
                           end)) →
       ∃ part, cacheFull cl !! name = Some part ∧ part' !! k = part !! k).
Proof.
  unfold process.
  set (key' := match key with
               | VUndefined => if doMakeCache cl || doUseCache cl then data else key
               | _ => key
               end).
  destruct (if doUseCache cl then cache cl !! property_name key' else None) as [cached|].
  { intros [= <- <-]. split; [done|]. split; [done|]. intros name part' k Hp _. eauto. }
  intros (r & Hrun & [= <- <-])%bind_Ok. cbn [pipeline cacheFull].
  destruct (run_parts_frame cl key' attributes _ _ _ Hrun) as (Hdom & Hkeep & Hoff).
  cbn [snd] in Hdom, Hkeep, Hoff. split; [done|]. split; [done|].
  intros name part' k Hp' Hk. destruct (doMakeCache cl) eqn:Hmake.
  - apply (Hkeep name part' k Hp'). specialize (Hk eq_refl).
    subst key'. by destruct key.
  - rewrite Hoff in Hp' by done. eauto.
Qed.


Lemma run_parts_others cl key attributes names :
  ∀ st st' name,
    foldM (run_part cl key attributes) names st = Ok st' →
    name ∉ names → st'.2 !! name = st.2 !! name.
Proof.
  induction names as [|name' names IH]; intros st st' name Hrun Hname.
  - by injection Hrun as <-.
  - cbn [foldM] in Hrun. apply bind_Ok in Hrun as (st1 & Hstep & Hrun).
    apply not_elem_of_cons in Hname as [Hne Hname].
    rewrite (IH st1 st' name Hrun Hname).
    apply run_part_Ok in Hstep as (transform & _ & _ & Hfull).
    destruct (doMakeCache cl); [|by rewrite Hfull].
    destruct Hfull as (part & _ & ->). by rewrite lookup_insert_ne.
Qed.

Lemma last_cons_default {A} (x d : A) (l : list A) :
  default d (last (x :: l)) = default x (last l).
Proof.
  destruct l as [|y l]; [done|]. change (last (x :: y :: l)) with (last (y :: l)).
  destruct (last (y :: l)) eqn:E; [done|]. by apply last_None in E.
Qed.

(** A run of parts that all give an output: the last output is the result,
    and every output is filed under the key in the place of its part. *)
Lemma run_parts_outputs cl key attributes names :
  ∀ data full outs,
    doMakeCache cl = true →
    (∀ name, name ∈ names → is_Some (full !! name)) →
    outputs cl key attributes names data = Ok outs →
    ∃ full',
      foldM (run_part cl key attributes) names (data, full)
      = Ok (default data (last outs), full')
      ∧ length outs = length names
      ∧ (NoDup names →
         ∀ i name out, names !! i = Some name → outs !! i = Some out →
           ∃ part', full' !! name = Some part' ∧ part' !! property_name key = Some out).
Proof.
  induction names as [|name names IH]; intros data full outs Hmake Hfull Houts.
  - injection Houts as <-. exists full. split; [done|]. split; [done|].
    intros _ i name out Hi. by rewrite lookup_nil in Hi.
  - cbn [outputs] in Houts.
    destruct (transforms cl !! name) as [transform|] eqn:Ht; [|done].
    apply bind_Ok in Houts as (out & Hout & Houts).
    apply bind_Ok in Houts as (outs' & Houts' & [= <-]).
    destruct (Hfull name) as [part Hpart]; [by left|].
    set (full1 := <[name := <[property_name key := out]> part]> full).
    destruct (IH out full1 outs' Hmake) as (full' & Hrun & Hlen & Hfiled); [|done|].
    { intros name' Hname'. subst full1.
      destruct (decide (name = name')) as [<-|Hne]; [by rewrite lookup_insert_eq|].
      rewrite lookup_insert_ne by done. apply Hfull. by right. }
    exists full'. split; [|split].
    + cbn [foldM]. unfold run_part at 2. cbn [fst snd]. rewrite Ht, Hout, Hmake, Hpart.
      cbn [mbind outcome_bind]. fold full1. by rewrite last_cons_default.
    + cbn [length]. by rewrite Hlen.
    + intros [Hfresh Hnodup]%NoDup_cons [|i] name' out' Hname' Hout'.
      * injection Hname' as <-. injection Hout' as <-.
        pose proof (run_parts_others cl key attributes names _ _ name Hrun Hfresh) as Hsame.
        cbn [snd] in Hsame. rewrite Hsame. subst full1. rewrite lookup_insert_eq.
        eexists. split; [done|]. apply lookup_insert_eq.
      * by apply (Hfiled Hnodup i).
Qed.


(** A ChangeLinr as the constructor leaves it. *)
Lemma new_ChangeLinr_fresh names (ts : gmap string (Transform Attr)) make use cl :
  new_ChangeLinr (Some names) (Some ts) make use = Ok cl →
  pipeline cl = names ∧ cache cl = ∅ ∧ complete cl ∧ ∀ k, unfiled cl k.
Proof.
  unfold new_ChangeLinr. intros (_ & _ & [= <-])%bind_Ok.
  split; [done|]. split; [done|]. split.
  - intros name Hname. cbn [pipeline cacheFull] in *.
    destruct (list_to_map ((fun name => (name, ∅)) <$> names) !! name) as [part|] eqn:E;
      [done|].
    apply not_elem_of_list_to_map in E. exfalso. apply E.
    rewrite <- list_fmap_compose. apply list_elem_of_fmap. by exists name.
  - intros k name part Hpart. cbn [cacheFull] in Hpart.
    apply elem_of_list_to_map_2 in Hpart.
    apply list_elem_of_fmap in Hpart as (name' & [= _ ->] & _). apply lookup_empty.
Qed.

End Attributes.

Lemma twice_plus_one_made :
  new_ChangeLinr (Some ["double"; "successor"])
    (Some (<["double" := double]> (<["successor" := successor]> ∅))) None None
  = Ok twice_plus_one.
Proof. reflexivity. Qed.



End ChangeLinrFacts.
